(** * har-mcp HTTP wrapper: a shallow embedding of [http-wrapper/main.go]

    The wrapper relays JSON-RPC envelopes between an HTTP endpoint and
    long-lived child processes that speak newline-delimited JSON.  The
    development has four layers:

    - [Json]: the part of Go's [encoding/json] that [main.go] calls
      (scanner, [Decoder.Decode], [Unmarshal], [Marshal] on the two envelope
      structs);
    - [Wrapper]: the functions of [main.go], sequentially, over an explicit
      world (registry, child processes, pending eviction goroutines, event
      log) and an explicit environment that decides the outcome of every
      system call;
    - [Race]: the interleavings of concurrent [getOrCreateSession] calls;
    - [Mutex]: the interleavings of concurrent [SendRequest] calls on one
      session. *)

From Stdlib Require Import Ascii String List ZArith NArith Bool Lia Sorted.
From stdpp Require Import gmap strings list.

Set Warnings "-register-all".

Local Open Scope char_scope.
Local Open Scope list_scope.

(** ** Bytes *)

(** Go's [byte] and [[]byte]; Go strings are byte sequences too. *)
Abbreviation byte := ascii (only parsing).
Abbreviation bytes := (list ascii) (only parsing).

Definition code (c : byte) : N := N_of_ascii c.
Definition byte_of (n : N) : byte := ascii_of_N n.

Definition dquote : byte := "034".
Definition backslash : byte := "092".

(** [b "text"] is the byte sequence of a Rocq string literal. *)
Definition b (s : string) : bytes := list_ascii_of_string s.

(** [js "text"] is the same with every apostrophe read as a double quote,
    so that JSON texts can be written as ['{'id':null}']. *)
Definition js (s : string) : bytes :=
  map (fun c => if Ascii.eqb c "'" then dquote else c) (b s).

Definition isb (c x : byte) : bool := Ascii.eqb c x.
Definition in_range (lo hi c : byte) : bool :=
  (code lo <=? code c)%N && (code c <=? code hi)%N.
Definition is_digit (c : byte) : bool := in_range "0" "9" c.
Definition is_digit19 (c : byte) : bool := in_range "1" "9" c.
Definition is_hex (c : byte) : bool :=
  is_digit c || in_range "a" "f" c || in_range "A" "F" c.

Fixpoint bytes_eqb (x y : bytes) : bool :=
  match x, y with
  | [], [] => true
  | c :: x', d :: y' => Ascii.eqb c d && bytes_eqb x' y'
  | _, _ => false
  end.

(** ** Errors *)

(** The error values that reach [handleMCP].  Texts that Go formats from
    offsets and types are kept as structure, not rendered. *)
Inductive error :=
| SyntaxError (c : option byte) (context : string)
    (* "invalid character c context", or, without c, the context alone *)
| EOF                        (* io.EOF *)
| ErrUnexpectedEOF           (* io.ErrUnexpectedEOF *)
| UnmarshalTypeError (value : string) (field : string)
| MarshalerError (cause : error)
| UnsupportedValueError
| OSError (errno : nat)      (* an error of a system call, from the environment *)
| Wrap (prefix : string) (cause : error).   (* fmt.Errorf("prefix: %w", cause) *)

Inductive result (A : Type) :=
| Ok (a : A)
| Err (e : error).
Arguments Ok {A} a.
Arguments Err {A} e.

(** [x ← r; k] continues with [k] when [r] is [Ok x] and returns the error
    of [r] otherwise, as [if err != nil { return err }] does. *)
#[global] Instance result_bind : MBind result := fun A B f r =>
  match r with
  | Ok a => f a
  | Err e => Err e
  end.

Definition is_ok {A} (r : result A) : bool :=
  match r with Ok _ => true | Err _ => false end.

Definition fmap_result {A B} (f : A -> B) (r : result A) : result B :=
  match r with
  | Ok a => Ok (f a)
  | Err e => Err e
  end.

(** ** UTF-8 ([unicode/utf8]) *)

Module utf8.

Local Open Scope N_scope.

Definition RuneError : N := 0xFFFD.
Definition RuneSelf : N := 0x80.

Definition cont (c : byte) : bool := (0x80 <=? code c) && (code c <=? 0xBF).

(** [utf8.DecodeRune(p)]: the first rune of [p] and its width in bytes;
    [(RuneError, 1)] for an invalid encoding. *)
Definition DecodeRune (p : bytes) : N * nat :=
  match p with
  | [] => (RuneError, 0%nat)
  | p0 :: t =>
      let c0 := code p0 in
      if c0 <? RuneSelf then (c0, 1%nat)
      else if (c0 <? 0xC2) || (0xF4 <? c0) then (RuneError, 1%nat)
      else
        let lo := if c0 =? 0xE0 then 0xA0 else if c0 =? 0xF0 then 0x90 else 0x80 in
        let hi := if c0 =? 0xED then 0x9F else if c0 =? 0xF4 then 0x8F else 0xBF in
        match t with
        | [] => (RuneError, 1%nat)
        | b1 :: t1 =>
            if c0 <? 0xE0 then
              if (code b1 <? lo) || (hi <? code b1) then (RuneError, 1%nat)
              else (N.lor (N.shiftl (N.land c0 0x1F) 6) (N.land (code b1) 0x3F), 2%nat)
            else match t1 with
            | [] => (RuneError, 1%nat)
            | b2 :: t2 =>
                if c0 <? 0xF0 then
                  if (code b1 <? lo) || (hi <? code b1) || negb (cont b2)
                  then (RuneError, 1%nat)
                  else (N.lor (N.shiftl (N.land c0 0x0F) 12)
                          (N.lor (N.shiftl (N.land (code b1) 0x3F) 6)
                             (N.land (code b2) 0x3F)), 3%nat)
                else match t2 with
                | [] => (RuneError, 1%nat)
                | b3 :: _ =>
                    if (code b1 <? lo) || (hi <? code b1) || negb (cont b2)
                       || negb (cont b3)
                    then (RuneError, 1%nat)
                    else (N.lor (N.shiftl (N.land c0 0x07) 18)
                            (N.lor (N.shiftl (N.land (code b1) 0x3F) 12)
                               (N.lor (N.shiftl (N.land (code b2) 0x3F) 6)
                                  (N.land (code b3) 0x3F))), 4%nat)
                end
            end
        end
  end.

(** [utf8.AppendRune(nil, r)] *)
Definition EncodeRune (r : N) : bytes :=
  if r <=? 0x7F then [byte_of r]
  else if r <=? 0x7FF then
    [byte_of (N.lor 0xC0 (N.shiftr r 6)); byte_of (N.lor 0x80 (N.land r 0x3F))]
  else if (0x10FFFF <? r) || ((0xD800 <=? r) && (r <=? 0xDFFF)) then
    [byte_of 0xEF; byte_of 0xBF; byte_of 0xBD]
  else if r <=? 0xFFFF then
    [byte_of (N.lor 0xE0 (N.shiftr r 12));
     byte_of (N.lor 0x80 (N.land (N.shiftr r 6) 0x3F));
     byte_of (N.lor 0x80 (N.land r 0x3F))]
  else
    [byte_of (N.lor 0xF0 (N.shiftr r 18));
     byte_of (N.lor 0x80 (N.land (N.shiftr r 12) 0x3F));
     byte_of (N.lor 0x80 (N.land (N.shiftr r 6) 0x3F));
     byte_of (N.lor 0x80 (N.land r 0x3F))].

(** [utf8.RuneStart(b)] *)
Definition RuneStart (c : byte) : bool := negb (N.land (code c) 0xC0 =? 0x80).

(** [utf8.DecodeLastRune(p)], on [p] reversed: the last rune of [p] and its
    width.  The start is sought among the last four bytes at most. *)
Definition DecodeLastRune (rev_p : bytes) : N * nat :=
  match rev_p with
  | [] => (RuneError, 0%nat)
  | c :: before =>
      if code c <? RuneSelf then (code c, 1%nat)
      else
        let fix back (k : nat) (l : bytes) (n : nat) : nat :=
          (* the number of bytes from the sought start to the end *)
          match k, l with
          | S k', x :: l' => if RuneStart x then S n else back k' l' (S n)
          | _, _ => n
          end in
        let n := back 3%nat before 1%nat in
        let n := Nat.min n (length rev_p) in
        let tail := rev (firstn n rev_p) in
        let (r, size) := DecodeRune tail in
        if Nat.eqb size n then (r, size) else (RuneError, 1%nat)
  end.

End utf8.

(** ** Floating-point conversions ([strconv]) *)

Module strconv.

Local Open Scope Z_scope.

(** A finite IEEE 754 binary64 value [(-1)^neg * mant * 2^exp], with
    [2^52 <= mant < 2^53] and [-1074 <= exp <= 971], or [mant < 2^52] and
    [exp = -1074] (zero and the subnormal numbers). *)
Record float64 := { f_neg : bool; f_mant : Z; f_exp : Z }.

Definition float64_eqb (x y : float64) : bool :=
  Bool.eqb (f_neg x) (f_neg y) && (f_mant x =? f_mant y) && (f_exp x =? f_exp y).

Definition digit_val (c : byte) : Z := Z.of_N (code c) - 48.

Fixpoint read_digits (acc : Z) (n : Z) (s : bytes) : Z * Z * bytes :=
  match s with
  | c :: s' => if is_digit c then read_digits (acc * 10 + digit_val c) (n + 1) s'
               else (acc, n, s)
  | [] => (acc, n, s)
  end.

(** The exponent digits, as [readFloat] reads them: the value stops growing
    once it has reached 10000. *)
Fixpoint read_exp (e : Z) (s : bytes) : Z * bytes :=
  match s with
  | c :: s' => if is_digit c
               then read_exp (if e <? 10000 then e * 10 + digit_val c else e) s'
               else (e, s)
  | [] => (e, s)
  end.

(** A decimal literal [-ddd.ddd(e|E)(+|-)ddd] as sign, digits and power of
    ten: the value is [(-1)^neg * m * 10^e]. *)
Definition read_decimal (s : bytes) : option (bool * Z * Z) :=
  let (neg, s) := match s with
                  | c :: s' => if isb c "-" then (true, s') else (false, s)
                  | [] => (false, s)
                  end in
  let '(m, ni, s) := read_digits 0 0 s in
  let '(m, nf, s) := match s with
                     | c :: s' => if isb c "." then
                                    let '(m', nf, s'') := read_digits m 0 s' in
                                    (m', nf, s'')
                                  else (m, 0, s)
                     | [] => (m, 0, s)
                     end in
  if (ni + nf =? 0) then None else
  match s with
  | [] => Some (neg, m, - nf)
  | c :: s' =>
      if isb c "e" || isb c "E" then
        let (esign, s') := match s' with
                           | d :: s'' => if isb d "+" then (1, s'')
                                         else if isb d "-" then (-1, s'')
                                         else (1, s')
                           | [] => (1, s')
                           end in
        match s' with
        | d :: _ =>
            if is_digit d then
              let (e, rest) := read_exp 0 s' in
              match rest with
              | [] => Some (neg, m, esign * e - nf)
              | _ => None
              end
            else None
        | [] => None
        end
      else None
  end.

(** The float nearest to [n / d] (ties to the even mantissa), for
    [n, d > 0]; [None] when it is beyond the largest finite value. *)
Definition round_ratio (neg : bool) (n d : Z) : option float64 :=
  let l := Z.log2 n - Z.log2 d in
  let quo (e : Z) : Z * Z * Z :=   (* n / (d * 2^e) as quotient, remainder, divisor *)
    let n' := if e <? 0 then n * 2 ^ (- e) else n in
    let d' := if e <? 0 then d else d * 2 ^ e in
    (n' / d', n' mod d', d') in
  let e := l - 52 in
  let e := if fst (fst (quo e)) <? 2 ^ 52 then e - 1 else e in
  let e := Z.max e (-1074) in
  let '(q, r, d') := quo e in
  let q := if (d' <? 2 * r) || ((d' =? 2 * r) && Z.odd q) then q + 1 else q in
  let (q, e) := if q =? 2 ^ 53 then (2 ^ 52, e + 1) else (q, e) in
  if 971 <? e then None
  else Some {| f_neg := neg; f_mant := q; f_exp := if q =? 0 then -1074 else e |}.

Fixpoint num_digits_fuel (fuel : nat) (m : Z) : Z :=
  match fuel with
  | O => 0
  | S k => if m <=? 0 then 0 else 1 + num_digits_fuel k (m / 10)
  end.
Definition num_digits (m : Z) : Z := num_digits_fuel (Z.to_nat (Z.log2 m) + 1) m.

(** [strconv.ParseFloat(s, 64)] on a decimal literal: the nearest float, or a
    range error when the literal is beyond the largest finite value. *)
Definition ParseFloat (s : bytes) : result float64 :=
  match read_decimal s with
  | None => Err (SyntaxError None "strconv.ParseFloat: invalid syntax")
  | Some (neg, m, e) =>
      if m =? 0 then Ok {| f_neg := neg; f_mant := 0; f_exp := -1074 |}
      else if 400 <? e + num_digits m
      then Err (SyntaxError None "strconv.ParseFloat: value out of range")
      else if e + num_digits m <? -400
      then Ok {| f_neg := neg; f_mant := 0; f_exp := -1074 |}
      else
        let r := if 0 <=? e then round_ratio neg (m * 10 ^ e) 1
                 else round_ratio neg m (10 ^ (- e)) in
        match r with
        | Some f => Ok f
        | None => Err (SyntaxError None "strconv.ParseFloat: value out of range")
        end
  end.

(** [le_scaled a k n d]: [a * 10^k <= n / d]; [lt_scaled]: strictly. *)
Definition cmp_scaled (a k n d : Z) : comparison :=
  if 0 <=? k then (a * 10 ^ k * d ?= n) else (a * d ?= n * 10 ^ (- k)).

(** The shortest decimal [c * 10^k] that [ParseFloat] maps back to the
    float, and the nearest to it among those: digits [c] and [k]. *)
Definition shortest (f : float64) : Z * Z :=
  let mant := f_mant f in
  let ex := f_exp f in
  (* in units of 2^(ex-2): the value, and the bounds of its rounding interval *)
  let x := 4 * mant in
  let up := 4 * mant + 2 in
  let lo := if (mant =? 2 ^ 52) && (-1074 <? ex) then 4 * mant - 1 else 4 * mant - 2 in
  let incl := Z.even mant in
  let num (v : Z) := if 2 <=? ex then v * 2 ^ (ex - 2) else v in
  let den := if 2 <=? ex then 1 else 2 ^ (2 - ex) in
  let below (a k v : Z) : bool :=      (* a * 10^k < v, or <= when inclusive *)
    match cmp_scaled a k (num v) den with
    | Lt => true | Eq => incl | Gt => false end in
  let above (a k v : Z) : bool :=
    match cmp_scaled a k (num v) den with
    | Gt => true | Eq => incl | Lt => false end in
  let inside (a k : Z) : bool := above a k lo && below a k up in
  let est := (Z.log2 (num x) - Z.log2 den) * 30103 / 100000 in
  let fits (dp : Z) : bool :=          (* x < 10^dp *)
    match cmp_scaled 1 dp (num x) den with Gt => true | _ => false end in
  let dp := if fits (est - 1) then est - 1 else if fits est then est
            else if fits (est + 1) then est + 1 else if fits (est + 2) then est + 2
            else est + 3 in
  let fix try (fuel : nat) (n : Z) : Z * Z :=
    let k := dp - n in
    let c := if 0 <=? k then num x / (den * 10 ^ k) else num x * 10 ^ (- k) / den in
    let exact := match cmp_scaled c k (num x) den with Eq => true | _ => false end in
    match fuel with
    | O => (c, k)
    | S fuel' =>
        if exact then (c, k)
        else
          let down := inside c k in
          let upw := inside (c + 1) k in
          (* twice the distance of x to c and to c + 1, in units of 10^k/den *)
          let nearer_up :=
            match cmp_scaled (2 * c + 1) k (2 * num x) den with
            | Lt => true | Eq => Z.odd c | Gt => false end in
          if down && upw then (if nearer_up then (c + 1, k) else (c, k))
          else if down then (c, k)
          else if upw then (c + 1, k)
          else try fuel' (n + 1)
    end in
  try 17%nat 1.

Fixpoint digits_fuel (fuel : nat) (m : Z) (acc : bytes) : bytes :=
  match fuel with
  | O => acc
  | S k => if m <? 10 then byte_of (Z.to_N (m + 48)) :: acc
           else digits_fuel k (m / 10) (byte_of (Z.to_N (m mod 10 + 48)) :: acc)
  end.
(** The decimal digits of [m >= 0]. *)
Definition digits (m : Z) : bytes := digits_fuel (Z.to_nat (Z.log2 m) + 1) m [].

Fixpoint strip_zeros_fuel (fuel : nat) (c k : Z) : Z * Z :=
  match fuel with
  | O => (c, k)
  | S f => if (c mod 10 =? 0) && negb (c =? 0) then strip_zeros_fuel f (c / 10) (k + 1)
           else (c, k)
  end.

(** The digits [d] and the position [dp] of the decimal point of the shortest
    decimal: the value is [0.d * 10^dp]. *)
Definition shortest_digits (f : float64) : bytes * Z :=
  let (c, k) := shortest f in
  let (c, k) := strip_zeros_fuel 20 c k in
  let d := digits c in
  (d, k + Z.of_nat (length d)).

Definition zeros (n : Z) : bytes := repeat "0" (Z.to_nat n).

(** [strconv.AppendFloat(nil, f, 'f', -1, 64)] *)
Definition fmtF (neg : bool) (d : bytes) (dp : Z) : bytes :=
  let n := Z.of_nat (length d) in
  (if neg then ["-"] else []) ++
  (if 0 <? dp then firstn (Z.to_nat dp) d ++ zeros (dp - n) else ["0"]) ++
  (if dp <? n then "." :: zeros (- dp) ++ skipn (Z.to_nat dp) d else []).

(** [strconv.AppendFloat(nil, f, 'e', -1, 64)] *)
Definition fmtE (neg : bool) (d : bytes) (dp : Z) : bytes :=
  let ex := dp - 1 in
  let ed := digits (Z.abs ex) in
  (if neg then ["-"] else []) ++
  firstn 1 d ++ (match skipn 1 d with [] => [] | t => "." :: t end) ++
  ["e"; if ex <? 0 then "-" else "+"] ++
  (if Z.abs ex <? 10 then "0" :: ed else ed).

(** [abs < 1e-6 || abs >= 1e21], on the exact value. *)
Definition wants_exponent (f : float64) : bool :=
  let n := if 0 <=? f_exp f then f_mant f * 2 ^ f_exp f else f_mant f in
  let d := if 0 <=? f_exp f then 1 else 2 ^ (- f_exp f) in
  let e6 := {| f_neg := false; f_mant := 0x10c6f7a0b5ed8d; f_exp := -72 |} in
  (* 1e-6 as a float is 0x10c6f7a0b5ed8d * 2^-72 *)
  (n * 2 ^ 72 <? f_mant e6 * d) || (10 ^ 21 * d <=? n).

(** [floatEncoder.encode] of [encoding/json]: fixed notation, or exponent
    notation for very small and very large values, with one leading zero
    of a two-digit exponent removed. *)
Definition FormatFloat (f : float64) : bytes :=
  if f_mant f =? 0 then (if f_neg f then b "-0" else b "0")
  else
    let (d, dp) := shortest_digits f in
    if wants_exponent f then
      let s := fmtE (f_neg f) d dp in
      match rev s with
      | x :: z :: sg :: e :: before =>
          if isb e "e" && (isb sg "-" || isb sg "+") && isb z "0"
          then rev (x :: sg :: e :: before) else s
      | _ => s
      end
    else fmtF (f_neg f) d dp.

End strconv.

Module Json.

(** ** The scanner of [encoding/json] ([scanner.go]) *)

Inductive opcode :=
| scanContinue | scanBeginLiteral | scanBeginObject | scanObjectKey
| scanObjectValue | scanEndObject | scanBeginArray | scanArrayValue
| scanEndArray | scanSkipSpace
| scanEnd | scanError.

Definition opcode_eqb (x y : opcode) : bool :=
  match x, y with
  | scanContinue, scanContinue | scanBeginLiteral, scanBeginLiteral
  | scanBeginObject, scanBeginObject | scanObjectKey, scanObjectKey
  | scanObjectValue, scanObjectValue | scanEndObject, scanEndObject
  | scanBeginArray, scanBeginArray | scanArrayValue, scanArrayValue
  | scanEndArray, scanEndArray | scanSkipSpace, scanSkipSpace
  | scanEnd, scanEnd | scanError, scanError => true
  | _, _ => false
  end.

Inductive parse_state := parseObjectKey | parseObjectValue | parseArrayValue.

(** The values of the scanner's [step] field: one per state function. *)
Inductive step_fn :=
| StBeginValueOrEmpty | StBeginValue | StBeginStringOrEmpty | StBeginString
| StEndValue | StEndTop
| StInString | StInStringEsc
| StInStringEscU | StInStringEscU1 | StInStringEscU12 | StInStringEscU123
| StNeg | St1 | St0 | StDot | StDot0 | StE | StESign | StE0
| StT | StTr | StTru | StF | StFa | StFal | StFals | StN | StNu | StNul
| StError.

(** [parseState] is kept with its last element first. *)
Record scanner := {
  step : step_fn;
  endTop : bool;
  parseState : list parse_state;
  err : option error
}.

Definition set_step (s : scanner) (f : step_fn) : scanner :=
  {| step := f; endTop := endTop s; parseState := parseState s; err := err s |}.

Definition set_parseState (s : scanner) (ps : list parse_state) : scanner :=
  {| step := step s; endTop := endTop s; parseState := ps; err := err s |}.

Definition set_endTop (s : scanner) : scanner :=
  {| step := step s; endTop := true; parseState := parseState s; err := err s |}.

Definition reset (s : scanner) : scanner :=
  {| step := StBeginValue; endTop := false; parseState := []; err := None |}.

Definition newScanner : scanner :=
  {| step := StBeginValue; endTop := false; parseState := []; err := None |}.

Definition maxNestingDepth : Z := 10000.

(** [s.error(c, context)] *)
Definition error_at (s : scanner) (c : byte) (context : string) : scanner * opcode :=
  ({| step := StError; endTop := endTop s; parseState := parseState s;
      err := Some (SyntaxError (Some c) context) |}, scanError).

Definition pushParseState (s : scanner) (c : byte) (newParseState : parse_state)
    (successState : opcode) : scanner * opcode :=
  let s := set_parseState s (newParseState :: parseState s) in
  if (Z.of_nat (length (parseState s)) <=? maxNestingDepth)%Z
  then (s, successState)
  else error_at s c "exceeded max depth".

Definition popParseState (s : scanner) : scanner :=
  let ps := tl (parseState s) in
  let s := set_parseState s ps in
  match ps with
  | [] => set_endTop (set_step s StEndTop)
  | _ => set_step s StEndValue
  end.

Definition isSpace (c : byte) : bool :=
  isb c " " || isb c "009" || isb c "013" || isb c "010".

Definition stateEndTop (s : scanner) (c : byte) : scanner * opcode :=
  if negb (isSpace c)
  then (fst (error_at s c "after top-level value"), scanEnd)
  else (s, scanEnd).

Definition stateEndValue (s : scanner) (c : byte) : scanner * opcode :=
  match parseState s with
  | [] => stateEndTop (set_endTop (set_step s StEndTop)) c
  | ps :: below =>
      if isSpace c then (set_step s StEndValue, scanSkipSpace)
      else match ps with
      | parseObjectKey =>
          if isb c ":" then
            (set_step (set_parseState s (parseObjectValue :: below)) StBeginValue,
             scanObjectKey)
          else error_at s c "after object key"
      | parseObjectValue =>
          if isb c "," then
            (set_step (set_parseState s (parseObjectKey :: below)) StBeginString,
             scanObjectValue)
          else if isb c "}" then (popParseState s, scanEndObject)
          else error_at s c "after object key:value pair"
      | parseArrayValue =>
          if isb c "," then (set_step s StBeginValue, scanArrayValue)
          else if isb c "]" then (popParseState s, scanEndArray)
          else error_at s c "after array element"
      end
  end.

Definition stateBeginValue (s : scanner) (c : byte) : scanner * opcode :=
  if isSpace c then (s, scanSkipSpace)
  else if isb c "{" then
    pushParseState (set_step s StBeginStringOrEmpty) c parseObjectKey scanBeginObject
  else if isb c "[" then
    pushParseState (set_step s StBeginValueOrEmpty) c parseArrayValue scanBeginArray
  else if isb c dquote then (set_step s StInString, scanBeginLiteral)
  else if isb c "-" then (set_step s StNeg, scanBeginLiteral)
  else if isb c "0" then (set_step s St0, scanBeginLiteral)
  else if isb c "t" then (set_step s StT, scanBeginLiteral)
  else if isb c "f" then (set_step s StF, scanBeginLiteral)
  else if isb c "n" then (set_step s StN, scanBeginLiteral)
  else if is_digit19 c then (set_step s St1, scanBeginLiteral)
  else error_at s c "looking for beginning of value".

Definition stateBeginValueOrEmpty (s : scanner) (c : byte) : scanner * opcode :=
  if isSpace c then (s, scanSkipSpace)
  else if isb c "]" then stateEndValue s c
  else stateBeginValue s c.

Definition stateBeginString (s : scanner) (c : byte) : scanner * opcode :=
  if isSpace c then (s, scanSkipSpace)
  else if isb c dquote then (set_step s StInString, scanBeginLiteral)
  else error_at s c "looking for beginning of object key string".

Definition stateBeginStringOrEmpty (s : scanner) (c : byte) : scanner * opcode :=
  if isSpace c then (s, scanSkipSpace)
  else if isb c "}" then
    stateEndValue (set_parseState s (parseObjectValue :: tl (parseState s))) c
  else stateBeginString s c.

Definition stateInString (s : scanner) (c : byte) : scanner * opcode :=
  if isb c dquote then (set_step s StEndValue, scanContinue)
  else if isb c backslash then (set_step s StInStringEsc, scanContinue)
  else if (code c <? 32)%N then error_at s c "in string literal"
  else (s, scanContinue).

Definition stateInStringEsc (s : scanner) (c : byte) : scanner * opcode :=
  if isb c "b" || isb c "f" || isb c "n" || isb c "r" || isb c "t"
     || isb c backslash || isb c "/" || isb c dquote
  then (set_step s StInString, scanContinue)
  else if isb c "u" then (set_step s StInStringEscU, scanContinue)
  else error_at s c "in string escape code".

Definition stateInStringEscHex (next : step_fn) (s : scanner) (c : byte)
    : scanner * opcode :=
  if is_hex c then (set_step s next, scanContinue)
  else error_at s c "in \u hexadecimal character escape".

Definition stateInStringEscU := stateInStringEscHex StInStringEscU1.
Definition stateInStringEscU1 := stateInStringEscHex StInStringEscU12.
Definition stateInStringEscU12 := stateInStringEscHex StInStringEscU123.
Definition stateInStringEscU123 := stateInStringEscHex StInString.

Definition stateNeg (s : scanner) (c : byte) : scanner * opcode :=
  if isb c "0" then (set_step s St0, scanContinue)
  else if is_digit19 c then (set_step s St1, scanContinue)
  else error_at s c "in numeric literal".

Definition state0 (s : scanner) (c : byte) : scanner * opcode :=
  if isb c "." then (set_step s StDot, scanContinue)
  else if isb c "e" || isb c "E" then (set_step s StE, scanContinue)
  else stateEndValue s c.

Definition state1 (s : scanner) (c : byte) : scanner * opcode :=
  if is_digit c then (set_step s St1, scanContinue)
  else state0 s c.

Definition stateDot (s : scanner) (c : byte) : scanner * opcode :=
  if is_digit c then (set_step s StDot0, scanContinue)
  else error_at s c "after decimal point in numeric literal".

Definition stateDot0 (s : scanner) (c : byte) : scanner * opcode :=
  if is_digit c then (s, scanContinue)
  else if isb c "e" || isb c "E" then (set_step s StE, scanContinue)
  else stateEndValue s c.

Definition stateESign (s : scanner) (c : byte) : scanner * opcode :=
  if is_digit c then (set_step s StE0, scanContinue)
  else error_at s c "in exponent of numeric literal".

Definition stateE (s : scanner) (c : byte) : scanner * opcode :=
  if isb c "+" || isb c "-" then (set_step s StESign, scanContinue)
  else stateESign s c.

Definition stateE0 (s : scanner) (c : byte) : scanner * opcode :=
  if is_digit c then (s, scanContinue)
  else stateEndValue s c.

(** The states inside [true], [false] and [null]: one expected byte each. *)
Definition stateLit (want : byte) (next : step_fn) (context : string)
    (s : scanner) (c : byte) : scanner * opcode :=
  if isb c want then (set_step s next, scanContinue)
  else error_at s c context.

Definition stateT := stateLit "r" StTr "in literal true (expecting 'r')".
Definition stateTr := stateLit "u" StTru "in literal true (expecting 'u')".
Definition stateTru := stateLit "e" StEndValue "in literal true (expecting 'e')".
Definition stateF := stateLit "a" StFa "in literal false (expecting 'a')".
Definition stateFa := stateLit "l" StFal "in literal false (expecting 'l')".
Definition stateFal := stateLit "s" StFals "in literal false (expecting 's')".
Definition stateFals := stateLit "e" StEndValue "in literal false (expecting 'e')".
Definition stateN := stateLit "u" StNu "in literal null (expecting 'u')".
Definition stateNu := stateLit "l" StNul "in literal null (expecting 'l')".
Definition stateNul := stateLit "l" StEndValue "in literal null (expecting 'l')".

Definition stateError (s : scanner) (c : byte) : scanner * opcode :=
  (s, scanError).

(** [s.step(s, c)]: the state function the scanner is in, applied to [c]. *)
Definition scan_step (s : scanner) (c : byte) : scanner * opcode :=
  match step s with
  | StBeginValueOrEmpty => stateBeginValueOrEmpty s c
  | StBeginValue => stateBeginValue s c
  | StBeginStringOrEmpty => stateBeginStringOrEmpty s c
  | StBeginString => stateBeginString s c
  | StEndValue => stateEndValue s c
  | StEndTop => stateEndTop s c
  | StInString => stateInString s c
  | StInStringEsc => stateInStringEsc s c
  | StInStringEscU => stateInStringEscU s c
  | StInStringEscU1 => stateInStringEscU1 s c
  | StInStringEscU12 => stateInStringEscU12 s c
  | StInStringEscU123 => stateInStringEscU123 s c
  | StNeg => stateNeg s c
  | St1 => state1 s c
  | St0 => state0 s c
  | StDot => stateDot s c
  | StDot0 => stateDot0 s c
  | StE => stateE s c
  | StESign => stateESign s c
  | StE0 => stateE0 s c
  | StT => stateT s c
  | StTr => stateTr s c
  | StTru => stateTru s c
  | StF => stateF s c
  | StFa => stateFa s c
  | StFal => stateFal s c
  | StFals => stateFals s c
  | StN => stateN s c
  | StNu => stateNu s c
  | StNul => stateNul s c
  | StError => stateError s c
  end.

Definition unexpected_end : error :=
  SyntaxError None "unexpected end of JSON input".

(** [s.eof()]: the scanner and the code it returns. *)
Definition eof (s : scanner) : scanner * opcode :=
  match err s with
  | Some _ => (s, scanError)
  | None =>
      if endTop s then (s, scanEnd)
      else
        let s' := fst (scan_step s " ") in
        if endTop s' then (s', scanEnd)
        else match err s' with
             | Some _ => (s', scanError)
             | None =>
                 ({| step := step s'; endTop := endTop s';
                     parseState := parseState s'; err := Some unexpected_end |},
                  scanError)
             end
  end.

Definition scan_error (s : scanner) : error :=
  match err s with
  | Some e => e
  | None => unexpected_end
  end.

(** [checkValid(data, scan)] *)
Fixpoint checkValid_loop (s : scanner) (data : bytes) : result unit :=
  match data with
  | [] => let (s', op) := eof s in
          if opcode_eqb op scanError then Err (scan_error s') else Ok tt
  | c :: data' =>
      let (s', op) := scan_step s c in
      if opcode_eqb op scanError then Err (scan_error s')
      else checkValid_loop s' data'
  end.

Definition checkValid (data : bytes) : result unit :=
  checkValid_loop newScanner data.

(** ** [Decoder.readValue] ([stream.go]) *)

Definition nonSpace (buf : bytes) : bool := existsb (fun c => negb (isSpace c)) buf.

(** The bytes of the first JSON value of the stream [buf], which is read to
    its end ([whole] is all of it).  The value ends with the closing bracket
    of an object or array, or before the byte at which the scanner reports
    [scanEnd]; at the end of the stream the scanner is offered a space. *)
Fixpoint readValue_loop (whole : bytes) (s : scanner) (buf : bytes) : result bytes :=
  match buf with
  | [] =>
      if opcode_eqb (snd (scan_step s " ")) scanEnd then Ok []
      else Err (if nonSpace whole then ErrUnexpectedEOF else EOF)
  | c :: buf' =>
      let (s', op) := scan_step s c in
      match op with
      | scanEnd => Ok []
      | scanEndObject | scanEndArray =>
          if opcode_eqb (snd (stateEndValue s' " ")) scanEnd then Ok [c]
          else fmap_result (cons c) (readValue_loop whole s' buf')
      | scanError => Err (scan_error s')
      | _ => fmap_result (cons c) (readValue_loop whole s' buf')
      end
  end.

Definition readValue (buf : bytes) : result bytes :=
  readValue_loop buf newScanner buf.

(** ** String literals ([decode.go], [encode.go]) *)

Definition hex_val (c : byte) : option N :=
  if is_digit c then Some (code c - 48)%N
  else if in_range "a" "f" c then Some (code c - 87)%N
  else if in_range "A" "F" c then Some (code c - 55)%N
  else None.

(** [getu4(s)]: the rune of a leading [\uXXXX], if [s] starts with one. *)
Definition getu4 (s : bytes) : option N :=
  match s with
  | c0 :: c1 :: h1 :: h2 :: h3 :: h4 :: _ =>
      if isb c0 backslash && isb c1 "u" then
        match hex_val h1, hex_val h2, hex_val h3, hex_val h4 with
        | Some a, Some b', Some c, Some d => Some (a * 4096 + b' * 256 + c * 16 + d)%N
        | _, _, _, _ => None
        end
      else None
  | _ => None
  end.

Definition IsSurrogate (r : N) : bool := ((0xD800 <=? r) && (r <? 0xE000))%N.

(** [utf16.DecodeRune(r1, r2)] *)
Definition utf16_DecodeRune (r1 r2 : N) : N :=
  if ((0xD800 <=? r1) && (r1 <? 0xDC00) && (0xDC00 <=? r2) && (r2 <? 0xE000))%N
  then ((r1 - 0xD800) * 1024 + (r2 - 0xDC00) + 0x10000)%N
  else utf8.RuneError.

(** The loop of [unquoteBytes] over the bytes between the quotes.  [skip]
    counts bytes already consumed by the escape or rune before them. *)
Fixpoint unquote_loop (skip : nat) (s : bytes) : option bytes :=
  match s with
  | [] => Some []
  | c :: s' =>
      match skip with
      | S k => unquote_loop k s'
      | O =>
          if isb c backslash then
            match s' with
            | [] => None
            | e :: _ =>
                let simple (x : byte) := cons x <$> unquote_loop 1 s' in
                if isb e dquote || isb e backslash || isb e "/" || isb e "'" then simple e
                else if isb e "b" then simple "008"
                else if isb e "f" then simple "012"
                else if isb e "n" then simple "010"
                else if isb e "r" then simple "013"
                else if isb e "t" then simple "009"
                else if isb e "u" then
                  match getu4 s with
                  | None => None
                  | Some rr =>
                      if IsSurrogate rr then
                        let dec := match getu4 (skipn 6 s) with
                                   | Some rr1 => utf16_DecodeRune rr rr1
                                   | None => utf8.RuneError
                                   end in
                        if negb (dec =? utf8.RuneError)%N
                        then app (utf8.EncodeRune dec) <$> unquote_loop 11 s'
                        else app (utf8.EncodeRune utf8.RuneError) <$> unquote_loop 5 s'
                      else app (utf8.EncodeRune rr) <$> unquote_loop 5 s'
                  end
                else None
            end
          else if isb c dquote || (code c <? 32)%N then None
          else if (code c <? utf8.RuneSelf)%N then cons c <$> unquote_loop 0 s'
          else
            let (rr, size) := utf8.DecodeRune s in
            app (utf8.EncodeRune rr) <$> unquote_loop (size - 1) s'
      end
  end.

(** [unquoteBytes(s)]: the string a quoted literal denotes. *)
Definition unquoteBytes (s : bytes) : option bytes :=
  match s with
  | q :: t =>
      match rev t with
      | q' :: rev_inner =>
          if isb q dquote && isb q' dquote then unquote_loop 0 (rev rev_inner)
          else None
      | [] => None
      end
  | [] => None
  end.

Definition hex_digit (n : N) : byte :=
  if (n <? 10)%N then byte_of (n + 48) else byte_of (n + 87).

(** [\u00XX] for the byte [c] *)
Definition u00 (c : byte) : bytes :=
  [backslash; "u"; "0"; "0"; hex_digit (N.shiftr (code c) 4);
   hex_digit (N.land (code c) 0xF)].

(** The bytes that [appendString] copies as they are, with [escapeHTML]:
    ASCII from the space on, but for the quote, the backslash and the
    characters [<], [>] and [&]. *)
Definition htmlSafe (c : byte) : bool :=
  (32 <=? code c)%N && (code c <? 128)%N
  && negb (isb c dquote || isb c backslash || isb c "<" || isb c ">" || isb c "&").

(** The loop of [appendString(dst, src, true)].  [copy] counts the bytes of
    a valid multi-byte rune that are still to be copied, [skip] the bytes of
    an escaped rune that are still to be passed over. *)
Fixpoint quote_loop (copy skip : nat) (src : bytes) : bytes :=
  match src with
  | [] => []
  | c :: src' =>
      match skip, copy with
      | S k, _ => quote_loop copy k src'
      | O, S k => c :: quote_loop k 0 src'
      | O, O =>
          if (code c <? utf8.RuneSelf)%N then
            if htmlSafe c then c :: quote_loop 0 0 src'
            else if isb c backslash || isb c dquote
            then backslash :: c :: quote_loop 0 0 src'
            else if isb c "008" then backslash :: "b" :: quote_loop 0 0 src'
            else if isb c "012" then backslash :: "f" :: quote_loop 0 0 src'
            else if isb c "010" then backslash :: "n" :: quote_loop 0 0 src'
            else if isb c "013" then backslash :: "r" :: quote_loop 0 0 src'
            else if isb c "009" then backslash :: "t" :: quote_loop 0 0 src'
            else u00 c ++ quote_loop 0 0 src'
          else
            let (r, size) := utf8.DecodeRune src in
            if (r =? utf8.RuneError)%N && Nat.eqb size 1
            then backslash :: b "ufffd" ++ quote_loop 0 0 src'
            else if (r =? 0x2028)%N || (r =? 0x2029)%N
            then backslash :: b "u202" ++ hex_digit (N.land r 0xF)
                   :: quote_loop 0 (size - 1) src'
            else c :: quote_loop (size - 1) 0 src'
      end
  end.

(** [appendString(nil, src, true)]: the JSON string literal of a Go string. *)
Definition quote (src : bytes) : bytes := dquote :: quote_loop 0 0 src ++ [dquote].

(** ** [appendCompact] ([indent.go]) *)

Definition ge_scanSkipSpace (op : opcode) : bool :=
  match op with
  | scanSkipSpace | scanEnd | scanError => true
  | _ => false
  end.

(** [E2 80 A8] or [E2 80 A9] at the head of [src]: U+2028 or U+2029. *)
Definition line_separator (src : bytes) : option N :=
  match src with
  | c0 :: c1 :: c2 :: _ =>
      if ((code c0 =? 0xE2) && (code c1 =? 0x80)
          && ((code c2 =? 0xA8) || (code c2 =? 0xA9)))%N
      then Some (N.land (code c2) 0xF) else None
  | _ => None
  end.

(** The loop of [appendCompact(dst, src, true)]: the bytes appended and the
    scanner at the end of [src], or at the byte the scanner refused.
    [skip] counts the bytes of an escaped U+2028 or U+2029 still ahead. *)
Fixpoint compact_loop (skip : nat) (s : scanner) (src : bytes) : bytes * scanner :=
  match src with
  | [] => ([], s)
  | c :: src' =>
      let (s', v) := scan_step s c in
      if opcode_eqb v scanError then ([], s')
      else
        let out (skip' : nat) (emit : bytes) :=
          let (o, sf) := compact_loop skip' s' src' in (emit ++ o, sf) in
        match skip with
        | S k => out k []
        | O =>
            if isb c "<" || isb c ">" || isb c "&" then out 0%nat (u00 c)
            else match line_separator src with
                 | Some d => out 2%nat (backslash :: b "u202" ++ [hex_digit d])
                 | None => if ge_scanSkipSpace v then out 0%nat [] else out 0%nat [c]
                 end
        end
  end.

(** [appendCompact(nil, src, true)]: [src] without insignificant space and
    with [<], [>], [&], U+2028 and U+2029 escaped, if [src] is valid JSON. *)
Definition compact (src : bytes) : result bytes :=
  let (out, s) := compact_loop 0 newScanner src in
  if opcode_eqb (snd (eof s)) scanError then Err (scan_error (fst (eof s)))
  else Ok out.

(** ** Values of type [interface{}] decoded from JSON *)

Inductive any :=
| ANil
| ABool (v : bool)
| AFloat (f : strconv.float64)
| AString (s : bytes)
| ASlice (l : list any)                 (* []interface{} *)
| AMap (m : list (bytes * any)).        (* map[string]interface{}, by ascending key *)

Fixpoint bytes_compare (x y : bytes) : comparison :=
  match x, y with
  | [], [] => Eq
  | [], _ => Lt
  | _, [] => Gt
  | c :: x', d :: y' =>
      match (code c ?= code d)%N with
      | Eq => bytes_compare x' y'
      | r => r
      end
  end.

(** [m[k] = v] *)
Fixpoint map_put (k : bytes) (v : any) (m : list (bytes * any)) : list (bytes * any) :=
  match m with
  | [] => [(k, v)]
  | (k', v') :: m' =>
      match bytes_compare k k' with
      | Lt => (k, v) :: m
      | Eq => (k, v) :: m'
      | Gt => (k', v') :: map_put k v m'
      end
  end.

(** [d.convertNumber(s)] *)
Definition convertNumber (s : bytes) : result strconv.float64 :=
  match strconv.ParseFloat s with
  | Ok f => Ok f
  | Err _ => Err (UnmarshalTypeError ("number " ++ string_of_list_ascii s) "")
  end.

(** [d.literalInterface()] on the bytes of a literal: the value, and the
    error that [convertNumber] saves. *)
Definition literalInterface (item : bytes) : any * option error :=
  match item with
  | c :: _ =>
      if isb c "n" then (ANil, None)
      else if isb c "t" then (ABool true, None)
      else if isb c "f" then (ABool false, None)
      else if isb c dquote then
        (AString (default [] (unquoteBytes item)), None)
      else match convertNumber item with
           | Ok f => (AFloat f, None)
           | Err e => (ANil, Some e)
           end
  | [] => (ANil, None)
  end.

(** [d.valueInterface()], [d.arrayInterface()] and [d.objectInterface()] as
    one pass over the bytes of a value: [frames] holds the arrays and maps
    that are still open, innermost first, [lit] the bytes of the literal being
    read (last byte first), [top] the finished value, [saved] the first
    error saved. *)
Inductive frame :=
| FArr (items : list any)
| FObj (entries : list (bytes * any)) (key : option bytes).

Record builder := {
  frames : list frame;
  lit : option bytes;
  top : option any;
  saved : option error
}.

Definition saveError (saved : option error) (e : option error) : option error :=
  match saved with
  | Some _ => saved
  | None => e
  end.

Definition attach (v : any) (fs : list frame) (top : option any)
    : list frame * option any :=
  match fs with
  | [] => ([], Some v)
  | FArr items :: fs' => (FArr (items ++ [v]) :: fs', top)
  | FObj es (Some k) :: fs' => (FObj (map_put k v es) None :: fs', top)
  | FObj es None :: fs' => (fs, top)
  end.

Definition finish_literal (bs : builder) : builder :=
  match lit bs with
  | None => bs
  | Some rl =>
      let item := rev rl in
      match frames bs with
      | FObj es None :: fs' =>
          {| frames := FObj es (Some (default [] (unquoteBytes item))) :: fs';
             lit := None; top := top bs; saved := saved bs |}
      | _ =>
          let (v, e) := literalInterface item in
          let (fs, t) := attach v (frames bs) (top bs) in
          {| frames := fs; lit := None; top := t; saved := saveError (saved bs) e |}
      end
  end.

Definition build_step (bs : builder) (op : opcode) (c : byte) : builder :=
  match op with
  | scanContinue =>
      match lit bs with
      | Some l => {| frames := frames bs; lit := Some (c :: l); top := top bs;
                     saved := saved bs |}
      | None => bs
      end
  | scanBeginLiteral =>
      {| frames := frames bs; lit := Some [c]; top := top bs; saved := saved bs |}
  | _ =>
      let bs := finish_literal bs in
      match op with
      | scanBeginObject =>
          {| frames := FObj [] None :: frames bs; lit := None; top := top bs;
             saved := saved bs |}
      | scanBeginArray =>
          {| frames := FArr [] :: frames bs; lit := None; top := top bs;
             saved := saved bs |}
      | scanEndObject | scanEndArray =>
          match frames bs with
          | f :: fs' =>
              let v := match f with
                       | FArr items => ASlice items
                       | FObj es _ => AMap es
                       end in
              let (fs, t) := attach v fs' (top bs) in
              {| frames := fs; lit := None; top := t; saved := saved bs |}
          | [] => bs
          end
      | _ => bs
      end
  end.

Fixpoint build_loop (s : scanner) (bs : builder) (data : bytes) : builder :=
  match data with
  | [] => finish_literal bs
  | c :: data' =>
      let (s', op) := scan_step s c in
      build_loop s' (build_step bs op c) data'
  end.

(** The [interface{}] value of the JSON value [data], and the error saved
    while decoding it. *)
Definition decode_any (data : bytes) : any * option error :=
  let bs := build_loop newScanner
              {| frames := []; lit := None; top := None; saved := None |} data in
  (default ANil (top bs), saved bs).

(** The encoding of an [interface{}] value ([encode.go], with [escapeHTML]). *)
Fixpoint encode_any (v : any) : bytes :=
  match v with
  | ANil => b "null"
  | ABool true => b "true"
  | ABool false => b "false"
  | AFloat f => strconv.FormatFloat f
  | AString s => quote s
  | ASlice l =>
      "[" :: (fix items (l : list any) : bytes :=
                match l with
                | [] => []
                | [x] => encode_any x
                | x :: l' => encode_any x ++ "," :: items l'
                end) l ++ ["]"]
  | AMap m =>
      "{" :: (fix entries (m : list (bytes * any)) : bytes :=
                match m with
                | [] => []
                | [(k, x)] => quote k ++ ":" :: encode_any x
                | (k, x) :: m' => quote k ++ ":" :: encode_any x ++ "," :: entries m'
                end) m ++ ["}"]
  end.

(** ** Objects decoded into structs ([d.object]) *)

(** The members of the object [data], in order: the bytes of each key
    literal and of each value.  [tok] holds the bytes of the key or value
    being read (last byte first), [key] the key whose value is awaited. *)
Record walker := {
  tok : option bytes;
  key : option bytes;
  out : list (bytes * bytes)
}.

Definition finish_token (w : walker) : walker :=
  match tok w with
  | None => w
  | Some rt =>
      match key w with
      | None => {| tok := None; key := Some (rev rt); out := out w |}
      | Some k => {| tok := None; key := None; out := out w ++ [(k, rev rt)] |}
      end
  end.

Definition push_byte (w : walker) (c : byte) : walker :=
  match tok w with
  | Some t => {| tok := Some (c :: t); key := key w; out := out w |}
  | None => w
  end.

Definition walk_step (w : walker) (depth depth' : nat) (op : opcode) (c : byte)
    : walker :=
  match depth with
  | O => w
  | S O =>
      match op with
      | scanBeginLiteral | scanBeginObject | scanBeginArray =>
          {| tok := Some [c]; key := key w; out := out w |}
      | scanContinue => push_byte w c
      | _ => finish_token w
      end
  | _ =>
      let w := push_byte w c in
      match depth' with
      | S O => finish_token w
      | _ => w
      end
  end.

Fixpoint walk_loop (s : scanner) (w : walker) (data : bytes) : list (bytes * bytes) :=
  match data with
  | [] => out w
  | c :: data' =>
      let (s', op) := scan_step s c in
      walk_loop s'
        (walk_step w (length (parseState s)) (length (parseState s')) op c) data'
  end.

Definition members (data : bytes) : list (bytes * bytes) :=
  walk_loop newScanner {| tok := None; key := None; out := [] |} data.

(** [foldName(key)]: ASCII letters in upper case; the long s (U+017F) and
    the Kelvin sign (U+212A), which fold with [s] and [k], as [S] and [K]. *)
Fixpoint foldName (key : bytes) : bytes :=
  match key with
  | [] => []
  | c :: t =>
      if in_range "a" "z" c then byte_of (code c - 32) :: foldName t
      else match t with
           | c1 :: t1 =>
               if ((code c =? 0xC5) && (code c1 =? 0xBF))%N then "S" :: foldName t1
               else match t1 with
                    | c2 :: t2 =>
                        if ((code c =? 0xE2) && (code c1 =? 0x84) && (code c2 =? 0xAA))%N
                        then "K" :: foldName t2
                        else c :: foldName t
                    | [] => c :: foldName t
                    end
           | [] => c :: foldName t
           end
  end.

(** The field of a struct with the JSON names [names] that a key selects:
    the one of that name, or else the one whose name folds to the same. *)
Definition find_field (names : list string) (k : bytes) : option string :=
  match find (fun n => bytes_eqb (b n) k) names with
  | Some n => Some n
  | None => find (fun n => bytes_eqb (foldName (b n)) (foldName k)) names
  end.

(** What kind of JSON value starts with the bytes [raw], as
    [UnmarshalTypeError] names it. *)
Definition value_kind (raw : bytes) : string :=
  match raw with
  | c :: _ =>
      if isb c "{" then "object"
      else if isb c "[" then "array"
      else if isb c dquote then "string"
      else if isb c "t" || isb c "f" then "bool"
      else if isb c "n" then "null"
      else "number"
  | [] => "null"
  end%string.

(** [d.value(v)] for a field [v] of kind string. *)
Definition store_string (field : string) (raw old : bytes) : bytes * option error :=
  match raw with
  | c :: _ =>
      if isb c dquote then (default old (unquoteBytes raw), None)
      else if isb c "n" then (old, None)
      else (old, Some (UnmarshalTypeError (value_kind raw) field))
  | [] => (old, None)
  end.

Definition RawMessage := bytes.

(** [MCPRequest] and [MCPResponse] of [main.go]. A [RawMessage] of length 0
    stands for the nil one too. *)
Record MCPRequest := {
  JSONRPC : bytes;
  ID : any;
  Method : bytes;
  Params : RawMessage
}.

Record MCPResponse := {
  resp_JSONRPC : bytes;
  resp_ID : any;
  Result : RawMessage;
  Error : RawMessage
}.

Definition zero_MCPRequest : MCPRequest :=
  {| JSONRPC := []; ID := ANil; Method := []; Params := [] |}.
Definition zero_MCPResponse : MCPResponse :=
  {| resp_JSONRPC := []; resp_ID := ANil; Result := []; Error := [] |}.

Definition request_fields : list string := ["jsonrpc"; "id"; "method"; "params"]%string.
Definition response_fields : list string := ["jsonrpc"; "id"; "result"; "error"]%string.

(** One member of the object stored into an [MCPRequest]. *)
Definition assign_request (acc : MCPRequest * option error) (m : bytes * bytes)
    : MCPRequest * option error :=
  let (req, sv) := acc in
  let (klit, raw) := m in
  match find_field request_fields (default [] (unquoteBytes klit)) with
  | Some "jsonrpc"%string =>
      let (v, e) := store_string "jsonrpc" raw (JSONRPC req) in
      ({| JSONRPC := v; ID := ID req; Method := Method req; Params := Params req |},
       saveError sv e)
  | Some "id"%string =>
      let (v, e) := decode_any raw in
      ({| JSONRPC := JSONRPC req; ID := v; Method := Method req; Params := Params req |},
       saveError sv e)
  | Some "method"%string =>
      let (v, e) := store_string "method" raw (Method req) in
      ({| JSONRPC := JSONRPC req; ID := ID req; Method := v; Params := Params req |},
       saveError sv e)
  | Some "params"%string =>
      ({| JSONRPC := JSONRPC req; ID := ID req; Method := Method req; Params := raw |}, sv)
  | _ => acc
  end.

Definition assign_response (acc : MCPResponse * option error) (m : bytes * bytes)
    : MCPResponse * option error :=
  let (resp, sv) := acc in
  let (klit, raw) := m in
  match find_field response_fields (default [] (unquoteBytes klit)) with
  | Some "jsonrpc"%string =>
      let (v, e) := store_string "jsonrpc" raw (resp_JSONRPC resp) in
      ({| resp_JSONRPC := v; resp_ID := resp_ID resp; Result := Result resp;
          Error := Error resp |}, saveError sv e)
  | Some "id"%string =>
      let (v, e) := decode_any raw in
      ({| resp_JSONRPC := resp_JSONRPC resp; resp_ID := v; Result := Result resp;
          Error := Error resp |}, saveError sv e)
  | Some "result"%string =>
      ({| resp_JSONRPC := resp_JSONRPC resp; resp_ID := resp_ID resp; Result := raw;
          Error := Error resp |}, sv)
  | Some "error"%string =>
      ({| resp_JSONRPC := resp_JSONRPC resp; resp_ID := resp_ID resp;
          Result := Result resp; Error := raw |}, sv)
  | _ => acc
  end.

Fixpoint skip_space (data : bytes) : bytes :=
  match data with
  | c :: data' => if isSpace c then skip_space data' else data
  | [] => []
  end.

(** [d.unmarshal(v)] for a pointer [v] to a struct, on the bytes [data] of one
    valid JSON value: an object is stored member by member, [null] leaves
    the struct as it is, any other value is a type error.  The first error
    saved on the way is the one returned. *)
Definition unmarshal {T} (assign : T * option error -> bytes * bytes -> T * option error)
    (data : bytes) (v : T) : result T :=
  match skip_space data with
  | c :: _ =>
      if isb c "{" then
        match fold_left assign (members data) (v, None) with
        | (v', None) => Ok v'
        | (_, Some e) => Err e
        end
      else if isb c "n" then Ok v
      else Err (UnmarshalTypeError (value_kind (skip_space data)) "")
  | [] => Err unexpected_end
  end.

(** [json.NewDecoder(body).Decode(&req)] with [req] the zero [MCPRequest]. *)
Definition Decode (body : bytes) : result MCPRequest :=
  data ← readValue body;
  unmarshal assign_request data zero_MCPRequest.

(** [json.Unmarshal(data, &resp)] with [resp] the zero [MCPResponse]. *)
Definition Unmarshal (data : bytes) : result MCPResponse :=
  _ ← checkValid data;
  unmarshal assign_response data zero_MCPResponse.

(** ** Structs encoded as objects ([structEncoder.encode]) *)

(** The members of the object, each a name and the encoded value; a field
    left out by [omitempty] is absent from the list. *)
Fixpoint encode_members (first : bool) (ms : list (string * bytes)) : bytes :=
  match ms with
  | [] => []
  | (name, v) :: ms' =>
      (if first then "{" else ",") :: quote (b name) ++ ":" :: v
        ++ encode_members false ms'
  end.

Definition encode_struct (ms : list (string * bytes)) : bytes :=
  match ms with
  | [] => b "{}"
  | _ => encode_members true ms ++ ["}"]
  end.

(** A field of type [interface{}] with [omitempty]. *)
Definition any_member (name : string) (v : any) : list (string * bytes) :=
  match v with
  | ANil => []
  | _ => [(name, encode_any v)]
  end.

(** A field of type [json.RawMessage] with [omitempty]: the compacted message,
    or the error of [appendCompact] as a [MarshalerError]. *)
Definition raw_member (name : string) (m : RawMessage) : result (list (string * bytes)) :=
  match m with
  | [] => Ok []
  | _ => match compact m with
         | Ok c => Ok [(name, c)]
         | Err e => Err (MarshalerError e)
         end
  end.

(** [json.Marshal(req)] *)
Definition Marshal (req : MCPRequest) : result bytes :=
  params ← raw_member "params" (Params req);
  Ok (encode_struct
        ([("jsonrpc"%string, quote (JSONRPC req))] ++ any_member "id" (ID req)
         ++ [("method"%string, quote (Method req))] ++ params)).

(** [json.NewEncoder(rw).Encode(resp)]: the bytes written to [rw]. *)
Definition Encode (resp : MCPResponse) : result bytes :=
  result ← raw_member "result" (Result resp);
  error ← raw_member "error" (Error resp);
  Ok (encode_struct
        ([("jsonrpc"%string, quote (resp_JSONRPC resp))] ++ any_member "id" (resp_ID resp)
         ++ result ++ error) ++ ["010"]).

End Json.


(** ** [bytes.TrimSpace] *)

(** [unicode.IsSpace(r)] *)
Definition IsSpace (r : N) : bool :=
  ((9 <=? r) && (r <=? 13) || (r =? 32) || (r =? 0x85) || (r =? 0xA0)
   || (r =? 0x1680) || (0x2000 <=? r) && (r <=? 0x200A) || (r =? 0x2028)
   || (r =? 0x2029) || (r =? 0x202F) || (r =? 0x205F) || (r =? 0x3000))%N.

Fixpoint trim_left (s : bytes) : bytes :=
  match s with
  | [] => []
  | _ :: s1 =>
      let (r, size) := utf8.DecodeRune s in
      if IsSpace r then
        match size, s1 with
        | 1%nat, _ => trim_left s1
        | 2%nat, _ :: s2 => trim_left s2
        | 3%nat, _ :: _ :: s3 => trim_left s3
        | _, _ => s
        end
      else s
  end.

(** The same from the end, on the reversed bytes. *)
Fixpoint trim_right_rev (r : bytes) : bytes :=
  match r with
  | [] => []
  | _ :: r1 =>
      let (x, size) := utf8.DecodeLastRune r in
      if IsSpace x then
        match size, r1 with
        | 1%nat, _ => trim_right_rev r1
        | 2%nat, _ :: r2 => trim_right_rev r2
        | 3%nat, _ :: _ :: r3 => trim_right_rev r3
        | _, _ => r
        end
      else r
  end.

Definition TrimSpace (s : bytes) : bytes := rev (trim_right_rev (rev (trim_left s))).

(** ** The wrapper ([main.go]) *)

Module Wrapper.

Import Json.

(** A child process with the pipes an [MCPSession] holds to it.  [unread] is
    what the child has written to its standard output and [s.reader] has not
    yet returned. *)
Record Proc := {
  stdin_log : list bytes;     (* what [s.stdin.Write] has delivered, in order *)
  unread : bytes;
  closed : bool               (* [Close] has run *)
}.

(** A [*MCPSession] is the index of its process. *)
Abbreviation Session := nat (only parsing).

Inductive event :=
| EvSpawn (s : Session)                  (* cmd.Start() succeeded *)
| EvWrite (s : Session) (data : bytes)   (* s.stdin.Write(data) succeeded *)
| EvRead (s : Session) (data : bytes)    (* s.reader.ReadBytes returned data *)
| EvStore (key : string) (s : Session)   (* w.sessions.Store *)
| EvDelete (key : string)                (* w.sessions.Delete *)
| EvClose (s : Session).                 (* session.Close() *)

(** A goroutine started by [getOrCreateSession], asleep until [wake]. *)
Record Sleeper := {
  sl_key : string;
  sl_session : Session;
  sl_wake : Z
}.

(** The state the handlers share.  [now] is the time in nanoseconds, as
    [time.Duration] counts; [trace] lists the events with their times, the
    latest last. *)
Record World := {
  now : Z;
  sessions : gmap string nat;     (* w.sessions *)
  procs : list Proc;
  sleepers : list Sleeper;
  trace : list (Z * event)
}.

Definition empty_world : World :=
  {| now := 0; sessions := ∅; procs := []; sleepers := []; trace := [] |}.

Definition Minute : Z := 60 * 1000000000.

Definition log_event (w : World) (e : event) : World :=
  {| now := now w; sessions := sessions w; procs := procs w; sleepers := sleepers w;
     trace := trace w ++ [(now w, e)] |}.

Definition set_sessions (w : World) (m : gmap string nat) : World :=
  {| now := now w; sessions := m; procs := procs w; sleepers := sleepers w;
     trace := trace w |}.

Definition set_procs (w : World) (ps : list Proc) : World :=
  {| now := now w; sessions := sessions w; procs := ps; sleepers := sleepers w;
     trace := trace w |}.

Definition set_sleepers (w : World) (sl : list Sleeper) : World :=
  {| now := now w; sessions := sessions w; procs := procs w; sleepers := sl;
     trace := trace w |}.

Definition set_now (w : World) (t : Z) : World :=
  {| now := t; sessions := sessions w; procs := procs w; sleepers := sleepers w;
     trace := trace w |}.

(** What the operating system and the child do during one call of
    [handleMCP]: the error, if any, of each system call on the way, and what
    the child writes to its standard output once the request line has
    reached it.  A read that finds no newline in the child's output ends
    with [read_err] (the child has closed its output); a child that neither
    writes a newline nor closes its output blocks the call for ever, which
    is no return at all and has no outcome here. *)
Record Env := {
  stdin_pipe_err : option error;
  stdout_pipe_err : option error;
  stderr_pipe_err : option error;
  start_err : option error;
  write_err : option error;
  child_output : bytes;
  read_err : error
}.

(** [NewMCPSession(ctx)].  The goroutine that logs the child's standard
    error has no effect on the state and is left out. *)
Definition NewMCPSession (env : Env) (w : World) : result Session * World :=
  match stdin_pipe_err env with
  | Some e => (Err (Wrap "failed to create stdin pipe" e), w)
  | None =>
  match stdout_pipe_err env with
  | Some e => (Err (Wrap "failed to create stdout pipe" e), w)
  | None =>
  match stderr_pipe_err env with
  | Some e => (Err (Wrap "failed to create stderr pipe" e), w)
  | None =>
  match start_err env with
  | Some e => (Err (Wrap "failed to start MCP server" e), w)
  | None =>
      let s := length (procs w) in
      let w := set_procs w (procs w ++ [{| stdin_log := []; unread := []; closed := false |}]) in
      (Ok s, log_event w (EvSpawn s))
  end end end end.

(** [s.reader.ReadBytes(10)] on the bytes [stream]: the bytes up to and
    with the first newline, and the rest. *)
Fixpoint ReadBytes (stream : bytes) : option (bytes * bytes) :=
  match stream with
  | [] => None
  | c :: rest =>
      if isb c "010" then Some ([c], rest)
      else match ReadBytes rest with
           | Some (line, rest') => Some (c :: line, rest')
           | None => None
           end
  end.

Definition ErrClosed : error := OSError 0.    (* os.ErrClosed *)

(** [s.SendRequest(req)], one call at a time (the mutex is the subject of
    the module [Mutex]). *)
Definition SendRequest (env : Env) (s : Session) (req : MCPRequest) (w : World)
    : result MCPResponse * World :=
  match procs w !! s with
  | None => (Err ErrClosed, w)
  | Some p =>
  (* Marshal request *)
  match Marshal req with
  | Err e => (Err (Wrap "failed to marshal request" e), w)
  | Ok reqBytes =>
  (* Send request *)
  let reqBytes := reqBytes ++ ["010"] in
  match (if closed p then Some ErrClosed else write_err env) with
  | Some e => (Err (Wrap "failed to write request" e), w)
  | None =>
  let p := {| stdin_log := stdin_log p ++ [reqBytes]; unread := unread p ++ child_output env;
              closed := closed p |} in
  let w := log_event (set_procs w (<[s := p]> (procs w))) (EvWrite s reqBytes) in
  (* Read response *)
  match ReadBytes (unread p) with
  | None =>
      let p := {| stdin_log := stdin_log p; unread := []; closed := closed p |} in
      (Err (Wrap "failed to read response" (read_err env)),
       set_procs w (<[s := p]> (procs w)))
  | Some (respBytes, rest) =>
  let p := {| stdin_log := stdin_log p; unread := rest; closed := closed p |} in
  let w := log_event (set_procs w (<[s := p]> (procs w))) (EvRead s respBytes) in
  (* Parse response *)
  match Unmarshal (TrimSpace respBytes) with
  | Err e => (Err (Wrap "failed to unmarshal response" e), w)
  | Ok resp => (Ok resp, w)
  end end end end end.

(** [s.Close()] *)
Definition Close (s : Session) (w : World) : World :=
  match procs w !! s with
  | None => w
  | Some p =>
      let p := {| stdin_log := stdin_log p; unread := unread p; closed := true |} in
      log_event (set_procs w (<[s := p]> (procs w))) (EvClose s)
  end.

(** [w.sessions.Store(sessionID, session)] and the [go] statement after it:
    the goroutine is recorded as a sleeper that wakes 30 minutes from now. *)
Definition register (sessionID : string) (session : Session) (w : World) : World :=
  let w := log_event (set_sessions w (<[sessionID := session]> (sessions w)))
             (EvStore sessionID session) in
  (* Auto-cleanup after 30 minutes of inactivity *)
  set_sleepers w
    (sleepers w ++ [{| sl_key := sessionID; sl_session := session;
                       sl_wake := now w + 30 * Minute |}]).

(** [w.getOrCreateSession(sessionID)], one call at a time (concurrent calls
    are the subject of the module [Race]). *)
Definition getOrCreateSession (env : Env) (sessionID : string) (w : World)
    : result Session * World :=
  match sessions w !! sessionID with
  | Some val => (Ok val, w)
  | None =>
      match NewMCPSession env w with
      | (Err e, w) => (Err e, w)
      | (Ok session, w) => (Ok session, register sessionID session w)
      end
  end.

(** The body of the goroutine once [time.Sleep] has returned. *)
Definition evict (sl : Sleeper) (w : World) : World :=
  let w := log_event (set_sessions w (delete (sl_key sl) (sessions w)))
             (EvDelete (sl_key sl)) in
  Close (sl_session sl) w.

(** Time passes until [t]: the sleepers due by then wake, each at its time. *)
Fixpoint wake_all (t : Z) (sl : list Sleeper) (w : World) : World :=
  match sl with
  | [] => w
  | x :: sl' =>
      if (sl_wake x <=? t)%Z
      then wake_all t sl' (evict x (set_now w (Z.max (now w) (sl_wake x))))
      else wake_all t sl' w
  end.

Definition advance (t : Z) (w : World) : World :=
  let due := sleepers w in
  let w := set_sleepers w (filter (fun x => (t < sl_wake x)%Z) (sleepers w)) in
  set_now (wake_all t due w) (Z.max (now (wake_all t due w)) t).

(** An HTTP request, as far as [handleMCP] reads it: [header_X_Session_ID]
    is [r.Header.Get("X-Session-ID")], empty when the header is absent. *)
Record Request := {
  http_Method : string;
  header_X_Session_ID : string;
  http_Body : bytes
}.

Inductive body :=
| ErrorText (msg : string) (cause : option error)   (* http.Error: the text, then err *)
| Bytes (data : bytes).

Record Response := {
  status : Z;
  content_type : string;
  resp_body : body
}.

Definition StatusOK : Z := 200.
Definition StatusBadRequest : Z := 400.
Definition StatusMethodNotAllowed : Z := 405.
Definition StatusInternalServerError : Z := 500.

(** [http.Error(rw, msg..., code)] *)
Definition http_Error (msg : string) (cause : option error) (code : Z) : Response :=
  {| status := code; content_type := "text/plain; charset=utf-8";
     resp_body := ErrorText msg cause |}.

(** The session key of a request: the header, or ["default"] when the
    header is absent or empty. *)
Definition sessionID_of (r : Request) : string :=
  let sessionID := header_X_Session_ID r in
  if String.eqb sessionID "" then "default"%string else sessionID.

(** [w.handleMCP(rw, r)]: the response written to [rw], and the world after. *)
Definition handleMCP (env : Env) (r : Request) (w : World) : Response * World :=
  if negb (String.eqb (http_Method r) "POST") then
    (http_Error "Method not allowed" None StatusMethodNotAllowed, w)
  else
  (* Get or create session *)
  let sessionID := sessionID_of r in
  match getOrCreateSession env sessionID w with
  | (Err e, w) =>
      (http_Error "Failed to create MCP session: " (Some e) StatusInternalServerError, w)
  | (Ok session, w) =>
  (* Parse request *)
  match Decode (http_Body r) with
  | Err e => (http_Error "Invalid JSON: " (Some e) StatusBadRequest, w)
  | Ok req =>
  (* Forward to MCP server *)
  match SendRequest env session req w with
  | (Err e, w) =>
      (http_Error "MCP request failed: " (Some e) StatusInternalServerError, w)
  | (Ok resp, w) =>
  (* Send response *)
  ({| status := StatusOK; content_type := "application/json";
      resp_body := Bytes (match Encode resp with Ok data => data | Err _ => [] end) |}, w)
  end end end.

(** [w.handleHealth(rw, r)] *)
Definition handleHealth (r : Request) (w : World) : Response * World :=
  ({| status := StatusOK; content_type := ""; resp_body := Bytes (b "OK") |}, w).

(** What happens to the server, one thing at a time: a request is handled,
    or time passes until [t]. *)
Inductive action :=
| Handle (env : Env) (r : Request)
| Advance (t : Z).

Definition act (w : World) (a : action) : World :=
  match a with
  | Handle env r => snd (handleMCP env r w)
  | Advance t => advance t w
  end.

Definition run (acts : list action) (w : World) : World := fold_left act acts w.

(** The sleepers that will evict the key [k]. *)
Definition pending (k : string) (w : World) : list Sleeper :=
  filter (fun x => sl_key x = k) (sleepers w).

(** An action that does not let time pass until [T] or beyond. *)
Definition before (T : Z) (a : action) : Prop :=
  match a with
  | Handle _ _ => True
  | Advance t => (t < T)%Z
  end.

End Wrapper.


(** ** Concurrent calls of [getOrCreateSession] *)

Module Race.

Import Wrapper.

(** Where a goroutine stands in [getOrCreateSession]: before
    [w.sessions.Load], before [NewMCPSession], before [w.sessions.Store]
    (holding the new session), or returned. *)
Inductive pc :=
| AtLoad
| AtNew
| AtStore (session : Session)
| Returned (r : result Session).

(** The goroutines, each with its [sessionID], over the shared world. *)
Record config := {
  world : World;
  threads : list (string * pc)
}.

(** One atomic step of goroutine [i]: each operation on the [sync.Map] is
    atomic, as is the launch of a process. *)
Definition step (env : Env) (i : nat) (c : config) : config :=
  match threads c !! i with
  | None => c
  | Some (sessionID, p) =>
      let goto (p' : pc) (w : World) :=
        {| world := w; threads := <[i := (sessionID, p')]> (threads c) |} in
      match p with
      | AtLoad =>
          match sessions (world c) !! sessionID with
          | Some val => goto (Returned (Ok val)) (world c)
          | None => goto AtNew (world c)
          end
      | AtNew =>
          match NewMCPSession env (world c) with
          | (Err e, w) => goto (Returned (Err e)) w
          | (Ok session, w) => goto (AtStore session) w
          end
      | AtStore session =>
          goto (Returned (Ok session)) (register sessionID session (world c))
      | Returned _ => c
      end
  end.

(** The goroutines run as the schedule says, one step at a time. *)
Definition run (env : Env) (schedule : list nat) (c : config) : config :=
  fold_left (fun c i => step env i c) schedule c.

(** The number of child processes started so far. *)
Definition spawned (w : World) : nat := length (procs w).

End Race.

(** ** Concurrent calls of [SendRequest] on one session *)

Module Mutex.

Import Json.

(** Where a goroutine stands in [s.SendRequest(req)].  The deferred
    [s.mu.Unlock()] runs when the function returns, whatever the result:
    [Returning r] is the function about to return [r], the lock still
    held; [Returned r] the function after the unlock. *)
Inductive pc :=
| AtLock
| AtMarshal
| AtWrite (reqBytes : bytes)
| AtRead
| AtUnmarshal (respBytes : bytes)
| Returning (r : result MCPResponse)
| Returned (r : result MCPResponse).

(** What happens on the pipes of the session, attempts that fail included. *)
Inductive io :=
| IoWrite (data : bytes) (ok : bool)
| IoRead (data : option bytes).

(** The goroutines, each with its request, the mutex [s.mu] ([Some i] when
    goroutine [i] holds it) and the operations on the pipes so far, each
    with the goroutine that made it, the latest last. *)
Record config := {
  mu : option nat;
  threads : list (MCPRequest * pc);
  pipe : list (nat * io)
}.

Definition goto (c : config) (i : nat) (req : MCPRequest) (p : pc)
    (m : option nat) (ops : list (nat * io)) : config :=
  {| mu := m; threads := <[i := (req, p)]> (threads c); pipe := pipe c ++ ops |}.

(** One atomic step of goroutine [i].  The outcome of a write or a read is
    the environment's choice. *)
Inductive step (i : nat) (c : config) : config -> Prop :=
| step_lock req :
    threads c !! i = Some (req, AtLock) -> mu c = None ->
    step i c (goto c i req AtMarshal (Some i) [])
| step_marshal_ok req reqBytes :
    threads c !! i = Some (req, AtMarshal) -> Marshal req = Ok reqBytes ->
    step i c (goto c i req (AtWrite (reqBytes ++ ["010"])) (mu c) [])
| step_marshal_err req e :
    threads c !! i = Some (req, AtMarshal) -> Marshal req = Err e ->
    step i c (goto c i req (Returning (Err (Wrap "failed to marshal request" e))) (mu c) [])
| step_write_ok req reqBytes :
    threads c !! i = Some (req, AtWrite reqBytes) ->
    step i c (goto c i req AtRead (mu c) [(i, IoWrite reqBytes true)])
| step_write_err req reqBytes e :
    threads c !! i = Some (req, AtWrite reqBytes) ->
    step i c (goto c i req (Returning (Err (Wrap "failed to write request" e))) (mu c)
                [(i, IoWrite reqBytes false)])
| step_read_ok req respBytes :
    threads c !! i = Some (req, AtRead) ->
    step i c (goto c i req (AtUnmarshal respBytes) (mu c) [(i, IoRead (Some respBytes))])
| step_read_err req e :
    threads c !! i = Some (req, AtRead) ->
    step i c (goto c i req (Returning (Err (Wrap "failed to read response" e))) (mu c)
                [(i, IoRead None)])
| step_unmarshal_ok req respBytes resp :
    threads c !! i = Some (req, AtUnmarshal respBytes) ->
    Unmarshal (TrimSpace respBytes) = Ok resp ->
    step i c (goto c i req (Returning (Ok resp)) (mu c) [])
| step_unmarshal_err req respBytes e :
    threads c !! i = Some (req, AtUnmarshal respBytes) ->
    Unmarshal (TrimSpace respBytes) = Err e ->
    step i c (goto c i req (Returning (Err (Wrap "failed to unmarshal response" e)))
                (mu c) [])
| step_unlock req r :
    threads c !! i = Some (req, Returning r) ->
    step i c (goto c i req (Returned r) None []).

(** The configurations reached from [c] by steps of any goroutines in any
    order. *)
Inductive reachable (c : config) : config -> Prop :=
| reach_refl : reachable c c
| reach_step c1 c2 i : reachable c c1 -> step i c1 c2 -> reachable c c2.

(** All goroutines about to call [s.mu.Lock()], the mutex free. *)
Definition initial (reqs : list MCPRequest) : config :=
  {| mu := None; threads := map (fun r => (r, AtLock)) reqs; pipe := [] |}.

(** Goroutine [i] is between [Lock] and the deferred [Unlock]. *)
Definition holds (p : pc) : bool :=
  match p with
  | AtLock | Returned _ => false
  | _ => true
  end.

(** The operations on the pipes come in exchanges that do not overlap: a
    write that succeeded is followed at once by the read of the same
    goroutine, and every read follows such a write.  [exchange_step] reads
    one operation: the state is [Some None] between exchanges, [Some (Some i)]
    when the read of goroutine [i] is due, [None] once two exchanges have
    overlapped. *)
Definition exchange_step (st : option (option nat)) (op : nat * io)
    : option (option nat) :=
  match st, op with
  | Some None, (i, IoWrite _ true) => Some (Some i)
  | Some None, (i, IoWrite _ false) => Some None
  | Some (Some i), (j, IoRead _) => if Nat.eqb i j then Some None else None
  | _, _ => None
  end.

Definition exchanges (ops : list (nat * io)) : option (option nat) :=
  fold_left exchange_step ops (Some None).

(** The goroutine that holds the mutex with its read due, if any. *)
Definition reader (c : config) : option nat :=
  match mu c with
  | Some i => match threads c !! i with
              | Some (_, AtRead) => Some i
              | _ => None
              end
  | None => None
  end.

End Mutex.

(** ** Sample requests and environments *)

Module Samples.

Import Json Wrapper.

(** Every system call succeeds and the child answers with [reply] and a
    newline. *)
Definition env_reply (reply : bytes) : Env :=
  {| stdin_pipe_err := None; stdout_pipe_err := None; stderr_pipe_err := None;
     start_err := None; write_err := None; child_output := reply ++ ["010"];
     read_err := EOF |}.

Definition env_ok : Env := env_reply (js "{'jsonrpc':'2.0','id':'a','result':{}}").

(** The executable cannot be launched ([ENOENT]). *)
Definition env_no_binary : Env :=
  {| stdin_pipe_err := None; stdout_pipe_err := None; stderr_pipe_err := None;
     start_err := Some (OSError 2); write_err := None; child_output := [];
     read_err := EOF |}.

(** The write to the child fails ([EPIPE]). *)
Definition env_broken_pipe : Env :=
  {| stdin_pipe_err := None; stdout_pipe_err := None; stderr_pipe_err := None;
     start_err := None; write_err := Some (OSError 32); child_output := [];
     read_err := EOF |}.

Definition post (key : string) (body : bytes) : Request :=
  {| http_Method := "POST"; header_X_Session_ID := key; http_Body := body |}.

Definition get (key : string) : Request :=
  {| http_Method := "GET"; header_X_Session_ID := key; http_Body := [] |}.

Definition ping : bytes := js "{'jsonrpc':'2.0','id':'a','method':'ping'}".

(** [ping] decoded. *)
Definition ping_request : MCPRequest :=
  {| JSONRPC := b "2.0"; ID := AString (b "a"); Method := b "ping"; Params := [] |}.

End Samples.

(** * Properties *)

(** ** The decoder *)

Module JsonFacts.

Import Json.

Ltac split_ifs :=
  repeat match goal with
         | |- context [if ?c then _ else _] => destruct c
         end.

Lemma opcode_eqb_eq x y : opcode_eqb x y = true -> x = y.
Proof. destruct x, y; simpl; congruence. Qed.

Lemma fmap_result_Ok {A B} (f : A -> B) r y :
  fmap_result f r = Ok y -> exists x, r = Ok x /\ y = f x.
Proof. destruct r; simpl; intros H; inversion H; eauto. Qed.

(** *** Bytes after the first value *)

(** The scanner is inside an array or object: some nesting is open, and
    the scanner is not in the state that follows the top-level value. *)
Definition nested (s : scanner) : Prop := parseState s <> [] /\ step s <> StEndTop.

(** What a step from inside an array or object satisfies: it does not end
    the top-level value, and the scanner stays inside unless the byte
    closes the outermost array or object. *)
Definition stays_nested (r : scanner * opcode) : Prop :=
  snd r <> scanEnd /\
  (parseState (fst r) <> [] -> nested (fst r)) /\
  (snd r <> scanEndObject -> snd r <> scanEndArray -> parseState (fst r) <> []).

Ltac close_nested :=
  split; [congruence|split; [intros; split; congruence|intros; congruence]].

Lemma stateEndValue_nested s c : parseState s <> [] -> stays_nested (stateEndValue s c).
Proof.
  intros Hne. destruct s as [st et ps er]. simpl in Hne.
  destruct ps as [|p below]; [done|]. unfold stays_nested, nested.
  unfold stateEndValue, popParseState, error_at, set_step, set_parseState, set_endTop.
  cbn. destruct (isSpace c); [cbn; close_nested|].
  destruct p; split_ifs; cbn; first [close_nested | (destruct below; cbn; close_nested)].
Qed.

Lemma step_nested (s : scanner) (c : byte) : nested s -> stays_nested (scan_step s c).
Proof.
  intros [Hne Hst]. destruct s as [st et ps er]. simpl in Hne, Hst.
  destruct ps as [|p below]; [done|].
  destruct st; try done;
    unfold scan_step, stateBeginValueOrEmpty, stateBeginStringOrEmpty, stateBeginString,
      stateBeginValue, stateInString, stateInStringEsc, stateInStringEscU,
      stateInStringEscU1, stateInStringEscU12, stateInStringEscU123, stateInStringEscHex,
      stateNeg, state1, state0, stateDot, stateDot0, stateE, stateESign, stateE0,
      stateT, stateTr, stateTru, stateF, stateFa, stateFal, stateFals, stateN, stateNu,
      stateNul, stateLit, stateError, pushParseState, error_at, set_step, set_parseState;
    cbn [step parseState endTop err];
    split_ifs;
    first [ apply stateEndValue_nested; cbn; congruence
          | unfold stays_nested, nested; cbn; close_nested ].
Qed.

(** At the top level, the byte after a value ends it. *)
Lemma stateEndValue_top (s : scanner) (c : byte) :
  parseState s = [] -> snd (stateEndValue s c) = scanEnd.
Proof.
  intros Hps. unfold stateEndValue, stateEndTop. rewrite Hps. simpl.
  by destruct (negb (isSpace c)).
Qed.

(** A value that ends inside the stream ends at the same byte when bytes
    are added to the stream. *)
Lemma readValue_nested whole whole' s buf t data :
  nested s -> readValue_loop whole s buf = Ok data ->
  readValue_loop whole' s (buf ++ t) = Ok data.
Proof.
  revert s data. induction buf as [|c buf IH]; intros s data Hn H.
  - simpl in H. destruct (step_nested s " " Hn) as [Hend _].
    destruct (opcode_eqb (snd (scan_step s " ")) scanEnd) eqn:E; [|discriminate].
    by apply opcode_eqb_eq in E.
  - simpl in *. destruct (step_nested s c Hn) as (Hend & Hnest & Hopen).
    destruct (scan_step s c) as [s' op] eqn:Hs. simpl in *.
    assert (Hcont : fmap_result (cons c) (readValue_loop whole s' buf) = Ok data ->
                    parseState s' <> [] ->
                    fmap_result (cons c) (readValue_loop whole' s' (buf ++ t)) = Ok data).
    { intros Hf Hps. apply fmap_result_Ok in Hf as (d & Hd & ->).
      rewrite (IH s' d); [done|by apply Hnest|done]. }
    destruct op; try (apply Hcont; [done|by apply Hopen]); try done.
    + destruct (opcode_eqb (snd (stateEndValue s' " ")) scanEnd) eqn:E; [done|].
      apply Hcont; [done|]. intros Hps. by rewrite stateEndValue_top in E.
    + destruct (opcode_eqb (snd (stateEndValue s' " ")) scanEnd) eqn:E; [done|].
      apply Hcont; [done|]. intros Hps. by rewrite stateEndValue_top in E.
Qed.

(** The bytes [data] of a value start, after white space, an array, an
    object or [null]. *)
Definition opens_or_null (data : bytes) : bool :=
  match skip_space data with
  | c :: _ => isb c "{" || isb c "[" || isb c "n"
  | [] => false
  end.

(** The states of the scanner inside and right after a top-level [null]. *)
Definition in_null (st : step_fn) : bool :=
  match st with
  | StN | StNu | StNul | StEndValue => true
  | _ => false
  end.

Lemma readValue_null whole whole' s buf t data :
  in_null (step s) = true -> parseState s = [] ->
  readValue_loop whole s buf = Ok data ->
  readValue_loop whole' s (buf ++ t) = Ok data.
Proof.
  revert s data. induction buf as [|c buf IH]; intros s data Hst Hps H.
  - destruct s as [st et ps er]. simpl in Hst, Hps. subst ps.
    destruct st; try discriminate Hst; simpl in H; try discriminate H.
    destruct t as [|c' t']; [exact H|]. simpl.
    change (scan_step {| step := StEndValue; endTop := et; parseState := []; err := er |} c')
      with (stateEndValue {| step := StEndValue; endTop := et; parseState := []; err := er |} c').
    pose proof (stateEndValue_top
      {| step := StEndValue; endTop := et; parseState := []; err := er |} c' eq_refl) as He.
    destruct (stateEndValue _ c') as [s' op]. simpl in He. subst op.
    simpl in H. unfold stateEndValue, stateEndTop in H. simpl in H.
    by destruct (negb (isSpace " ")).
  - destruct s as [st et ps er]. simpl in Hst, Hps. subst ps.
    assert (Hlit : forall want next ctx,
      scan_step {| step := st; endTop := et; parseState := []; err := er |} c
        = stateLit want next ctx {| step := st; endTop := et; parseState := []; err := er |} c ->
      in_null next = true ->
      readValue_loop whole' {| step := st; endTop := et; parseState := []; err := er |}
        ((c :: buf) ++ t) = Ok data).
    { intros want next ctx Hs Hnext. simpl in H |- *. rewrite Hs in H |- *.
      unfold stateLit, error_at, set_step in H |- *. simpl in H |- *.
      destruct (isb c want); simpl in H |- *; [|discriminate H].
      apply fmap_result_Ok in H as (d & Hd & ->).
      rewrite (IH _ d); [done|done|done|exact Hd]. }
    destruct st; try discriminate Hst.
    + change (scan_step {| step := StEndValue; endTop := et; parseState := []; err := er |} c)
        with (stateEndValue {| step := StEndValue; endTop := et; parseState := []; err := er |} c)
        in H |- *. simpl in H |- *.
      change (scan_step {| step := StEndValue; endTop := et; parseState := []; err := er |} c)
        with (stateEndValue {| step := StEndValue; endTop := et; parseState := []; err := er |} c)
        in H |- *.
      pose proof (stateEndValue_top
        {| step := StEndValue; endTop := et; parseState := []; err := er |} c eq_refl) as He.
      destruct (stateEndValue _ c) as [s' op]. simpl in He. subst op. exact H.
    + eapply Hlit; [reflexivity|reflexivity].
    + eapply Hlit; [reflexivity|reflexivity].
    + eapply Hlit; [reflexivity|reflexivity].
Qed.

Lemma skip_space_cons_space c d : isSpace c = true -> skip_space (c :: d) = skip_space d.
Proof. intros H. simpl. by rewrite H. Qed.

Lemma skip_space_cons_other c d : isSpace c = false -> skip_space (c :: d) = c :: d.
Proof. intros H. simpl. by rewrite H. Qed.

(** The value read from the start of a stream starts with the first byte of
    the stream. *)
Lemma readValue_begin_head whole et er c buf data :
  readValue_loop whole
    {| step := StBeginValue; endTop := et; parseState := []; err := er |} (c :: buf)
    = Ok data ->
  exists d, data = c :: d.
Proof.
  simpl.
  change (scan_step {| step := StBeginValue; endTop := et; parseState := []; err := er |} c)
    with (stateBeginValue {| step := StBeginValue; endTop := et; parseState := [];
                             err := er |} c).
  unfold stateBeginValue, pushParseState, error_at, set_step, set_parseState. simpl.
  split_ifs; simpl; intros H; try discriminate H;
    apply fmap_result_Ok in H as (d & _ & ->); eauto.
Qed.

(** The first value of a stream stays the first value when bytes are added
    to the stream, if it is an array, an object or [null].  (A number at the
    very end of a stream does not: more digits may follow.) *)
Lemma readValue_top whole whole' s buf t data :
  step s = StBeginValue -> parseState s = [] ->
  readValue_loop whole s buf = Ok data -> opens_or_null data = true ->
  readValue_loop whole' s (buf ++ t) = Ok data.
Proof.
  revert data. induction buf as [|c buf IH]; intros data Hst Hps H Hd.
  - destruct s as [st et ps er]. simpl in Hst, Hps. subst. simpl in H. discriminate H.
  - destruct s as [st et ps er]. simpl in Hst, Hps. subst st ps.
    destruct (readValue_begin_head _ _ _ _ _ _ H) as [d ->].
    destruct (isb c "n") eqn:Hn.
    { apply Ascii.eqb_eq in Hn. subst c. simpl in H |- *.
      apply fmap_result_Ok in H as (d' & Hd' & Heq). inversion Heq; subst d'.
      erewrite readValue_null; [done|done|done|exact Hd']. }
    simpl in H |- *.
    change (scan_step {| step := StBeginValue; endTop := et; parseState := []; err := er |} c)
      with (stateBeginValue {| step := StBeginValue; endTop := et; parseState := [];
                               err := er |} c) in H |- *.
    unfold stateBeginValue in H |- *.
    destruct (isSpace c) eqn:Hsp.
    { apply fmap_result_Ok in H as (d' & Hd' & Heq). inversion Heq; subst d'.
      unfold opens_or_null in Hd. rewrite skip_space_cons_space in Hd by done.
      rewrite (IH d); done. }
    unfold opens_or_null in Hd. rewrite skip_space_cons_other in Hd by done.
    rewrite Hn, orb_false_r in Hd.
    destruct (isb c "{") eqn:Hc1.
    { unfold pushParseState, set_parseState, set_step in H |- *. simpl in H |- *.
      apply fmap_result_Ok in H as (d' & Hd' & Heq). inversion Heq; subst d'.
      erewrite readValue_nested; [done| |exact Hd']. split; simpl; congruence. }
    destruct (isb c "[") eqn:Hc2; [|discriminate Hd].
    unfold pushParseState, set_parseState, set_step in H |- *. simpl in H |- *.
    apply fmap_result_Ok in H as (d' & Hd' & Heq). inversion Heq; subst d'.
    erewrite readValue_nested; [done| |exact Hd']. split; simpl; congruence.
Qed.

(** A value stored into a struct without an error is an object or [null]. *)
Lemma unmarshal_opens {T} (assign : T * option error -> bytes * bytes -> T * option error)
    (data : bytes) (v v' : T) :
  unmarshal assign data v = Ok v' -> opens_or_null data = true.
Proof.
  unfold unmarshal, opens_or_null. destruct (skip_space data) as [|c d]; [done|].
  destruct (isb c "{"); [done|]. destruct (isb c "n"); [by rewrite orb_true_r|done].
Qed.

(** Bytes after the first value of the body do not change what is decoded. *)
Lemma Decode_trailing (body trailing : bytes) (req : MCPRequest) :
  Decode body = Ok req -> Decode (body ++ trailing) = Ok req.
Proof.
  unfold Decode, readValue. intros H.
  destruct (readValue_loop body newScanner body) as [data|e] eqn:Hr; [|discriminate H].
  simpl in H.
  rewrite (readValue_top body (body ++ trailing) newScanner body trailing data);
    [exact H|done|done|exact Hr|]. eapply unmarshal_opens; eauto.
Qed.

(** *** The members of an object and the fields they select *)

(** The key literal [klit] selects the field [name] of a struct with the
    JSON names [names]. *)
Definition selects (names : list string) (name : string) (klit : bytes) : bool :=
  match find_field names (default [] (unquoteBytes klit)) with
  | Some n => String.eqb n name
  | None => false
  end.

(** The bytes of the value that the members [ms] give the field [name]: the
    value of the last member whose key selects it. *)
Definition received (names : list string) (name : string) (ms : list (bytes * bytes))
    : option bytes :=
  fold_left (fun acc m => if selects names name (fst m) then Some (snd m) else acc)
    ms None.

Lemma find_some_in {A} (f : A -> bool) l x : find f l = Some x -> In x l.
Proof.
  induction l as [|y l IH]; simpl; [done|]. destruct (f y); [|by right; apply IH].
  intros H; inversion H; by left.
Qed.

Lemma find_field_in names k n : find_field names k = Some n -> In n names.
Proof.
  unfold find_field. destruct (find _ names) eqn:E1.
  - intros H; inversion H; subst. eapply find_some_in; eauto.
  - intros H. eapply find_some_in; eauto.
Qed.

Lemma received_fold names name ms acc :
  fold_left (fun acc m => if selects names name (fst m) then Some (snd m) else acc) ms acc
  = match received names name ms with Some r => Some r | None => acc end.
Proof.
  unfold received. revert acc. induction ms as [|m ms IH]; intros acc; [done|].
  simpl. rewrite IH. rewrite (IH (if selects names name (fst m) then _ else None)).
  destruct (fold_left _ ms None); [done|]. by destruct (selects names name (fst m)).
Qed.

Lemma received_cons names name m ms :
  received names name (m :: ms)
  = match received names name ms with
    | Some r => Some r
    | None => if selects names name (fst m) then Some (snd m) else None
    end.
Proof. unfold received at 1. simpl. by rewrite received_fold. Qed.

Lemma fold_left_cons {A B} (f : A -> B -> A) (x : B) (l : list B) (a : A) :
  fold_left f (x :: l) a = fold_left f l (f a x).
Proof. reflexivity. Qed.

(** The [Params] of the request that the members [ms] are stored into. *)
Lemma assign_request_Params ms req0 e0 :
  Params (fst (fold_left assign_request ms (req0, e0)))
  = default (Params req0) (received request_fields "params" ms).
Proof.
  revert req0 e0. induction ms as [|[klit raw] ms IH]; intros req0 e0; [done|].
  rewrite received_cons, fold_left_cons.
  destruct (assign_request (req0, e0) (klit, raw)) as [req1 e1] eqn:Ha.
  rewrite IH. destruct (received request_fields "params" ms); [done|]. simpl.
  unfold assign_request in Ha. unfold selects. simpl fst. simpl snd.
  destruct (find_field request_fields (default [] (unquoteBytes klit))) as [n|] eqn:Hf.
  - apply find_field_in in Hf. simpl in Hf.
    destruct Hf as [<-|[<-|[<-|[<-|[]]]]]; simpl in Ha |- *.
    + destruct (store_string _ _ _). by inversion Ha.
    + destruct (decode_any raw). by inversion Ha.
    + destruct (store_string _ _ _). by inversion Ha.
    + by inversion Ha.
  - by inversion Ha.
Qed.

Lemma assign_request_ID ms req0 e0 :
  ID (fst (fold_left assign_request ms (req0, e0)))
  = match received request_fields "id" ms with
    | Some raw => fst (decode_any raw)
    | None => ID req0
    end.
Proof.
  revert req0 e0. induction ms as [|[klit raw] ms IH]; intros req0 e0; [done|].
  rewrite received_cons, fold_left_cons.
  destruct (assign_request (req0, e0) (klit, raw)) as [req1 e1] eqn:Ha.
  rewrite IH. destruct (received request_fields "id" ms); [done|]. simpl.
  unfold assign_request in Ha. unfold selects. simpl fst. simpl snd.
  destruct (find_field request_fields (default [] (unquoteBytes klit))) as [n|] eqn:Hf.
  - apply find_field_in in Hf. simpl in Hf.
    destruct Hf as [<-|[<-|[<-|[<-|[]]]]]; simpl in Ha |- *.
    + destruct (store_string _ _ _). by inversion Ha.
    + destruct (decode_any raw). by inversion Ha.
    + destruct (store_string _ _ _). by inversion Ha.
    + by inversion Ha.
  - by inversion Ha.
Qed.

Lemma assign_response_ID ms resp0 e0 :
  resp_ID (fst (fold_left assign_response ms (resp0, e0)))
  = match received response_fields "id" ms with
    | Some raw => fst (decode_any raw)
    | None => resp_ID resp0
    end.
Proof.
  revert resp0 e0. induction ms as [|[klit raw] ms IH]; intros resp0 e0; [done|].
  rewrite received_cons, fold_left_cons.
  destruct (assign_response (resp0, e0) (klit, raw)) as [resp1 e1] eqn:Ha.
  rewrite IH. destruct (received response_fields "id" ms); [done|]. simpl.
  unfold assign_response in Ha. unfold selects. simpl fst. simpl snd.
  destruct (find_field response_fields (default [] (unquoteBytes klit))) as [n|] eqn:Hf.
  - apply find_field_in in Hf. simpl in Hf.
    destruct Hf as [<-|[<-|[<-|[<-|[]]]]]; simpl in Ha |- *.
    + destruct (store_string _ _ _). by inversion Ha.
    + destruct (decode_any raw). by inversion Ha.
    + by inversion Ha.
    + by inversion Ha.
  - by inversion Ha.
Qed.

(** Strings of ASCII characters that JSON and Go write as they are. *)
Definition plain (s : bytes) : bool := forallb htmlSafe s.

Lemma htmlSafe_facts c :
  htmlSafe c = true ->
  isb c dquote = false /\ isb c backslash = false /\ (code c <? 32)%N = false /\
  (code c <? utf8.RuneSelf)%N = true.
Proof.
  unfold htmlSafe. intros H.
  apply andb_prop in H as [H Hn]. apply andb_prop in H as [H1 H2].
  apply negb_true_iff in Hn. repeat (apply orb_false_elim in Hn as [Hn ?]).
  repeat split; try done.
  apply N.ltb_ge. by apply N.leb_le.
Qed.

Lemma unquote_plain s : plain s = true -> unquote_loop 0 s = Some s.
Proof.
  induction s as [|c s IH]; [done|]. simpl. intros H.
  apply andb_prop in H as [Hc Hs]. destruct (htmlSafe_facts c Hc) as (H1 & H2 & H3 & H4).
  rewrite H2, H1, H3, H4. simpl. by rewrite IH.
Qed.

Lemma unquoteBytes_plain s : plain s = true -> unquoteBytes (dquote :: s ++ [dquote]) = Some s.
Proof.
  intros H. unfold unquoteBytes. rewrite rev_app_distr. simpl.
  rewrite rev_involutive. by apply unquote_plain.
Qed.

Lemma quote_loop_plain s : plain s = true -> quote_loop 0 0 s = s.
Proof.
  induction s as [|c s IH]; [done|]. simpl. intros H.
  apply andb_prop in H as [Hc Hs]. destruct (htmlSafe_facts c Hc) as (H1 & H2 & H3 & H4).
  rewrite H4, Hc. by rewrite IH.
Qed.

Lemma quote_plain s : plain s = true -> quote s = dquote :: s ++ [dquote].
Proof. intros H. unfold quote. by rewrite quote_loop_plain. Qed.

(** Inside a string literal, plain characters are added to the literal. *)
Lemma build_loop_plain s sc bs l rest :
  plain s = true -> step sc = StInString -> lit bs = Some l ->
  build_loop sc bs (s ++ rest)
  = build_loop sc {| frames := frames bs; lit := Some (rev s ++ l); top := top bs;
                     saved := saved bs |} rest.
Proof.
  revert bs l. induction s as [|c s IH]; intros bs l Hp Hst Hl.
  - simpl. destruct bs; simpl in *; by subst.
  - simpl in Hp. apply andb_prop in Hp as [Hc Hs].
    destruct (htmlSafe_facts c Hc) as (H1 & H2 & H3 & H4).
    simpl. unfold scan_step. rewrite Hst. unfold stateInString. rewrite H1, H2, H3.
    unfold build_step. rewrite Hl.
    rewrite (IH _ (c :: l)); [|done|done|done]. simpl. by rewrite <- app_assoc.
Qed.

Lemma decode_any_plain s : plain s = true -> decode_any (dquote :: s ++ [dquote]) = (AString s, None).
Proof.
  intros Hp. unfold decode_any. simpl.
  rewrite (build_loop_plain s _ _ [dquote]); [|done|done|done].
  simpl. unfold finish_literal. simpl.
  rewrite rev_app_distr, rev_involutive. simpl.
  unfold literalInterface. simpl.
  rewrite rev_app_distr. simpl. rewrite rev_involutive.
  by rewrite unquote_plain.
Qed.

(** *** Compaction *)

(** A scanner in the error state has recorded the error. *)
Definition sound (s : scanner) : Prop := step s = StError -> err s <> None.

(** What every step on a byte satisfies, [sp] telling whether the byte is
    white space: white space only is skipped, an error is recorded when it
    is reported and when a byte other than white space follows the
    top-level value, and a recorded error stays. *)
Definition step_ok (sp : bool) (s : scanner) (r : scanner * opcode) : Prop :=
  sound (fst r) /\
  (snd r = scanSkipSpace -> sp = true) /\
  (snd r = scanError -> err (fst r) <> None) /\
  (snd r = scanEnd -> sp = false -> err (fst r) <> None) /\
  (err s <> None -> err (fst r) <> None).

Ltac close_ok :=
  unfold step_ok, sound; cbn;
  repeat split; intros; try congruence; try done; auto.

Lemma stateEndValue_ok s s0 c sp :
  (err s0 <> None -> err s <> None) -> isSpace c = sp ->
  step_ok sp s0 (stateEndValue s c).
Proof.
  intros He Hsp. destruct s as [st et ps er]. simpl in He.
  unfold stateEndValue, stateEndTop, popParseState, error_at, set_step, set_parseState,
    set_endTop.
  rewrite Hsp. destruct ps as [|p below]; cbn.
  - destruct sp; cbn; close_ok.
  - destruct sp; [close_ok|].
    destruct p; split_ifs; cbn; first [close_ok | (destruct below; close_ok)].
Qed.

Lemma step_facts (s : scanner) (c : byte) :
  sound s -> step_ok (isSpace c) s (scan_step s c).
Proof.
  intros Hs. destruct s as [st et ps er]. unfold sound in Hs. simpl in Hs.
  destruct (isSpace c) eqn:Hsp;
  destruct st;
    try (apply stateEndValue_ok; [cbn; done|exact Hsp]);
    unfold scan_step, stateBeginValueOrEmpty, stateBeginStringOrEmpty, stateBeginString,
      stateBeginValue, stateInString, stateInStringEsc, stateInStringEscU,
      stateInStringEscU1, stateInStringEscU12, stateInStringEscU123, stateInStringEscHex,
      stateNeg, state1, state0, stateDot, stateDot0, stateE, stateESign, stateE0,
      stateT, stateTr, stateTru, stateF, stateFa, stateFal, stateFals, stateN, stateNu,
      stateNul, stateLit, stateError, stateEndTop, pushParseState, error_at, set_step,
      set_parseState;
    cbn [step parseState endTop err];
    rewrite ?Hsp; cbn [negb];
    split_ifs;
    first [ apply stateEndValue_ok; [cbn; done|exact Hsp] | close_ok ].
Qed.

Lemma compact_loop_cons k s c src :
  compact_loop k s (c :: src)
  = let (s', v) := scan_step s c in
    if opcode_eqb v scanError then ([], s')
    else
      let out (skip' : nat) (emit : bytes) :=
        let (o, sf) := compact_loop skip' s' src in (emit ++ o, sf) in
      match k with
      | S k' => out k' []
      | O =>
          if isb c "<" || isb c ">" || isb c "&" then out 0%nat (u00 c)
          else match line_separator (c :: src) with
               | Some d => out 2%nat (backslash :: b "u202" ++ [hex_digit d])
               | None => if ge_scanSkipSpace v then out 0%nat [] else out 0%nat [c]
               end
      end.
Proof. reflexivity. Qed.

Lemma compact_loop_err k s src :
  sound s -> err s <> None -> err (snd (compact_loop k s src)) <> None.
Proof.
  revert k s. induction src as [|c src IH]; intros k s Hs He; [done|].
  rewrite compact_loop_cons. destruct (step_facts s c Hs) as (Hs' & _ & _ & _ & Herr).
  destruct (scan_step s c) as [s' v]. cbn [fst snd] in *.
  destruct (opcode_eqb v scanError); [by apply Herr|].
  assert (Hout : forall k' emit,
            err (snd (let (o, sf) := compact_loop k' s' src in (emit ++ o, sf))) <> None).
  { intros k' emit. specialize (IH k' s' Hs' (Herr He)).
    by destruct (compact_loop k' s' src). }
  cbv zeta.
  destruct k; [|apply Hout].
  destruct (isb c "<" || isb c ">" || isb c "&"); [apply Hout|].
  destruct (line_separator (c :: src)); [apply Hout|].
  destruct (ge_scanSkipSpace v); apply Hout.
Qed.

(** The bytes that compaction copies as they are wherever they stand: no
    white space, none of [<], [>], [&], and not the first byte of U+2028
    or U+2029. *)
Definition verbatim (src : bytes) : bool :=
  forallb (fun c => negb (isSpace c || isb c "<" || isb c ">" || isb c "&"
                          || (code c =? 0xE2)%N)) src.

Lemma line_separator_head c src : (code c =? 0xE2)%N = false -> line_separator (c :: src) = None.
Proof.
  intros H. unfold line_separator. destruct src as [|c1 [|c2 src]]; try done.
  by rewrite H.
Qed.

Lemma compact_loop_verbatim src s out sf :
  sound s -> compact_loop 0 s src = (out, sf) -> err sf = None -> verbatim src = true ->
  out = src.
Proof.
  revert s out. induction src as [|c src IH]; intros s out Hs H He Hv.
  - simpl in H. by inversion H.
  - simpl in Hv. apply andb_prop in Hv as [Hc Hv]. apply negb_true_iff in Hc.
    apply orb_false_elim in Hc as [Hc H5]. apply orb_false_elim in Hc as [Hc H4].
    apply orb_false_elim in Hc as [Hc H3]. apply orb_false_elim in Hc as [H1 H2].
    rewrite compact_loop_cons in H.
    destruct (step_facts s c Hs) as (Hs' & Hskip & Herr & Hend & _).
    destruct (scan_step s c) as [s' v]. cbn [fst snd] in *.
    destruct (opcode_eqb v scanError) eqn:Hv1.
    { inversion H; subst. apply opcode_eqb_eq in Hv1. by destruct (Herr Hv1). }
    cbv zeta in H. rewrite H2, H3, H4 in H. cbn [orb] in H.
    rewrite line_separator_head in H by done.
    destruct (compact_loop 0 s' src) as [o sf'] eqn:Hl.
    destruct (ge_scanSkipSpace v) eqn:Hge.
    + exfalso. inversion H; subst sf'.
      destruct v; try discriminate Hge.
      * rewrite Hskip in H1 by done. discriminate H1.
      * pose proof (compact_loop_err 0 s' src Hs' (Hend eq_refl H1)) as Hne.
        rewrite Hl in Hne. simpl in Hne. done.
      * discriminate Hv1.
    + inversion H; subst. simpl. f_equal. eapply IH; eauto.
Qed.

(** A message without such bytes is compacted to itself. *)
Lemma compact_verbatim src c : compact src = Ok c -> verbatim src = true -> c = src.
Proof.
  unfold compact. destruct (compact_loop 0 newScanner src) as [out sf] eqn:Hl.
  intros H Hv. destruct (opcode_eqb (snd (eof sf)) scanError) eqn:He; [discriminate H|].
  inversion H; subst. eapply compact_loop_verbatim; eauto.
  - intros Hst. discriminate Hst.
  - unfold eof in He. destruct (err sf); [discriminate He|done].
Qed.

(** *** What is decoded from an object, and what is encoded *)

(** The key of the member [m] selects some field. *)
Definition known (names : list string) (m : bytes * bytes) : bool :=
  match find_field names (default [] (unquoteBytes (fst m))) with
  | Some _ => true
  | None => false
  end.

Lemma assign_request_unknown acc m :
  known request_fields m = false -> assign_request acc m = acc.
Proof.
  unfold known, assign_request. destruct acc as [req sv], m as [klit raw]. simpl.
  by destruct (find_field request_fields (default [] (unquoteBytes klit))).
Qed.

(** Members whose keys select no field leave no trace in the request. *)
Lemma assign_request_known ms acc :
  fold_left assign_request ms acc
  = fold_left assign_request (List.filter (known request_fields) ms) acc.
Proof.
  revert acc. induction ms as [|m ms IH]; intros acc; [done|].
  simpl. destruct (known request_fields m) eqn:Hk.
  - simpl. apply IH.
  - rewrite assign_request_unknown by done. apply IH.
Qed.

(** The bytes [data] of a value start, after white space, an object. *)
Definition opens_object (data : bytes) : bool :=
  match skip_space data with
  | c :: _ => isb c "{"
  | [] => false
  end.

Lemma unmarshal_object {T} (assign : T * option error -> bytes * bytes -> T * option error)
    (data : bytes) (v : T) :
  opens_object data = true ->
  unmarshal assign data v
  = match fold_left assign (members data) (v, None) with
    | (v', None) => Ok v'
    | (_, Some e) => Err e
    end.
Proof.
  unfold opens_object, unmarshal. destruct (skip_space data) as [|c d]; [done|].
  by intros ->.
Qed.

Lemma unmarshal_fst {T} (assign : T * option error -> bytes * bytes -> T * option error)
    (data : bytes) (v v' : T) :
  opens_object data = true -> unmarshal assign data v = Ok v' ->
  v' = fst (fold_left assign (members data) (v, None)).
Proof.
  intros Ho. rewrite unmarshal_object by done.
  destruct (fold_left assign (members data) (v, None)) as [v1 [e|]]; intros H;
    inversion H; done.
Qed.

(** The members that [Marshal] writes for a request. *)
Definition request_members (req : MCPRequest) (params : list (string * bytes))
    : list (string * bytes) :=
  [("jsonrpc"%string, quote (JSONRPC req))] ++ any_member "id" (ID req)
  ++ [("method"%string, quote (Method req))] ++ params.

Lemma any_member_names name v :
  map fst (any_member name v) = [] \/ map fst (any_member name v) = [name].
Proof. destruct v; simpl; auto. Qed.

Lemma raw_member_names name m ms :
  raw_member name m = Ok ms -> map fst ms = [] \/ map fst ms = [name].
Proof.
  unfold raw_member. destruct m; [intros H; inversion H; auto|].
  destruct (compact _); intros H; inversion H; auto.
Qed.

Lemma raw_member_value name m ms :
  raw_member name m = Ok ms -> m <> [] ->
  exists c, compact m = Ok c /\ ms = [(name, c)].
Proof.
  unfold raw_member. destruct m as [|x m]; [done|].
  destruct (compact (x :: m)) as [c|e]; intros H _; inversion H; eauto.
Qed.

Lemma Marshal_members req line :
  Marshal req = Ok line ->
  exists params,
    raw_member "params" (Params req) = Ok params /\
    line = encode_struct (request_members req params) /\
    sublist (map fst (request_members req params)) request_fields.
Proof.
  unfold Marshal. destruct (raw_member "params" (Params req)) as [params|e] eqn:Hp;
    [|discriminate]. simpl. intros H. inversion H; subst. exists params.
  split; [done|]. split; [done|].
  unfold request_members, request_fields. rewrite !map_app. simpl.
  destruct (any_member_names "id" (ID req)) as [-> | ->],
    (raw_member_names _ _ _ Hp) as [-> | ->]; simpl;
    repeat first [apply sublist_nil | apply sublist_skip | apply sublist_cons].
Qed.

End JsonFacts.

(** ** The gateway, one request at a time *)

Module WrapperFacts.

Import Json Wrapper Samples JsonFacts.

(** A failed [NewMCPSession] leaves the world as it was. *)
Lemma NewMCPSession_Err env w e w' :
  NewMCPSession env w = (Err e, w') -> w' = w.
Proof.
  unfold NewMCPSession.
  destruct (stdin_pipe_err env), (stdout_pipe_err env), (stderr_pipe_err env),
    (start_err env); intros H; inversion H; reflexivity.
Qed.

(** A successful one starts one process, the next in [procs], and changes
    nothing else. *)
Lemma NewMCPSession_Ok env w s w' :
  NewMCPSession env w = (Ok s, w') ->
  s = length (procs w) /\
  procs w' = procs w ++ [{| stdin_log := []; unread := []; closed := false |}] /\
  sessions w' = sessions w /\ sleepers w' = sleepers w /\ now w' = now w /\
  trace w' = trace w ++ [(now w, EvSpawn s)].
Proof.
  unfold NewMCPSession.
  destruct (stdin_pipe_err env), (stdout_pipe_err env), (stderr_pipe_err env),
    (start_err env); intros H; inversion H; subst; simpl; auto 10.
Qed.

Lemma getOrCreateSession_seen env key w s :
  sessions w !! key = Some s -> getOrCreateSession env key w = (Ok s, w).
Proof. intros H. unfold getOrCreateSession. rewrite H. reflexivity. Qed.

Lemma getOrCreateSession_Err env key w e w' :
  getOrCreateSession env key w = (Err e, w') ->
  w' = w /\ sessions w !! key = None /\ NewMCPSession env w = (Err e, w).
Proof.
  unfold getOrCreateSession. destruct (sessions w !! key) eqn:Hk; [discriminate|].
  destruct (NewMCPSession env w) as [[s|e'] w1] eqn:HN; intros H; inversion H; subst.
  apply NewMCPSession_Err in HN as ->. auto.
Qed.

Lemma getOrCreateSession_unseen env key w s w' :
  sessions w !! key = None -> getOrCreateSession env key w = (Ok s, w') ->
  exists w1, NewMCPSession env w = (Ok s, w1) /\ w' = register key s w1.
Proof.
  unfold getOrCreateSession. intros ->.
  destruct (NewMCPSession env w) as [[s'|e'] w1] eqn:HN; intros H; inversion H; subst.
  eauto.
Qed.

(** After a successful resolution the key is registered to the session. *)
Lemma getOrCreateSession_registered env key w s w' :
  getOrCreateSession env key w = (Ok s, w') -> sessions w' !! key = Some s.
Proof.
  destruct (sessions w !! key) as [s0|] eqn:Hk.
  - rewrite (getOrCreateSession_seen _ _ _ _ Hk). intros H; inversion H; subst. exact Hk.
  - intros H. destruct (getOrCreateSession_unseen _ _ _ _ _ Hk H) as (w1 & _ & ->).
    simpl. apply lookup_insert_eq.
Qed.

Lemma method_not_post (m : string) : m <> "POST"%string -> negb (String.eqb m "POST") = true.
Proof. intros H. destruct (String.eqb_spec m "POST"); [contradiction|reflexivity]. Qed.

Lemma method_post (m : string) : m = "POST"%string -> negb (String.eqb m "POST") = false.
Proof. intros ->. reflexivity. Qed.

(** The ways an exchange on the process [p] fails, with the error that
    [SendRequest] returns: the request cannot be marshalled, the write
    fails, no newline arrives before the child's output ends, or the line
    read is not a JSON response. *)
Inductive exchange_failure (env : Env) (p : Proc) (req : MCPRequest) : error -> Prop :=
| fail_marshal e :
    Marshal req = Err e ->
    exchange_failure env p req (Wrap "failed to marshal request" e)
| fail_write reqBytes e :
    Marshal req = Ok reqBytes ->
    (if closed p then Some ErrClosed else write_err env) = Some e ->
    exchange_failure env p req (Wrap "failed to write request" e)
| fail_read reqBytes :
    Marshal req = Ok reqBytes ->
    (if closed p then Some ErrClosed else write_err env) = None ->
    ReadBytes (unread p ++ child_output env) = None ->
    exchange_failure env p req (Wrap "failed to read response" (read_err env))
| fail_decode reqBytes respBytes rest e :
    Marshal req = Ok reqBytes ->
    (if closed p then Some ErrClosed else write_err env) = None ->
    ReadBytes (unread p ++ child_output env) = Some (respBytes, rest) ->
    Unmarshal (TrimSpace respBytes) = Err e ->
    exchange_failure env p req (Wrap "failed to unmarshal response" e).

Lemma SendRequest_fails env s req w p e :
  procs w !! s = Some p -> exchange_failure env p req e ->
  fst (SendRequest env s req w) = Err e.
Proof.
  intros Hp Hf. unfold SendRequest. rewrite Hp.
  destruct Hf as [e H1|rb e H1 H2|rb H1 H2 H3|rb l rest e H1 H2 H3 H4];
    rewrite H1; simpl; try rewrite H2; simpl; try rewrite H3; simpl;
    try rewrite H4; reflexivity.
Qed.

(** The events of one call of [SendRequest] on [s] at time [t]: no write, a
    write, or a write and the read after it. *)
Definition one_exchange (t : Z) (s : nat) (evs : list (Z * event)) : Prop :=
  evs = [] \/ (exists d, evs = [(t, EvWrite s d)])
  \/ (exists d l, evs = [(t, EvWrite s d); (t, EvRead s l)]).

Lemma lookup_insert_closed (ps : list Proc) (s j : nat) (p q p' : Proc) :
  ps !! s = Some p -> closed q = closed p ->
  <[s := q]> ps !! j = Some p' ->
  exists p0, ps !! j = Some p0 /\ closed p' = closed p0.
Proof.
  intros Hs Hc Hj. destruct (decide (s = j)) as [->|Hne].
  - rewrite list_lookup_insert_eq in Hj by (eapply lookup_lt_Some; eauto).
    inversion Hj; subst. eauto.
  - rewrite list_lookup_insert_ne in Hj by done. eauto.
Qed.

(** Whatever its result, [SendRequest] leaves the registry, the sleepers and
    the clock as they were, starts and closes no process, and makes one
    exchange at most. *)
Lemma SendRequest_frame env s req w r w' :
  SendRequest env s req w = (r, w') ->
  sessions w' = sessions w /\ sleepers w' = sleepers w /\ now w' = now w /\
  length (procs w') = length (procs w) /\
  (forall j p', procs w' !! j = Some p' ->
     exists p, procs w !! j = Some p /\ closed p' = closed p) /\
  exists evs, trace w' = trace w ++ evs /\ one_exchange (now w) s evs.
Proof.
  unfold SendRequest. destruct (procs w !! s) as [p|] eqn:Hp.
  2:{ intros H; inversion H; subst. repeat split; eauto.
      exists []. rewrite app_nil_r. split; [done|by left]. }
  destruct (Marshal req) as [rb|e].
  2:{ intros H; inversion H; subst. repeat split; eauto.
      exists []. rewrite app_nil_r. split; [done|by left]. }
  destruct (if closed p then Some ErrClosed else write_err env) as [e|].
  { intros H; inversion H; subst. repeat split; eauto.
    exists []. rewrite app_nil_r. split; [done|by left]. }
  simpl.
  set (p1 := {| stdin_log := stdin_log p ++ [rb ++ ["010"]];
                unread := unread p ++ child_output env; closed := closed p |}).
  destruct (ReadBytes (unread p ++ child_output env)) as [[line rest]|].
  - set (p2 := {| stdin_log := stdin_log p1; unread := rest; closed := closed p1 |}).
    assert (Hfr : forall r0,
      (r0, log_event (set_procs (log_event (set_procs w (<[s:=p1]> (procs w)))
         (EvWrite s (rb ++ ["010"]))) (<[s:=p2]> (<[s:=p1]> (procs w)))) (EvRead s line))
        = (r, w') -> (sessions w' = sessions w /\ sleepers w' = sleepers w /\
          now w' = now w /\ length (procs w') = length (procs w) /\
          (forall j p', procs w' !! j = Some p' ->
            exists p, procs w !! j = Some p /\ closed p' = closed p) /\
          exists evs, trace w' = trace w ++ evs /\ one_exchange (now w) s evs)).
    { intros r0 H; inversion H; subst; simpl. repeat split.
      - by rewrite !length_insert.
      - intros j p' Hj. rewrite list_insert_insert_eq in Hj.
        exact (lookup_insert_closed (procs w) s j p p2 p' Hp eq_refl Hj).
      - eexists. rewrite <- app_assoc. split; [reflexivity|]. right; right. eauto. }
    destruct (Unmarshal (TrimSpace line)); intros H; eapply Hfr; exact H.
  - intros H; inversion H; subst; simpl. repeat split.
    + by rewrite !length_insert.
    + intros j p' Hj. rewrite list_insert_insert_eq in Hj.
      eapply lookup_insert_closed; [exact Hp| |exact Hj]; reflexivity.
    + eexists. split; [reflexivity|]. right; left. eauto.
Qed.

(** C8: a request to the JSON-RPC endpoint whose method is not POST is
    answered with 405 (method not allowed), and the world is left as it
    was: the registry is not read or changed, no session is created and no
    child process is started. *)
Theorem C8_method_not_allowed (env : Env) (r : Request) (w : World) :
  http_Method r <> "POST"%string ->
  status (fst (handleMCP env r w)) = StatusMethodNotAllowed /\
  snd (handleMCP env r w) = w.
Proof.
  intros H. unfold handleMCP. rewrite (method_not_post _ H). simpl. auto.
Qed.

(** C7: when the key of a POST is not registered and the creation of the
    session fails (a pipe cannot be set up or the process cannot be
    launched), [getOrCreateSession] returns the error, the caller gets 500
    with the error, and the world is as it was: no entry is registered for
    the key and no process runs. *)
Theorem C7_creation_failure (env : Env) (r : Request) (w w0 : World) (e : error) :
  http_Method r = "POST"%string ->
  sessions w !! sessionID_of r = None ->
  NewMCPSession env w = (Err e, w0) ->
  getOrCreateSession env (sessionID_of r) w = (Err e, w) /\
  handleMCP env r w =
    (http_Error "Failed to create MCP session: " (Some e) StatusInternalServerError, w) /\
  sessions (snd (handleMCP env r w)) !! sessionID_of r = None.
Proof.
  intros Hm Hk HN.
  assert (Hg : getOrCreateSession env (sessionID_of r) w = (Err e, w)).
  { unfold getOrCreateSession. rewrite Hk.
    pose proof (NewMCPSession_Err _ _ _ _ HN) as ->. rewrite HN. reflexivity. }
  split; [exact Hg|].
  assert (Hh : handleMCP env r w =
    (http_Error "Failed to create MCP session: " (Some e) StatusInternalServerError, w)).
  { unfold handleMCP. rewrite (method_post _ Hm). simpl. rewrite Hg. reflexivity. }
  split; [exact Hh|]. rewrite Hh. exact Hk.
Qed.

(** C6: when the exchange with the child fails (the write fails, the read
    ends before a newline, or the line read is not a JSON response), the
    caller gets 500 with the error; the exchange is tried once and not
    again; the registry is as the resolution left it, with the key still
    registered to the same session, which is neither closed nor replaced
    and which the next request with the key gets again. *)
Theorem C6_exchange_failure (env : Env) (r : Request) (w w1 : World) (s : nat)
    (req : MCPRequest) (p : Proc) (e : error) :
  http_Method r = "POST"%string ->
  getOrCreateSession env (sessionID_of r) w = (Ok s, w1) ->
  Decode (http_Body r) = Ok req ->
  procs w1 !! s = Some p ->
  exchange_failure env p req e ->
  exists w2,
    handleMCP env r w =
      (http_Error "MCP request failed: " (Some e) StatusInternalServerError, w2) /\
    sessions w2 = sessions w1 /\
    sessions w2 !! sessionID_of r = Some s /\
    sleepers w2 = sleepers w1 /\
    length (procs w2) = length (procs w1) /\
    (exists p2, procs w2 !! s = Some p2 /\ closed p2 = closed p) /\
    (exists evs, trace w2 = trace w1 ++ evs /\ one_exchange (now w1) s evs) /\
    (forall env', getOrCreateSession env' (sessionID_of r) w2 = (Ok s, w2)).
Proof.
  intros Hm Hg Hd Hp Hf.
  pose proof (SendRequest_fails env s req w1 p e Hp Hf) as Hs.
  destruct (SendRequest env s req w1) as [res w2] eqn:HS. simpl in Hs. subst res.
  exists w2.
  destruct (SendRequest_frame _ _ _ _ _ _ HS) as (Hse & Hsl & Hnow & Hlen & Hcl & Hev).
  pose proof (getOrCreateSession_registered _ _ _ _ _ Hg) as Hreg.
  assert (Hreg2 : sessions w2 !! sessionID_of r = Some s) by (rewrite Hse; exact Hreg).
  repeat split; auto.
  - unfold handleMCP. rewrite (method_post _ Hm). simpl. rewrite Hg, Hd, HS. reflexivity.
  - destruct (procs w2 !! s) as [p2|] eqn:Hp2.
    + destruct (Hcl _ _ Hp2) as (p0 & Hp0 & Hc). rewrite Hp in Hp0. inversion Hp0; subst.
      eauto.
    + apply lookup_ge_None in Hp2. apply lookup_lt_Some in Hp. lia.
  - intros env'. apply getOrCreateSession_seen. exact Hreg2.
Qed.

Lemma C8_method_not_allowed_witness :
  status (fst (handleMCP env_ok (get "k") empty_world)) = StatusMethodNotAllowed /\
  snd (handleMCP env_ok (get "k") empty_world) = empty_world.
Proof. apply (C8_method_not_allowed env_ok (get "k") empty_world). discriminate. Defined.

Lemma C7_creation_failure_witness :
  getOrCreateSession env_no_binary (sessionID_of (post "k" ping)) empty_world
    = (Err (Wrap "failed to start MCP server" (OSError 2)), empty_world) /\
  handleMCP env_no_binary (post "k" ping) empty_world =
    (http_Error "Failed to create MCP session: "
       (Some (Wrap "failed to start MCP server" (OSError 2))) StatusInternalServerError,
     empty_world) /\
  sessions (snd (handleMCP env_no_binary (post "k" ping) empty_world))
    !! sessionID_of (post "k" ping) = None.
Proof.
  apply (C7_creation_failure env_no_binary (post "k" ping) empty_world empty_world);
    reflexivity.
Defined.

(** The world after the first request with key ["k"] found a child that
    could be started. *)
Definition world_k : World := snd (getOrCreateSession env_broken_pipe "k" empty_world).

Lemma C6_exchange_failure_witness :
  exists w2,
    handleMCP env_broken_pipe (post "k" ping) empty_world =
      (http_Error "MCP request failed: "
         (Some (Wrap "failed to write request" (OSError 32))) StatusInternalServerError,
       w2) /\
    sessions w2 = sessions world_k /\
    sessions w2 !! sessionID_of (post "k" ping) = Some 0%nat /\
    sleepers w2 = sleepers world_k /\
    length (procs w2) = length (procs world_k) /\
    (exists p2, procs w2 !! 0%nat = Some p2 /\
       closed p2 = closed {| stdin_log := []; unread := []; closed := false |}) /\
    (exists evs, trace w2 = trace world_k ++ evs /\ one_exchange (now world_k) 0 evs) /\
    (forall env', getOrCreateSession env' (sessionID_of (post "k" ping)) w2 = (Ok 0%nat, w2)).
Proof.
  apply (C6_exchange_failure env_broken_pipe (post "k" ping) empty_world world_k 0
           ping_request {| stdin_log := []; unread := []; closed := false |}
           (Wrap "failed to write request" (OSError 32))).
  - reflexivity.
  - reflexivity.
  - vm_compute. reflexivity.
  - reflexivity.
  - apply (fail_write _ _ _ (js "{'jsonrpc':'2.0','id':'a','method':'ping'}") (OSError 32)).
    + vm_compute. reflexivity.
    + reflexivity.
Defined.

(** C1 as the claim states it: a POST whose body does not decode gets 400
    and the registry is as it was before the request. *)
Definition C1_as_stated (env : Env) (r : Request) (w : World) : Prop :=
  http_Method r = "POST"%string ->
  is_ok (Decode (http_Body r)) = false ->
  status (fst (handleMCP env r w)) = StatusBadRequest /\
  sessions (snd (handleMCP env r w)) = sessions w.

(** C1, counterexample: a POST with the body [not json] and no session
    header, on the empty registry.  The session is resolved before the body
    is decoded, so the answer is 400 with the key ["default"] registered to a
    process that was started for this request. *)
Lemma C1_counterexample : ~ C1_as_stated env_ok (post "" (b "not json")) empty_world.
Proof.
  intros H. destruct (H eq_refl eq_refl) as [_ Hs].
  apply (f_equal (fun m => m !! "default"%string)) in Hs.
  vm_compute in Hs. discriminate Hs.
Qed.

(** C1, amended: for every POST whose body does not decode as a request
    envelope, the session of the request's key is resolved before the body
    is decoded.  When the resolution succeeds the answer is 400 with the
    decoding error as diagnostic, and the world is the one the resolution
    left: unchanged when the key was registered already; with a process
    started and registered for the key when it was not.  Nothing is written
    to a child either way. *)
Theorem C1_invalid_body (env : Env) (r : Request) (w w1 : World) (s : nat) (e : error) :
  http_Method r = "POST"%string ->
  Decode (http_Body r) = Err e ->
  getOrCreateSession env (sessionID_of r) w = (Ok s, w1) ->
  handleMCP env r w = (http_Error "Invalid JSON: " (Some e) StatusBadRequest, w1) /\
  (is_Some (sessions w !! sessionID_of r) -> w1 = w) /\
  (sessions w !! sessionID_of r = None ->
     sessions w1 = <[sessionID_of r := s]> (sessions w) /\
     procs w1 = procs w ++ [{| stdin_log := []; unread := []; closed := false |}] /\
     trace w1 = trace w ++ [(now w, EvSpawn s); (now w, EvStore (sessionID_of r) s)]).
Proof.
  intros Hm Hd Hg. split; [|split].
  - unfold handleMCP. rewrite (method_post _ Hm). simpl. rewrite Hg, Hd. reflexivity.
  - intros [s0 Hs0]. rewrite (getOrCreateSession_seen _ _ _ _ Hs0) in Hg.
    inversion Hg; reflexivity.
  - intros Hk. destruct (getOrCreateSession_unseen _ _ _ _ _ Hk Hg) as (w0 & HN & ->).
    destruct (NewMCPSession_Ok _ _ _ _ HN) as (_ & Hp & Hs & _ & Hnow & Ht).
    simpl. rewrite Hs, Hp, Ht, Hnow, <- app_assoc. auto.
Qed.

Lemma C1_invalid_body_witness :
  handleMCP env_ok (post "" (b "not json")) empty_world
    = (http_Error "Invalid JSON: "
         (Some (SyntaxError (Some "o") "in literal null (expecting 'u')")) StatusBadRequest,
       snd (getOrCreateSession env_ok "default" empty_world)) /\
  (is_Some (sessions empty_world !! sessionID_of (post "" (b "not json"))) ->
     snd (getOrCreateSession env_ok "default" empty_world) = empty_world) /\
  (sessions empty_world !! sessionID_of (post "" (b "not json")) = None ->
     sessions (snd (getOrCreateSession env_ok "default" empty_world))
       = <[sessionID_of (post "" (b "not json")) := 0%nat]> (sessions empty_world) /\
     procs (snd (getOrCreateSession env_ok "default" empty_world))
       = procs empty_world ++ [{| stdin_log := []; unread := []; closed := false |}] /\
     trace (snd (getOrCreateSession env_ok "default" empty_world))
       = trace empty_world
         ++ [(now empty_world, EvSpawn 0);
             (now empty_world, EvStore (sessionID_of (post "" (b "not json"))) 0)]).
Proof.
  apply (C1_invalid_body env_ok (post "" (b "not json")) empty_world
           (snd (getOrCreateSession env_ok "default" empty_world)) 0
           (SyntaxError (Some "o") "in literal null (expecting 'u')")).
  - reflexivity.
  - vm_compute. reflexivity.
  - reflexivity.
Defined.

(** The request [r] with [trailing] appended to its body. *)
Definition with_trailing (r : Request) (trailing : bytes) : Request :=
  {| http_Method := http_Method r; header_X_Session_ID := header_X_Session_ID r;
     http_Body := http_Body r ++ trailing |}.

(** C9: when the body of a POST starts with a request envelope that
    decodes, whatever bytes follow the envelope are ignored: the body with
    the trailing bytes decodes to the same request, the gateway does
    exactly what it does for the body without them, the answer is not the
    400 of a malformed body, and once the session is resolved the decoded
    request is what is forwarded. *)
Theorem C9_trailing_bytes_ignored (env : Env) (r : Request) (trailing : bytes)
    (w : World) (req : MCPRequest) :
  http_Method r = "POST"%string ->
  Decode (http_Body r) = Ok req ->
  Decode (http_Body (with_trailing r trailing)) = Ok req /\
  handleMCP env (with_trailing r trailing) w = handleMCP env r w /\
  status (fst (handleMCP env (with_trailing r trailing) w)) <> StatusBadRequest /\
  (forall s w1,
     getOrCreateSession env (sessionID_of r) w = (Ok s, w1) ->
     snd (handleMCP env (with_trailing r trailing) w) = snd (SendRequest env s req w1)).
Proof.
  intros Hm Hd.
  assert (Hd' : Decode (http_Body (with_trailing r trailing)) = Ok req)
    by (simpl; by apply JsonFacts.Decode_trailing).
  assert (Heq : handleMCP env (with_trailing r trailing) w = handleMCP env r w).
  { unfold handleMCP. rewrite Hd', Hd. reflexivity. }
  split; [exact Hd'|]. split; [exact Heq|]. rewrite Heq.
  unfold handleMCP. rewrite (method_post _ Hm), Hd. simpl.
  destruct (getOrCreateSession env (sessionID_of r) w) as [[s|e] w1] eqn:Hg.
  - destruct (SendRequest env s req w1) as [[resp|e] w2] eqn:HS; simpl.
    + split; [discriminate|]. intros s0 w0 H0. inversion H0; subst. by rewrite HS.
    + split; [discriminate|]. intros s0 w0 H0. inversion H0; subst. by rewrite HS.
  - simpl. split; [discriminate|]. intros s0 w0 H0. discriminate H0.
Qed.

Lemma C9_trailing_bytes_ignored_witness :
  Decode (http_Body (with_trailing (post "k" ping) (b " trailing bytes"))) = Ok ping_request /\
  handleMCP env_ok (with_trailing (post "k" ping) (b " trailing bytes")) empty_world
    = handleMCP env_ok (post "k" ping) empty_world /\
  status (fst (handleMCP env_ok (with_trailing (post "k" ping) (b " trailing bytes"))
                 empty_world)) <> StatusBadRequest /\
  (forall s w1,
     getOrCreateSession env_ok (sessionID_of (post "k" ping)) empty_world = (Ok s, w1) ->
     snd (handleMCP env_ok (with_trailing (post "k" ping) (b " trailing bytes")) empty_world)
       = snd (SendRequest env_ok s ping_request w1)).
Proof.
  apply (C9_trailing_bytes_ignored env_ok (post "k" ping) (b " trailing bytes")
           empty_world ping_request).
  - reflexivity.
  - vm_compute. reflexivity.
Defined.

(** *** What is written to the child and to the caller *)

(** The line that the last read of the trace returned. *)
Definition last_read (w : World) : option bytes :=
  match last (trace w) with
  | Some (_, EvRead _ d) => Some d
  | _ => None
  end.

(** A call of [SendRequest] that returns a response has written the
    marshalled request and a newline, and has decoded the line it read. *)
Lemma SendRequest_Ok env s req w resp w' :
  SendRequest env s req w = (Ok resp, w') ->
  exists reqBytes respBytes,
    Marshal req = Ok reqBytes /\
    Unmarshal (TrimSpace respBytes) = Ok resp /\
    trace w' = trace w ++ [(now w, EvWrite s (reqBytes ++ ["010"]));
                           (now w, EvRead s respBytes)].
Proof.
  unfold SendRequest. destruct (procs w !! s) as [p|]; [|discriminate].
  destruct (Marshal req) as [rb|e]; [|discriminate].
  destruct (if closed p then Some ErrClosed else write_err env); [discriminate|].
  simpl. destruct (ReadBytes (unread p ++ child_output env)) as [[line rest]|]; [|discriminate].
  destruct (Unmarshal (TrimSpace line)) as [r0|e] eqn:HU; [|discriminate].
  intros H. inversion H; subst. exists rb, line. simpl.
  rewrite <- app_assoc. auto.
Qed.

(** Whatever [SendRequest] writes is the marshalled request and a newline. *)
Lemma SendRequest_written env s req w r w' :
  SendRequest env s req w = (r, w') ->
  exists evs, trace w' = trace w ++ evs /\
    forall t s' d, In (t, EvWrite s' d) evs ->
      exists line, Marshal req = Ok line /\ d = line ++ ["010"].
Proof.
  unfold SendRequest. intros H.
  destruct (procs w !! s) as [p|].
  2:{ inversion H; subst. exists []. rewrite app_nil_r. split; [done|]. intros ??? []. }
  destruct (Marshal req) as [line|e].
  2:{ inversion H; subst. exists []. rewrite app_nil_r. split; [done|]. intros ??? []. }
  destruct (if closed p then Some ErrClosed else write_err env).
  { inversion H; subst. exists []. rewrite app_nil_r. split; [done|]. intros ??? []. }
  simpl in H. destruct (ReadBytes (unread p ++ child_output env)) as [[l rest]|].
  - exists [(now w, EvWrite s (line ++ ["010"])); (now w, EvRead s l)].
    split.
    + destruct (Unmarshal (TrimSpace l)); inversion H; subst; simpl;
        by rewrite <- app_assoc.
    + intros t s' d [Hin|[Hin|[]]]; inversion Hin; eauto.
  - inversion H; subst. simpl. eexists. split; [done|].
    intros t s' d [Hin|[]]. inversion Hin; eauto.
Qed.

(** The resolution of a session writes nothing. *)
Lemma getOrCreateSession_trace env k w r w1 :
  getOrCreateSession env k w = (r, w1) ->
  exists evs, trace w1 = trace w ++ evs /\ forall t s d, ~ In (t, EvWrite s d) evs.
Proof.
  unfold getOrCreateSession. destruct (sessions w !! k).
  { intros H; inversion H; subst. exists []. rewrite app_nil_r. split; [done|]. intros ??? []. }
  destruct (NewMCPSession env w) as [[s|e] w0] eqn:HN; intros H; inversion H; subst.
  - destruct (NewMCPSession_Ok _ _ _ _ HN) as (_ & _ & _ & _ & Hnow & Ht).
    simpl. rewrite Ht, <- app_assoc. eexists. split; [done|].
    intros t s' d [Hin|[Hin|[]]]; inversion Hin.
  - apply NewMCPSession_Err in HN as ->. exists []. rewrite app_nil_r.
    split; [done|]. intros ??? [].
Qed.

(** What [handleMCP] writes to a child: the request decoded from the body,
    marshalled, and a newline. *)
Lemma handleMCP_written env r w :
  exists evs, trace (snd (handleMCP env r w)) = trace w ++ evs /\
    forall t s d, In (t, EvWrite s d) evs ->
      exists req line,
        Decode (http_Body r) = Ok req /\ Marshal req = Ok line /\ d = line ++ ["010"].
Proof.
  unfold handleMCP. destruct (negb (String.eqb (http_Method r) "POST")).
  { exists []. simpl. rewrite app_nil_r. split; [done|]. intros ??? []. }
  cbv zeta.
  destruct (getOrCreateSession env (sessionID_of r) w) as [[s|e] w1] eqn:Hg.
  2:{ destruct (getOrCreateSession_trace _ _ _ _ _ Hg) as (evs & Ht & Hn).
      exists evs. split; [done|]. intros t s d Hin. by destruct (Hn t s d). }
  destruct (getOrCreateSession_trace _ _ _ _ _ Hg) as (evs1 & Ht1 & Hn1).
  destruct (Decode (http_Body r)) as [req|e].
  2:{ exists evs1. split; [done|]. intros t s' d Hin. by destruct (Hn1 t s' d). }
  destruct (SendRequest env s req w1) as [res w2] eqn:HS.
  destruct (SendRequest_written _ _ _ _ _ _ HS) as (evs2 & Ht2 & Hw2).
  exists (evs1 ++ evs2). split.
  - destruct res; simpl; by rewrite Ht2, Ht1, app_assoc.
  - intros t s' d Hin. apply in_app_or in Hin as [Hin|Hin].
    + by destruct (Hn1 t s' d).
    + destruct (Hw2 t s' d Hin) as (line & HM & ->). eauto.
Qed.

(** C10 as the claim states it, for one request: the params member of every
    line written holds the bytes of the params member received. *)
Definition C10_as_stated (env : Env) (r : Request) (w : World) : Prop :=
  forall data t s d,
    readValue (http_Body r) = Ok data ->
    In (t, EvWrite s d) (trace (snd (handleMCP env r w))) ->
    received request_fields "params" (members d)
    = received request_fields "params" (members data).

Definition spaced_params : bytes :=
  js "{'jsonrpc':'2.0','id':'a','method':'tools/call','params':{'name': 'x'},'trace':true}".

(** C10, counterexample: a body whose params value has a space after the
    colon, and an unknown member.  The line written is
    [{"jsonrpc":"2.0","id":"a","method":"tools/call","params":{"name":"x"}}]:
    the unknown member is gone, and so is the space inside params, since
    [Marshal] compacts a [RawMessage]. *)
Lemma C10_counterexample : ~ C10_as_stated env_ok (post "k" spaced_params) empty_world.
Proof.
  intros H.
  specialize (H spaced_params 0%Z 0%nat
    (js "{'jsonrpc':'2.0','id':'a','method':'tools/call','params':{'name':'x'}}"
     ++ ["010"]) eq_refl).
  assert (Hin : In (0%Z, EvWrite 0
            (js "{'jsonrpc':'2.0','id':'a','method':'tools/call','params':{'name':'x'}}"
             ++ ["010"]))
          (trace (snd (handleMCP env_ok (post "k" spaced_params) empty_world)))).
  { vm_compute. right. right. left. reflexivity. }
  specialize (H Hin). vm_compute in H. discriminate H.
Qed.

(** C10, amended: a line written to a child by [handleMCP] is the request
    decoded from the body, marshalled, and a newline: an object of the
    members jsonrpc, id, method and params, in this order, without id or
    params when they are empty.  When the body is an object, the request
    depends on the members of the known names only, so that any other
    member is dropped, and its params are the bytes of the last params
    member received.  The params written are these bytes compacted by
    [Marshal]: they are the bytes received when these hold no white space,
    none of [<], [>], [&] and no byte 0xE2, and not in general. *)
Theorem C10_forwarded_line env r w evs t s d :
  trace (snd (handleMCP env r w)) = trace w ++ evs ->
  In (t, EvWrite s d) evs ->
  exists data req params,
    readValue (http_Body r) = Ok data /\
    Decode (http_Body r) = Ok req /\
    d = encode_struct (request_members req params) ++ ["010"] /\
    sublist (map fst (request_members req params)) request_fields /\
    (opens_object data = true ->
       Params req = default [] (received request_fields "params" (members data)) /\
       forall data', opens_object data' = true ->
         List.filter (known request_fields) (members data')
         = List.filter (known request_fields) (members data) ->
         unmarshal assign_request data' zero_MCPRequest = Ok req) /\
    (Params req = [] -> params = []) /\
    (Params req <> [] ->
       exists c, compact (Params req) = Ok c /\ params = [("params"%string, c)] /\
                 (verbatim (Params req) = true -> c = Params req)).
Proof.
  intros Ht Hin.
  destruct (handleMCP_written env r w) as (evs0 & Ht0 & Hw).
  rewrite Ht in Ht0. apply app_inv_head in Ht0 as ->.
  destruct (Hw t s d Hin) as (req & line & Hd & HM & ->).
  destruct (Marshal_members req line HM) as (params & Hp & -> & Hsub).
  unfold Decode in Hd. destruct (readValue (http_Body r)) as [data|e] eqn:Hr;
    [|discriminate Hd]. simpl in Hd.
  exists data, req, params. split; [done|]. split.
  { unfold Decode. rewrite Hr. exact Hd. }
  split; [done|]. split; [done|]. split; [|split].
  - intros Ho. split.
    + rewrite (unmarshal_fst _ _ _ _ Ho Hd). by rewrite assign_request_Params.
    + intros data' Ho' Hk. rewrite unmarshal_object in Hd |- * by done.
      rewrite assign_request_known in Hd. rewrite assign_request_known, Hk. exact Hd.
  - intros He. rewrite He in Hp. simpl in Hp. by inversion Hp.
  - intros Hne. destruct (raw_member_value _ _ _ Hp Hne) as (c & Hc & ->).
    exists c. split; [done|]. split; [done|]. by apply compact_verbatim.
Qed.

Definition call_with_trace : bytes :=
  js "{'jsonrpc':'2.0','id':'a','method':'tools/call','params':{'name':'x'},'trace':true}".

Lemma C10_forwarded_line_witness :
  exists data req params,
    readValue call_with_trace = Ok data /\
    Decode call_with_trace = Ok req /\
    js "{'jsonrpc':'2.0','id':'a','method':'tools/call','params':{'name':'x'}}" ++ ["010"]
    = encode_struct (request_members req params) ++ ["010"] /\
    sublist (map fst (request_members req params)) request_fields /\
    (opens_object data = true ->
       Params req = default [] (received request_fields "params" (members data)) /\
       forall data', opens_object data' = true ->
         List.filter (known request_fields) (members data')
         = List.filter (known request_fields) (members data) ->
         unmarshal assign_request data' zero_MCPRequest = Ok req) /\
    (Params req = [] -> params = []) /\
    (Params req <> [] ->
       exists c, compact (Params req) = Ok c /\ params = [("params"%string, c)] /\
                 (verbatim (Params req) = true -> c = Params req)).
Proof.
  apply (C10_forwarded_line env_ok (post "k" call_with_trace) empty_world
           [(0%Z, EvSpawn 0); (0%Z, EvStore "k" 0);
            (0%Z, EvWrite 0
               (js "{'jsonrpc':'2.0','id':'a','method':'tools/call','params':{'name':'x'}}"
                ++ ["010"]));
            (0%Z, EvRead 0 (js "{'jsonrpc':'2.0','id':'a','result':{}}" ++ ["010"]))]
           0%Z 0%nat).
  - vm_compute. reflexivity.
  - right. right. left. reflexivity.
Defined.

(** A request answered with 200 went through every step of [handleMCP]. *)
Lemma handleMCP_OK env r w :
  status (fst (handleMCP env r w)) = StatusOK ->
  exists s w1 req resp w2,
    getOrCreateSession env (sessionID_of r) w = (Ok s, w1) /\
    Decode (http_Body r) = Ok req /\
    SendRequest env s req w1 = (Ok resp, w2) /\
    handleMCP env r w
    = ({| status := StatusOK; content_type := "application/json";
          resp_body := Bytes (match Encode resp with Ok data => data | Err _ => [] end) |},
       w2).
Proof.
  unfold handleMCP. destruct (negb (String.eqb (http_Method r) "POST")); [discriminate|].
  cbv zeta.
  destruct (getOrCreateSession env (sessionID_of r) w) as [[s|e] w1]; [|discriminate].
  destruct (Decode (http_Body r)) as [req|e]; [|discriminate].
  destruct (SendRequest env s req w1) as [[resp|e] w2] eqn:HS; [|discriminate].
  intros _. exists s, w1, req, resp, w2. auto.
Qed.

(** The id member that [Marshal] and [Encode] write for an id received as
    the bytes [recv], or not received: the id is decoded into an
    [interface{}] value, a nil value is left out, and any other is encoded
    again. *)
Definition echoed (recv : option bytes) : list (string * bytes) :=
  any_member "id" (match recv with Some raw => fst (decode_any raw) | None => ANil end).

(** C3 as the claim states it, for one request: the id member of the body
    returned to the caller holds the bytes of the id member of the line
    read from the child, and is absent when that one is. *)
Definition C3_as_stated (env : Env) (r : Request) (w : World) : Prop :=
  forall line out,
    last_read (snd (handleMCP env r w)) = Some line ->
    resp_body (fst (handleMCP env r w)) = Bytes out ->
    received response_fields "id" (members out)
    = received response_fields "id" (members line).

(** The child answers with an explicit null id. *)
Definition env_null_id : Env := env_reply (js "{'jsonrpc':'2.0','id':null,'result':{}}").

(** C3, counterexample: the child writes
    [{"jsonrpc":"2.0","id":null,"result":{}}] and the caller receives
    [{"jsonrpc":"2.0","result":{}}]: a null id is decoded to a nil
    [interface{}], which [omitempty] leaves out. *)
Lemma C3_counterexample : ~ C3_as_stated env_null_id (post "k" ping) empty_world.
Proof.
  intros H.
  specialize (H (js "{'jsonrpc':'2.0','id':null,'result':{}}" ++ ["010"])
                (js "{'jsonrpc':'2.0','result':{}}" ++ ["010"]) eq_refl eq_refl).
  vm_compute in H. discriminate H.
Qed.

(** An integer id that is not a float64 comes back as its neighbour, and a
    decimal id in the shortest form of its value. *)
Example id_large_integer :
  echoed (Some (b "9007199254740993")) = [("id"%string, b "9007199254740992")].
Proof. vm_compute. reflexivity. Qed.

Example id_decimal : echoed (Some (b "1.0")) = [("id"%string, b "1")].
Proof. vm_compute. reflexivity. Qed.

Example id_integer : echoed (Some (b "17")) = [("id"%string, b "17")].
Proof. vm_compute. reflexivity. Qed.

(** C3, amended: when a request is answered with 200, the id of the body
    was decoded into the request and encoded into the line written to the
    child, and the id of the line read from the child was decoded into the
    response and encoded into the body returned; in both directions the id
    member written is [echoed] of the id received.  An id that is a string
    of plain characters is written byte for byte as received; an absent id
    and a null id are both written as no id member, so they are not told
    apart. *)
Theorem C3_id_decoded_then_encoded env r w :
  status (fst (handleMCP env r w)) = StatusOK ->
  exists data req params line resp,
    readValue (http_Body r) = Ok data /\
    Decode (http_Body r) = Ok req /\
    (exists t s, In (t, EvWrite s (encode_struct (request_members req params) ++ ["010"]))
                    (trace (snd (handleMCP env r w)))) /\
    (opens_object data = true ->
       any_member "id" (ID req) = echoed (received request_fields "id" (members data))) /\
    last_read (snd (handleMCP env r w)) = Some line /\
    Unmarshal (TrimSpace line) = Ok resp /\
    (opens_object (TrimSpace line) = true ->
       any_member "id" (resp_ID resp)
       = echoed (received response_fields "id" (members (TrimSpace line)))) /\
    (forall out, Encode resp = Ok out ->
       resp_body (fst (handleMCP env r w)) = Bytes out /\
       exists result error,
         out = encode_struct
                 ([("jsonrpc"%string, quote (resp_JSONRPC resp))]
                  ++ any_member "id" (resp_ID resp) ++ result ++ error) ++ ["010"]) /\
    echoed None = [] /\
    echoed (Some (b "null")) = [] /\
    (forall s, plain s = true ->
       echoed (Some (dquote :: s ++ [dquote])) = [("id"%string, dquote :: s ++ [dquote])]).
Proof.
  intros H200.
  destruct (handleMCP_OK _ _ _ H200) as (s & w1 & req & resp & w2 & Hg & Hd & HS & Hh).
  destruct (SendRequest_Ok _ _ _ _ _ _ HS) as (rb & line & HM & HU & Ht).
  destruct (Marshal_members req rb HM) as (params & _ & -> & _).
  assert (Hdata : exists data, readValue (http_Body r) = Ok data /\
                    unmarshal assign_request data zero_MCPRequest = Ok req).
  { unfold Decode in Hd. destruct (readValue (http_Body r)) as [data|e]; [|discriminate Hd].
    eauto. }
  destruct Hdata as (data & Hr & Hu).
  exists data, req, params, line, resp. rewrite Hh. cbn [fst snd].
  split; [done|]. split; [done|]. split.
  { exists (now w1), s. rewrite Ht. apply in_or_app. right. by left. }
  split.
  { intros Ho. rewrite (unmarshal_fst _ _ _ _ Ho Hu), assign_request_ID. unfold echoed.
    by destruct (received request_fields "id" (members data)). }
  split.
  { unfold last_read. rewrite Ht.
    change [(now w1, EvWrite s (encode_struct (request_members req params) ++ ["010"]));
            (now w1, EvRead s line)]
      with ([(now w1, EvWrite s (encode_struct (request_members req params) ++ ["010"]))]
            ++ [(now w1, EvRead s line)]).
    by rewrite app_assoc, last_snoc. }
  split; [done|]. split.
  { intros Ho. unfold Unmarshal in HU.
    destruct (checkValid (TrimSpace line)); [|discriminate HU]. simpl in HU.
    rewrite (unmarshal_fst _ _ _ _ Ho HU), assign_response_ID. unfold echoed.
    by destruct (received response_fields "id" (members (TrimSpace line))). }
  split.
  { intros out HE. simpl. rewrite HE. split; [done|].
    unfold Encode in HE.
    destruct (raw_member "result" (Result resp)) as [result|e]; [|discriminate HE].
    destruct (raw_member "error" (Error resp)) as [error|e]; [|discriminate HE].
    simpl in HE. inversion HE. eauto. }
  split; [done|]. split; [done|].
  intros s0 Hp. unfold echoed. rewrite decode_any_plain by done. simpl.
  by rewrite quote_plain.
Qed.

Lemma C3_id_decoded_then_encoded_witness :
  exists data req params line resp,
    readValue ping = Ok data /\
    Decode ping = Ok req /\
    (exists t s, In (t, EvWrite s (encode_struct (request_members req params) ++ ["010"]))
                    (trace (snd (handleMCP env_null_id (post "k" ping) empty_world)))) /\
    (opens_object data = true ->
       any_member "id" (ID req) = echoed (received request_fields "id" (members data))) /\
    last_read (snd (handleMCP env_null_id (post "k" ping) empty_world)) = Some line /\
    Unmarshal (TrimSpace line) = Ok resp /\
    (opens_object (TrimSpace line) = true ->
       any_member "id" (resp_ID resp)
       = echoed (received response_fields "id" (members (TrimSpace line)))) /\
    (forall out, Encode resp = Ok out ->
       resp_body (fst (handleMCP env_null_id (post "k" ping) empty_world)) = Bytes out /\
       exists result error,
         out = encode_struct
                 ([("jsonrpc"%string, quote (resp_JSONRPC resp))]
                  ++ any_member "id" (resp_ID resp) ++ result ++ error) ++ ["010"]) /\
    echoed None = [] /\
    echoed (Some (b "null")) = [] /\
    (forall s, plain s = true ->
       echoed (Some (dquote :: s ++ [dquote])) = [("id"%string, dquote :: s ++ [dquote])]).
Proof.
  apply (C3_id_decoded_then_encoded env_null_id (post "k" ping) empty_world).
  vm_compute. reflexivity.
Defined.

End WrapperFacts.

(** ** Concurrent resolutions of one key *)

Module RaceFacts.

Import Wrapper Race Samples.

Lemma run_cons env i l c : run env (i :: l) c = run env l (step env i c).
Proof. reflexivity. Qed.

Lemma step_eq env i c key p :
  threads c !! i = Some (key, p) ->
  step env i c =
    match p with
    | AtLoad =>
        match sessions (world c) !! key with
        | Some val => {| world := world c;
                         threads := <[i := (key, Returned (Ok val))]> (threads c) |}
        | None => {| world := world c; threads := <[i := (key, AtNew)]> (threads c) |}
        end
    | AtNew =>
        match NewMCPSession env (world c) with
        | (Err e, w) => {| world := w;
                           threads := <[i := (key, Returned (Err e))]> (threads c) |}
        | (Ok session, w) => {| world := w;
                                threads := <[i := (key, AtStore session)]> (threads c) |}
        end
    | AtStore session =>
        {| world := register key session (world c);
           threads := <[i := (key, Returned (Ok session))]> (threads c) |}
    | Returned _ => c
    end.
Proof. intros H. unfold step. rewrite H. reflexivity. Qed.

(** Rewrites the innermost step, the one applied to an explicit
    configuration, for a goroutine known to stand at [p]. *)
Ltac inner_step key p :=
  match goal with
  | |- context [step ?env ?i {| world := ?w; threads := ?t |}] =>
      rewrite (step_eq env i {| world := w; threads := t |} key p)
        by (simpl; rewrite ?list_lookup_insert_eq by (rewrite ?length_insert; done);
            done);
      simpl
  end.

(** A goroutine that runs its three steps with no other in between does
    what [getOrCreateSession] does. *)
Lemma run_alone (env : Env) (i : nat) (key : string) (c : config) :
  threads c !! i = Some (key, AtLoad) ->
  threads (run env [i; i; i] c) !! i
    = Some (key, Returned (fst (getOrCreateSession env key (world c)))) /\
  world (run env [i; i; i] c) = snd (getOrCreateSession env key (world c)).
Proof.
  intros Hi. assert (Hlt : i < length (threads c)) by (eapply lookup_lt_Some; eauto).
  unfold getOrCreateSession, run. simpl. rewrite (step_eq _ _ _ _ _ Hi).
  destruct (sessions (world c) !! key) as [s|] eqn:Hk.
  - inner_step key (Returned (Ok s)). inner_step key (Returned (Ok s)).
    by rewrite list_lookup_insert_eq.
  - inner_step key AtNew.
    destruct (NewMCPSession env (world c)) as [[s|e] w1] eqn:HN.
    + inner_step key (AtStore s).
      by rewrite list_lookup_insert_eq by (by rewrite !length_insert).
    + inner_step key (Returned (Err e)).
      by rewrite list_lookup_insert_eq by (by rewrite !length_insert).
Qed.

(** Two goroutines resolving the same unseen key one after the other start
    one process, and both get it. *)
Lemma one_after_the_other (env : Env) (key : string) (w w1 : World) (s : nat) :
  sessions w !! key = None ->
  NewMCPSession env w = (Ok s, w1) ->
  let c := run env [0; 0; 0; 1; 1; 1]
             {| world := w; threads := [(key, AtLoad); (key, AtLoad)] |} in
  threads c = [(key, Returned (Ok s)); (key, Returned (Ok s))] /\
  spawned (world c) = S (spawned w).
Proof.
  intros Hk HN. destruct (WrapperFacts.NewMCPSession_Ok _ _ _ _ HN) as (_ & Hp & Hs & _).
  unfold run. simpl.
  inner_step key AtLoad. rewrite Hk.
  inner_step key AtNew. rewrite HN.
  inner_step key (AtStore s).
  inner_step key AtLoad. rewrite lookup_insert_eq.
  split; [reflexivity|]. unfold spawned. simpl. rewrite Hp, length_app. simpl. lia.
Qed.

(** C2, the failing interleaving: two goroutines resolve the unseen key
    ["k"]; both load the registry before either stores.  Each starts a
    process of its own, so two processes run for one key; the registry keeps
    the second session only, and the first is left to its goroutine. *)
Theorem C2_two_processes_for_one_key :
  let c := run env_ok [0; 1; 0; 1; 0; 1]
             {| world := empty_world; threads := [("k"%string, AtLoad); ("k"%string, AtLoad)] |} in
  threads c = [("k"%string, Returned (Ok 0)); ("k"%string, Returned (Ok 1))] /\
  spawned (world c) = 2 /\
  sessions (world c) !! "k"%string = Some 1 /\
  map sl_session (sleepers (world c)) = [0; 1].
Proof. vm_compute. auto. Qed.

End RaceFacts.

(** ** Concurrent exchanges on one session *)

Module MutexFacts.

Import Json Mutex Samples.

Lemma exchanges_snoc ops op : exchanges (ops ++ [op]) = exchange_step (exchanges ops) op.
Proof. unfold exchanges. by rewrite fold_left_app. Qed.

(** What holds in every configuration that can be reached: a goroutine
    between [Lock] and [Unlock] is the holder of the mutex, the holder is
    such a goroutine, and the operations on the pipes are whole exchanges
    followed, when the holder's read is due, by its write. *)
Record inv (c : config) : Prop := {
  inv_holder : forall i req p,
    threads c !! i = Some (req, p) -> holds p = true -> mu c = Some i;
  inv_held : forall i,
    mu c = Some i -> exists req p, threads c !! i = Some (req, p) /\ holds p = true;
  inv_pipe : exchanges (pipe c) = Some (reader c)
}.

Lemma inv_initial reqs : inv (initial reqs).
Proof.
  split; simpl.
  - intros i req p Hi Hh. rewrite list_lookup_fmap in Hi.
    destruct (reqs !! i); simpl in Hi; inversion Hi; subst. discriminate.
  - intros i Hi. discriminate.
  - reflexivity.
Qed.

Lemma goto_lookup_eq c i req p req' p' m ops :
  threads c !! i = Some (req, p) ->
  threads (goto c i req' p' m ops) !! i = Some (req', p').
Proof. intros H. simpl. apply list_lookup_insert_eq. eapply lookup_lt_Some; eauto. Qed.

Lemma goto_lookup_ne c i j req' p' m ops :
  j <> i -> threads (goto c i req' p' m ops) !! j = threads c !! j.
Proof. intros H. simpl. by apply list_lookup_insert_ne. Qed.

(** A step of the holder that keeps the mutex and appends [ops]. *)
Lemma inv_keep c i req p p' ops :
  inv c -> threads c !! i = Some (req, p) -> holds p = true -> holds p' = true ->
  exchanges (pipe c ++ ops) = Some (match p' with AtRead => Some i | _ => None end) ->
  inv (goto c i req p' (mu c) ops).
Proof.
  intros [Hh Hd Hp] Hi Hp0 Hp' Hops.
  pose proof (Hh _ _ _ Hi Hp0) as Hmu.
  split.
  - intros j rq pj Hj Hhj. destruct (decide (j = i)) as [->|Hne]; [exact Hmu|].
    rewrite goto_lookup_ne in Hj by done. exact (Hh _ _ _ Hj Hhj).
  - intros j Hj. simpl in Hj. rewrite Hmu in Hj. inversion Hj; subst j.
    exists req, p'. split; [eapply goto_lookup_eq; eauto|done].
  - simpl pipe. rewrite Hops. unfold reader. simpl mu. rewrite Hmu.
    erewrite goto_lookup_eq by eauto. by destruct p'.
Qed.

Lemma inv_step c c' i : inv c -> step i c c' -> inv c'.
Proof.
  intros Hinv Hst. pose proof Hinv as [Hh Hd Hp].
  destruct Hst as [req Hi Hmu|req rb Hi HM|req e Hi HM|req rb Hi|req rb e Hi
                  |req l Hi|req e Hi|req l resp Hi HU|req l e Hi HU|req r Hi].
  - (* Lock *)
    split.
    + intros j rq pj Hj Hhj. destruct (decide (j = i)) as [->|Hne]; [done|].
      rewrite goto_lookup_ne in Hj by done.
      pose proof (Hh _ _ _ Hj Hhj). congruence.
    + intros j Hj. simpl in Hj. inversion Hj; subst j.
      exists req, AtMarshal. split; [eapply goto_lookup_eq; eauto|done].
    + simpl pipe. rewrite app_nil_r, Hp. unfold reader. simpl mu. rewrite Hmu.
      erewrite goto_lookup_eq by eauto. done.
  - eapply inv_keep; eauto. rewrite app_nil_r, Hp. unfold reader.
    rewrite (Hh _ _ _ Hi eq_refl), Hi. done.
  - eapply inv_keep; eauto. rewrite app_nil_r, Hp. unfold reader.
    rewrite (Hh _ _ _ Hi eq_refl), Hi. done.
  - eapply inv_keep; eauto. rewrite exchanges_snoc, Hp. unfold reader.
    rewrite (Hh _ _ _ Hi eq_refl), Hi. done.
  - eapply inv_keep; eauto. rewrite exchanges_snoc, Hp. unfold reader.
    rewrite (Hh _ _ _ Hi eq_refl), Hi. done.
  - eapply inv_keep; eauto. rewrite exchanges_snoc, Hp. unfold reader.
    rewrite (Hh _ _ _ Hi eq_refl), Hi. simpl. by rewrite Nat.eqb_refl.
  - eapply inv_keep; eauto. rewrite exchanges_snoc, Hp. unfold reader.
    rewrite (Hh _ _ _ Hi eq_refl), Hi. simpl. by rewrite Nat.eqb_refl.
  - eapply inv_keep; eauto. rewrite app_nil_r, Hp. unfold reader.
    rewrite (Hh _ _ _ Hi eq_refl), Hi. done.
  - eapply inv_keep; eauto. rewrite app_nil_r, Hp. unfold reader.
    rewrite (Hh _ _ _ Hi eq_refl), Hi. done.
  - (* Unlock *)
    pose proof (Hh _ _ _ Hi eq_refl) as Hmu.
    split.
    + intros j rq pj Hj Hhj. destruct (decide (j = i)) as [->|Hne].
      * erewrite goto_lookup_eq in Hj by eauto. inversion Hj; subst. discriminate.
      * rewrite goto_lookup_ne in Hj by done.
        pose proof (Hh _ _ _ Hj Hhj). congruence.
    + intros j Hj. discriminate.
    + simpl pipe. rewrite app_nil_r, Hp. unfold reader. simpl mu. rewrite Hmu, Hi. done.
Qed.

Lemma inv_reachable c0 c : inv c0 -> reachable c0 c -> inv c.
Proof. intros H0 Hr. induction Hr; eauto using inv_step. Qed.

(** C5: in every configuration that concurrent calls of [SendRequest] on one
    session can reach, (1) a goroutine that is past [Lock] and has not run
    the deferred [Unlock] holds the mutex, in particular from before its
    write until after its read; (2) two goroutines are never both there;
    (3) the operations on the pipes are whole exchanges one after the other:
    a write is followed at once by the read of the same goroutine, before
    any write of another; (4) a goroutine that has returned, with a response
    or with any of the errors, does not hold the mutex; and (5) a goroutine
    about to return can always run its unlock. *)
Theorem C5_exchanges_do_not_interleave (reqs : list MCPRequest) (c : config) :
  reachable (initial reqs) c ->
  (forall i req p, threads c !! i = Some (req, p) -> holds p = true -> mu c = Some i) /\
  (forall i j req req' p p',
     threads c !! i = Some (req, p) -> threads c !! j = Some (req', p') ->
     holds p = true -> holds p' = true -> i = j) /\
  (exists due, exchanges (pipe c) = Some due) /\
  (forall i req r, threads c !! i = Some (req, Returned r) -> mu c <> Some i) /\
  (forall i req r, threads c !! i = Some (req, Returning r) -> exists c', step i c c').
Proof.
  intros Hr. pose proof (inv_reachable _ _ (inv_initial reqs) Hr) as [Hh Hd Hp].
  repeat split.
  - exact Hh.
  - intros i j req req' p p' Hi Hj Hpi Hpj.
    pose proof (Hh _ _ _ Hi Hpi). pose proof (Hh _ _ _ Hj Hpj). congruence.
  - eauto.
  - intros i req r Hi Hmu. destruct (Hd _ Hmu) as (rq & p & Hq & Hhq).
    rewrite Hi in Hq. inversion Hq; subst. discriminate.
  - intros i req r Hi. eexists. eapply step_unlock; eauto.
Qed.

(** Two goroutines with the same request; the first has taken the lock,
    marshalled its request and written it, and its read is due. *)
Definition two_callers : list MCPRequest := [ping_request; ping_request].

Definition first_has_written : config :=
  let c1 := goto (initial two_callers) 0 ping_request AtMarshal (Some 0) [] in
  let c2 := goto c1 0 ping_request (AtWrite (ping ++ ["010"])) (mu c1) [] in
  goto c2 0 ping_request AtRead (mu c2) [(0, IoWrite (ping ++ ["010"]) true)].

Lemma C5_exchanges_do_not_interleave_witness :
  (forall i req p, threads first_has_written !! i = Some (req, p) ->
     holds p = true -> mu first_has_written = Some i) /\
  (forall i j req req' p p',
     threads first_has_written !! i = Some (req, p) ->
     threads first_has_written !! j = Some (req', p') ->
     holds p = true -> holds p' = true -> i = j) /\
  (exists due, exchanges (pipe first_has_written) = Some due) /\
  (forall i req r, threads first_has_written !! i = Some (req, Returned r) ->
     mu first_has_written <> Some i) /\
  (forall i req r, threads first_has_written !! i = Some (req, Returning r) ->
     exists c', step i first_has_written c').
Proof.
  apply (C5_exchanges_do_not_interleave two_callers first_has_written).
  unfold first_has_written.
  eapply reach_step; [eapply reach_step; [eapply reach_step; [apply reach_refl|]|]|].
  - apply (step_lock 0 _ ping_request); reflexivity.
  - apply (step_marshal_ok 0 _ ping_request ping); [reflexivity|vm_compute; reflexivity].
  - apply (step_write_ok 0 _ ping_request (ping ++ ["010"])). reflexivity.
Defined.

End MutexFacts.

(** ** The eviction of sessions *)

Module TimerFacts.

Import Json Wrapper Samples WrapperFacts.

(** What a request does to the registry and the sleepers: nothing, or, for
    a POST with an unseen key whose process starts, one entry and one
    sleeper for it, due 30 minutes from now. *)
Lemma handleMCP_frame env r w :
  let w' := snd (handleMCP env r w) in
  now w' = now w /\
  ((sessions w' = sessions w /\ sleepers w' = sleepers w
    /\ length (procs w') = length (procs w)) \/
   (http_Method r = "POST"%string /\ sessions w !! sessionID_of r = None /\
    sessions w' = <[sessionID_of r := length (procs w)]> (sessions w) /\
    sleepers w' = sleepers w ++ [{| sl_key := sessionID_of r;
                                    sl_session := length (procs w);
                                    sl_wake := now w + 30 * Minute |}] /\
    length (procs w') = S (length (procs w)))).
Proof.
  cbv zeta. unfold handleMCP.
  destruct (String.eqb_spec (http_Method r) "POST") as [Hm|Hm]; simpl; [|by auto].
  destruct (getOrCreateSession env (sessionID_of r) w) as [[s|e] w1] eqn:Hg.
  2:{ apply getOrCreateSession_Err in Hg as (-> & _). simpl. auto. }
  assert (Hw1 : now w1 = now w /\
    ((sessions w1 = sessions w /\ sleepers w1 = sleepers w
      /\ length (procs w1) = length (procs w)) \/
     (sessions w !! sessionID_of r = None /\
      sessions w1 = <[sessionID_of r := length (procs w)]> (sessions w) /\
      sleepers w1 = sleepers w ++ [{| sl_key := sessionID_of r;
                                      sl_session := length (procs w);
                                      sl_wake := now w + 30 * Minute |}] /\
      length (procs w1) = S (length (procs w))))).
  { destruct (sessions w !! sessionID_of r) as [s0|] eqn:Hk.
    - rewrite (getOrCreateSession_seen _ _ _ _ Hk) in Hg. inversion Hg; subst. auto.
    - destruct (getOrCreateSession_unseen _ _ _ _ _ Hk Hg) as (w0 & HN & ->).
      destruct (NewMCPSession_Ok _ _ _ _ HN) as (-> & Hp & Hs & Hsl & Hnow & _).
      simpl. rewrite Hs, Hsl, Hnow, Hp, length_app. simpl.
      split; [done|]. right. repeat split; auto. lia. }
  destruct (Decode (http_Body r)) as [req|e]; simpl.
  2:{ destruct Hw1 as [? [?|?]]; [auto|]. split; [done|]. right. tauto. }
  destruct (SendRequest env s req w1) as [res w2] eqn:HS.
  destruct (SendRequest_frame _ _ _ _ _ _ HS) as (Hse & Hsl & Hnow & Hlen & _).
  assert (Hgoal : now w2 = now w /\
    ((sessions w2 = sessions w /\ sleepers w2 = sleepers w
      /\ length (procs w2) = length (procs w)) \/
     (http_Method r = "POST"%string /\ sessions w !! sessionID_of r = None /\
      sessions w2 = <[sessionID_of r := length (procs w)]> (sessions w) /\
      sleepers w2 = sleepers w ++ [{| sl_key := sessionID_of r;
                                      sl_session := length (procs w);
                                      sl_wake := now w + 30 * Minute |}] /\
      length (procs w2) = S (length (procs w))))).
  { rewrite Hse, Hsl, Hnow, Hlen. destruct Hw1 as [? [?|?]]; [auto|].
    split; [done|]. right. tauto. }
  destruct res; exact Hgoal.
Qed.

(** What holds of the sleepers in every world the server can be in: each
    sleeper's key is registered to its session, whose process exists; no
    two sleepers have the same key; the sleepers are in the order of their
    wake times, all of which lie ahead, 30 minutes at most. *)
Record wf (w : World) : Prop := {
  wf_registered : forall x, x ∈ sleepers w ->
    sessions w !! sl_key x = Some (sl_session x) /\ sl_session x < length (procs w);
  wf_keys : NoDup (map sl_key (sleepers w));
  wf_sorted : StronglySorted (fun x y => (sl_wake x <= sl_wake y)%Z) (sleepers w);
  wf_ahead : forall x, x ∈ sleepers w ->
    (now w < sl_wake x <= now w + 30 * Minute)%Z
}.

Lemma wf_empty : wf empty_world.
Proof.
  split; simpl.
  - intros x Hx. by apply elem_of_nil in Hx.
  - constructor.
  - constructor.
  - intros x Hx. by apply elem_of_nil in Hx.
Qed.

Lemma Minute_pos : (0 < 30 * Minute)%Z.
Proof. reflexivity. Qed.

Lemma StronglySorted_snoc {A} (R : A -> A -> Prop) (l : list A) (y : A) :
  StronglySorted R l -> (forall x, x ∈ l -> R x y) -> StronglySorted R (l ++ [y]).
Proof.
  induction 1 as [|a l Hl IH Ha]; intros Hy; simpl.
  - repeat constructor.
  - constructor.
    + apply IH. intros x Hx. apply Hy. by right.
    + apply Forall_app. split; [exact Ha|]. constructor; [|constructor].
      apply Hy. by left.
Qed.

Lemma wf_handle env r w : wf w -> wf (snd (handleMCP env r w)).
Proof.
  intros [Hreg Hkeys Hsort Hahead].
  destruct (handleMCP_frame env r w) as [Hnow [(Hs & Hsl & Hlen)|(Hm & Hk & Hs & Hsl & Hlen)]].
  - split; rewrite ?Hs, ?Hsl, ?Hlen, ?Hnow; auto.
  - pose proof Minute_pos.
    split; rewrite ?Hs, ?Hsl, ?Hlen, ?Hnow.
    + intros x [Hx|Hx]%elem_of_app.
      * destruct (Hreg _ Hx) as [Hx1 Hx2]. split; [|lia].
        rewrite lookup_insert_ne; [done|]. intros Heq. rewrite Heq in Hk. congruence.
      * apply list_elem_of_singleton in Hx as ->. simpl.
        split; [apply lookup_insert_eq|lia].
    + rewrite map_app. simpl. apply NoDup_app. split; [done|]. split.
      * intros k Hk1 Hk2. apply list_elem_of_singleton in Hk2 as ->.
        apply list_elem_of_fmap in Hk1 as (x & Hxk & Hx).
        destruct (Hreg _ Hx) as [Hx1 _]. rewrite <- Hxk in Hx1. congruence.
      * apply NoDup_singleton.
    + apply StronglySorted_snoc; [done|]. intros x Hx. simpl.
      pose proof (Hahead _ Hx). lia.
    + intros x [Hx|Hx]%elem_of_app.
      * pose proof (Hahead _ Hx). lia.
      * apply list_elem_of_singleton in Hx as ->. simpl. lia.
Qed.

Lemma evict_frame x w :
  sleepers (evict x w) = sleepers w /\ now (evict x w) = now w /\
  sessions (evict x w) = delete (sl_key x) (sessions w) /\
  length (procs (evict x w)) = length (procs w).
Proof.
  unfold evict, Close. simpl.
  destruct (procs w !! sl_session x); simpl; rewrite ?length_insert; auto.
Qed.

(** The goroutine deletes the key, then closes the session. *)
Lemma evict_trace x w :
  sl_session x < length (procs w) ->
  trace (evict x w)
    = trace w ++ [(now w, EvDelete (sl_key x)); (now w, EvClose (sl_session x))].
Proof.
  intros Hlt. unfold evict, Close. simpl.
  destruct (procs w !! sl_session x) eqn:Hp.
  - simpl. by rewrite <- app_assoc.
  - apply lookup_ge_None in Hp. lia.
Qed.

Lemma evict_trace_grows x w : exists post, trace (evict x w) = trace w ++ post.
Proof.
  unfold evict, Close. simpl. destruct (procs w !! sl_session x); simpl.
  - rewrite <- app_assoc. eauto.
  - eauto.
Qed.

Lemma wake_all_frame t l w :
  sleepers (wake_all t l w) = sleepers w /\
  length (procs (wake_all t l w)) = length (procs w) /\
  (now w <= now (wake_all t l w) <= Z.max (now w) t)%Z /\
  exists post, trace (wake_all t l w) = trace w ++ post.
Proof.
  revert w. induction l as [|x l IH]; intros w; simpl.
  - repeat split; try lia. exists []. by rewrite app_nil_r.
  - destruct (Z.leb_spec (sl_wake x) t) as [Hle|Hgt]; [|apply IH].
    destruct (IH (evict x (set_now w (Z.max (now w) (sl_wake x)))))
      as (Hsl & Hlen & Hnow & post & Htr).
    destruct (evict_frame x (set_now w (Z.max (now w) (sl_wake x))))
      as (Hsl' & Hnow' & _ & Hlen').
    destruct (evict_trace_grows x (set_now w (Z.max (now w) (sl_wake x)))) as [post' Htr'].
    rewrite Hsl, Hlen, Htr, Hsl', Hlen', Htr'. rewrite Hnow' in Hnow. simpl in *.
    repeat split; try lia. rewrite <- app_assoc. eauto.
Qed.

(** A key that no due sleeper of [l] has stays as it is. *)
Lemma wake_all_other t l w k :
  (forall x, x ∈ l -> (sl_wake x <= t)%Z -> sl_key x <> k) ->
  sessions (wake_all t l w) !! k = sessions w !! k.
Proof.
  revert w. induction l as [|x l IH]; intros w Hl; simpl; [done|].
  assert (Hl' : forall y, y ∈ l -> (sl_wake y <= t)%Z -> sl_key y <> k)
    by (intros y Hy; apply Hl; by right).
  destruct (Z.leb_spec (sl_wake x) t) as [Hle|Hgt]; [|by apply IH].
  rewrite IH by done.
  destruct (evict_frame x (set_now w (Z.max (now w) (sl_wake x)))) as (_ & _ & -> & _).
  simpl. apply lookup_delete_ne. apply Hl; [by left|done].
Qed.

(** A key that is not registered is not registered afterwards. *)
Lemma wake_all_none t l w k :
  sessions w !! k = None -> sessions (wake_all t l w) !! k = None.
Proof.
  revert w. induction l as [|x l IH]; intros w Hk; simpl; [done|].
  destruct (Z.leb_spec (sl_wake x) t) as [Hle|Hgt]; [|by apply IH].
  apply IH.
  destruct (evict_frame x (set_now w (Z.max (now w) (sl_wake x)))) as (_ & _ & -> & _).
  simpl. rewrite lookup_delete. case_decide; done.
Qed.

(** The key of a due sleeper of [l] is not registered afterwards. *)
Lemma wake_all_due t l w x :
  x ∈ l -> (sl_wake x <= t)%Z -> sessions (wake_all t l w) !! sl_key x = None.
Proof.
  revert w. induction l as [|y l IH]; intros w Hx Hle; [by apply elem_of_nil in Hx|].
  simpl. apply elem_of_cons in Hx as [->|Hx].
  - destruct (Z.leb_spec (sl_wake y) t); [|lia].
    apply wake_all_none.
    destruct (evict_frame y (set_now w (Z.max (now w) (sl_wake y)))) as (_ & _ & -> & _).
    apply lookup_delete_eq.
  - destruct (Z.leb_spec (sl_wake y) t); by apply IH.
Qed.

(** A due sleeper of [l] wakes at its time, deletes its key and then closes
    its session. *)
Lemma wake_all_trace t l w x :
  StronglySorted (fun x y => (sl_wake x <= sl_wake y)%Z) l ->
  x ∈ l -> (sl_wake x <= t)%Z -> (now w <= sl_wake x)%Z ->
  sl_session x < length (procs w) ->
  exists pre post,
    trace (wake_all t l w)
      = pre ++ [(sl_wake x, EvDelete (sl_key x)); (sl_wake x, EvClose (sl_session x))]
            ++ post.
Proof.
  revert w. induction l as [|y l IH]; intros w Hs Hx Hle Hnow Hlt;
    [by apply elem_of_nil in Hx|].
  apply StronglySorted_inv in Hs as [Hs Hy]. simpl.
  apply elem_of_cons in Hx as [->|Hx].
  - destruct (Z.leb_spec (sl_wake y) t); [|lia].
    destruct (wake_all_frame t l (evict y (set_now w (Z.max (now w) (sl_wake y)))))
      as (_ & _ & _ & post & ->).
    rewrite evict_trace by done. simpl. rewrite Z.max_r by done.
    exists (trace w), post. by rewrite <- app_assoc.
  - rewrite Forall_forall in Hy. pose proof (Hy x Hx) as Hyx.
    simpl in Hyx.
    destruct (Z.leb_spec (sl_wake y) t); [|by apply IH].
    apply IH; try done.
    + destruct (evict_frame y (set_now w (Z.max (now w) (sl_wake y)))) as (_ & -> & _).
      simpl. lia.
    + destruct (evict_frame y (set_now w (Z.max (now w) (sl_wake y)))) as (_ & _ & _ & ->).
      done.
Qed.

Lemma advance_frame t w :
  sleepers (advance t w) = filter (fun x => (t < sl_wake x)%Z) (sleepers w) /\
  length (procs (advance t w)) = length (procs w) /\
  now (advance t w) = Z.max (now w) t /\
  sessions (advance t w)
    = sessions (wake_all t (sleepers w)
                  (set_sleepers w (filter (fun x => (t < sl_wake x)%Z) (sleepers w)))) /\
  trace (advance t w)
    = trace (wake_all t (sleepers w)
               (set_sleepers w (filter (fun x => (t < sl_wake x)%Z) (sleepers w)))).
Proof.
  unfold advance. simpl.
  destruct (wake_all_frame t (sleepers w)
              (set_sleepers w (filter (fun x => (t < sl_wake x)%Z) (sleepers w))))
    as (Hsl & Hlen & Hnow & _).
  simpl in *. rewrite Hsl, Hlen. repeat split; auto. lia.
Qed.

Lemma key_inj (l : list Sleeper) (x y : Sleeper) :
  NoDup (map sl_key l) -> x ∈ l -> y ∈ l -> sl_key x = sl_key y -> x = y.
Proof.
  induction l as [|z l IH]; intros Hnd Hx Hy Hk; [by apply elem_of_nil in Hx|].
  simpl in Hnd. apply NoDup_cons in Hnd as [Hz Hnd].
  apply elem_of_cons in Hx as [->|Hx]; apply elem_of_cons in Hy as [->|Hy]; auto.
  - exfalso. apply Hz. rewrite Hk. apply list_elem_of_fmap. eauto.
  - exfalso. apply Hz. rewrite <- Hk. apply list_elem_of_fmap. eauto.
Qed.

Lemma NoDup_map_filter {A B} (f : A -> B) (P : A -> Prop) `{!forall x, Decision (P x)}
    (l : list A) :
  NoDup (map f l) -> NoDup (map f (filter P l)).
Proof.
  induction l as [|x l IH]; intros Hnd; [done|].
  simpl in Hnd. apply NoDup_cons in Hnd as [Hx Hnd]. rewrite filter_cons.
  destruct (decide (P x)); [|by apply IH]. simpl. apply NoDup_cons. split; [|by apply IH].
  intros Hin. apply Hx. apply list_elem_of_fmap in Hin as (y & -> & Hy).
  apply list_elem_of_fmap. exists y. split; [done|].
  by apply list_elem_of_filter in Hy as [_ Hy].
Qed.

Lemma StronglySorted_filter {A} (R : A -> A -> Prop) (P : A -> Prop)
    `{!forall x, Decision (P x)} (l : list A) :
  StronglySorted R l -> StronglySorted R (filter P l).
Proof.
  induction 1 as [|x l Hl IH Hx]; [constructor|]. rewrite filter_cons.
  destruct (decide (P x)); [|done]. constructor; [done|].
  rewrite Forall_forall in *. intros y Hy. apply Hx.
  by apply list_elem_of_filter in Hy as [_ Hy].
Qed.

Lemma wf_advance t w : wf w -> wf (advance t w).
Proof.
  intros [Hreg Hkeys Hsort Hahead].
  destruct (advance_frame t w) as (Hsl & Hlen & Hnow & Hse & _).
  split; rewrite ?Hsl, ?Hlen, ?Hnow, ?Hse.
  - intros x [Hx1 Hx2]%list_elem_of_filter. destruct (Hreg _ Hx2) as [Hr1 Hr2].
    split; [|done]. rewrite wake_all_other; [done|].
    intros y Hy Hyt Hk. pose proof (key_inj _ _ _ Hkeys Hy Hx2 Hk) as ->. lia.
  - by apply NoDup_map_filter.
  - by apply StronglySorted_filter.
  - intros x [Hx1 Hx2]%list_elem_of_filter. pose proof (Hahead _ Hx2). lia.
Qed.

Lemma wf_act w a : wf w -> wf (act w a).
Proof. destruct a; simpl; [apply wf_handle|apply wf_advance]. Qed.

(** The invariant holds whatever has happened to the server so far. *)
Lemma wf_run acts w : wf w -> wf (run acts w).
Proof.
  revert w. induction acts as [|a acts IH]; intros w Hw; [done|].
  simpl. apply IH, wf_act, Hw.
Qed.

(** After a successful resolution, the rest of [handleMCP] leaves the
    registry, the sleepers and the processes' number as they are. *)
Lemma handleMCP_resolved env r w s w1 :
  http_Method r = "POST"%string ->
  getOrCreateSession env (sessionID_of r) w = (Ok s, w1) ->
  sessions (snd (handleMCP env r w)) = sessions w1 /\
  sleepers (snd (handleMCP env r w)) = sleepers w1 /\
  now (snd (handleMCP env r w)) = now w1 /\
  length (procs (snd (handleMCP env r w))) = length (procs w1).
Proof.
  intros Hm Hg. unfold handleMCP. rewrite (method_post _ Hm). simpl. rewrite Hg.
  destruct (Decode (http_Body r)) as [req|e]; simpl; [|done].
  destruct (SendRequest env s req w1) as [res w2] eqn:HS.
  destruct (SendRequest_frame _ _ _ _ _ _ HS) as (Hse & Hsl & Hnow & Hlen & _).
  destruct res; simpl; auto.
Qed.

Lemma pending_act w a (sl : Sleeper) :
  wf w -> pending (sl_key sl) w = [sl] -> before (sl_wake sl) a ->
  pending (sl_key sl) (act w a) = [sl].
Proof.
  intros Hwf Hp Ha. unfold pending in *.
  assert (Hin : sl ∈ sleepers w).
  { assert (H : sl ∈ filter (fun x => sl_key x = sl_key sl) (sleepers w))
      by (rewrite Hp; by left).
    by apply list_elem_of_filter in H as [_ H]. }
  destruct a as [env r|t].
  - change (act w (Handle env r)) with (snd (handleMCP env r w)).
    destruct (handleMCP_frame env r w) as [_ [(_ & -> & _)|(_ & Hk & _ & -> & _)]]; [done|].
    rewrite filter_app, Hp, filter_cons_False, filter_nil; [done|]. simpl.
    destruct (wf_registered _ Hwf _ Hin) as [Hr _]. congruence.
  - change (act w (Advance t)) with (advance t w). simpl in Ha.
    destruct (advance_frame t w) as (-> & _).
    rewrite list_filter_filter.
    rewrite (list_filter_iff _ (fun x => (t < sl_wake x)%Z /\ sl_key x = sl_key sl))
      by (intros; tauto).
    rewrite <- list_filter_filter, Hp.
    by rewrite filter_cons_True, filter_nil.
Qed.

Lemma pending_run acts w (sl : Sleeper) :
  wf w -> pending (sl_key sl) w = [sl] -> Forall (before (sl_wake sl)) acts ->
  pending (sl_key sl) (run acts w) = [sl].
Proof.
  revert w. induction acts as [|a acts IH]; intros w Hwf Hp Ha; [done|].
  apply Forall_cons in Ha as [Ha Hacts]. simpl.
  apply IH; [by apply wf_act|by apply pending_act|done].
Qed.

Lemma pending_elem k w x : pending k w = [x] -> x ∈ sleepers w /\ sl_key x = k.
Proof.
  intros Hp. assert (H : x ∈ pending k w) by (rewrite Hp; by left).
  unfold pending in H. apply list_elem_of_filter in H. tauto.
Qed.

Lemma filter_none {A} (P : A -> Prop) `{!forall x, Decision (P x)} (l : list A) :
  (forall x, x ∈ l -> ~ P x) -> filter P l = [].
Proof.
  induction l as [|x l IH]; intros Hn; [done|].
  rewrite filter_cons_False by (apply Hn; by left). apply IH. intros y Hy. apply Hn. by right.
Qed.

(** The world after a POST with an unseen key whose process started: the
    sleeper of the new session is the one pending for the key. *)
Lemma pending_created env r w w1 s :
  wf w -> http_Method r = "POST"%string -> sessions w !! sessionID_of r = None ->
  getOrCreateSession env (sessionID_of r) w = (Ok s, w1) ->
  pending (sessionID_of r) (snd (handleMCP env r w))
    = [{| sl_key := sessionID_of r; sl_session := s; sl_wake := now w + 30 * Minute |}].
Proof.
  intros Hwf Hm Hk Hg.
  destruct (handleMCP_resolved _ _ _ _ _ Hm Hg) as (_ & Hsl & _).
  destruct (getOrCreateSession_unseen _ _ _ _ _ Hk Hg) as (w0 & HN & ->).
  destruct (NewMCPSession_Ok _ _ _ _ HN) as (_ & _ & _ & Hsl0 & Hnow0 & _).
  unfold pending. rewrite Hsl. simpl. rewrite Hsl0, Hnow0, filter_app.
  rewrite filter_none, filter_cons_True, filter_nil; [done|done|].
  intros x Hx Hkx. destruct (wf_registered _ Hwf _ Hx) as [Hr _]. congruence.
Qed.

(** *** Sessions stay open until their sleeper wakes *)

Definition fresh_proc : Proc := {| stdin_log := []; unread := []; closed := false |}.

(** Whether the process of session [j] has been closed, if it exists. *)
Definition closed_at (w : World) (j : nat) : option bool := closed <$> procs w !! j.

Lemma SendRequest_closed env s req w r w' j :
  SendRequest env s req w = (r, w') -> closed_at w' j = closed_at w j.
Proof.
  intros HS. destruct (SendRequest_frame _ _ _ _ _ _ HS) as (_ & _ & _ & Hlen & Hcl & _).
  unfold closed_at. destruct (procs w' !! j) as [p'|] eqn:Hp'.
  - destruct (Hcl _ _ Hp') as (p & -> & Hc). simpl. by rewrite Hc.
  - apply lookup_ge_None in Hp'. rewrite Hlen in Hp'. apply lookup_ge_None in Hp'.
    by rewrite Hp'.
Qed.

Lemma getOrCreateSession_procs env k w r w1 :
  getOrCreateSession env k w = (r, w1) ->
  procs w1 = procs w \/ procs w1 = procs w ++ [fresh_proc].
Proof.
  unfold getOrCreateSession. destruct (sessions w !! k).
  { intros H; inversion H; auto. }
  destruct (NewMCPSession env w) as [[s|e] w0] eqn:HN; intros H; inversion H; subst.
  - destruct (NewMCPSession_Ok _ _ _ _ HN) as (_ & Hp & _). right. exact Hp.
  - apply NewMCPSession_Err in HN as ->. auto.
Qed.

(** A request closes nothing, and a process it starts is open. *)
Lemma handleMCP_closed env r w j :
  (j < length (procs w) -> closed_at (snd (handleMCP env r w)) j = closed_at w j) /\
  (length (procs (snd (handleMCP env r w))) = S (length (procs w)) ->
   closed_at (snd (handleMCP env r w)) (length (procs w)) = Some false).
Proof.
  unfold handleMCP.
  destruct (negb (String.eqb (http_Method r) "POST")); simpl; [split; [done|lia]|].
  destruct (getOrCreateSession env (sessionID_of r) w) as [[s|e] w1] eqn:Hg.
  2:{ apply getOrCreateSession_Err in Hg as (-> & _). simpl. split; [done|lia]. }
  assert (H1 : forall i, closed_at w1 i
                = closed_at w i \/ (procs w1 = procs w ++ [fresh_proc])).
  { intros i. destruct (getOrCreateSession_procs _ _ _ _ _ Hg) as [Hp|Hp]; [|by right].
    left. unfold closed_at. by rewrite Hp. }
  assert (Hw1 : (j < length (procs w) -> closed_at w1 j = closed_at w j) /\
                (length (procs w1) = S (length (procs w)) ->
                 closed_at w1 (length (procs w)) = Some false)).
  { destruct (getOrCreateSession_procs _ _ _ _ _ Hg) as [Hp|Hp]; unfold closed_at;
      rewrite Hp.
    - split; [done|lia].
    - split.
      + intros Hj. by rewrite lookup_app_l.
      + intros _. rewrite lookup_app_r by done. by rewrite Nat.sub_diag. }
  destruct (Decode (http_Body r)) as [req|e]; simpl; [|exact Hw1].
  destruct (SendRequest env s req w1) as [res w2] eqn:HS.
  destruct (SendRequest_frame _ _ _ _ _ _ HS) as (_ & _ & _ & Hlen & _).
  assert (Hw2 : (j < length (procs w) -> closed_at w2 j = closed_at w j) /\
                (length (procs w2) = S (length (procs w)) ->
                 closed_at w2 (length (procs w)) = Some false)).
  { rewrite !(SendRequest_closed _ _ _ _ _ _ _ HS), Hlen. exact Hw1. }
  destruct res; exact Hw2.
Qed.

Lemma evict_closed x w j :
  closed_at (evict x w) j
    = if decide (j = sl_session x) then (fun _ => true) <$> closed_at w j
      else closed_at w j.
Proof.
  unfold evict, Close, closed_at. simpl.
  destruct (procs w !! sl_session x) as [p|] eqn:Hp; simpl.
  - case_decide as Hj.
    + subst j. rewrite list_lookup_insert_eq by (eapply lookup_lt_Some; eauto).
      by rewrite Hp.
    + by rewrite list_lookup_insert_ne.
  - case_decide as Hj; [|done]. subst j. by rewrite Hp.
Qed.

(** A session that no due sleeper of [l] has stays as it is. *)
Lemma wake_all_open t l w j :
  (forall x, x ∈ l -> (sl_wake x <= t)%Z -> sl_session x <> j) ->
  closed_at (wake_all t l w) j = closed_at w j.
Proof.
  revert w. induction l as [|x l IH]; intros w Hl; simpl; [done|].
  assert (Hl' : forall y, y ∈ l -> (sl_wake y <= t)%Z -> sl_session y <> j)
    by (intros y Hy; apply Hl; by right).
  destruct (Z.leb_spec (sl_wake x) t) as [Hle|Hgt]; [|by apply IH].
  rewrite IH, evict_closed by done. rewrite decide_False; [done|].
  intros ->. apply (Hl x); [by left|done|done].
Qed.

(** A session that is closed stays closed. *)
Lemma wake_all_stays_closed t l w j :
  closed_at w j = Some true -> closed_at (wake_all t l w) j = Some true.
Proof.
  revert w. induction l as [|x l IH]; intros w Hc; simpl; [done|].
  destruct (Z.leb_spec (sl_wake x) t) as [Hle|Hgt]; [|by apply IH].
  apply IH. rewrite evict_closed. unfold closed_at in *. simpl.
  case_decide; [|done]. by destruct (procs w !! j).
Qed.

(** The session of a due sleeper of [l] is closed afterwards. *)
Lemma wake_all_closes t l w x :
  x ∈ l -> (sl_wake x <= t)%Z -> sl_session x < length (procs w) ->
  closed_at (wake_all t l w) (sl_session x) = Some true.
Proof.
  revert w. induction l as [|y l IH]; intros w Hx Hle Hlt; [by apply elem_of_nil in Hx|].
  simpl. apply elem_of_cons in Hx as [->|Hx].
  - destruct (Z.leb_spec (sl_wake y) t); [|lia].
    apply wake_all_stays_closed. rewrite evict_closed, decide_True by done.
    unfold closed_at. simpl. destruct (procs w !! sl_session y) eqn:Hp; [done|].
    apply lookup_ge_None in Hp. lia.
  - destruct (Z.leb_spec (sl_wake y) t); [|by apply IH].
    apply IH; try done.
    by destruct (evict_frame y (set_now w (Z.max (now w) (sl_wake y)))) as (_ & _ & _ & ->).
Qed.

Lemma advance_closed t w j :
  closed_at (advance t w) j
    = closed_at (wake_all t (sleepers w)
                   (set_sleepers w (filter (fun x => (t < sl_wake x)%Z) (sleepers w)))) j.
Proof. reflexivity. Qed.

(** No two sleepers have the same session, and the session of a sleeper is
    open. *)
Record opened (w : World) : Prop := {
  op_distinct : NoDup (map sl_session (sleepers w));
  op_open : forall x, x ∈ sleepers w -> closed_at w (sl_session x) = Some false
}.

Lemma opened_empty : opened empty_world.
Proof.
  split; simpl; [constructor|]. intros x Hx. by apply elem_of_nil in Hx.
Qed.

Lemma closed_at_lt w j v : closed_at w j = Some v -> j < length (procs w).
Proof.
  unfold closed_at. destruct (procs w !! j) eqn:Hp; [|done]. intros _.
  eapply lookup_lt_Some; eauto.
Qed.

Lemma opened_handle env r w : opened w -> opened (snd (handleMCP env r w)).
Proof.
  intros [Hd Ho].
  destruct (handleMCP_frame env r w) as [_ [(_ & Hsl & Hlen)|(_ & _ & _ & Hsl & Hlen)]].
  - split; rewrite Hsl; [done|]. intros x Hx.
    rewrite (proj1 (handleMCP_closed env r w (sl_session x))
               (closed_at_lt _ _ _ (Ho _ Hx))).
    by apply Ho.
  - split; rewrite Hsl.
    + rewrite map_app. simpl. apply NoDup_app. split; [done|]. split; [|apply NoDup_singleton].
      intros j Hj1 Hj2. apply list_elem_of_singleton in Hj2 as ->.
      apply list_elem_of_fmap in Hj1 as (x & Hxj & Hx).
      pose proof (closed_at_lt _ _ _ (Ho _ Hx)). lia.
    + intros x [Hx|Hx]%elem_of_app.
      * rewrite (proj1 (handleMCP_closed env r w (sl_session x))
                   (closed_at_lt _ _ _ (Ho _ Hx))).
        by apply Ho.
      * apply list_elem_of_singleton in Hx as ->. simpl.
        exact (proj2 (handleMCP_closed env r w 0) Hlen).
Qed.

Lemma session_inj (l : list Sleeper) (x y : Sleeper) :
  NoDup (map sl_session l) -> x ∈ l -> y ∈ l -> sl_session x = sl_session y -> x = y.
Proof.
  induction l as [|z l IH]; intros Hnd Hx Hy Hk; [by apply elem_of_nil in Hx|].
  simpl in Hnd. apply NoDup_cons in Hnd as [Hz Hnd].
  apply elem_of_cons in Hx as [->|Hx]; apply elem_of_cons in Hy as [->|Hy]; auto.
  - exfalso. apply Hz. rewrite Hk. apply list_elem_of_fmap. eauto.
  - exfalso. apply Hz. rewrite <- Hk. apply list_elem_of_fmap. eauto.
Qed.

Lemma opened_advance t w : opened w -> opened (advance t w).
Proof.
  intros [Hd Ho]. destruct (advance_frame t w) as (Hsl & _).
  split; rewrite Hsl.
  - by apply NoDup_map_filter.
  - intros x [Hx1 Hx2]%list_elem_of_filter.
    rewrite advance_closed, wake_all_open; [by apply Ho|].
    intros y Hy Hyt Hk. pose proof (session_inj _ _ _ Hd Hy Hx2 Hk) as ->. lia.
Qed.

Lemma opened_run acts w : opened w -> opened (run acts w).
Proof.
  revert w. induction acts as [|a acts IH]; intros w Hw; [done|].
  simpl. apply IH. destruct a; [by apply opened_handle|by apply opened_advance].
Qed.

End TimerFacts.

(** ** The lifetime of a session, whatever the calls do *)

Module EvictionFacts.

Import Json Wrapper Samples WrapperFacts TimerFacts.

(** *** Calls that race, requests and time *)

(** What happens to the server, one thing at a time: a call of
    [getOrCreateSession] begins for a key; a call that has begun takes its
    next atomic step (the load, the start of a process, or the store with
    the [go] statement); a request is handled whole, or time passes. *)
Inductive move :=
| Call (key : string)
| Step (env : Env) (i : nat)
| Do (a : action).

Definition exec (c : Race.config) (m : move) : Race.config :=
  match m with
  | Call key =>
      {| Race.world := Race.world c;
         Race.threads := Race.threads c ++ [(key, Race.AtLoad)] |}
  | Step env i => Race.step env i c
  | Do a => {| Race.world := act (Race.world c) a; Race.threads := Race.threads c |}
  end.

Definition execs (ms : list move) (c : Race.config) : Race.config :=
  fold_left exec ms c.

(** The server just started. *)
Definition start : Race.config := {| Race.world := empty_world; Race.threads := [] |}.

(** A move that does not let time pass until [T] or beyond. *)
Definition early (T : Z) (m : move) : Prop :=
  match m with
  | Do (Advance t) => (t < T)%Z
  | _ => True
  end.

(** The move [m] registers the session [s] under [key] and starts its
    goroutine: it is the store of a call that has started the process [s],
    or a request with an unseen key whose process [s] starts. *)
Definition creates (c : Race.config) (m : move) (key : string) (s : nat) : Prop :=
  match m with
  | Step env i => Race.threads c !! i = Some (key, Race.AtStore s)
  | Do (Handle env r) =>
      http_Method r = "POST"%string /\ sessionID_of r = key /\
      sessions (Race.world c) !! key = None /\
      fst (getOrCreateSession env key (Race.world c)) = Ok s
  | _ => False
  end.

(** The goroutines that will close the session [s]. *)
Definition timers (s : nat) (w : World) : list Sleeper :=
  filter (fun x => sl_session x = s) (sleepers w).

(** *** What holds in every state *)

(** The sleepers are in the order of their wake times, all of which lie
    ahead, 30 minutes at most. *)
Record timed (w : World) : Prop := {
  tm_sorted : StronglySorted (fun x y => (sl_wake x <= sl_wake y)%Z) (sleepers w);
  tm_ahead : forall x, x ∈ sleepers w -> (now w < sl_wake x <= now w + 30 * Minute)%Z
}.

(** A process that a call has started and not yet stored is open, has no
    sleeper, and is held by this call alone. *)
Definition held (c : Race.config) : Prop :=
  forall i key s, Race.threads c !! i = Some (key, Race.AtStore s) ->
    closed_at (Race.world c) s = Some false /\
    (forall x, x ∈ sleepers (Race.world c) -> sl_session x <> s) /\
    (forall i' key', Race.threads c !! i' = Some (key', Race.AtStore s) -> i' = i).

Record safe (c : Race.config) : Prop := {
  sf_timed : timed (Race.world c);
  sf_opened : opened (Race.world c);
  sf_held : held c
}.

Lemma safe_start : safe start.
Proof.
  split.
  - split; simpl; [constructor|]. intros x Hx. by apply elem_of_nil in Hx.
  - exact opened_empty.
  - intros i key s Hi. simpl in Hi. by rewrite lookup_nil in Hi.
Qed.

Lemma timed_same w w' :
  sleepers w' = sleepers w -> now w' = now w -> timed w -> timed w'.
Proof. intros Hs Hn [H1 H2]. split; rewrite Hs, ?Hn; done. Qed.

Lemma timed_arm w w' x :
  sleepers w' = sleepers w ++ [x] -> now w' = now w ->
  sl_wake x = (now w + 30 * Minute)%Z -> timed w -> timed w'.
Proof.
  intros Hs Hn Hx [H1 H2]. pose proof Minute_pos. split; rewrite Hs, ?Hn.
  - apply StronglySorted_snoc; [done|]. intros y Hy. pose proof (H2 _ Hy). lia.
  - intros y [Hy|Hy]%elem_of_app.
    + by apply H2.
    + apply list_elem_of_singleton in Hy as ->. lia.
Qed.

Lemma timed_advance t w : timed w -> timed (advance t w).
Proof.
  intros [H1 H2]. destruct (advance_frame t w) as (Hsl & _ & Hnow & _).
  split; rewrite Hsl, ?Hnow.
  - by apply StronglySorted_filter.
  - intros x [Hx1 Hx2]%list_elem_of_filter. pose proof (H2 _ Hx2). lia.
Qed.

Lemma timed_handle env r w : timed w -> timed (snd (handleMCP env r w)).
Proof.
  intros Ht.
  destruct (handleMCP_frame env r w) as [Hnow [(_ & Hsl & _)|(_ & _ & _ & Hsl & _)]].
  - by apply (timed_same w).
  - by eapply (timed_arm w); eauto.
Qed.

Lemma opened_lt w x : opened w -> x ∈ sleepers w -> sl_session x < length (procs w).
Proof. intros Ho Hx. exact (closed_at_lt _ _ _ (op_open _ Ho _ Hx)). Qed.

(** The sessions and the sleepers are as they were, and so are the
    processes that were there. *)
Lemma opened_same w w' :
  sleepers w' = sleepers w ->
  (forall j, j < length (procs w) -> closed_at w' j = closed_at w j) ->
  opened w -> opened w'.
Proof.
  intros Hs Hc Ho. split; rewrite Hs.
  - exact (op_distinct _ Ho).
  - intros x Hx. rewrite Hc by (by apply opened_lt). by apply (op_open _ Ho).
Qed.

Lemma opened_arm w w' x :
  sleepers w' = sleepers w ++ [x] ->
  (forall j, j < length (procs w) -> closed_at w' j = closed_at w j) ->
  closed_at w' (sl_session x) = Some false ->
  (forall y, y ∈ sleepers w -> sl_session y <> sl_session x) ->
  opened w -> opened w'.
Proof.
  intros Hs Hc Hx Hne Ho. split; rewrite Hs.
  - rewrite map_app. simpl. apply NoDup_app. split; [exact (op_distinct _ Ho)|].
    split; [|apply NoDup_singleton].
    intros j Hj1 Hj2. apply list_elem_of_singleton in Hj2 as ->.
    apply list_elem_of_fmap in Hj1 as (y & Hyj & Hy). by apply (Hne y).
  - intros y [Hy|Hy]%elem_of_app.
    + rewrite Hc by (by apply opened_lt). by apply (op_open _ Ho).
    + by apply list_elem_of_singleton in Hy as ->.
Qed.

Lemma closed_at_app w w' p j :
  procs w' = procs w ++ [p] -> j < length (procs w) -> closed_at w' j = closed_at w j.
Proof. intros Hp Hj. unfold closed_at. by rewrite Hp, lookup_app_l. Qed.

Lemma closed_at_new w w' p :
  procs w' = procs w ++ [p] -> closed_at w' (length (procs w)) = Some (closed p).
Proof.
  intros Hp. unfold closed_at. rewrite Hp, lookup_app_r by done.
  by rewrite Nat.sub_diag.
Qed.

Lemma held_insert c w' i key p :
  held c -> Race.threads c !! i = Some (key, p) ->
  forall p',
  (forall s, p' = Race.AtStore s ->
     closed_at w' s = Some false /\
     (forall x, x ∈ sleepers w' -> sl_session x <> s) /\
     (forall i' key', i' <> i -> Race.threads c !! i' = Some (key', Race.AtStore s) -> False)) ->
  (forall i0 key0 s0, i0 <> i -> Race.threads c !! i0 = Some (key0, Race.AtStore s0) ->
     closed_at w' s0 = Some false /\
     (forall x, x ∈ sleepers w' -> sl_session x <> s0) /\
     p' <> Race.AtStore s0) ->
  held {| Race.world := w'; Race.threads := <[i := (key, p')]> (Race.threads c) |}.
Proof.
  intros Hh Hi p' Hnew Hold i0 key0 s0 Hi0. simpl in *.
  assert (Hlt : i < length (Race.threads c)) by (eapply lookup_lt_Some; eauto).
  destruct (decide (i0 = i)) as [->|Hne].
  - rewrite list_lookup_insert_eq in Hi0 by done. inversion Hi0; subst key0 p'.
    destruct (Hnew s0 eq_refl) as (Hc & Hs & Hu). split; [done|]. split; [done|].
    intros i' key' Hi'. destruct (decide (i' = i)) as [->|Hne']; [done|].
    rewrite list_lookup_insert_ne in Hi' by done. by destruct (Hu i' key').
  - rewrite list_lookup_insert_ne in Hi0 by done.
    destruct (Hold _ _ _ Hne Hi0) as (Hc & Hs & Hp'). split; [done|]. split; [done|].
    intros i' key' Hi'. destruct (decide (i' = i)) as [->|Hne'].
    + rewrite list_lookup_insert_eq in Hi' by done. inversion Hi'; subst. by destruct Hp'.
    + rewrite list_lookup_insert_ne in Hi' by done.
      destruct (Hh _ _ _ Hi0) as (_ & _ & Hu). by apply (Hu i' key').
Qed.

Lemma safe_step env i c : safe c -> safe (Race.step env i c).
Proof.
  intros [Ht Ho Hh]. destruct (Race.threads c !! i) as [[key p]|] eqn:Hi.
  2:{ unfold Race.step. rewrite Hi. by split. }
  rewrite (RaceFacts.step_eq _ _ _ _ _ Hi).
  assert (Hkeep : forall p', (forall s, p' <> Race.AtStore s) ->
            safe {| Race.world := Race.world c;
                    Race.threads := <[i := (key, p')]> (Race.threads c) |}).
  { intros p' Hp'. split; [done|done|].
    apply (held_insert c (Race.world c) i key p); auto.
    - intros s ->. by destruct (Hp' s).
    - intros i0 key0 s0 Hne Hi0. destruct (Hh _ _ _ Hi0) as (Hc & Hs & _).
      split; [done|]. split; [done|]. apply Hp'. }
  destruct p as [| |s|r].
  - destruct (sessions (Race.world c) !! key); apply Hkeep; done.
  - destruct (NewMCPSession env (Race.world c)) as [[s|e] w1] eqn:HN.
    + destruct (NewMCPSession_Ok _ _ _ _ HN) as (-> & Hp & _ & Hsl & Hnow & _).
      assert (Hc : forall j, j < length (procs (Race.world c)) ->
                     closed_at w1 j = closed_at (Race.world c) j)
        by (intros j Hj; by apply (closed_at_app _ _ _ _ Hp)).
      split; simpl.
      * by apply (timed_same (Race.world c)).
      * by apply (opened_same (Race.world c)).
      * apply (held_insert c w1 i key Race.AtNew); auto.
        -- intros s [= <-]. split; [by rewrite (closed_at_new _ _ _ Hp)|]. split.
           ++ rewrite Hsl. intros x Hx. pose proof (opened_lt _ _ Ho Hx). lia.
           ++ intros i' key' _ Hi'. destruct (Hh _ _ _ Hi') as (Hcl & _).
              apply closed_at_lt in Hcl. lia.
        -- intros i0 key0 s0 Hne Hi0. destruct (Hh _ _ _ Hi0) as (Hcl & Hs & _).
           pose proof (closed_at_lt _ _ _ Hcl) as Hlt.
           split; [by rewrite Hc|]. split; [by rewrite Hsl|].
           intros [= Heq]. lia.
    + apply NewMCPSession_Err in HN as ->. apply Hkeep. done.
  - destruct (Hh _ _ _ Hi) as (Hcl & Hs & Hu).
    set (x := {| sl_key := key; sl_session := s;
                 sl_wake := now (Race.world c) + 30 * Minute |}).
    assert (Hsl : sleepers (register key s (Race.world c))
                  = sleepers (Race.world c) ++ [x]) by reflexivity.
    split; simpl.
    + by apply (timed_arm (Race.world c) _ x).
    + by apply (opened_arm (Race.world c) _ x).
    + apply (held_insert c _ i key (Race.AtStore s)); auto.
      * intros s' Heq. discriminate Heq.
      * intros i0 key0 s0 Hne Hi0. destruct (Hh _ _ _ Hi0) as (Hcl0 & Hs0 & Hu0).
        split; [exact Hcl0|]. split; [|done].
        rewrite Hsl. intros y [Hy|Hy]%elem_of_app; [by apply Hs0|].
        apply list_elem_of_singleton in Hy as ->. simpl. intros ->.
        apply Hne. by apply (Hu i0 key0).
  - by split.
Qed.

Lemma safe_exec c m : safe c -> safe (exec c m).
Proof.
  intros Hs. destruct m as [key|env i|a]; simpl.
  - destruct Hs as [Ht Ho Hh]. split; [done|done|].
    assert (Hold : forall i k s,
              (Race.threads c ++ [(key, Race.AtLoad)]) !! i = Some (k, Race.AtStore s) ->
              Race.threads c !! i = Some (k, Race.AtStore s)).
    { intros i k s Hi. apply lookup_app_Some in Hi as [Hi|[_ Hi]]; [done|].
      apply list_lookup_singleton_Some in Hi as [_ Hi]. discriminate Hi. }
    intros i k s Hi. simpl in *. apply Hold in Hi.
    destruct (Hh _ _ _ Hi) as (Hc & Hn & Hu). split; [done|]. split; [done|].
    intros i' k' Hi'. apply Hold in Hi'. by apply (Hu i' k').
  - by apply safe_step.
  - destruct Hs as [Ht Ho Hh]. destruct a as [env r|t]; cbn [act].
    + split; cbn [Race.world Race.threads];
        [by apply timed_handle|by apply opened_handle|].
      intros i k s Hi. cbn [Race.world Race.threads] in *.
      destruct (Hh _ _ _ Hi) as (Hc & Hn & Hu).
      pose proof (closed_at_lt _ _ _ Hc) as Hlt.
      split; [by rewrite (proj1 (handleMCP_closed env r (Race.world c) s) Hlt)|].
      split; [|done].
      destruct (handleMCP_frame env r (Race.world c))
        as [_ [(_ & -> & _)|(_ & _ & _ & -> & _)]]; [done|].
      intros x [Hx|Hx]%elem_of_app; [by apply Hn|].
      apply list_elem_of_singleton in Hx as ->. simpl. lia.
    + split; cbn [Race.world Race.threads];
        [by apply timed_advance|by apply opened_advance|].
      intros i k s Hi. cbn [Race.world Race.threads] in *.
      destruct (Hh _ _ _ Hi) as (Hc & Hn & Hu).
      split; [|split; [|done]].
      * rewrite advance_closed, wake_all_open; [done|].
        intros x Hx _. by apply Hn.
      * destruct (advance_frame t (Race.world c)) as (-> & _).
        intros x [_ Hx]%list_elem_of_filter. by apply Hn.
Qed.

Lemma safe_execs ms c : safe c -> safe (execs ms c).
Proof.
  revert c. induction ms as [|m ms IH]; intros c Hs; [done|].
  simpl. apply IH, safe_exec, Hs.
Qed.

(** *** One session from its creation to its end *)

Lemma exec_sleepers c m :
  (exists l, sleepers (Race.world (exec c m)) = sleepers (Race.world c) ++ l) \/
  (exists t, m = Do (Advance t) /\
             sleepers (Race.world (exec c m))
             = filter (fun x => (t < sl_wake x)%Z) (sleepers (Race.world c))).
Proof.
  destruct m as [key|env i|[env r|t]]; cbn [exec act Race.world].
  - left. exists []. by rewrite app_nil_r.
  - left. destruct (Race.threads c !! i) as [[key p]|] eqn:Hi.
    2:{ unfold Race.step. rewrite Hi. exists []. by rewrite app_nil_r. }
    rewrite (RaceFacts.step_eq _ _ _ _ _ Hi). destruct p as [| |s|r].
    + destruct (sessions (Race.world c) !! key); exists []; by rewrite app_nil_r.
    + destruct (NewMCPSession env (Race.world c)) as [[s|e] w1] eqn:HN.
      * destruct (NewMCPSession_Ok _ _ _ _ HN) as (_ & _ & _ & Hsl & _).
        exists []. by rewrite app_nil_r.
      * apply NewMCPSession_Err in HN as ->. exists []. by rewrite app_nil_r.
    + by eexists.
    + exists []. by rewrite app_nil_r.
  - left. destruct (handleMCP_frame env r (Race.world c))
      as [_ [(_ & -> & _)|(_ & _ & _ & -> & _)]]; [exists []; by rewrite app_nil_r|].
    by eexists.
  - right. exists t. split; [done|]. by destruct (advance_frame t (Race.world c)).
Qed.

(** A sleeper stays, as it is, as long as time has not reached its wake
    time. *)
Lemma sleeper_stays ms c (sl : Sleeper) :
  sl ∈ sleepers (Race.world c) -> Forall (early (sl_wake sl)) ms ->
  sl ∈ sleepers (Race.world (execs ms c)).
Proof.
  revert c. induction ms as [|m ms IH]; intros c Hin Hms; [done|].
  apply Forall_cons in Hms as [Hm Hms]. simpl. apply IH; [|done].
  destruct (exec_sleepers c m) as [[l ->]|(t & -> & ->)].
  - apply elem_of_app. by left.
  - apply list_elem_of_filter. split; [exact Hm|done].
Qed.

(** The only sleeper of its session, and the session is open. *)
Lemma sleeper_alone w (sl : Sleeper) :
  opened w -> sl ∈ sleepers w ->
  timers (sl_session sl) w = [sl] /\ closed_at w (sl_session sl) = Some false.
Proof.
  intros Ho Hin. split; [|by apply (op_open _ Ho)].
  unfold timers. pose proof (op_distinct _ Ho) as Hnd. revert Hnd Hin.
  induction (sleepers w) as [|y l IH]; intros Hnd Hin; [by apply elem_of_nil in Hin|].
  simpl in Hnd. apply NoDup_cons in Hnd as [Hy Hnd].
  apply elem_of_cons in Hin as [->|Hin].
  - rewrite filter_cons_True by done. f_equal. apply filter_none.
    intros x Hx Hxs. apply Hy. rewrite <- Hxs. apply list_elem_of_fmap. eauto.
  - rewrite filter_cons_False; [by apply IH|].
    intros Hys. apply Hy. rewrite Hys. apply list_elem_of_fmap. eauto.
Qed.

(** The move that creates a session starts its sleeper, due 30 minutes
    from now. *)
Lemma creates_sleeper c m key s :
  creates c m key s ->
  {| sl_key := key; sl_session := s; sl_wake := now (Race.world c) + 30 * Minute |}
    ∈ sleepers (Race.world (exec c m)).
Proof.
  destruct m as [k|env i|[env r|t]]; cbn [creates exec act Race.world]; [done| | |done].
  - intros Hi. rewrite (RaceFacts.step_eq _ _ _ _ _ Hi). simpl.
    apply elem_of_app. right. by left.
  - intros (Hm & Hk & Hnone & Hg). subst key.
    destruct (getOrCreateSession env (sessionID_of r) (Race.world c)) as [res w1] eqn:Hg'.
    simpl in Hg. subst res.
    destruct (handleMCP_resolved _ _ _ _ _ Hm Hg') as (_ & Hsl & _).
    destruct (getOrCreateSession_unseen _ _ _ _ _ Hnone Hg') as (w0 & HN & ->).
    destruct (NewMCPSession_Ok _ _ _ _ HN) as (_ & _ & _ & _ & Hnow0 & _).
    rewrite Hsl. simpl. rewrite Hnow0. apply elem_of_app. right. by left.
Qed.

(** C4: every session has its goroutine, started once, by the move that
    registers the session, to wake 30 minutes later: for a session that a
    request creates when it is handled alone as for one that a call stores
    while other calls race with it, and in every state that the server
    reaches from its start by calls that interleave, requests and the
    passage of time.  Whatever happens before the wake time, the goroutine
    is still the only one of the session, with the same wake time, and the
    session is open.  When time reaches the wake time it runs, at that
    time: it deletes the key from the registry and then closes the session,
    and it is no more, so it cannot run again.  The next POST with the key
    then starts a new process. *)
Theorem C4_fixed_lifetime (ms : list move) (m : move) (key : string) (s : nat) :
  let c := execs ms start in
  creates c m key s ->
  let sl := {| sl_key := key; sl_session := s;
               sl_wake := now (Race.world c) + 30 * Minute |} in
  let c1 := exec c m in
  timers s (Race.world c1) = [sl] /\
  (forall later, Forall (early (sl_wake sl)) later ->
     timers s (Race.world (execs later c1)) = [sl] /\
     closed_at (Race.world (execs later c1)) s = Some false) /\
  (forall later t, Forall (early (sl_wake sl)) later -> (sl_wake sl <= t)%Z ->
     let w3 := advance t (Race.world (execs later c1)) in
     sessions w3 !! key = None /\
     closed_at w3 s = Some true /\
     timers s w3 = [] /\
     (exists pre post,
        trace w3 = pre ++ [(sl_wake sl, EvDelete key); (sl_wake sl, EvClose s)] ++ post) /\
     (forall env' r' s' w0,
        http_Method r' = "POST"%string -> sessionID_of r' = key ->
        NewMCPSession env' w3 = (Ok s', w0) ->
        s' <> s /\
        sessions (snd (handleMCP env' r' w3)) !! key = Some s' /\
        length (procs (snd (handleMCP env' r' w3))) = S (length (procs w3)))).
Proof.
  intros c Hcr sl c1.
  assert (Hc : safe c) by apply safe_execs, safe_start.
  assert (Hc1 : safe c1) by (by apply safe_exec).
  assert (Hin1 : sl ∈ sleepers (Race.world c1)) by (by apply creates_sleeper).
  assert (Hlater : forall later, Forall (early (sl_wake sl)) later ->
            safe (execs later c1) /\ sl ∈ sleepers (Race.world (execs later c1))).
  { intros later Hl. split; [by apply safe_execs|by apply sleeper_stays]. }
  split; [exact (proj1 (sleeper_alone _ sl (sf_opened _ Hc1) Hin1))|]. split.
  - intros later Hl. destruct (Hlater _ Hl) as [Hs2 Hin2].
    exact (sleeper_alone _ sl (sf_opened _ Hs2) Hin2).
  - intros later t Hl Ht w3. destruct (Hlater _ Hl) as [[Ht2 Ho2 _] Hin2].
    set (w2 := Race.world (execs later c1)) in *.
    destruct (advance_frame t w2) as (Hsl3 & Hlen3 & Hnow3 & Hse3 & Htr3).
    pose proof (opened_lt _ _ Ho2 Hin2) as Hlt. simpl in Hlt.
    assert (Hnone : sessions w3 !! key = None).
    { unfold w3. rewrite Hse3. by apply (wake_all_due t (sleepers w2) _ sl). }
    split; [exact Hnone|]. split; [|split; [|split]].
    + unfold w3. rewrite advance_closed.
      by apply (wake_all_closes t (sleepers w2) _ sl).
    + unfold timers, w3. rewrite Hsl3. apply filter_none.
      intros x [Hx1 Hx2]%list_elem_of_filter Hxs.
      assert (x = sl) as -> by (by apply (session_inj _ _ _ (op_distinct _ Ho2))).
      simpl in Hx1. simpl in Ht. lia.
    + unfold w3. rewrite Htr3.
      apply (wake_all_trace t (sleepers w2) _ sl); try done.
      * exact (tm_sorted _ Ht2).
      * pose proof (tm_ahead _ Ht2 _ Hin2) as Ha. simpl in Ha. simpl. lia.
    + intros env' r' s' w0 Hm' Hk' HN.
      destruct (NewMCPSession_Ok _ _ _ _ HN) as (Hs' & Hp0 & _).
      assert (Hg' : getOrCreateSession env' (sessionID_of r') w3
                    = (Ok s', register key s' w0)).
      { unfold getOrCreateSession. rewrite Hk', Hnone, HN. reflexivity. }
      destruct (handleMCP_resolved _ _ _ _ _ Hm' Hg') as (-> & _ & _ & ->).
      simpl. rewrite Hp0, length_app. simpl.
      split; [|split].
      * rewrite Hs'. fold w3. unfold w3. rewrite Hlen3. lia.
      * apply lookup_insert_eq.
      * lia.
Qed.

(** The race of C2 with ten minutes between the two stores: both calls
    miss the key and start a process each, the first stores its session,
    time passes, and the second call stores the session 1 over it. *)
Definition raced : list move :=
  [Call "k"; Call "k"; Step env_ok 0; Step env_ok 1; Step env_ok 0; Step env_ok 1;
   Step env_ok 0; Do (Advance (10 * Minute))].

Lemma C4_fixed_lifetime_witness :
  let c := execs raced start in
  let sl := {| sl_key := "k"; sl_session := 1;
               sl_wake := now (Race.world c) + 30 * Minute |} in
  let c1 := exec c (Step env_ok 1) in
  timers 1 (Race.world c1) = [sl] /\
  (forall later, Forall (early (sl_wake sl)) later ->
     timers 1 (Race.world (execs later c1)) = [sl] /\
     closed_at (Race.world (execs later c1)) 1 = Some false) /\
  (forall later t, Forall (early (sl_wake sl)) later -> (sl_wake sl <= t)%Z ->
     let w3 := advance t (Race.world (execs later c1)) in
     sessions w3 !! "k"%string = None /\
     closed_at w3 1 = Some true /\
     timers 1 w3 = [] /\
     (exists pre post,
        trace w3
        = pre ++ [(sl_wake sl, EvDelete "k"); (sl_wake sl, EvClose 1)] ++ post) /\
     (forall env' r' s' w0,
        http_Method r' = "POST"%string -> sessionID_of r' = "k"%string ->
        NewMCPSession env' w3 = (Ok s', w0) ->
        s' <> 1 /\
        sessions (snd (handleMCP env' r' w3)) !! "k"%string = Some s' /\
        length (procs (snd (handleMCP env' r' w3))) = S (length (procs w3)))).
Proof.
  apply (C4_fixed_lifetime raced (Step env_ok 1) "k" 1).
  vm_compute. reflexivity.
Defined.

End EvictionFacts.

(** ** The answers of [handleMCP] *)

Module HandlerFacts.

Import Json Wrapper Samples JsonFacts WrapperFacts.

(** X1: the status of the answer tells how far [handleMCP] came, and
    nothing else does: 405 exactly for a method other than POST; 400 exactly
    for a POST whose session was resolved and whose body does not decode;
    200 exactly for a POST whose session was resolved, whose body decodes
    and whose exchange with the child succeeded; 500 in every other case.
    An answer with 200 is JSON data, every other one a plain text. *)
Theorem handleMCP_status env r w :
  let a := fst (handleMCP env r w) in
  (status a = StatusMethodNotAllowed <-> http_Method r <> "POST"%string) /\
  (status a = StatusBadRequest <->
     http_Method r = "POST"%string /\
     exists s w1 e, getOrCreateSession env (sessionID_of r) w = (Ok s, w1) /\
                    Decode (http_Body r) = Err e) /\
  (status a = StatusOK <->
     http_Method r = "POST"%string /\
     exists s w1 req resp w2,
       getOrCreateSession env (sessionID_of r) w = (Ok s, w1) /\
       Decode (http_Body r) = Ok req /\
       SendRequest env s req w1 = (Ok resp, w2)) /\
  (status a = StatusMethodNotAllowed \/ status a = StatusBadRequest \/
   status a = StatusOK \/ status a = StatusInternalServerError) /\
  (status a = StatusOK ->
     content_type a = "application/json"%string /\ exists data, resp_body a = Bytes data) /\
  (status a <> StatusOK ->
     content_type a = "text/plain; charset=utf-8"%string /\
     exists msg cause, resp_body a = ErrorText msg cause).
Proof.
  cbv zeta. unfold handleMCP.
  destruct (String.eqb_spec (http_Method r) "POST") as [Hm|Hm]; simpl.
  2:{ repeat split; try done; try (intros H; exfalso; discriminate H); eauto.
      all: try (intros (H & _); contradiction). }
  destruct (getOrCreateSession env (sessionID_of r) w) as [[s|e] w1] eqn:Hg; simpl.
  2:{ repeat split; try done; eauto 10;
        try (intros H; exfalso; first [discriminate H | by apply H]);
        try (intros (_ & ? & ? & ? & H & _); discriminate H);
        try (intros (_ & ? & ? & ? & ? & ? & H & _); discriminate H). }
  destruct (Decode (http_Body r)) as [req|e] eqn:Hd; simpl.
  2:{ repeat split; try done; eauto 10;
        try (intros H; exfalso; first [discriminate H | by apply H]);
        try (intros (_ & ? & ? & ? & ? & ? & _ & H & _); discriminate H). }
  destruct (SendRequest env s req w1) as [[resp|e] w2] eqn:HS; simpl.
  - repeat split; try done; eauto 10;
      try (intros H; exfalso; first [discriminate H | by apply H]);
      try (intros (_ & ? & ? & ? & _ & H); discriminate H).
  - repeat split; try done; eauto 10;
      try (intros H; exfalso; first [discriminate H | by apply H]);
      try (intros (_ & ? & ? & ? & _ & H); discriminate H).
    intros (_ & s' & w1' & req' & resp' & w2' & H1 & H2 & H3).
    inversion H1; subst. inversion H2; subst. rewrite HS in H3. discriminate H3.
Qed.

(** X2: a POST whose key is registered is served by the registered
    session: no process is started, the registry and the pending evictions
    are as before, so that the session's eviction is not put off, and the
    only events are one exchange at most with that session. *)
Theorem registered_session_reused env r w s :
  http_Method r = "POST"%string -> sessions w !! sessionID_of r = Some s ->
  let w' := snd (handleMCP env r w) in
  sessions w' = sessions w /\ sleepers w' = sleepers w /\
  length (procs w') = length (procs w) /\ now w' = now w /\
  exists evs, trace w' = trace w ++ evs /\ one_exchange (now w) s evs.
Proof.
  intros Hm Hk. cbv zeta. unfold handleMCP. rewrite (method_post _ Hm). simpl.
  rewrite (getOrCreateSession_seen _ _ _ _ Hk).
  destruct (Decode (http_Body r)) as [req|e]; simpl.
  2:{ repeat split; try done. exists []. rewrite app_nil_r. split; [done|by left]. }
  destruct (SendRequest env s req w) as [res w2] eqn:HS.
  destruct (SendRequest_frame _ _ _ _ _ _ HS) as (Hse & Hsl & Hnow & Hlen & _ & Hev).
  destruct res; simpl; auto.
Qed.

Lemma registered_session_reused_witness :
  let w := snd (handleMCP env_ok (post "k" ping) empty_world) in
  let w' := snd (handleMCP env_ok (post "k" ping) w) in
  sessions w' = sessions w /\ sleepers w' = sleepers w /\
  length (procs w') = length (procs w) /\ now w' = now w /\
  exists evs, trace w' = trace w ++ evs /\ one_exchange (now w) 0 evs.
Proof.
  apply (registered_session_reused env_ok (post "k" ping)
           (snd (handleMCP env_ok (post "k" ping) empty_world)) 0).
  - reflexivity.
  - vm_compute. reflexivity.
Defined.

End HandlerFacts.

(** ** One exchange with the child *)

Module ExchangeFacts.

Import Json Wrapper Samples JsonFacts WrapperFacts.

(** The bytes [s] hold no newline. *)
Definition no_newline (s : bytes) : bool := forallb (fun c => negb (isb c "010")) s.

Lemma ReadBytes_line pre rest :
  no_newline pre = true -> ReadBytes (pre ++ "010" :: rest) = Some (pre ++ ["010"], rest).
Proof.
  induction pre as [|c pre IH]; simpl; [done|].
  intros [Hc Hp]%andb_prop. apply negb_true_iff in Hc. rewrite Hc, IH; done.
Qed.

Lemma ReadBytes_none s : no_newline s = true -> ReadBytes s = None.
Proof.
  induction s as [|c s IH]; simpl; [done|].
  intros [Hc Hp]%andb_prop. apply negb_true_iff in Hc. rewrite Hc, IH; done.
Qed.

Lemma ReadBytes_Some s line rest :
  ReadBytes s = Some (line, rest) ->
  exists pre, no_newline pre = true /\ line = pre ++ ["010"] /\ s = pre ++ "010" :: rest.
Proof.
  revert line. induction s as [|c s IH]; intros line; simpl; [done|].
  destruct (isb c "010") eqn:Hc.
  - intros H. inversion H; subst. exists []. apply Ascii.eqb_eq in Hc as ->. auto.
  - destruct (ReadBytes s) as [[l r]|]; [|done]. intros H. inversion H; subst.
    destruct (IH l eq_refl) as (pre & Hp & -> & ->).
    exists (c :: pre). simpl. rewrite Hc, Hp. auto.
Qed.

(** What [SendRequest] does when the session is open, the request can be
    marshalled and written, and a line is there to read. *)
Lemma SendRequest_line env s req w p reqBytes line rest :
  procs w !! s = Some p -> closed p = false -> write_err env = None ->
  Marshal req = Ok reqBytes ->
  ReadBytes (unread p ++ child_output env) = Some (line, rest) ->
  SendRequest env s req w
  = (match Unmarshal (TrimSpace line) with
     | Ok resp => Ok resp
     | Err e => Err (Wrap "failed to unmarshal response" e)
     end,
     log_event
       (set_procs (log_event (set_procs w (<[s := {| stdin_log := stdin_log p ++ [reqBytes ++ ["010"]];
                                                      unread := unread p ++ child_output env;
                                                      closed := false |}]> (procs w)))
                     (EvWrite s (reqBytes ++ ["010"])))
          (<[s := {| stdin_log := stdin_log p ++ [reqBytes ++ ["010"]];
                     unread := rest; closed := false |}]>
             (<[s := {| stdin_log := stdin_log p ++ [reqBytes ++ ["010"]];
                        unread := unread p ++ child_output env;
                        closed := false |}]> (procs w))))
       (EvRead s line)).
Proof.
  intros Hp Hc Hw HM HR. unfold SendRequest. rewrite Hp, HM, Hc, Hw. simpl.
  rewrite HR. by destruct (Unmarshal (TrimSpace line)).
Qed.

(** X3: [SendRequest] reads one line, the bytes up to the first newline of
    what the child has written and the session has not yet returned; it
    answers with that line decoded, and keeps the bytes after the newline
    for the next call. *)
Theorem exchange_reads_first_line env s req w p reqBytes pre rest :
  procs w !! s = Some p -> closed p = false -> write_err env = None ->
  Marshal req = Ok reqBytes ->
  unread p ++ child_output env = pre ++ "010" :: rest -> no_newline pre = true ->
  fst (SendRequest env s req w)
  = match Unmarshal (TrimSpace (pre ++ ["010"])) with
    | Ok resp => Ok resp
    | Err e => Err (Wrap "failed to unmarshal response" e)
    end /\
  procs (snd (SendRequest env s req w)) !! s
  = Some {| stdin_log := stdin_log p ++ [reqBytes ++ ["010"]]; unread := rest;
            closed := false |} /\
  trace (snd (SendRequest env s req w))
  = trace w ++ [(now w, EvWrite s (reqBytes ++ ["010"])); (now w, EvRead s (pre ++ ["010"]))].
Proof.
  intros Hp Hc Hw HM Hs Hpre.
  rewrite (SendRequest_line env s req w p reqBytes (pre ++ ["010"]) rest); try done.
  2:{ rewrite Hs. by apply ReadBytes_line. }
  simpl. split; [done|]. split.
  - rewrite list_lookup_insert_eq; [done|]. rewrite length_insert.
    eapply lookup_lt_Some; eauto.
  - by rewrite <- app_assoc.
Qed.

(** The child answers with two lines. *)
Definition env_two_lines : Env :=
  env_reply (js "{'jsonrpc':'2.0','method':'notifications/progress'}" ++ "010"
             :: js "{'jsonrpc':'2.0','id':'a','result':{}}").

Definition one_session : World :=
  {| now := 0; sessions := {[ "k"%string := 0 ]};
     procs := [{| stdin_log := []; unread := []; closed := false |}];
     sleepers := [{| sl_key := "k"; sl_session := 0; sl_wake := 30 * Minute |}];
     trace := [] |}.

Lemma exchange_reads_first_line_witness :
  fst (SendRequest env_two_lines 0 ping_request one_session)
  = match Unmarshal (TrimSpace (js "{'jsonrpc':'2.0','method':'notifications/progress'}"
                                ++ ["010"])) with
    | Ok resp => Ok resp
    | Err e => Err (Wrap "failed to unmarshal response" e)
    end /\
  procs (snd (SendRequest env_two_lines 0 ping_request one_session)) !! 0
  = Some {| stdin_log := [] ++ [ping ++ ["010"]];
            unread := js "{'jsonrpc':'2.0','id':'a','result':{}}" ++ ["010"];
            closed := false |} /\
  trace (snd (SendRequest env_two_lines 0 ping_request one_session))
  = trace one_session
    ++ [(now one_session, EvWrite 0 (ping ++ ["010"]));
        (now one_session,
         EvRead 0 (js "{'jsonrpc':'2.0','method':'notifications/progress'}" ++ ["010"]))].
Proof.
  apply (exchange_reads_first_line env_two_lines 0 ping_request one_session
           {| stdin_log := []; unread := []; closed := false |} ping
           (js "{'jsonrpc':'2.0','method':'notifications/progress'}")
           (js "{'jsonrpc':'2.0','id':'a','result':{}}" ++ ["010"]));
    vm_compute; reflexivity.
Defined.

(** X4: a line that an earlier exchange left unread is the answer to the
    next request: the result of [SendRequest] is that line decoded,
    whatever the child writes in reply to the request, which stays unread
    in its turn.  Responses are paired with requests by their order
    alone. *)
Theorem stale_line_answers_next_request env s req w p reqBytes line rest :
  procs w !! s = Some p -> closed p = false -> write_err env = None ->
  Marshal req = Ok reqBytes ->
  ReadBytes (unread p) = Some (line, rest) ->
  fst (SendRequest env s req w)
  = match Unmarshal (TrimSpace line) with
    | Ok resp => Ok resp
    | Err e => Err (Wrap "failed to unmarshal response" e)
    end /\
  exists p', procs (snd (SendRequest env s req w)) !! s = Some p' /\
             unread p' = rest ++ child_output env.
Proof.
  intros Hp Hc Hw HM HR.
  destruct (ReadBytes_Some _ _ _ HR) as (pre & Hpre & -> & Hu).
  destruct (exchange_reads_first_line env s req w p reqBytes pre
              (rest ++ child_output env)) as (H1 & H2 & _); try done.
  { rewrite Hu, <- app_assoc. done. }
  split; [exact H1|]. eexists. split; [exact H2|done].
Qed.

Definition left_over : World :=
  snd (SendRequest env_two_lines 0 ping_request one_session).

Lemma stale_line_answers_next_request_witness :
  fst (SendRequest env_ok 0 ping_request left_over)
  = match Unmarshal (TrimSpace (js "{'jsonrpc':'2.0','id':'a','result':{}}" ++ ["010"])) with
    | Ok resp => Ok resp
    | Err e => Err (Wrap "failed to unmarshal response" e)
    end /\
  exists p', procs (snd (SendRequest env_ok 0 ping_request left_over)) !! 0 = Some p' /\
             unread p' = [] ++ child_output env_ok.
Proof.
  apply (stale_line_answers_next_request env_ok 0 ping_request left_over
           {| stdin_log := [ping ++ ["010"]];
              unread := js "{'jsonrpc':'2.0','id':'a','result':{}}" ++ ["010"];
              closed := false |} ping);
    vm_compute; reflexivity.
Defined.

(** X5: once [Close] has run on a session, every [SendRequest] on it fails
    before anything is written: with the error of the write to the closed
    pipe, or with the error of [Marshal] when the request cannot be
    marshalled; the world is left as it was. *)
Theorem closed_session_refuses env s req w p :
  procs w !! s = Some p ->
  snd (SendRequest env s req (Close s w)) = Close s w /\
  fst (SendRequest env s req (Close s w))
  = match Marshal req with
    | Ok _ => Err (Wrap "failed to write request" ErrClosed)
    | Err e => Err (Wrap "failed to marshal request" e)
    end.
Proof.
  intros Hp. unfold SendRequest, Close. rewrite Hp. simpl.
  rewrite list_lookup_insert_eq by (eapply lookup_lt_Some; eauto).
  destruct (Marshal req); done.
Qed.

Lemma closed_session_refuses_witness :
  snd (SendRequest env_ok 0 ping_request (Close 0 one_session)) = Close 0 one_session /\
  fst (SendRequest env_ok 0 ping_request (Close 0 one_session))
  = match Marshal ping_request with
    | Ok _ => Err (Wrap "failed to write request" ErrClosed)
    | Err e => Err (Wrap "failed to marshal request" e)
    end.
Proof.
  apply (closed_session_refuses env_ok 0 ping_request one_session
           {| stdin_log := []; unread := []; closed := false |}).
  reflexivity.
Defined.

End ExchangeFacts.

(** ** Sessions, processes and evictions in every world the server reaches *)

Module LifetimeFacts.

Import Json Wrapper Samples JsonFacts WrapperFacts TimerFacts.

(** Every registered key and every open process has its sleeper. *)
Record covered (w : World) : Prop := {
  cov_keys : forall k s, sessions w !! k = Some s ->
    exists x, x ∈ sleepers w /\ sl_key x = k /\ sl_session x = s;
  cov_procs : forall j, closed_at w j = Some false ->
    exists x, x ∈ sleepers w /\ sl_session x = j
}.

Lemma covered_empty : covered empty_world.
Proof. split; simpl; [intros k s H; by rewrite lookup_empty in H|done]. Qed.

Lemma covered_handle env r w : covered w -> covered (snd (handleMCP env r w)).
Proof.
  intros [Hk Hp].
  destruct (handleMCP_frame env r w)
    as [_ [(Hs & Hsl & Hlen)|(_ & Hnone & Hs & Hsl & Hlen)]].
  - split; rewrite ?Hs, Hsl; [done|]. intros j Hj.
    pose proof (closed_at_lt _ _ _ Hj) as Hlt. rewrite Hlen in Hlt.
    rewrite (proj1 (handleMCP_closed env r w j) Hlt) in Hj. by apply Hp.
  - split; rewrite ?Hs, Hsl.
    + intros k s Hks. destruct (decide (k = sessionID_of r)) as [->|Hne].
      * rewrite lookup_insert_eq in Hks. inversion Hks; subst.
        eexists. split; [apply elem_of_app; right; by left|done].
      * rewrite lookup_insert_ne in Hks by done.
        destruct (Hk _ _ Hks) as (x & Hx & Hx'). exists x. split; [|done].
        apply elem_of_app. by left.
    + intros j Hj. pose proof (closed_at_lt _ _ _ Hj) as Hlt. rewrite Hlen in Hlt.
      destruct (decide (j = length (procs w))) as [->|Hne].
      * eexists. split; [apply elem_of_app; right; by left|done].
      * assert (Hlt' : j < length (procs w)) by lia.
        rewrite (proj1 (handleMCP_closed env r w j) Hlt') in Hj.
        destruct (Hp _ Hj) as (x & Hx & Hx'). exists x. split; [|done].
        apply elem_of_app. by left.
Qed.

(** The sleepers delete keys and close sessions, and do nothing else to
    them. *)
Lemma wake_all_registered t l w k s :
  sessions (wake_all t l w) !! k = Some s -> sessions w !! k = Some s.
Proof.
  revert w. induction l as [|x l IH]; intros w; simpl; [done|].
  destruct (Z.leb_spec (sl_wake x) t) as [Hle|Hgt]; [|by apply IH].
  intros H. apply IH in H.
  destruct (evict_frame x (set_now w (Z.max (now w) (sl_wake x)))) as (_ & _ & Hs & _).
  rewrite Hs in H. simpl in H. rewrite lookup_delete in H. by case_decide.
Qed.

Lemma wake_all_was_open t l w j :
  closed_at (wake_all t l w) j = Some false -> closed_at w j = Some false.
Proof.
  revert w. induction l as [|x l IH]; intros w; simpl; [done|].
  destruct (Z.leb_spec (sl_wake x) t) as [Hle|Hgt]; [|by apply IH].
  intros H. apply IH in H. rewrite evict_closed in H.
  unfold closed_at in *. simpl in *. case_decide; [|done].
  by destruct (procs w !! j).
Qed.

Lemma covered_advance t w : wf w -> covered w -> covered (advance t w).
Proof.
  intros Hwf [Hk Hp]. destruct (advance_frame t w) as (Hsl & _ & _ & Hs & _).
  split; rewrite Hsl.
  - intros k s Hks. rewrite Hs in Hks.
    pose proof (wake_all_registered _ _ _ _ _ Hks) as Hks0. simpl in Hks0.
    destruct (Hk _ _ Hks0) as (x & Hx & <- & <-). exists x. split; [|done].
    apply list_elem_of_filter. split; [|done].
    destruct (Z.lt_ge_cases t (sl_wake x)) as [|Hle]; [done|].
    rewrite (wake_all_due t (sleepers w) _ x Hx Hle) in Hks. discriminate.
  - intros j Hj. rewrite advance_closed in Hj.
    pose proof (wake_all_was_open _ _ _ _ Hj) as Hj0.
    change (closed_at w j = Some false) in Hj0.
    destruct (Hp _ Hj0) as (x & Hx & <-). exists x. split; [|done].
    apply list_elem_of_filter. split; [|done].
    destruct (Z.lt_ge_cases t (sl_wake x)) as [|Hle]; [done|].
    rewrite (wake_all_closes t (sleepers w) _ x Hx Hle) in Hj; [discriminate|].
    simpl. by destruct (wf_registered _ Hwf _ Hx).
Qed.

(** The three invariants together. *)
Definition steady (w : World) : Prop := wf w /\ opened w /\ covered w.

Lemma steady_empty : steady empty_world.
Proof. split; [apply wf_empty|split; [apply opened_empty|apply covered_empty]]. Qed.

Lemma steady_act w a : steady w -> steady (act w a).
Proof.
  intros (Hwf & Ho & Hc). destruct a as [env r|t]; simpl.
  - split; [by apply wf_handle|split; [by apply opened_handle|by apply covered_handle]].
  - split; [by apply wf_advance|split; [by apply opened_advance|by apply covered_advance]].
Qed.

Lemma steady_run acts w : steady w -> steady (run acts w).
Proof.
  revert w. induction acts as [|a acts IH]; intros w Hw; [done|].
  simpl. apply IH, steady_act, Hw.
Qed.

(** X6: whatever requests the server has handled and however time has
    passed, a key in the registry maps to a process that exists and has not
    been closed, and exactly one eviction is pending for the key: that of
    this session, due in the future and within 30 minutes. *)
Theorem registered_session_is_open acts k s :
  sessions (run acts empty_world) !! k = Some s ->
  let w := run acts empty_world in
  (exists p, procs w !! s = Some p /\ closed p = false) /\
  exists x, x ∈ sleepers w /\ sl_key x = k /\ sl_session x = s /\
            (now w < sl_wake x <= now w + 30 * Minute)%Z /\
            forall y, y ∈ sleepers w -> sl_key y = k -> y = x.
Proof.
  intros Hk. cbv zeta.
  destruct (steady_run acts empty_world steady_empty) as (Hwf & Ho & Hc).
  destruct (cov_keys _ Hc _ _ Hk) as (x & Hx & Hxk & Hxs). split.
  - pose proof (op_open _ Ho _ Hx) as Hopen. rewrite Hxs in Hopen.
    unfold closed_at in Hopen. destruct (procs (run acts empty_world) !! s) as [p|]; [|done].
    exists p. split; [done|]. simpl in Hopen. by inversion Hopen.
  - exists x. repeat split; try done; try (by apply (wf_ahead _ Hwf)).
    intros y Hy Hyk. apply (key_inj _ _ _ (wf_keys _ Hwf) Hy Hx). congruence.
Qed.

Lemma registered_session_is_open_witness :
  let w := run [Handle env_ok (post "k" ping); Advance (10 * Minute)] empty_world in
  (exists p, procs w !! 0 = Some p /\ closed p = false) /\
  exists x, x ∈ sleepers w /\ sl_key x = "k"%string /\ sl_session x = 0 /\
            (now w < sl_wake x <= now w + 30 * Minute)%Z /\
            forall y, y ∈ sleepers w -> sl_key y = "k"%string -> y = x.
Proof.
  apply (registered_session_is_open
           [Handle env_ok (post "k" ping); Advance (10 * Minute)] "k" 0).
  vm_compute. reflexivity.
Defined.

(** X7: requests handled one at a time leave no process behind: a process
    that has not been closed is registered, under the key of its pending
    eviction. *)
Theorem open_process_is_registered acts j p :
  procs (run acts empty_world) !! j = Some p -> closed p = false ->
  exists k, sessions (run acts empty_world) !! k = Some j.
Proof.
  intros Hj Hc.
  destruct (steady_run acts empty_world steady_empty) as (Hwf & Ho & Hcov).
  destruct (cov_procs _ Hcov j) as (x & Hx & Hxs).
  { unfold closed_at. rewrite Hj. simpl. by rewrite Hc. }
  exists (sl_key x). destruct (wf_registered _ Hwf _ Hx) as [Hr _]. by rewrite Hr, Hxs.
Qed.

Lemma open_process_is_registered_witness :
  exists k, sessions (run [Handle env_ok (post "k" ping); Advance (10 * Minute)] empty_world)
              !! k = Some 0.
Proof.
  apply (open_process_is_registered
           [Handle env_ok (post "k" ping); Advance (10 * Minute)] 0
           {| stdin_log := [ping ++ ["010"]]; unread := []; closed := false |}).
  - vm_compute. reflexivity.
  - reflexivity.
Defined.

(** X8: thirty minutes after the last request every session is gone: the
    registry is empty, no eviction is pending, and every process that was
    ever started has been closed. *)
Theorem all_sessions_evicted acts t :
  (now (run acts empty_world) + 30 * Minute <= t)%Z ->
  let w := advance t (run acts empty_world) in
  sessions w = ∅ /\ sleepers w = [] /\
  forall j p, procs w !! j = Some p -> closed p = true.
Proof.
  intros Ht. cbv zeta.
  pose proof (steady_run acts empty_world steady_empty) as Hs.
  pose proof (steady_act _ (Advance t) Hs) as Hs'.
  change (steady (advance t (run acts empty_world))) in Hs'.
  destruct Hs' as (Hwf' & Ho' & Hc').
  destruct Hs as (Hwf & _ & _).
  assert (Hsl : sleepers (advance t (run acts empty_world)) = []).
  { destruct (advance_frame t (run acts empty_world)) as (-> & _).
    apply filter_none. intros x Hx. pose proof (wf_ahead _ Hwf _ Hx). lia. }
  split; [|split; [done|]].
  - apply map_eq. intros k. rewrite lookup_empty.
    destruct (sessions (advance t (run acts empty_world)) !! k) as [s|] eqn:Hk; [|done].
    destruct (cov_keys _ Hc' _ _ Hk) as (x & Hx & _). rewrite Hsl in Hx.
    by apply elem_of_nil in Hx.
  - intros j p Hj. destruct (closed p) eqn:Hcl; [done|].
    destruct (cov_procs _ Hc' j) as (x & Hx & _).
    { unfold closed_at. rewrite Hj. simpl. by rewrite Hcl. }
    rewrite Hsl in Hx. by apply elem_of_nil in Hx.
Qed.

Lemma all_sessions_evicted_witness :
  let w := advance (40 * Minute)
             (run [Handle env_ok (post "k" ping); Advance (10 * Minute);
                   Handle env_ok (post "j" ping)] empty_world) in
  sessions w = ∅ /\ sleepers w = [] /\
  forall j p, procs w !! j = Some p -> closed p = true.
Proof.
  apply (all_sessions_evicted
           [Handle env_ok (post "k" ping); Advance (10 * Minute);
            Handle env_ok (post "j" ping)] (40 * Minute)).
  vm_compute. discriminate.
Defined.

End LifetimeFacts.

(** ** The session key *)

Module KeyFacts.

Import Json Wrapper Samples JsonFacts WrapperFacts TimerFacts.

(** The request [r] with its [X-Session-ID] header set to [h]. *)
Definition with_header (r : Request) (h : string) : Request :=
  {| http_Method := http_Method r; header_X_Session_ID := h; http_Body := http_Body r |}.

Lemma sessionID_of_nonempty r : sessionID_of r <> ""%string.
Proof.
  unfold sessionID_of. destruct (String.eqb_spec (header_X_Session_ID r) ""); [done|].
  done.
Qed.

Lemma no_empty_key_act w a :
  sessions w !! ""%string = None -> sessions (act w a) !! ""%string = None.
Proof.
  intros Hw. destruct a as [env r|t].
  - change (act w (Handle env r)) with (snd (handleMCP env r w)).
    destruct (handleMCP_frame env r w) as [_ [(-> & _)|(_ & _ & -> & _)]]; [done|].
    rewrite lookup_insert_ne; [done|]. apply sessionID_of_nonempty.
  - change (act w (Advance t)) with (advance t w).
    destruct (advance_frame t w) as (_ & _ & _ & -> & _). by apply wake_all_none.
Qed.

(** X9: the header reaches the registry through the session key only, the
    key of a request without the header, or with an empty one, being
    ["default"]: such a request is handled as the same request with the
    header [default], in the same session.  The empty string is never a
    key of the registry. *)
Theorem missing_header_is_default env r w acts :
  handleMCP env (with_header r (sessionID_of r)) w = handleMCP env r w /\
  sessionID_of (with_header r "") = "default"%string /\
  sessions (run acts empty_world) !! ""%string = None.
Proof.
  split; [|split; [done|]].
  - assert (Hk : sessionID_of (with_header r (sessionID_of r)) = sessionID_of r).
    { unfold sessionID_of at 1. simpl.
      destruct (String.eqb_spec (sessionID_of r) ""); [|done].
      by destruct (sessionID_of_nonempty r). }
    unfold handleMCP. rewrite Hk. reflexivity.
  - assert (H : forall w0, sessions w0 !! ""%string = None ->
                           sessions (run acts w0) !! ""%string = None).
    { induction acts as [|a acts IH]; intros w0 Hw0; [done|].
      simpl. apply IH. by apply no_empty_key_act. }
    apply H. apply lookup_empty.
Qed.

End KeyFacts.

(** ** Concurrent resolutions, whatever the schedule *)

Module ScheduleFacts.

Import Wrapper Race Samples WrapperFacts RaceFacts.

(** Every process started since [n0] processes had been has its sleeper,
    or a goroutine that is about to store it and start the sleeper. *)
Definition accounted (n0 : nat) (c : config) : Prop :=
  forall j, n0 <= j < spawned (world c) ->
    (exists x, x ∈ sleepers (world c) /\ sl_session x = j) \/
    (exists i key, threads c !! i = Some (key, AtStore j)).

Lemma accounted_step env i n0 c :
  n0 <= spawned (world c) -> accounted n0 c ->
  n0 <= spawned (world (step env i c)) /\ accounted n0 (step env i c).
Proof.
  intros Hn Hacc. destruct (threads c !! i) as [[key p]|] eqn:Hi.
  2:{ unfold step. rewrite Hi. done. }
  assert (Hlt : i < length (threads c)) by (eapply lookup_lt_Some; eauto).
  assert (Hkeep : forall w' p',
            (forall s, p <> AtStore s) ->
            n0 <= spawned w' ->
            (forall j, n0 <= j < spawned w' ->
               (j < spawned (world c) /\
                forall x, x ∈ sleepers (world c) -> x ∈ sleepers w') \/
               p' = AtStore j) ->
            accounted n0 {| world := w'; threads := <[i := (key, p')]> (threads c) |}).
  { intros w' p' Hp Hn' Hj j Hjr. simpl in *.
    destruct (Hj j Hjr) as [[Hlt' Hsub]| ->].
    - destruct (Hacc j) as [(x & Hx & Hxs)|(i' & key' & Hi')]; [lia| |].
      + left. exists x. split; [by apply Hsub|done].
      + right. exists i', key'. rewrite list_lookup_insert_ne; [done|].
        intros ->. rewrite Hi in Hi'. inversion Hi'; subst. by destruct (Hp j).
    - right. exists i, key. by rewrite list_lookup_insert_eq. }
  rewrite (step_eq _ _ _ _ _ Hi). destruct p as [| |s|r].
  - destruct (sessions (world c) !! key); (split; [done|]);
      apply Hkeep; try done; intros j Hj; left; (split; [lia|auto]).
  - destruct (NewMCPSession env (world c)) as [[s|e] w1] eqn:HN.
    + destruct (NewMCPSession_Ok _ _ _ _ HN) as (-> & Hp & _ & Hsl & _).
      assert (Hsp : spawned w1 = S (spawned (world c))).
      { unfold spawned. rewrite Hp, length_app. simpl. lia. }
      split; [simpl; lia|]. apply Hkeep; try done; [lia|].
      intros j Hj. destruct (decide (j = spawned (world c))) as [->|Hne].
      * by right.
      * left. split; [lia|]. by rewrite Hsl.
    + apply NewMCPSession_Err in HN as ->. split; [done|].
      apply Hkeep; try done. intros j Hj. left. split; [lia|auto].
  - split; [done|]. intros j Hj. simpl in *.
    change (spawned (register key s (world c))) with (spawned (world c)) in Hj.
    destruct (Hacc j Hj) as [(x & Hx & Hxs)|(i' & key' & Hi')].
    + left. exists x. split; [|done]. apply elem_of_app. by left.
    + destruct (decide (i' = i)) as [->|Hne].
      * rewrite Hi in Hi'. inversion Hi'; subst. left.
        eexists. split; [apply elem_of_app; right; by left|done].
      * right. exists i', key'. by rewrite list_lookup_insert_ne.
  - done.
Qed.

Lemma accounted_run env schedule n0 c :
  n0 <= spawned (world c) -> accounted n0 c ->
  n0 <= spawned (world (run env schedule c)) /\ accounted n0 (run env schedule c).
Proof.
  revert c. induction schedule as [|i l IH]; intros c Hn Hacc; [done|].
  rewrite run_cons. destruct (accounted_step env i n0 c Hn Hacc). by apply IH.
Qed.

(** X10: concurrent calls of [getOrCreateSession], for any keys and under
    any schedule, lose no process: once the calls have returned, every
    process they started has an eviction pending that will close it, the
    processes that the registry no longer names included. *)
Theorem every_process_has_its_eviction env schedule (keys : list string) (w : World) :
  let c := run env schedule
             {| world := w; threads := map (fun k => (k, AtLoad)) keys |} in
  (forall i key p, threads c !! i = Some (key, p) -> exists r, p = Returned r) ->
  forall j, spawned w <= j < spawned (world c) ->
    exists x, x ∈ sleepers (world c) /\ sl_session x = j.
Proof.
  cbv zeta. intros Hret j Hj.
  destruct (accounted_run env schedule (spawned w)
              {| world := w; threads := map (fun k => (k, AtLoad)) keys |})
    as [_ Hacc]; [done| |].
  { intros j' Hj'. simpl in Hj'. lia. }
  destruct (Hacc j Hj) as [H|(i & key & Hi)]; [done|].
  destruct (Hret _ _ _ Hi) as [r Hr]. discriminate Hr.
Qed.

Lemma every_process_has_its_eviction_witness :
  let c := run env_ok [0; 1; 0; 1; 0; 1]
             {| world := empty_world;
                threads := map (fun k => (k, AtLoad)) ["k"%string; "k"%string] |} in
  exists x, x ∈ sleepers (world c) /\ sl_session x = 0.
Proof.
  apply (every_process_has_its_eviction env_ok [0; 1; 0; 1; 0; 1]
           ["k"%string; "k"%string] empty_world).
  - intros i key p. vm_compute.
    destruct i as [|[|i]]; intros H; inversion H; eauto.
  - vm_compute. split; [apply le_n|apply le_S, le_n].
Defined.

End ScheduleFacts.

(** ** Concurrent exchanges always come to an end *)

Module LockFacts.

Import Json Mutex Samples MutexFacts.

(** The steps that a goroutine at [p] has still to make. *)
Definition rank (p : pc) : nat :=
  match p with
  | AtLock => 6
  | AtMarshal => 5
  | AtWrite _ => 4
  | AtRead => 3
  | AtUnmarshal _ => 2
  | Returning _ => 1
  | Returned _ => 0
  end.

Definition remaining (c : config) : nat :=
  list_sum (map (fun t => rank (snd t)) (threads c)).

Lemma list_sum_insert {A} (f : A -> nat) (l : list A) (i : nat) (x y : A) :
  l !! i = Some x ->
  list_sum (map f (<[i := y]> l)) + f x = list_sum (map f l) + f y.
Proof.
  revert i. induction l as [|z l IH]; intros i Hi; [done|].
  destruct i as [|i]; simpl in *.
  - inversion Hi; subst. lia.
  - specialize (IH i Hi). lia.
Qed.

Lemma remaining_goto c i req p req' p' m ops :
  threads c !! i = Some (req, p) ->
  remaining (goto c i req' p' m ops) + rank p = remaining c + rank p'.
Proof.
  intros Hi. unfold remaining. simpl.
  exact (list_sum_insert (fun t => rank (snd t)) _ _ _ (req', p') Hi).
Qed.

Lemma step_decreases i c c' : step i c c' -> remaining c' < remaining c.
Proof.
  intros Hst.
  destruct Hst as [req Hi Hmu|req rb Hi HM|req e Hi HM|req rb Hi|req rb e Hi
                  |req l Hi|req e Hi|req l resp Hi HU|req l e Hi HU|req r Hi];
    match goal with
    | |- remaining (goto _ _ _ ?p' ?m ?ops) < _ =>
        pose proof (remaining_goto c i _ _ req p' m ops Hi) as H
    end; simpl in H; lia.
Qed.

Lemma remaining_initial reqs : remaining (initial reqs) = 6 * length reqs.
Proof.
  unfold remaining. simpl. induction reqs as [|r reqs IH]; [done|].
  simpl in *. lia.
Qed.

(** A goroutine between [Lock] and [Unlock] can make its next step. *)
Lemma holder_steps c i req p :
  threads c !! i = Some (req, p) -> holds p = true -> exists c', step i c c'.
Proof.
  intros Hi Hh. destruct p as [| |rb| |l|r|r]; try discriminate Hh.
  - destruct (Marshal req) as [rb|e] eqn:HM; eexists.
    + eapply step_marshal_ok; eauto.
    + eapply step_marshal_err; eauto.
  - eexists. eapply step_write_ok; eauto.
  - eexists. eapply (step_read_ok _ _ req []); eauto.
  - destruct (Unmarshal (TrimSpace l)) as [resp|e] eqn:HU; eexists.
    + eapply step_unmarshal_ok; eauto.
    + eapply step_unmarshal_err; eauto.
  - eexists. eapply step_unlock; eauto.
Qed.

(** X11: concurrent calls of [SendRequest] on one session cannot block one
    another for ever.  As long as a call has not returned, some goroutine
    can make a step: the one that holds the mutex, or any one when the
    mutex is free; every step brings the calls nearer to their end, which
    is at most six steps away for each; and when no step is left to make,
    the mutex is free.  (The pipes are taken to answer: a child that never
    writes blocks the holder, and with it every other call.) *)
Theorem calls_come_to_an_end (reqs : list MCPRequest) (c : config) :
  reachable (initial reqs) c ->
  remaining c <= 6 * length reqs /\
  (forall i c', step i c c' -> remaining c' < remaining c) /\
  (0 < remaining c -> exists i c', step i c c') /\
  (remaining c = 0 -> mu c = None).
Proof.
  intros Hr. pose proof (inv_reachable _ _ (inv_initial reqs) Hr) as [Hh Hd Hp].
  split; [|split; [|split]].
  - clear Hh Hd Hp. induction Hr as [|c1 c2 i Hr IH Hst].
    + by rewrite remaining_initial.
    + pose proof (step_decreases _ _ _ Hst). lia.
  - intros i c'. apply step_decreases.
  - intros Hpos. destruct (mu c) as [j|] eqn:Hmu.
    + destruct (Hd _ eq_refl) as (req & p & Hj & Hhj). exists j.
      eapply holder_steps; eauto.
    + assert (Hex : exists i req p, threads c !! i = Some (req, p) /\ 0 < rank p).
      { unfold remaining in Hpos. clear -Hpos.
        induction (threads c) as [|[req p] l IH]; simpl in Hpos; [lia|].
        destruct (rank p) eqn:Hrk.
        - destruct IH as (i & req' & p' & Hi & Hp'); [simpl in Hpos; lia|].
          exists (S i), req', p'. done.
        - exists 0, req, p. split; [done|lia]. }
      destruct Hex as (i & req & p & Hi & Hrk).
      destruct (holds p) eqn:Hhp.
      * pose proof (Hh _ _ _ Hi Hhp). congruence.
      * destruct p; try discriminate Hhp; simpl in Hrk; [|lia].
        exists i. eexists. eapply step_lock; eauto.
  - intros Hz. destruct (mu c) as [j|] eqn:Hmu; [|done].
    destruct (Hd _ eq_refl) as (req & p & Hj & Hhj).
    pose proof (list_sum_insert (fun t => rank (snd t)) _ _ _ (req, Returned (Err EOF)) Hj)
      as Hs.
    unfold remaining in Hz. rewrite Hz in Hs. simpl in Hs.
    destruct p; try discriminate Hhj; simpl in Hs; lia.
Qed.

Lemma calls_come_to_an_end_witness :
  remaining (initial two_callers) <= 6 * length two_callers /\
  (forall i c', step i (initial two_callers) c' ->
     remaining c' < remaining (initial two_callers)) /\
  (0 < remaining (initial two_callers) -> exists i c', step i (initial two_callers) c') /\
  (remaining (initial two_callers) = 0 -> mu (initial two_callers) = None).
Proof.
  apply (calls_come_to_an_end two_callers (initial two_callers)).
  apply reach_refl.
Defined.

End LockFacts.

(** ** Members that can be encoded again *)

Module ValidFacts.

Import Json Wrapper Samples JsonFacts WrapperFacts.

(** *** Bytes that the scanner takes *)

(** The scanner after the bytes [data], when it refuses none of them. *)
Fixpoint scans (s : scanner) (data : bytes) : option scanner :=
  match data with
  | [] => Some s
  | c :: data' =>
      let (s', op) := scan_step s c in
      if opcode_eqb op scanError then None else scans s' data'
  end.

(** The bytes [raw] are one JSON value: [checkValid] accepts them. *)
Definition value (raw : bytes) : Prop :=
  exists s, scans newScanner raw = Some s /\ snd (eof s) <> scanError.

Lemma opcode_eqb_error op : opcode_eqb op scanError = false <-> op <> scanError.
Proof. destruct op; simpl; split; congruence. Qed.

Lemma scans_app s l l' :
  scans s (l ++ l') = match scans s l with Some s' => scans s' l' | None => None end.
Proof.
  revert s. induction l as [|c l IH]; intros s; [done|]. simpl.
  destruct (scan_step s c) as [s1 op]. destruct (opcode_eqb op scanError); [done|apply IH].
Qed.

Lemma scans_one s c s' op :
  scan_step s c = (s', op) -> op <> scanError -> scans s [c] = Some s'.
Proof. intros H Hop. simpl. rewrite H. apply opcode_eqb_error in Hop. by rewrite Hop. Qed.

Lemma checkValid_scans s data :
  checkValid_loop s data = Ok tt <->
  exists s', scans s data = Some s' /\ snd (eof s') <> scanError.
Proof.
  revert s. induction data as [|c data IH]; intros s; simpl.
  - destruct (eof s) as [s' op] eqn:He. split.
    + intros H. exists s. split; [done|]. rewrite He. simpl.
      apply opcode_eqb_error. by destruct (opcode_eqb op scanError).
    + intros (s0 & Hs & Hop). inversion Hs; subst s0. rewrite He in Hop. simpl in Hop.
      apply opcode_eqb_error in Hop. by rewrite Hop.
  - destruct (scan_step s c) as [s1 op]. destruct (opcode_eqb op scanError).
    + split; [discriminate|]. by intros (s0 & Hs & _).
    + apply IH.
Qed.

Lemma readValue_scans whole s buf data :
  readValue_loop whole s buf = Ok data -> exists s', scans s data = Some s'.
Proof.
  revert s data. induction buf as [|c buf IH]; intros s data; simpl.
  - destruct (opcode_eqb _ _); intros H; inversion H; subst. by exists s.
  - destruct (scan_step s c) as [s1 op] eqn:Hstep.
    assert (Hrec : fmap_result (cons c) (readValue_loop whole s1 buf) = Ok data ->
                   op <> scanError -> exists s', scans s data = Some s').
    { intros H Hop. destruct (readValue_loop whole s1 buf) as [d|e] eqn:Hr; [|discriminate].
      simpl in H. inversion H; subst. destruct (IH _ _ Hr) as (s' & Hs').
      exists s'. simpl. rewrite Hstep. apply opcode_eqb_error in Hop. by rewrite Hop. }
    destruct op; try (intros H; apply Hrec; [exact H|discriminate]).
    + destruct (opcode_eqb _ _); [|intros H; apply Hrec; [exact H|discriminate]].
      intros H; inversion H; subst. exists s1. by apply (scans_one _ _ _ scanEndObject).
    + destruct (opcode_eqb _ _); [|intros H; apply Hrec; [exact H|discriminate]].
      intros H; inversion H; subst. exists s1. by apply (scans_one _ _ _ scanEndArray).
    + intros H; inversion H; subst. by exists s.
    + discriminate.
Qed.

Lemma compact_scans k s data s' :
  scans s data = Some s' -> snd (compact_loop k s data) = s'.
Proof.
  revert k s. induction data as [|c data IH]; intros k s; cbn [scans compact_loop].
  - by intros [= ->].
  - destruct (scan_step s c) as [s1 v]. destruct (opcode_eqb v scanError); [done|].
    cbv zeta.
    intros H.
    assert (Hrec : forall k', snd (compact_loop k' s1 data) = s')
      by (intros; apply IH, H).
    destruct k; [|];
      repeat match goal with
             | |- context [if ?x then _ else _] => destruct x
             | |- context [match line_separator ?x with _ => _ end] =>
                 destruct (line_separator x)
             end;
      match goal with
      | |- context [compact_loop ?k' s1 data] =>
          specialize (Hrec k'); destruct (compact_loop k' s1 data)
      end; exact Hrec.
Qed.

Lemma value_compact raw : value raw -> exists c, compact raw = Ok c.
Proof.
  intros (s & Hs & He). unfold compact.
  pose proof (compact_scans 0 _ _ _ Hs) as Hc.
  destruct (compact_loop 0 newScanner raw) as [o sf]. simpl in Hc. subst sf.
  apply opcode_eqb_error in He. rewrite He. by eexists.
Qed.

(** *** A value inside an object, and the same value alone *)

(** A scanner that has refused nothing and is not past the top-level value. *)
Definition mk (st : step_fn) (ps : list parse_state) : scanner :=
  {| step := st; endTop := false; parseState := ps; err := None |}.

Definition in_string (st : step_fn) : bool :=
  match st with
  | StInString | StInStringEsc | StInStringEscU | StInStringEscU1
  | StInStringEscU12 | StInStringEscU123 => true
  | _ => false
  end.

(** The states inside a string, a number or a keyword, and after one. *)
Definition literal (st : step_fn) : bool :=
  match st with
  | StBeginValueOrEmpty | StBeginValue | StBeginStringOrEmpty | StBeginString
  | StEndTop | StError => false
  | _ => true
  end.

(** The states in which a literal can end. *)
Definition terminable (st : step_fn) : bool :=
  match st with
  | StEndValue | St0 | St1 | StDot0 | StE0 => true
  | _ => false
  end.

(** The scanner of a value alone is inside the value: inside an array or
    object of it, or in a literal. *)
Definition live (st : step_fn) (ps : list parse_state) : bool :=
  match ps with
  | [] => literal st
  | _ => match st with StEndTop => false | _ => true end
  end.

Definition below : list parse_state := [parseObjectValue].

(** The scanner after the value of a member, at the byte that ends it. *)
Inductive after : scanner -> opcode -> Prop :=
| after_space : after (mk StEndValue below) scanSkipSpace
| after_comma : after (mk StBeginString [parseObjectKey]) scanObjectValue
| after_brace s : parseState s = [] -> step s = StEndTop -> after s scanEndObject.

(** One step of the scanner inside the value of a member, beside the step
    of a scanner that reads the value alone: the byte is refused; or both
    stay inside the value; or the value ends here. *)
Inductive outcome (deep term : bool) : scanner * opcode -> scanner * opcode -> Prop :=
| oc_error s2 r' : outcome deep term (s2, scanError) r'
| oc_inner s2 s2' op :
    deep = true -> op <> scanError -> step s2' <> StEndTop -> parseState s2' <> [] ->
    s2 = mk (step s2') (parseState s2' ++ below) ->
    s2' = mk (step s2') (parseState s2') ->
    outcome deep term (s2, op) (s2', op)
| oc_literal st2 :
    deep = false -> literal st2 = true ->
    outcome deep term (mk st2 below, scanContinue) (mk st2 [], scanContinue)
| oc_closed op s2' :
    deep = true -> op <> scanError ->
    parseState s2' = [] -> endTop s2' = true -> err s2' = None ->
    outcome deep term (mk StEndValue below, op) (s2', op)
| oc_ended s2 op r' :
    deep = false -> term = true -> after s2 op -> outcome deep term (s2, op) r'.

Ltac unfold_states :=
  unfold scan_step, stateBeginValueOrEmpty, stateBeginStringOrEmpty, stateBeginString,
    stateBeginValue, stateInString, stateInStringEsc, stateInStringEscU,
    stateInStringEscU1, stateInStringEscU12, stateInStringEscU123, stateInStringEscHex,
    stateNeg, state1, state0, stateDot, stateDot0, stateE, stateESign, stateE0,
    stateT, stateTr, stateTru, stateF, stateFa, stateFal, stateFals, stateN, stateNu,
    stateNul, stateLit, stateError, stateEndValue, stateEndTop, popParseState,
    pushParseState, error_at, set_step, set_parseState, set_endTop, mk;
  cbn [step parseState endTop err tl fst snd].

Ltac split_bytes :=
  repeat match goal with
         | |- context [if isSpace ?c then _ else _] => destruct (isSpace c)
         | |- context [if isb ?c ?x then _ else _] => destruct (isb c x)
         | |- context [if is_digit ?c then _ else _] => destruct (is_digit c)
         | |- context [if is_digit19 ?c then _ else _] => destruct (is_digit19 c)
         | |- context [if is_hex ?c then _ else _] => destruct (is_hex c)
         | |- context [if (code ?c <? 32)%N then _ else _] => destruct (code c <? 32)%N
         | |- context [negb (isSpace ?c)] => destruct (isSpace c); cbn [negb]
         | |- context [if ?x || ?y then _ else _] => destruct x; cbn [orb]
         end.

Ltac split_depth :=
  repeat match goal with
         | |- context [if (?a <=? ?b)%Z then _ else _] =>
             destruct (Z.leb_spec a b)
         end.

Ltac close_outcome :=
  first
    [ apply oc_error
    | apply oc_inner; [reflexivity|discriminate|cbn; discriminate|cbn; discriminate
                      |reflexivity|reflexivity]
    | apply oc_literal; reflexivity
    | apply oc_closed; [reflexivity|discriminate|reflexivity|reflexivity|reflexivity]
    | apply oc_ended; [reflexivity|reflexivity|];
      first [ apply after_space | apply after_comma | apply after_brace; reflexivity ] ].

Lemma step_beside st ps c :
  live st ps = true ->
  outcome (negb (bool_decide (ps = []))) (terminable st)
    (scan_step (mk st (ps ++ below)) c) (scan_step (mk st ps) c).
Proof.
  intros Hl. destruct ps as [|p ps].
  - destruct st; try discriminate Hl; cbn [app below negb bool_decide terminable];
      unfold_states; split_bytes; cbn [tl]; close_outcome.
  - destruct st; try discriminate Hl; cbn [app negb terminable];
      rewrite bool_decide_eq_false_2 by discriminate; cbn [negb];
      unfold_states; split_bytes;
      try (destruct p); split_bytes; cbn [tl];
      try (destruct ps as [|q ps]; cbn [app below]);
      split_depth;
      first [ close_outcome
            | exfalso; cbn [length] in *; rewrite ?length_app in *;
              unfold maxNestingDepth in *; cbn [length] in *; lia ].
Qed.

(** The value of a member begins. *)
Inductive begins : scanner * opcode -> scanner * opcode -> Prop :=
| bg_error s2 r' : begins (s2, scanError) r'
| bg_space : begins (mk StBeginValue below, scanSkipSpace) (newScanner, scanSkipSpace)
| bg_bracket st p op :
    live st [p] = true -> op = scanBeginObject \/ op = scanBeginArray ->
    begins (mk st (p :: below), op) (mk st [p], op)
| bg_literal st :
    literal st = true -> begins (mk st below, scanBeginLiteral) (mk st [], scanBeginLiteral).

Lemma step_begins c :
  begins (scan_step (mk StBeginValue below) c) (scan_step newScanner c).
Proof.
  unfold newScanner, below. unfold_states. split_bytes; cbn;
    first [ apply bg_error | apply bg_space
          | apply (bg_bracket _ _ _); [reflexivity|auto]
          | apply (bg_literal _); reflexivity ].
Qed.

Lemma terminable_eof st : terminable st = true -> snd (eof (mk st [])) <> scanError.
Proof. destruct st; try discriminate; intros _; vm_compute; discriminate. Qed.

Lemma closed_eof s : endTop s = true -> err s = None -> snd (eof s) <> scanError.
Proof. intros Het He. unfold eof. rewrite He, Het. discriminate. Qed.

Lemma length_below (ps : list parse_state) : length (ps ++ below) = S (length ps).
Proof. unfold below. rewrite length_app. simpl. lia. Qed.

(** *** The walker beside the scanner *)

(** Where the walker is in the object, by the scanner: past it; before a
    key; after a value; in a key; after a key; before a value; in a value,
    where the bytes of the token are those a scanner of the value alone has
    taken. *)
Inductive phase : scanner -> walker -> Prop :=
| ph_done s w : parseState s = [] -> step s = StEndTop \/ step s = StError -> phase s w
| ph_key st o :
    st = StBeginStringOrEmpty \/ st = StBeginString ->
    phase (mk st [parseObjectKey]) {| tok := None; key := None; out := o |}
| ph_next o : phase (mk StEndValue below) {| tok := None; key := None; out := o |}
| ph_in_key st t o :
    in_string st = true \/ st = StEndValue ->
    phase (mk st [parseObjectKey]) {| tok := Some t; key := None; out := o |}
| ph_colon k o :
    phase (mk StEndValue [parseObjectKey]) {| tok := None; key := Some k; out := o |}
| ph_value k o :
    phase (mk StBeginValue below) {| tok := None; key := Some k; out := o |}
| ph_in_value st ps t k o :
    scans newScanner (rev t) = Some (mk st ps) -> live st ps = true ->
    phase (mk st (ps ++ below)) {| tok := Some t; key := Some k; out := o |}.

Definition values (ms : list (bytes * bytes)) : Prop :=
  Forall (fun m => value (snd m)) ms.

Ltac close_phase :=
  first [ apply ph_done; [reflexivity|auto; fail]
        | apply ph_key; auto; fail
        | apply ph_next
        | apply ph_in_key; auto; fail
        | apply ph_colon
        | apply ph_value ].

Ltac depths :=
  unfold mk; cbn [parseState app length]; rewrite ?length_below; cbn.

Lemma phase_step s w c s2 op :
  phase s w -> values (out w) -> scan_step s c = (s2, op) -> op <> scanError ->
  phase s2 (walk_step w (length (parseState s)) (length (parseState s2)) op c) /\
  values (out (walk_step w (length (parseState s)) (length (parseState s2)) op c)).
Proof.
  intros Hp Hv Hs Hop. destruct Hp as [s w Hps Hst|st o Hst|o|st t o Hst|k o|k o|st ps t k o Ht Hl].
  - destruct s as [st et ps er]. simpl in Hps, Hst. subst ps. revert Hs.
    destruct Hst as [-> | ->]; unfold_states; split_bytes; intros [= <- <-];
      try congruence; cbn; (split; [close_phase|exact Hv]).
  - revert Hs. destruct Hst as [-> | ->]; unfold_states; split_bytes; intros [= <- <-];
      try congruence; cbn; (split; [close_phase|exact Hv]).
  - revert Hs. unfold below. unfold_states; split_bytes; intros [= <- <-];
      try congruence; cbn; (split; [close_phase|exact Hv]).
  - revert Hs. destruct Hst as [Hst | ->]; [destruct st; try discriminate Hst|];
      unfold_states; split_bytes; intros [= <- <-];
      try congruence; cbn; (split; [close_phase|exact Hv]).
  - revert Hs. unfold_states; split_bytes; intros [= <- <-];
      try congruence; cbn; (split; [close_phase|exact Hv]).
  - pose proof (step_begins c) as Hb. rewrite Hs in Hb.
    destruct (scan_step newScanner c) as [s2' op'] eqn:Hs'.
    inversion Hb; subst; try congruence; cbn.
    + split; [close_phase|exact Hv].
    + match goal with H : _ \/ _ |- _ => destruct H as [-> | ->] end; cbn;
        (split; [|exact Hv]); (apply (ph_in_value _ [p]); [|assumption]);
        simpl rev; (eapply scans_one; [exact Hs'|discriminate]).
    + split; [|exact Hv]. apply (ph_in_value _ []); [|assumption].
      simpl rev. apply (scans_one _ _ _ scanBeginLiteral Hs'). discriminate.
  - pose proof (step_beside st ps c Hl) as Hb. rewrite Hs in Hb.
    destruct (scan_step (mk st ps) c) as [s2' op'] eqn:Hs'.
    assert (Hsnoc : forall s3 op3, scan_step (mk st ps) c = (s3, op3) -> op3 <> scanError ->
                    scans newScanner (rev (c :: t)) = Some s3).
    { intros s3 op3 H3 Hop3. simpl rev. rewrite scans_app, Ht.
      by apply (scans_one _ _ _ op3). }
    inversion Hb; subst; try congruence.
    + (* both stay inside an array or object of the value *)
      destruct ps as [|p ps]; [discriminate|].
      destruct (parseState s2') as [|p2 ps2] eqn:Hps2; [done|].
      depths. split; [|exact Hv].
      pose proof (Hsnoc _ _ Hs' Hop) as Hn.
      match goal with H : s2' = mk _ _ |- _ => rewrite H in Hn end.
      apply (ph_in_value _ (p2 :: ps2) (c :: t)); [exact Hn|]. cbn.
      by destruct (step s2').
    + (* both stay in the literal *)
      destruct ps as [|p ps]; [|discriminate]. depths. split; [|exact Hv].
      apply (ph_in_value _ [] (c :: t)); [|done].
      by apply (Hsnoc _ scanContinue).
    + (* the array or object ends *)
      destruct ps as [|p ps]; [discriminate|]. depths. split; [close_phase|].
      apply Forall_app. split; [exact Hv|]. constructor; [|constructor].
      simpl. exists s2'. split; [by apply (Hsnoc _ op')|]. by apply closed_eof.
    + (* the literal has ended *)
      destruct ps as [|p ps]; [|discriminate].
      assert (Hval : value (rev t)).
      { exists (mk st []). split; [exact Ht|]. by apply terminable_eof. }
      assert (Hv' : values (o ++ [(k, rev t)])).
      { apply Forall_app. split; [exact Hv|]. constructor; [exact Hval|constructor]. }
      match goal with H : after _ _ |- _ => inversion H; subst end; depths.
      * split; [close_phase|exact Hv'].
      * split; [close_phase|exact Hv'].
      * split; [|exact Hv']. apply ph_done; [done|auto].
Qed.

Lemma walk_values s w data s' :
  phase s w -> values (out w) -> scans s data = Some s' -> values (walk_loop s w data).
Proof.
  revert s w. induction data as [|c data IH]; intros s w Hp Hv Hs; [exact Hv|].
  simpl in Hs |- *. destruct (scan_step s c) as [s2 op] eqn:Hstep.
  destruct (opcode_eqb op scanError) eqn:Hop; [discriminate|].
  apply opcode_eqb_error in Hop.
  destruct (phase_step _ _ _ _ _ Hp Hv Hstep Hop) as [Hp' Hv']. by apply IH.
Qed.

Lemma walk_opens w data s' :
  tok w = None -> key w = None -> values (out w) ->
  opens_object data = true -> scans newScanner data = Some s' ->
  values (walk_loop newScanner w data).
Proof.
  intros Ht Hk Hv. destruct w as [t k o]. simpl in Ht, Hk, Hv. subst t k.
  induction data as [|c data IH]; [discriminate|].
  unfold opens_object. cbn [skip_space scans walk_loop].
  unfold scan_step at 1 2. cbn [step newScanner]. unfold stateBeginValue.
  destruct (isSpace c) eqn:Hsp.
  - cbn. exact IH.
  - intros Hc. rewrite Hc. cbn. intros Hs.
    apply (walk_values (mk StBeginStringOrEmpty [parseObjectKey]) _ _ s');
      [apply ph_key; auto|exact Hv|exact Hs].
Qed.

(** The values of the members of an object that the scanner has taken are
    JSON values, each one. *)
Lemma members_values data s' :
  opens_object data = true -> scans newScanner data = Some s' -> values (members data).
Proof. intros Ho Hs. by apply (walk_opens _ _ s'); [| |constructor| |]. Qed.

Lemma received_in names name ms raw :
  received names name ms = Some raw -> In raw (map snd ms).
Proof.
  induction ms as [|m ms IH]; [discriminate|]. rewrite received_cons.
  destruct (received names name ms) as [r|].
  - intros [= ->]. right. by apply IH.
  - destruct (selects names name (fst m)); [|discriminate]. intros [= <-]. by left.
Qed.

(** A [RawMessage] that is empty or holds one JSON value. *)
Definition message (m : RawMessage) : Prop := m = [] \/ value m.

Lemma received_value names name ms :
  values ms -> message (default [] (received names name ms)).
Proof.
  intros Hv. destruct (received names name ms) as [raw|] eqn:Hr; [|by left]. simpl.
  apply received_in in Hr. apply in_map_iff in Hr. destruct Hr as (m & <- & Hin).
  right. exact (proj1 (List.Forall_forall _ _) Hv m Hin).
Qed.

Lemma raw_member_ok name m : message m -> exists ms, raw_member name m = Ok ms.
Proof.
  unfold raw_member. intros [-> | Hv]; [by eexists|]. destruct m as [|c m]; [by eexists|].
  destruct (value_compact _ Hv) as (o & ->). by eexists.
Qed.

Lemma unmarshal_null {T} (assign : T * option error -> bytes * bytes -> T * option error)
    (data : bytes) (v v' : T) :
  opens_object data = false -> unmarshal assign data v = Ok v' -> v' = v.
Proof.
  unfold opens_object, unmarshal. destruct (skip_space data) as [|c d]; [done|].
  intros ->. destruct (isb c "n"); [|done]. by intros [= ->].
Qed.

Lemma Decode_Marshal body req : Decode body = Ok req -> exists line, Marshal req = Ok line.
Proof.
  unfold Decode. destruct (readValue body) as [data|e] eqn:Hr; [|discriminate].
  simpl. intros Hu.
  assert (Hp : message (Params req)).
  { destruct (opens_object data) eqn:Ho.
    - destruct (readValue_scans _ _ _ _ Hr) as (s' & Hs).
      rewrite (unmarshal_fst _ _ _ _ Ho Hu), assign_request_Params.
      apply received_value. by apply (members_values _ s').
    - rewrite (unmarshal_null _ _ _ _ Ho Hu). by left. }
  unfold Marshal. destruct (raw_member_ok "params" _ Hp) as (ms & ->). by eexists.
Qed.

(** X23: [handleMCP] never fails because the request cannot be marshalled:
    a request that [Decode] has returned can always be marshalled again,
    since its params are absent or the bytes of a value that the scanner
    has taken, so that the answer is never the text
    [MCP request failed: failed to marshal request: ...]. *)
Theorem marshalling_never_fails env r w :
  (forall req, Decode (http_Body r) = Ok req -> exists line, Marshal req = Ok line) /\
  (forall e, resp_body (fst (handleMCP env r w))
             <> ErrorText "MCP request failed: "
                  (Some (Wrap "failed to marshal request" e))).
Proof.
  split; [intros req; apply Decode_Marshal|]. intros e. unfold handleMCP.
  destruct (negb (String.eqb (http_Method r) "POST")); [discriminate|]. cbv zeta.
  destruct (getOrCreateSession env (sessionID_of r) w) as [[s|e1] w1]; [|discriminate].
  destruct (Decode (http_Body r)) as [req|e1] eqn:Hd; [|discriminate].
  destruct (Decode_Marshal _ _ Hd) as (line & HM).
  unfold SendRequest. rewrite HM.
  destruct (procs w1 !! s) as [p|]; [|discriminate].
  destruct (if closed p then Some ErrClosed else write_err env); [discriminate|].
  cbv zeta. destruct (ReadBytes _) as [[respBytes rest]|]; [|discriminate].
  destruct (Unmarshal (TrimSpace respBytes)); discriminate.
Qed.

End ValidFacts.

(** ** What the envelopes let through *)

Module EnvelopeFacts.

Import Json Wrapper Samples JsonFacts WrapperFacts ValidFacts.

(** *** Bodies that are no objects *)

Lemma skip_space_nonSpace whole : skip_space whole = [] -> nonSpace whole = false.
Proof.
  induction whole as [|c w IH]; [done|]. simpl.
  destruct (isSpace c); [simpl; exact IH|discriminate].
Qed.

Lemma readValue_spaces whole buf :
  skip_space buf = [] ->
  readValue_loop whole newScanner buf
  = Err (if nonSpace whole then ErrUnexpectedEOF else EOF).
Proof.
  induction buf as [|c buf IH]; [done|]. simpl.
  change (scan_step newScanner c) with (stateBeginValue newScanner c).
  unfold stateBeginValue. destruct (isSpace c); [|discriminate].
  intros H. simpl. by rewrite IH.
Qed.

Lemma readValue_skip_space whole buf data :
  readValue_loop whole newScanner buf = Ok data ->
  exists c d, skip_space buf = c :: d /\ exists d', skip_space data = c :: d'.
Proof.
  revert data. induction buf as [|c buf IH]; intros data H; [discriminate H|].
  destruct (isSpace c) eqn:Hc.
  - simpl in H.
    change (scan_step newScanner c) with (stateBeginValue newScanner c) in H.
    unfold stateBeginValue in H. rewrite Hc in H.
    apply fmap_result_Ok in H as (d & Hd & ->).
    destruct (IH _ Hd) as (c' & d' & Hs & d'' & Hs').
    exists c', d'. simpl. rewrite Hc. eauto.
  - destruct (readValue_begin_head _ _ _ _ _ _ H) as [d ->].
    exists c, buf. simpl. rewrite Hc. eauto.
Qed.

(** A body that is empty or white space only is refused with [EOF], and a
    body whose first byte after white space starts anything but an object
    or [null] is refused too. *)
Lemma Decode_no_object (body : bytes) :
  (skip_space body = [] -> Decode body = Err EOF) /\
  (forall c rest, skip_space body = c :: rest -> isb c "{" = false -> isb c "n" = false ->
     exists e, Decode body = Err e).
Proof.
  split.
  - intros Hs. unfold Decode, readValue. rewrite readValue_spaces by done.
    by rewrite skip_space_nonSpace.
  - intros c rest Hs Hobj Hnull. unfold Decode, readValue.
    destruct (readValue_loop body newScanner body) as [data|e] eqn:Hr; [|by eexists].
    destruct (readValue_skip_space _ _ _ Hr) as (c' & d & Hs' & d' & Hd).
    rewrite Hs in Hs'. inversion Hs'; subst c' d. simpl.
    unfold unmarshal. rewrite Hd, Hobj, Hnull. by eexists.
Qed.

(** X12: the body of a request must be a JSON object, or [null]: for a
    POST whose session has been resolved, a body that is empty or white
    space only, or whose first byte after white space starts anything but
    an object or [null] (an array, a string, a number, [true], [false] or
    no JSON at all), does not decode, with [EOF] for the empty one, and
    [handleMCP] answers 400 with [Invalid JSON: ] and the error, leaving
    the world as the resolution of the session left it. *)
Theorem body_must_be_an_object env r w s w1 :
  http_Method r = "POST"%string ->
  getOrCreateSession env (sessionID_of r) w = (Ok s, w1) ->
  skip_space (http_Body r) = [] \/
  (exists c rest, skip_space (http_Body r) = c :: rest /\
                  isb c "{" = false /\ isb c "n" = false) ->
  exists e,
    Decode (http_Body r) = Err e /\
    (skip_space (http_Body r) = [] -> e = EOF) /\
    handleMCP env r w = (http_Error "Invalid JSON: " (Some e) StatusBadRequest, w1).
Proof.
  intros Hm Hg Hb.
  assert (He : exists e, Decode (http_Body r) = Err e /\
                         (skip_space (http_Body r) = [] -> e = EOF)).
  { destruct (Decode_no_object (http_Body r)) as [H1 H2].
    destruct Hb as [Hs|(c & rest & Hs & Hobj & Hnull)].
    - exists EOF. split; [by apply H1|done].
    - destruct (H2 c rest Hs Hobj Hnull) as [e He]. exists e. split; [done|].
      intros Hs'. rewrite Hs' in Hs. discriminate Hs. }
  destruct He as (e & Hd & He). exists e. split; [done|]. split; [done|].
  unfold handleMCP. rewrite (method_post _ Hm). simpl. by rewrite Hg, Hd.
Qed.

(** A POST to a server just started whose body is an array. *)
Lemma body_must_be_an_object_witness :
  exists e,
    Decode (js "[1,2]") = Err e /\
    (skip_space (js "[1,2]") = [] -> e = EOF) /\
    handleMCP env_ok (post "k" (js "[1,2]")) empty_world
    = (http_Error "Invalid JSON: " (Some e) StatusBadRequest,
       snd (getOrCreateSession env_ok "k" empty_world)).
Proof.
  apply (body_must_be_an_object env_ok (post "k" (js "[1,2]")) empty_world 0
           (snd (getOrCreateSession env_ok "k" empty_world))).
  - reflexivity.
  - vm_compute. reflexivity.
  - right. exists "[", (js "1,2]"). vm_compute. auto.
Defined.

(** *** Members that are missing or of the wrong type *)

Lemma Decode_object body data :
  readValue body = Ok data -> opens_object data = true ->
  Decode body
  = match fold_left assign_request (members data) (zero_MCPRequest, None) with
    | (req, None) => Ok req
    | (_, Some e) => Err e
    end.
Proof. intros Hr Ho. unfold Decode. rewrite Hr. simpl. by apply unmarshal_object. Qed.

(** X13: no member of the envelope is required, and the envelope is not
    checked against JSON-RPC: a body that is an object without any of the
    four members, the empty object for one, decodes to the zero request, and
    what [handleMCP] then writes to the child is the line
    [{"jsonrpc":"","method":""}]. *)
Theorem no_member_is_required env r w data evs t s d :
  readValue (http_Body r) = Ok data -> opens_object data = true ->
  List.filter (known request_fields) (members data) = [] ->
  trace (snd (handleMCP env r w)) = trace w ++ evs ->
  In (t, EvWrite s d) evs ->
  Decode (http_Body r) = Ok zero_MCPRequest /\
  d = js "{'jsonrpc':'','method':''}" ++ ["010"].
Proof.
  intros Hr Ho Hk Ht Hin.
  assert (Hd : Decode (http_Body r) = Ok zero_MCPRequest).
  { rewrite (Decode_object _ _ Hr Ho), assign_request_known, Hk. reflexivity. }
  split; [exact Hd|].
  destruct (handleMCP_written env r w) as (evs0 & Ht0 & Hw).
  rewrite Ht in Ht0. apply app_inv_head in Ht0 as ->.
  destruct (Hw t s d Hin) as (req & line & Hd' & HM & ->).
  rewrite Hd in Hd'. inversion Hd'; subst req.
  vm_compute in HM. inversion HM. reflexivity.
Qed.

Lemma no_member_is_required_witness :
  Decode (js "{'trace':true}") = Ok zero_MCPRequest /\
  js "{'jsonrpc':'','method':''}" ++ ["010"] = js "{'jsonrpc':'','method':''}" ++ ["010"].
Proof.
  apply (no_member_is_required env_ok (post "k" (js "{'trace':true}")) empty_world
           (js "{'trace':true}")
           [(0%Z, EvSpawn 0); (0%Z, EvStore "k" 0);
            (0%Z, EvWrite 0 (js "{'jsonrpc':'','method':''}" ++ ["010"]));
            (0%Z, EvRead 0 (js "{'jsonrpc':'2.0','id':'a','result':{}}" ++ ["010"]))]
           0%Z 0%nat);
    try (vm_compute; reflexivity).
  right. right. left. reflexivity.
Defined.

(** An error saved is kept. *)
Lemma assign_request_keeps acc m :
  snd acc <> None -> snd (assign_request acc m) <> None.
Proof.
  destruct acc as [req [e|]], m as [klit raw]; [intros _|done].
  unfold assign_request.
  destruct (find_field request_fields (default [] (unquoteBytes klit))) as [n|] eqn:Hf;
    [|done].
  apply find_field_in in Hf. simpl in Hf.
  destruct Hf as [<-|[<-|[<-|[<-|[]]]]]; simpl;
    try (destruct (store_string _ _ _)); try (destruct (decode_any raw)); done.
Qed.

Lemma fold_assign_request_keeps ms acc :
  snd acc <> None -> snd (fold_left assign_request ms acc) <> None.
Proof.
  revert acc. induction ms as [|m ms IH]; intros acc Ha; [done|].
  simpl. apply IH. by apply assign_request_keeps.
Qed.

Lemma selects_find names name klit :
  selects names name klit = true ->
  find_field names (default [] (unquoteBytes klit)) = Some name.
Proof.
  unfold selects. destruct (find_field _ _) as [n|]; [|done].
  intros H. apply String.eqb_eq in H. by subst.
Qed.

(** X14: the members jsonrpc and method must be strings, or [null]: when a
    member of the body selects one of them with a value of another kind (a
    number, an object, an array, [true] or [false]), the body is refused,
    whatever the other members are, a correct repetition of the member
    included. *)
Theorem string_member_must_be_string body data klit raw c tl :
  readValue body = Ok data -> opens_object data = true ->
  In (klit, raw) (members data) ->
  selects request_fields "jsonrpc" klit = true \/
  selects request_fields "method" klit = true ->
  raw = c :: tl -> isb c dquote = false -> isb c "n" = false ->
  exists e, Decode body = Err e.
Proof.
  intros Hr Ho Hin Hsel -> Hq Hn. rewrite (Decode_object _ _ Hr Ho).
  assert (Hbad : forall acc, snd (assign_request acc (klit, c :: tl)) <> None).
  { intros [req sv]. unfold assign_request.
    destruct Hsel as [Hs|Hs]; rewrite (selects_find _ _ _ Hs); simpl;
      rewrite Hq, Hn; by destruct sv. }
  assert (Hfold : forall ms acc, In (klit, c :: tl) ms ->
                    snd (fold_left assign_request ms acc) <> None).
  { induction ms as [|m ms IH]; intros acc Hm; [done|]. simpl.
    destruct Hm as [->|Hm]; [|by apply IH].
    apply fold_assign_request_keeps, Hbad. }
  specialize (Hfold _ (zero_MCPRequest, None) Hin).
  destruct (fold_left assign_request (members data) (zero_MCPRequest, None)) as [req [e|]];
    [by eexists|done].
Qed.

Lemma string_member_must_be_string_witness :
  exists e, Decode (js "{'jsonrpc':'2.0','method':7,'method':'ping'}") = Err e.
Proof.
  apply (string_member_must_be_string
           (js "{'jsonrpc':'2.0','method':7,'method':'ping'}")
           (js "{'jsonrpc':'2.0','method':7,'method':'ping'}")
           (js "'method'") (b "7") "7" []);
    try (vm_compute; reflexivity).
  - vm_compute. right. left. reflexivity.
  - right. vm_compute. reflexivity.
Defined.

(** *** The response body *)

Lemma assign_response_unknown acc m :
  known response_fields m = false -> assign_response acc m = acc.
Proof.
  unfold known, assign_response. destruct acc as [resp sv], m as [klit raw]. simpl.
  by destruct (find_field response_fields (default [] (unquoteBytes klit))).
Qed.

Lemma assign_response_known ms acc :
  fold_left assign_response ms acc
  = fold_left assign_response (List.filter (known response_fields) ms) acc.
Proof.
  revert acc. induction ms as [|m ms IH]; intros acc; [done|].
  simpl. destruct (known response_fields m) eqn:Hk.
  - simpl. apply IH.
  - rewrite assign_response_unknown by done. apply IH.
Qed.

Lemma assign_response_Result ms resp0 e0 :
  Result (fst (fold_left assign_response ms (resp0, e0)))
  = default (Result resp0) (received response_fields "result" ms).
Proof.
  revert resp0 e0. induction ms as [|[klit raw] ms IH]; intros resp0 e0; [done|].
  rewrite received_cons, fold_left_cons.
  destruct (assign_response (resp0, e0) (klit, raw)) as [resp1 e1] eqn:Ha.
  rewrite IH. destruct (received response_fields "result" ms); [done|]. simpl.
  unfold assign_response in Ha. unfold selects. simpl fst. simpl snd.
  destruct (find_field response_fields (default [] (unquoteBytes klit))) as [n|] eqn:Hf.
  - apply find_field_in in Hf. simpl in Hf.
    destruct Hf as [<-|[<-|[<-|[<-|[]]]]]; simpl in Ha |- *.
    + destruct (store_string _ _ _). by inversion Ha.
    + destruct (decode_any raw). by inversion Ha.
    + by inversion Ha.
    + by inversion Ha.
  - by inversion Ha.
Qed.

Lemma assign_response_Error ms resp0 e0 :
  Error (fst (fold_left assign_response ms (resp0, e0)))
  = default (Error resp0) (received response_fields "error" ms).
Proof.
  revert resp0 e0. induction ms as [|[klit raw] ms IH]; intros resp0 e0; [done|].
  rewrite received_cons, fold_left_cons.
  destruct (assign_response (resp0, e0) (klit, raw)) as [resp1 e1] eqn:Ha.
  rewrite IH. destruct (received response_fields "error" ms); [done|]. simpl.
  unfold assign_response in Ha. unfold selects. simpl fst. simpl snd.
  destruct (find_field response_fields (default [] (unquoteBytes klit))) as [n|] eqn:Hf.
  - apply find_field_in in Hf. simpl in Hf.
    destruct Hf as [<-|[<-|[<-|[<-|[]]]]]; simpl in Ha |- *.
    + destruct (store_string _ _ _). by inversion Ha.
    + destruct (decode_any raw). by inversion Ha.
    + by inversion Ha.
    + by inversion Ha.
  - by inversion Ha.
Qed.

(** A response that [Unmarshal] has returned can be encoded. *)
Lemma Unmarshal_Encode data resp :
  Unmarshal data = Ok resp -> exists out, Encode resp = Ok out.
Proof.
  unfold Unmarshal. destruct (checkValid data) as [[]|e] eqn:Hc; [|discriminate].
  simpl. intros Hu. apply checkValid_scans in Hc. destruct Hc as (s' & Hs & _).
  assert (Hp : message (Result resp) /\ message (Error resp)).
  { destruct (opens_object data) eqn:Ho.
    - rewrite (unmarshal_fst _ _ _ _ Ho Hu), assign_response_Result, assign_response_Error.
      split; apply received_value; by apply (members_values _ s').
    - rewrite (unmarshal_null _ _ _ _ Ho Hu). split; by left. }
  unfold Encode. destruct Hp as [Hres Herr].
  destruct (raw_member_ok "result" _ Hres) as (ms & ->).
  destruct (raw_member_ok "error" _ Herr) as (ms' & ->). by eexists.
Qed.

(** The members that [Encode] writes for a response. *)
Definition response_members (resp : MCPResponse) (result error : list (string * bytes))
    : list (string * bytes) :=
  [("jsonrpc"%string, quote (resp_JSONRPC resp))] ++ any_member "id" (resp_ID resp)
  ++ result ++ error.

Lemma Encode_members resp out :
  Encode resp = Ok out ->
  exists result error,
    raw_member "result" (Result resp) = Ok result /\
    raw_member "error" (Error resp) = Ok error /\
    out = encode_struct (response_members resp result error) ++ ["010"] /\
    sublist (map fst (response_members resp result error)) response_fields.
Proof.
  unfold Encode.
  destruct (raw_member "result" (Result resp)) as [result|e] eqn:Hr; [|discriminate].
  destruct (raw_member "error" (Error resp)) as [error|e] eqn:He; [|discriminate].
  simpl. intros H. inversion H; subst. exists result, error.
  split; [done|]. split; [done|]. split; [done|].
  unfold response_members, response_fields. rewrite !map_app. simpl.
  destruct (any_member_names "id" (resp_ID resp)) as [-> | ->],
    (raw_member_names _ _ _ Hr) as [-> | ->],
    (raw_member_names _ _ _ He) as [-> | ->]; simpl;
    repeat first [apply sublist_nil | apply sublist_skip | apply sublist_cons].
Qed.

(** What [raw_member] writes for a message. *)
Definition compacted (name : string) (m : RawMessage) (ms : list (string * bytes)) : Prop :=
  (m = [] -> ms = []) /\
  (m <> [] -> exists c, compact m = Ok c /\ ms = [(name, c)] /\
                        (verbatim m = true -> c = m)).

Lemma raw_member_compacted name m ms : raw_member name m = Ok ms -> compacted name m ms.
Proof.
  intros H. split.
  - intros ->. simpl in H. by inversion H.
  - intros Hne. destruct (raw_member_value _ _ _ H Hne) as (c & Hc & ->).
    exists c. split; [done|]. split; [done|]. by apply compact_verbatim.
Qed.

(** X15: the body of an answer with 200 is not the line of the child but
    the response decoded from it and encoded again, which never fails: an
    object of the members jsonrpc, id, result and error, in this order,
    jsonrpc always, the others when they are not empty, and a newline.  When the line is an
    object, the response depends on its members of these four names only,
    so that any other member of the child's line is dropped; result and
    error are the bytes of the last such member of the line, compacted: the
    same bytes when they hold no white space, none of [<], [>], [&] and no
    byte 0xE2. *)
Theorem response_is_reencoded env r w out :
  resp_body (fst (handleMCP env r w)) = Bytes out ->
  exists line resp result error,
    last_read (snd (handleMCP env r w)) = Some line /\
    Unmarshal (TrimSpace line) = Ok resp /\
    (out = encode_struct (response_members resp result error) ++ ["010"] /\
     sublist (map fst (response_members resp result error)) response_fields /\
     compacted "result" (Result resp) result /\
     compacted "error" (Error resp) error) /\
    (opens_object (TrimSpace line) = true ->
       Result resp = default [] (received response_fields "result" (members (TrimSpace line)))
       /\
       Error resp = default [] (received response_fields "error" (members (TrimSpace line)))
       /\
       forall data', opens_object data' = true ->
         List.filter (known response_fields) (members data')
         = List.filter (known response_fields) (members (TrimSpace line)) ->
         unmarshal assign_response data' zero_MCPResponse = Ok resp).
Proof.
  intros Hb.
  assert (H200 : status (fst (handleMCP env r w)) = StatusOK).
  { revert Hb. unfold handleMCP.
    destruct (negb (String.eqb (http_Method r) "POST")); [discriminate|]. cbv zeta.
    destruct (getOrCreateSession env (sessionID_of r) w) as [[s|e] w1]; [|discriminate].
    destruct (Decode (http_Body r)) as [req|e]; [|discriminate].
    by destruct (SendRequest env s req w1) as [[resp|e] w2]. }
  destruct (handleMCP_OK _ _ _ H200) as (s & w1 & req & resp & w2 & Hg & Hd & HS & Hh).
  destruct (SendRequest_Ok _ _ _ _ _ _ HS) as (rb & line & HM & HU & Ht).
  rewrite Hh in Hb |- *. cbn [fst snd resp_body] in Hb |- *.
  assert (Hlast : last_read w2 = Some line).
  { unfold last_read. rewrite Ht.
    change [(now w1, EvWrite s (rb ++ ["010"])); (now w1, EvRead s line)]
      with ([(now w1, EvWrite s (rb ++ ["010"]))] ++ [(now w1, EvRead s line)]).
    by rewrite app_assoc, last_snoc. }
  destruct (Encode resp) as [o|e] eqn:HE.
  - destruct (Encode_members _ _ HE) as (result & error & Hr & He & -> & Hsub).
    inversion Hb; subst out. exists line, resp, result, error.
    split; [done|]. split; [done|]. split.
    { split; [done|]. split; [done|]. split; by apply raw_member_compacted. }
    intros Ho. unfold Unmarshal in HU.
    destruct (checkValid (TrimSpace line)); [|discriminate HU]. simpl in HU. split; [|split].
    + by rewrite (unmarshal_fst _ _ _ _ Ho HU), assign_response_Result.
    + by rewrite (unmarshal_fst _ _ _ _ Ho HU), assign_response_Error.
    + intros data' Ho' Hk. rewrite unmarshal_object in HU |- * by done.
      rewrite assign_response_known in HU. rewrite assign_response_known, Hk. exact HU.
  - destruct (Unmarshal_Encode _ _ HU) as (o & Ho). congruence.
Qed.

(** The child answers with a notification of its own. *)
Definition env_notification : Env :=
  env_reply (js "{'jsonrpc':'2.0','method':'notifications/message','params':{'level':'info'}}").

Lemma response_is_reencoded_witness :
  exists line resp result error,
    last_read (snd (handleMCP env_notification (post "k" ping) empty_world)) = Some line /\
    Unmarshal (TrimSpace line) = Ok resp /\
    (js "{'jsonrpc':'2.0'}" ++ ["010"]
     = encode_struct (response_members resp result error) ++ ["010"] /\
     sublist (map fst (response_members resp result error)) response_fields /\
     compacted "result" (Result resp) result /\
     compacted "error" (Error resp) error) /\
    (opens_object (TrimSpace line) = true ->
       Result resp = default [] (received response_fields "result" (members (TrimSpace line)))
       /\
       Error resp = default [] (received response_fields "error" (members (TrimSpace line)))
       /\
       forall data', opens_object data' = true ->
         List.filter (known response_fields) (members data')
         = List.filter (known response_fields) (members (TrimSpace line)) ->
         unmarshal assign_response data' zero_MCPResponse = Ok resp).
Proof.
  apply (response_is_reencoded env_notification (post "k" ping) empty_world
           (js "{'jsonrpc':'2.0'}" ++ ["010"])).
  vm_compute. reflexivity.
Defined.

End EnvelopeFacts.

(** ** Member names *)

Module NameFacts.

Import Json Wrapper Samples JsonFacts WrapperFacts.

Lemma bytes_eqb_eq x y : bytes_eqb x y = true <-> x = y.
Proof.
  revert y. induction x as [|c x IH]; intros [|d y]; simpl; try done.
  rewrite andb_true_iff, IH, Ascii.eqb_eq. split; [intros [-> ->]; done|].
  intros H; inversion H; done.
Qed.

(** The ASCII letter [c] in lower case, any other byte as it is. *)
Definition lower (c : byte) : byte :=
  if in_range "A" "Z" c then byte_of (code c + 32) else c.

Definition ascii_byte (c : byte) : bool := (code c <? 128)%N.

(** What [foldName] does to one ASCII byte. *)
Definition upper (c : byte) : byte :=
  if in_range "a" "z" c then byte_of (code c - 32) else c.

Lemma upper_lower c : upper (lower c) = upper c.
Proof. destruct c as [[] [] [] [] [] [] [] []]; reflexivity. Qed.

Lemma lower_ascii c : ascii_byte (lower c) = ascii_byte c.
Proof. destruct c as [[] [] [] [] [] [] [] []]; reflexivity. Qed.

Lemma ascii_not_lead c :
  ascii_byte c = true -> (code c =? 0xC5)%N = false /\ (code c =? 0xE2)%N = false.
Proof.
  unfold ascii_byte. intros H%N.ltb_lt. split; apply N.eqb_neq; lia.
Qed.

Lemma foldName_ascii k : forallb ascii_byte k = true -> foldName k = map upper k.
Proof.
  induction k as [|c k IH]; [done|]. intros [Hc Hk]%andb_prop.
  specialize (IH Hk). destruct (ascii_not_lead c Hc) as [H1 H2].
  simpl. unfold upper at 1. destruct (in_range "a" "z" c); [by rewrite IH|].
  rewrite H1, H2. simpl. destruct k as [|c1 [|c2 k2]]; by rewrite IH.
Qed.

Lemma foldName_lower k :
  forallb ascii_byte (map lower k) = true -> foldName k = foldName (map lower k).
Proof.
  intros H. rewrite (foldName_ascii (map lower k)) by done.
  rewrite foldName_ascii.
  - rewrite map_map. apply map_ext. intros c. by rewrite upper_lower.
  - rewrite forallb_forall in H |- *. intros c Hc. rewrite <- lower_ascii.
    apply H, in_map, Hc.
Qed.

(** The field that a key selects in the two envelopes: the one whose name
    folds to the same as the key. *)
Lemma find_field_fold names k n :
  names = request_fields \/ names = response_fields ->
  In n names -> foldName k = foldName (b n) -> find_field names k = Some n.
Proof.
  intros Hnames Hn Hf. unfold find_field.
  assert (Hexact : forall m, In m names -> bytes_eqb (b m) k = true -> m = n).
  { intros m Hm Hmk. apply bytes_eqb_eq in Hmk. subst k.
    destruct Hnames as [-> | ->]; simpl in Hm, Hn;
      repeat (destruct Hm as [<-|Hm]; [|]); try done;
      repeat (destruct Hn as [<-|Hn]; [|]); try done; vm_compute in Hf; done. }
  destruct (find (fun m => bytes_eqb (b m) k) names) as [m|] eqn:Hfind.
  - apply find_some in Hfind as [Hm Hmk]. by rewrite (Hexact m Hm Hmk).
  - rewrite Hf.
    destruct Hnames as [-> | ->]; simpl in Hn;
      repeat (destruct Hn as [<-|Hn]; [|]); try done; reflexivity.
Qed.

(** X16: the names of the members are matched without regard to the case
    of their letters: a key that differs from the name of a field of the
    request or of the response in the case of ASCII letters only selects
    that field, as the name itself does. *)
Theorem member_names_ignore_case names n k :
  names = request_fields \/ names = response_fields ->
  In n names -> map lower k = b n ->
  find_field names k = Some n /\ find_field names (b n) = Some n.
Proof.
  intros Hnames Hn Hk.
  assert (Hascii : forallb ascii_byte (b n) = true).
  { destruct Hnames as [-> | ->]; simpl in Hn;
      repeat (destruct Hn as [<-|Hn]; [|]); try done; reflexivity. }
  split; apply find_field_fold; try done.
  rewrite foldName_lower; rewrite Hk; done.
Qed.

Lemma member_names_ignore_case_witness :
  find_field request_fields (b "JsonRPC") = Some "jsonrpc"%string /\
  find_field request_fields (b "jsonrpc") = Some "jsonrpc"%string.
Proof.
  apply (member_names_ignore_case request_fields "jsonrpc" (b "JsonRPC")).
  - by left.
  - by left.
  - reflexivity.
Defined.

End NameFacts.

(** ** [bytes.TrimSpace] on the line of the child *)

Module TrimFacts.

Import Json Wrapper Samples JsonFacts WrapperFacts.

(** The white space of ASCII: tab, line feed, vertical tab, form feed,
    carriage return and space. *)
Definition ascii_space (c : byte) : bool :=
  ((9 <=? code c) && (code c <=? 13) || (code c =? 32))%N.

(** An ASCII byte that is no white space. *)
Definition ascii_mark (c : byte) : bool := (code c <? 128)%N && negb (ascii_space c).

Lemma ascii_space_IsSpace c :
  ascii_space c = true -> (code c <? utf8.RuneSelf)%N = true /\ IsSpace (code c) = true.
Proof.
  unfold ascii_space, IsSpace, utf8.RuneSelf. intros H. split.
  - apply N.ltb_lt. apply orb_prop in H as [[H1 H2]%andb_prop|H%N.eqb_eq]; [|lia].
    apply N.leb_le in H2. lia.
  - rewrite H. done.
Qed.

Lemma ascii_mark_IsSpace c :
  ascii_mark c = true -> (code c <? utf8.RuneSelf)%N = true /\ IsSpace (code c) = false.
Proof.
  unfold ascii_mark, ascii_space, IsSpace, utf8.RuneSelf.
  intros [H1 H2]%andb_prop. split; [done|]. apply negb_true_iff in H2.
  rewrite H2. simpl. apply N.ltb_lt in H1.
  repeat (apply orb_false_intro); try (apply N.eqb_neq; lia);
    apply andb_false_intro1; apply N.leb_gt; lia.
Qed.

Lemma trim_left_spaces ws c s :
  forallb ascii_space ws = true -> ascii_mark c = true ->
  trim_left (ws ++ c :: s) = c :: s.
Proof.
  intros Hws Hc. induction ws as [|x ws IH].
  - simpl. destruct (ascii_mark_IsSpace c Hc) as [H1 H2]. by rewrite H1, H2.
  - simpl in Hws. apply andb_prop in Hws as [Hx Hws].
    destruct (ascii_space_IsSpace x Hx) as [H1 H2].
    simpl. rewrite H1, H2. by apply IH.
Qed.

Lemma trim_right_rev_spaces ws c s :
  forallb ascii_space ws = true -> ascii_mark c = true ->
  trim_right_rev (ws ++ c :: s) = c :: s.
Proof.
  intros Hws Hc. induction ws as [|x ws IH].
  - simpl. destruct (ascii_mark_IsSpace c Hc) as [H1 H2]. by rewrite H1, H2.
  - simpl in Hws. apply andb_prop in Hws as [Hx Hws].
    destruct (ascii_space_IsSpace x Hx) as [H1 H2].
    simpl. rewrite H1, H2. by apply IH.
Qed.

Lemma forallb_rev_true {A} (f : A -> bool) (l : list A) :
  forallb f l = true -> forallb f (rev l) = true.
Proof.
  rewrite !forallb_forall. intros H x Hx. apply H. by apply in_rev.
Qed.

(** X17: [TrimSpace] takes the ASCII white space off both ends of the line
    read from the child, the newline that ends it and a carriage return
    before it included, and nothing else when what is left starts and ends
    with ASCII bytes that are no white space, as an object does with its
    braces. *)
Theorem TrimSpace_line before first inner last after :
  forallb ascii_space before = true -> forallb ascii_space after = true ->
  ascii_mark first = true -> ascii_mark last = true ->
  TrimSpace (before ++ first :: inner ++ last :: after) = first :: inner ++ [last] /\
  TrimSpace (before ++ first :: after) = [first].
Proof.
  intros Hb Ha Hf Hl. unfold TrimSpace. split.
  - rewrite trim_left_spaces by done.
    change (first :: inner ++ last :: after) with ((first :: inner) ++ last :: after).
    rewrite rev_app_distr. simpl rev at 1. rewrite <- app_assoc. simpl app at 2.
    rewrite trim_right_rev_spaces; [|by apply forallb_rev_true|done].
    simpl. rewrite rev_app_distr, rev_involutive. simpl. done.
  - rewrite trim_left_spaces by done.
    change (first :: after) with ([first] ++ after).
    rewrite rev_app_distr. change (rev [first]) with [first].
    rewrite trim_right_rev_spaces; [done|by apply forallb_rev_true|done].
Qed.

Lemma TrimSpace_line_witness :
  TrimSpace ([] ++ "{" :: js "'jsonrpc':'2.0','id':'a','result':{}" ++ "}" :: ["013"; "010"])
  = "{" :: js "'jsonrpc':'2.0','id':'a','result':{}" ++ ["}"] /\
  TrimSpace ([] ++ "{" :: ["013"; "010"]) = ["{"].
Proof.
  apply (TrimSpace_line [] "{" (js "'jsonrpc':'2.0','id':'a','result':{}") "}"
           ["013"; "010"]); reflexivity.
Defined.

End TrimFacts.

(** ** Bytes after the value of the child's line *)

Module StrictFacts.

Import Json Wrapper Samples JsonFacts WrapperFacts ExchangeFacts.

(** The scanner is inside the top-level array or object; it has passed the
    top-level value; it has refused a byte. *)
Definition inside (s : scanner) : Prop :=
  parseState s <> [] /\ step s <> StEndTop /\ endTop s = false.
Definition over (s : scanner) : Prop := parseState s = [] /\ step s = StEndTop.
Definition failed (s : scanner) : Prop := step s = StError /\ err s <> None.

(** What a step from inside gives: an error, or a scanner still inside, or,
    on a byte that is no white space, one past the value. *)
Definition from_inside (sp : bool) (r : scanner * opcode) : Prop :=
  (snd r = scanError /\ endTop (fst r) = false) \/ inside (fst r)
  \/ (sp = false /\ over (fst r)).

Ltac close_inside :=
  unfold from_inside, inside, over; cbn;
  first [ left; split; reflexivity
        | right; left; repeat split; congruence
        | right; right; repeat split; congruence ].

Lemma stateEndValue_inside s c sp :
  parseState s <> [] -> endTop s = false -> isSpace c = sp ->
  from_inside sp (stateEndValue s c).
Proof.
  intros Hne Het Hsp. destruct s as [st et ps er]. simpl in Hne, Het. subst et.
  destruct ps as [|p below]; [done|].
  unfold stateEndValue, popParseState, error_at, set_step, set_parseState, set_endTop.
  rewrite Hsp. cbn. destruct sp; [close_inside|].
  destruct p; split_ifs; cbn; first [close_inside | (destruct below; close_inside)].
Qed.

Lemma step_inside (s : scanner) (c : byte) :
  inside s -> from_inside (isSpace c) (scan_step s c).
Proof.
  intros (Hne & Hst & Het). destruct s as [st et ps er]. simpl in Hne, Hst, Het. subst et.
  destruct ps as [|p below]; [done|].
  destruct (isSpace c) eqn:Hsp;
  destruct st; try done;
    try (apply stateEndValue_inside; [cbn; done|reflexivity|exact Hsp]);
    unfold scan_step, stateBeginValueOrEmpty, stateBeginStringOrEmpty, stateBeginString,
      stateBeginValue, stateInString, stateInStringEsc, stateInStringEscU,
      stateInStringEscU1, stateInStringEscU12, stateInStringEscU123, stateInStringEscHex,
      stateNeg, state1, state0, stateDot, stateDot0, stateE, stateESign, stateE0,
      stateT, stateTr, stateTru, stateF, stateFa, stateFal, stateFals, stateN, stateNu,
      stateNul, stateLit, stateError, pushParseState, error_at, set_step, set_parseState;
    cbn [step parseState endTop err];
    rewrite ?Hsp; cbn [negb];
    split_ifs;
    first [ apply stateEndValue_inside; [cbn; done|reflexivity|exact Hsp]
          | close_inside ].
Qed.

Definition after_value (c : byte) : error := SyntaxError (Some c) "after top-level value".

(** Once a byte has been refused after the value, the check fails with the
    error recorded. *)
Lemma checkValid_failed s data e :
  step s = StError -> err s = Some e -> checkValid_loop s data = Err e.
Proof.
  intros Hst He. destruct data as [|c data]; simpl.
  - unfold eof. rewrite He. simpl. unfold scan_error. by rewrite He.
  - unfold scan_step. rewrite Hst. unfold stateError. simpl.
    unfold scan_error. by rewrite He.
Qed.

Lemma stateEndTop_other s c :
  isSpace c = false ->
  exists s', stateEndTop s c = (s', scanEnd) /\ step s' = StError /\
             err s' = Some (after_value c).
Proof. intros Hc. unfold stateEndTop. rewrite Hc. simpl. eauto. Qed.

Lemma checkValid_over s c rest :
  over s -> isSpace c = false -> checkValid_loop s (c :: rest) = Err (after_value c).
Proof.
  intros [Hps Hst] Hc. simpl. unfold scan_step. rewrite Hst.
  destruct (stateEndTop_other s c Hc) as (s' & -> & Hst' & He'). simpl.
  by apply checkValid_failed.
Qed.

Lemma eof_inside s : inside s -> snd (eof s) = scanError.
Proof.
  intros Hin. pose proof Hin as (Hne & Hst & Het). unfold eof.
  destruct (err s); [done|]. rewrite Het.
  destruct (step_inside s " " Hin) as [[_ Het']|[(_ & _ & Het')|[Hsp _]]];
    [| |discriminate Hsp];
    rewrite Het'; by destruct (err (fst (scan_step s " "))).
Qed.

(** A value that the check accepts, read from inside an array or object,
    is refused when a byte other than white space follows it. *)
Lemma checkValid_inside s d c rest :
  inside s \/ over s -> checkValid_loop s d = Ok tt -> isSpace c = false ->
  checkValid_loop s (d ++ c :: rest) = Err (after_value c).
Proof.
  revert s. induction d as [|x d IH]; intros s Hs H Hc.
  - destruct Hs as [Hin|Hov]; [|by apply checkValid_over].
    simpl in H. pose proof (eof_inside s Hin) as He.
    destruct (eof s) as [s' op]. simpl in He. subst op. discriminate H.
  - simpl in H |- *. destruct Hs as [Hin|[Hps Hst]].
    + destruct (step_inside s x Hin) as [[He _]|[Hin'|[_ Hov]]];
        destruct (scan_step s x) as [s' op]; simpl in *.
      * subst op. discriminate H.
      * destruct (opcode_eqb op scanError); [discriminate H|]. apply IH; auto.
      * destruct (opcode_eqb op scanError); [discriminate H|]. apply IH; auto.
    + unfold scan_step in H |- *. rewrite Hst in H |- *.
      destruct (isSpace x) eqn:Hx.
      * unfold stateEndTop in H |- *. rewrite Hx in H |- *. simpl in H |- *.
        apply IH; [right; by split|done|done].
      * destruct (stateEndTop_other s x Hx) as (s' & Hs' & Hst' & He').
        rewrite Hs' in H. simpl in H.
        rewrite (checkValid_failed s' d _ Hst' He') in H. discriminate H.
Qed.

(** The same for [null]. *)
Lemma checkValid_null s d c rest :
  parseState s = [] -> endTop s = false -> in_null (step s) = true ->
  checkValid_loop s d = Ok tt -> isSpace c = false ->
  checkValid_loop s (d ++ c :: rest) = Err (after_value c).
Proof.
  revert s. induction d as [|x d IH]; intros s Hps Het Hst H Hc.
  - destruct s as [st et ps er]. simpl in Hps, Het, Hst. subst ps et.
    destruct st; try discriminate Hst.
    + simpl. unfold scan_step, stateEndValue. simpl.
      destruct (stateEndTop_other
                  (set_endTop (set_step {| step := StEndValue; endTop := false;
                                           parseState := []; err := er |} StEndTop)) c Hc)
        as (s' & Hs' & Hst' & He').
      rewrite Hs'. simpl. by apply checkValid_failed.
    + simpl in H. unfold eof in H. simpl in H. destruct er; discriminate H.
    + simpl in H. unfold eof in H. simpl in H. destruct er; discriminate H.
    + simpl in H. unfold eof in H. simpl in H. destruct er; discriminate H.
  - destruct s as [st et ps er]. simpl in Hps, Het, Hst. subst ps et.
    assert (Hlit : forall want next ctx,
      scan_step {| step := st; endTop := false; parseState := []; err := er |} x
        = stateLit want next ctx {| step := st; endTop := false; parseState := []; err := er |} x ->
      in_null next = true ->
      checkValid_loop {| step := st; endTop := false; parseState := []; err := er |}
        ((x :: d) ++ c :: rest) = Err (after_value c)).
    { intros want next ctx Hs Hnext. simpl in H |- *. rewrite Hs in H |- *.
      unfold stateLit, error_at, set_step in H |- *. simpl in H |- *.
      destruct (isb x want); simpl in H |- *; [|discriminate H].
      apply IH; done. }
    destruct st; try discriminate Hst.
    + simpl in H |- *. unfold scan_step, stateEndValue in H |- *. simpl in H |- *.
      destruct (isSpace x) eqn:Hx.
      * unfold stateEndTop in H |- *. rewrite Hx in H |- *. simpl in H |- *.
        apply (checkValid_inside _ d c rest); [right; by split|done|done].
      * destruct (stateEndTop_other
                    (set_endTop (set_step {| step := StEndValue; endTop := false;
                                             parseState := []; err := er |} StEndTop)) x Hx)
          as (s' & Hs' & Hst' & He').
        rewrite Hs' in H. simpl in H.
        rewrite (checkValid_failed s' d _ Hst' He') in H. discriminate H.
    + eapply Hlit; reflexivity.
    + eapply Hlit; reflexivity.
    + eapply Hlit; reflexivity.
Qed.

Lemma checkValid_begin d c rest :
  checkValid_loop newScanner d = Ok tt -> opens_or_null d = true -> isSpace c = false ->
  checkValid_loop newScanner (d ++ c :: rest) = Err (after_value c).
Proof.
  induction d as [|x d IH]; intros H Ho Hc; [discriminate Ho|].
  destruct (isSpace x) eqn:Hx.
  - simpl in H |- *.
    change (scan_step newScanner x) with (stateBeginValue newScanner x) in H |- *.
    unfold stateBeginValue in H |- *. rewrite Hx in H |- *. simpl in H |- *.
    apply IH; try done. unfold opens_or_null in Ho |- *.
    by rewrite skip_space_cons_space in Ho.
  - unfold opens_or_null in Ho. rewrite skip_space_cons_other in Ho by done.
    simpl in H |- *.
    change (scan_step newScanner x) with (stateBeginValue newScanner x) in H |- *.
    unfold stateBeginValue in H |- *. rewrite Hx in H |- *.
    destruct (isb x "{") eqn:H1.
    { unfold pushParseState, set_parseState, set_step in H |- *. simpl in H |- *.
      apply checkValid_inside; [left; repeat split; simpl; congruence|done|done]. }
    destruct (isb x "[") eqn:H2.
    { unfold pushParseState, set_parseState, set_step in H |- *. simpl in H |- *.
      apply checkValid_inside; [left; repeat split; simpl; congruence|done|done]. }
    simpl in Ho. apply Ascii.eqb_eq in Ho. subst x. simpl in H |- *.
    apply checkValid_null; done.
Qed.

(** When bytes decode to a response, the same bytes with anything but
    white space added after the value are refused. *)
Lemma Unmarshal_trailing d resp c rest :
  Unmarshal d = Ok resp -> isSpace c = false ->
  Unmarshal (d ++ c :: rest) = Err (after_value c).
Proof.
  unfold Unmarshal, checkValid. intros H Hc.
  destruct (checkValid_loop newScanner d) as [[]|e] eqn:Hv; [|discriminate H].
  simpl in H. rewrite (checkValid_begin d c rest); [done|done| |done].
  eapply unmarshal_opens; eauto.
Qed.

(** X18: the line of the child must be one JSON value and nothing more,
    once [bytes.TrimSpace] has trimmed it: when what is left of the line
    read is bytes that decode to a response, then a byte that is no JSON
    white space, then anything, [SendRequest] fails with [failed to
    unmarshal response: invalid character ... after top-level value].
    White space that [TrimSpace] removes at the end of the line does no
    harm, whatever JSON makes of it. *)
Theorem response_line_is_one_value env s req w p reqBytes line rest d resp c tail :
  procs w !! s = Some p -> closed p = false -> write_err env = None ->
  Marshal req = Ok reqBytes ->
  ReadBytes (unread p ++ child_output env) = Some (line, rest) ->
  TrimSpace line = d ++ c :: tail ->
  Unmarshal d = Ok resp -> isSpace c = false ->
  fst (SendRequest env s req w)
  = Err (Wrap "failed to unmarshal response" (after_value c)).
Proof.
  intros Hp Hcl Hw HM HR Ht HU Hc.
  rewrite (SendRequest_line _ _ _ _ _ _ _ _ Hp Hcl Hw HM HR). simpl.
  by rewrite Ht, (Unmarshal_trailing _ _ _ _ HU Hc).
Qed.

(** The child answers with a response and more on the same line. *)
Definition env_trailing : Env :=
  env_reply (js "{'jsonrpc':'2.0','id':'a','result':{}}" ++ "x" :: b " trailing").

Lemma response_line_is_one_value_witness :
  fst (SendRequest env_trailing 0 ping_request one_session)
  = Err (Wrap "failed to unmarshal response" (after_value "x")).
Proof.
  apply (response_line_is_one_value env_trailing 0 ping_request one_session
           {| stdin_log := []; unread := []; closed := false |} ping
           (js "{'jsonrpc':'2.0','id':'a','result':{}}" ++ "x" :: b " trailing" ++ ["010"])
           []
           (js "{'jsonrpc':'2.0','id':'a','result':{}}")
           {| resp_JSONRPC := b "2.0"; resp_ID := AString (b "a"); Result := b "{}";
              Error := [] |}
           "x" (b " trailing"));
    vm_compute; reflexivity.
Defined.

End StrictFacts.

(** ** The bytes that are written *)

Module FramingFacts.

Import Json Wrapper Samples JsonFacts WrapperFacts EnvelopeFacts.

(** A byte that is no control character, the newline for one, and none of
    [<], [>] and [&]. *)
Definition tame (c : byte) : bool :=
  (32 <=? code c)%N && negb (isb c "<" || isb c ">" || isb c "&").

Definition all_tame (s : bytes) : bool := forallb tame s.

Lemma all_tame_app x y : all_tame (x ++ y) = all_tame x && all_tame y.
Proof. apply forallb_app. Qed.

Lemma all_tame_cons c x : all_tame (c :: x) = tame c && all_tame x.
Proof. reflexivity. Qed.

(** *** String literals *)

Lemma u00_tame c : all_tame (u00 c) = true.
Proof. destruct c as [[] [] [] [] [] [] [] []]; reflexivity. Qed.

Lemma hex_low_tame c : tame (hex_digit (N.land (code c) 0xF)) = true.
Proof. destruct c as [[] [] [] [] [] [] [] []]; reflexivity. Qed.

Lemma htmlSafe_tame c : htmlSafe c = true -> tame c = true.
Proof.
  unfold htmlSafe, tame. intros [[H1 _]%andb_prop H2]%andb_prop.
  rewrite H1. simpl. apply negb_true_iff in H2. apply negb_true_iff.
  repeat (apply orb_false_elim in H2 as [H2 ?]). by repeat (apply orb_false_intro).
Qed.

Lemma high_tame c : (code c <? utf8.RuneSelf)%N = false -> tame c = true.
Proof. destruct c as [[] [] [] [] [] [] [] []]; (discriminate || reflexivity). Qed.

(** The first [k] bytes of [s] are there and are no ASCII. *)
Fixpoint high_bytes (k : nat) (s : bytes) : Prop :=
  match k with
  | O => True
  | S k' => match s with
            | c :: s' => (code c <? utf8.RuneSelf)%N = false /\ high_bytes k' s'
            | [] => False
            end
  end.

Lemma cont_high c : utf8.cont c = true -> (code c <? utf8.RuneSelf)%N = false.
Proof.
  unfold utf8.cont, utf8.RuneSelf. intros [H _]%andb_prop.
  apply N.leb_le in H. apply N.ltb_ge. lia.
Qed.

(** The bytes after the first of a rune of more than one byte. *)
Lemma DecodeRune_high c t r size :
  utf8.DecodeRune (c :: t) = (r, size) -> high_bytes (size - 1) t.
Proof.
  unfold utf8.DecodeRune.
  set (c0 := code c).
  set (lo := if (c0 =? 224)%N then 160%N else if (c0 =? 240)%N then 144%N else 128%N).
  set (hi := if (c0 =? 237)%N then 159%N else if (c0 =? 244)%N then 143%N else 191%N).
  assert (Hlo : (128 <= lo)%N) by (unfold lo; repeat case_match; lia).
  assert (Hb : forall x, ((code x <? lo) || (hi <? code x))%N = false ->
                         (code x <? utf8.RuneSelf)%N = false).
  { intros x [H _]%orb_false_elim. apply N.ltb_ge in H. apply N.ltb_ge.
    unfold utf8.RuneSelf. lia. }
  destruct (c0 <? utf8.RuneSelf)%N; [intros H; inversion H; done|].
  destruct ((c0 <? 194) || (244 <? c0))%N; [intros H; inversion H; done|].
  destruct t as [|b1 t1]; [intros H; inversion H; done|].
  destruct (c0 <? 224)%N.
  { destruct ((code b1 <? lo) || (hi <? code b1))%N eqn:H1; intros H; inversion H;
      simpl; auto. }
  destruct t1 as [|b2 t2]; [intros H; inversion H; done|].
  destruct (c0 <? 240)%N.
  { destruct ((code b1 <? lo) || (hi <? code b1))%N eqn:H1; simpl;
      [intros H; inversion H; done|].
    destruct (utf8.cont b2) eqn:H2; simpl; intros H; inversion H; simpl; [|done].
    auto using cont_high. }
  destruct t2 as [|b3 t3]; [intros H; inversion H; done|].
  destruct ((code b1 <? lo) || (hi <? code b1))%N eqn:H1; simpl;
    [intros H; inversion H; done|].
  destruct (utf8.cont b2) eqn:H2; simpl; [|intros H; inversion H; done].
  destruct (utf8.cont b3) eqn:H3; simpl; intros H; inversion H; simpl; [|done].
  auto using cont_high.
Qed.

Lemma quote_loop_cons copy skip c src :
  quote_loop copy skip (c :: src)
  = match skip, copy with
    | S k, _ => quote_loop copy k src
    | O, S k => c :: quote_loop k 0 src
    | O, O =>
        if (code c <? utf8.RuneSelf)%N then
          if htmlSafe c then c :: quote_loop 0 0 src
          else if isb c backslash || isb c dquote
          then backslash :: c :: quote_loop 0 0 src
          else if isb c "008" then backslash :: "b" :: quote_loop 0 0 src
          else if isb c "012" then backslash :: "f" :: quote_loop 0 0 src
          else if isb c "010" then backslash :: "n" :: quote_loop 0 0 src
          else if isb c "013" then backslash :: "r" :: quote_loop 0 0 src
          else if isb c "009" then backslash :: "t" :: quote_loop 0 0 src
          else u00 c ++ quote_loop 0 0 src
        else
          let (r, size) := utf8.DecodeRune (c :: src) in
          if (r =? utf8.RuneError)%N && Nat.eqb size 1
          then backslash :: b "ufffd" ++ quote_loop 0 0 src
          else if (r =? 0x2028)%N || (r =? 0x2029)%N
          then backslash :: b "u202" ++ hex_digit (N.land r 0xF)
                 :: quote_loop 0 (size - 1) src
          else c :: quote_loop (size - 1) 0 src
    end.
Proof. reflexivity. Qed.

Lemma quote_loop_tame src copy skip :
  (skip = 0 -> high_bytes copy src) -> (skip <> 0 -> copy = 0) ->
  all_tame (quote_loop copy skip src) = true.
Proof.
  revert copy skip. induction src as [|c src IH]; intros copy skip Hc Hs; [done|].
  rewrite quote_loop_cons. destruct skip as [|k].
  - specialize (Hc eq_refl). destruct copy as [|k].
    + assert (Hnext : all_tame (quote_loop 0 0 src) = true) by (apply IH; done).
      destruct (code c <? utf8.RuneSelf)%N eqn:Hlt.
      * destruct (htmlSafe c) eqn:Hsafe.
        { by rewrite all_tame_cons, htmlSafe_tame. }
        destruct (isb c backslash || isb c dquote) eqn:Hbq.
        { apply orb_prop in Hbq as [H|H]; apply Ascii.eqb_eq in H; subst c; exact Hnext. }
        repeat (match goal with
                | |- context [if ?x then _ else _] => destruct x; [exact Hnext|]
                end).
        by rewrite all_tame_app, u00_tame.
      * destruct (utf8.DecodeRune (c :: src)) as [r size] eqn:Hd.
        pose proof (DecodeRune_high _ _ _ _ Hd) as Hh.
        destruct ((r =? utf8.RuneError)%N && Nat.eqb size 1); [exact Hnext|].
        destruct ((r =? 8232)%N || (r =? 8233)%N) eqn:Hr.
        { assert (Hx : tame (hex_digit (N.land r 15)) = true).
          { apply orb_prop in Hr as [Hr|Hr]; apply N.eqb_eq in Hr; subst r; reflexivity. }
          change (all_tame (b "\u202" ++ hex_digit (N.land r 15)
                            :: quote_loop 0 (size - 1) src) = true).
          rewrite all_tame_app, all_tame_cons, Hx. simpl. apply IH; [|done].
          intros Hz. exact I. }
        rewrite all_tame_cons, high_tame by done. apply IH; [done|done].
    + destruct Hc as [Hhigh Hrest]. rewrite all_tame_cons, high_tame by done.
      apply IH; done.
  - rewrite (Hs ltac:(done)). apply IH; [|done]. intros _. exact I.
Qed.

Lemma quote_tame s : all_tame (dquote :: quote_loop 0 0 s) = true /\ all_tame (quote s) = true.
Proof.
  assert (H : all_tame (quote_loop 0 0 s) = true) by (apply quote_loop_tame; done).
  unfold quote. change (dquote :: quote_loop 0 0 s ++ [dquote])
    with ([dquote] ++ quote_loop 0 0 s ++ [dquote]).
  rewrite all_tame_cons, !all_tame_app, H. done.
Qed.

(** *** Compacted messages *)

(** A control character is white space between tokens, or an error. *)
Lemma control_not_copied (s : scanner) (c : byte) :
  (code c <? 32)%N = true -> ge_scanSkipSpace (snd (scan_step s c)) = true.
Proof.
  intros Hc.
  assert (Hn : forall x, (32 <=? code x)%N = true -> isb c x = false).
  { intros x Hx. apply Ascii.eqb_neq. intros ->. apply N.ltb_lt in Hc.
    apply N.leb_le in Hx. lia. }
  assert (Hd : is_digit c = false /\ is_digit19 c = false /\ is_hex c = false).
  { unfold is_hex, is_digit, is_digit19, in_range. apply N.ltb_lt in Hc.
    repeat split; repeat (apply orb_false_intro);
      apply andb_false_intro1; apply N.leb_gt; simpl; lia. }
  destruct Hd as (Hd1 & Hd2 & Hd3).
  assert (Hend : forall s0, ge_scanSkipSpace (snd (stateEndValue s0 c)) = true).
  { intros s0. unfold stateEndValue, stateEndTop, popParseState, error_at.
    destruct (parseState s0) as [|p below]; [by destruct (negb (isSpace c))|].
    destruct (isSpace c); [done|].
    destruct p; rewrite ?(Hn ":"), ?(Hn ","), ?(Hn "}"), ?(Hn "]") by done; done. }
  destruct s as [st et ps er].
  destruct st;
    unfold scan_step, stateBeginValueOrEmpty, stateBeginStringOrEmpty, stateBeginString,
      stateBeginValue, stateInString, stateInStringEsc, stateInStringEscU,
      stateInStringEscU1, stateInStringEscU12, stateInStringEscU123, stateInStringEscHex,
      stateNeg, state1, state0, stateDot, stateDot0, stateE, stateESign, stateE0,
      stateT, stateTr, stateTru, stateF, stateFa, stateFal, stateFals, stateN, stateNu,
      stateNul, stateLit, stateError, stateEndTop, pushParseState, error_at;
    cbn [step parseState endTop err];
    rewrite ?Hc, ?Hd1, ?Hd2, ?Hd3,
      ?(Hn "{"), ?(Hn "["), ?(Hn "]"), ?(Hn "}"), ?(Hn dquote), ?(Hn backslash),
      ?(Hn "-"), ?(Hn "+"), ?(Hn "0"), ?(Hn "t"), ?(Hn "f"), ?(Hn "n"), ?(Hn "."),
      ?(Hn "e"), ?(Hn "E"), ?(Hn "b"), ?(Hn "r"), ?(Hn "/"), ?(Hn "u"), ?(Hn "a"),
      ?(Hn "l"), ?(Hn "s") by done;
    cbn [orb andb];
    try apply Hend;
    try (destruct (isSpace c); first [done | apply Hend]);
    try (destruct (negb (isSpace c)); done).
Qed.

Lemma line_separator_digit src d : line_separator src = Some d -> tame (hex_digit d) = true.
Proof.
  unfold line_separator. destruct src as [|c0 [|c1 [|c2 src]]]; try done.
  destruct (_ && _); [|done]. intros H. inversion H. apply hex_low_tame.
Qed.

Lemma compact_loop_tame src k s out sf :
  compact_loop k s src = (out, sf) -> all_tame out = true.
Proof.
  revert k s out. induction src as [|c src IH]; intros k s out H.
  - simpl in H. by inversion H.
  - rewrite compact_loop_cons in H.
    pose proof (control_not_copied s c) as Hctl.
    destruct (scan_step s c) as [s' v]. cbn [snd] in Hctl.
    destruct (opcode_eqb v scanError); [by inversion H|].
    cbv zeta in H.
    assert (Hout : forall k' emit o,
              (let (o, sf) := compact_loop k' s' src in (emit ++ o, sf)) = (o, sf) ->
              all_tame emit = true -> all_tame o = true).
    { intros k' emit o Ho He. destruct (compact_loop k' s' src) as [o' sf'] eqn:Hl.
      inversion Ho; subst. rewrite all_tame_app, He. simpl. eapply IH; eauto. }
    destruct k as [|k]; [|by apply (Hout _ _ _ H)].
    destruct (isb c "<" || isb c ">" || isb c "&") eqn:Hhtml.
    { apply (Hout _ _ _ H). apply u00_tame. }
    destruct (line_separator (c :: src)) as [d|] eqn:Hsep.
    { apply (Hout _ _ _ H).
      change (all_tame (b "\u202" ++ [hex_digit d]) = true).
      rewrite all_tame_app. simpl. by rewrite (line_separator_digit _ _ Hsep). }
    destruct (ge_scanSkipSpace v) eqn:Hge; [by apply (Hout _ _ _ H)|].
    apply (Hout _ _ _ H). simpl. rewrite andb_true_r. unfold tame.
    rewrite Hhtml. simpl. rewrite andb_true_r.
    destruct (32 <=? code c)%N eqn:Hlow; [done|].
    apply Hctl. apply N.leb_gt in Hlow. by apply N.ltb_lt.
Qed.

Lemma compact_tame src c : compact src = Ok c -> all_tame c = true.
Proof.
  unfold compact. destruct (compact_loop 0 newScanner src) as [out sf] eqn:Hl.
  destruct (opcode_eqb (snd (eof sf)) scanError); [discriminate|].
  intros H. inversion H; subst. eapply compact_loop_tame; eauto.
Qed.

Lemma raw_member_tame name m ms :
  raw_member name m = Ok ms -> Forall (fun x => all_tame (snd x) = true) ms.
Proof.
  unfold raw_member. destruct m as [|x m]; [intros H; inversion H; constructor|].
  destruct (compact (x :: m)) as [c|e] eqn:Hc; intros H; inversion H.
  repeat constructor. simpl. eapply compact_tame; eauto.
Qed.

(** *** Numbers *)

Local Open Scope Z_scope.

Lemma digit_tame d : 0 <= d < 10 -> tame (byte_of (Z.to_N (d + 48))) = true.
Proof.
  intros H.
  assert (Hc : d = 0 \/ d = 1 \/ d = 2 \/ d = 3 \/ d = 4 \/ d = 5 \/ d = 6 \/ d = 7
               \/ d = 8 \/ d = 9) by lia.
  repeat (destruct Hc as [-> | Hc]; [reflexivity|]). subst. reflexivity.
Qed.

Lemma digits_fuel_tame fuel m acc :
  0 <= m -> all_tame acc = true -> all_tame (strconv.digits_fuel fuel m acc) = true.
Proof.
  revert m acc. induction fuel as [|k IH]; intros m acc Hm Hacc; [done|].
  simpl. destruct (Z.ltb_spec m 10).
  - rewrite all_tame_cons, digit_tame by lia. done.
  - apply IH.
    + apply Z.div_pos; lia.
    + rewrite all_tame_cons, digit_tame; [done|]. apply Z.mod_pos_bound. lia.
Qed.

Lemma digits_tame m : 0 <= m -> all_tame (strconv.digits m) = true.
Proof. intros H. by apply digits_fuel_tame. Qed.

Lemma zeros_tame n : all_tame (strconv.zeros n) = true.
Proof. unfold strconv.zeros. induction (Z.to_nat n); [done|]. simpl. done. Qed.

Lemma firstn_tame n s : all_tame s = true -> all_tame (firstn n s) = true.
Proof.
  revert n. induction s as [|c s IH]; intros [|n] H; try done.
  simpl in *. apply andb_prop in H as [-> H]. simpl. by apply IH.
Qed.

Lemma skipn_tame n s : all_tame s = true -> all_tame (skipn n s) = true.
Proof.
  revert n. induction s as [|c s IH]; intros [|n] H; try done.
  simpl in *. apply andb_prop in H as [_ H]. by apply IH.
Qed.

Lemma fmtF_tame neg d dp : all_tame d = true -> all_tame (strconv.fmtF neg d dp) = true.
Proof.
  intros Hd. unfold strconv.fmtF. cbv zeta.
  assert (H1 : all_tame (if neg then ["-"] else []) = true) by (by destruct neg).
  assert (H2 : all_tame (if 0 <? dp
                         then firstn (Z.to_nat dp) d
                              ++ strconv.zeros (dp - Z.of_nat (length d))
                         else ["0"]) = true).
  { destruct (0 <? dp); [|done]. by rewrite all_tame_app, firstn_tame, zeros_tame. }
  assert (H3 : all_tame (if dp <? Z.of_nat (length d)
                         then "." :: strconv.zeros (- dp) ++ skipn (Z.to_nat dp) d
                         else []) = true).
  { destruct (dp <? Z.of_nat (length d)); [|done].
    by rewrite all_tame_cons, all_tame_app, zeros_tame, skipn_tame. }
  by rewrite !all_tame_app, H1, H2, H3.
Qed.

Lemma fmtE_tame neg d dp : all_tame d = true -> all_tame (strconv.fmtE neg d dp) = true.
Proof.
  intros Hd. unfold strconv.fmtE. cbv zeta.
  assert (H1 : all_tame (if neg then ["-"] else []) = true) by (by destruct neg).
  assert (H2 : all_tame (firstn 1 d) = true) by (by apply firstn_tame).
  assert (H3 : all_tame (match skipn 1 d with [] => [] | t => "." :: t end) = true).
  { pose proof (skipn_tame 1 d Hd) as Hs. destruct (skipn 1 d); [done|].
    by rewrite all_tame_cons, Hs. }
  assert (H4 : all_tame ["e"; if dp - 1 <? 0 then "-" else "+"] = true)
    by (by destruct (dp - 1 <? 0)).
  assert (H5 : all_tame (if Z.abs (dp - 1) <? 10
                         then "0" :: strconv.digits (Z.abs (dp - 1))
                         else strconv.digits (Z.abs (dp - 1))) = true).
  { pose proof (digits_tame (Z.abs (dp - 1)) (Z.abs_nonneg _)) as He.
    destruct (Z.abs (dp - 1) <? 10); [by rewrite all_tame_cons, He|done]. }
  by rewrite !all_tame_app, H1, H2, H3, H4, H5.
Qed.

Lemma strip_zeros_nonneg fuel c k : 0 <= c -> 0 <= fst (strconv.strip_zeros_fuel fuel c k).
Proof.
  revert c k. induction fuel as [|f IH]; intros c k Hc; [done|].
  simpl. destruct (_ && _); [|done]. apply IH. apply Z.div_pos; lia.
Qed.

(** The search of [shortest] for the digits, over the value [numx / den],
    its rounding interval [inside] and the position [dp] of its decimal
    point. *)
Definition shortest_try (numx den : Z) (inside : Z -> Z -> bool) (dp : Z)
    : nat -> Z -> Z * Z :=
  fix try (fuel : nat) (n : Z) : Z * Z :=
    let k := dp - n in
    let c := if 0 <=? k then numx / (den * 10 ^ k) else numx * 10 ^ (- k) / den in
    let exact := match strconv.cmp_scaled c k numx den with Eq => true | _ => false end in
    match fuel with
    | O => (c, k)
    | S fuel' =>
        if exact then (c, k)
        else
          let down := inside c k in
          let upw := inside (c + 1) k in
          let nearer_up :=
            match strconv.cmp_scaled (2 * c + 1) k (2 * numx) den with
            | Lt => true | Eq => Z.odd c | Gt => false end in
          if down && upw then (if nearer_up then (c + 1, k) else (c, k))
          else if down then (c, k)
          else if upw then (c + 1, k)
          else try fuel' (n + 1)
    end.

Lemma shortest_as_try f :
  0 <= strconv.f_mant f ->
  exists numx den inside dp,
    0 <= numx /\ 0 < den /\ strconv.shortest f = shortest_try numx den inside dp 17 1.
Proof.
  intros Hm.
  exists (if 2 <=? strconv.f_exp f then 4 * strconv.f_mant f * 2 ^ (strconv.f_exp f - 2)
          else 4 * strconv.f_mant f),
         (if 2 <=? strconv.f_exp f then 1 else 2 ^ (2 - strconv.f_exp f)).
  do 2 eexists. split; [|split]; [| |reflexivity].
  - destruct (Z.leb_spec 2 (strconv.f_exp f)); [|lia].
    apply Z.mul_nonneg_nonneg; [lia|]. apply Z.pow_nonneg. lia.
  - destruct (Z.leb_spec 2 (strconv.f_exp f)); [lia|].
    apply Z.pow_pos_nonneg; lia.
Qed.

Lemma shortest_try_nonneg numx den inside dp fuel n :
  0 <= numx -> 0 < den -> 0 <= fst (shortest_try numx den inside dp fuel n).
Proof.
  intros Hn Hd. revert n. induction fuel as [|fuel IH]; intros n.
  - simpl. destruct (Z.leb_spec 0 (dp - n)).
    + apply Z.div_pos; [done|]. apply Z.mul_pos_pos; [done|]. by apply Z.pow_pos_nonneg.
    + apply Z.div_pos; [|done]. apply Z.mul_nonneg_nonneg; [done|]. apply Z.pow_nonneg. lia.
  - assert (Hc : 0 <= (if 0 <=? dp - n then numx / (den * 10 ^ (dp - n))
                       else numx * 10 ^ (- (dp - n)) / den)).
    { destruct (Z.leb_spec 0 (dp - n)).
      + apply Z.div_pos; [done|]. apply Z.mul_pos_pos; [done|]. by apply Z.pow_pos_nonneg.
      + apply Z.div_pos; [|done]. apply Z.mul_nonneg_nonneg; [done|].
        apply Z.pow_nonneg. lia. }
    simpl. cbv zeta.
    repeat (match goal with
            | |- context [if ?x then _ else _] =>
                lazymatch x with
                | (0 <=? _) => fail
                | _ => destruct x
                end
            | |- context [match strconv.cmp_scaled ?a ?b ?c ?d with _ => _ end] =>
                destruct (strconv.cmp_scaled a b c d)
            end); simpl; try lia; try apply IH.
Qed.

Lemma shortest_nonneg f : 0 <= strconv.f_mant f -> 0 <= fst (strconv.shortest f).
Proof.
  intros Hm. destruct (shortest_as_try f Hm) as (numx & den & inside & dp & Hn & Hd & ->).
  by apply shortest_try_nonneg.
Qed.

Lemma all_tame_rev s : all_tame s = true -> all_tame (rev s) = true.
Proof.
  unfold all_tame. rewrite !forallb_forall. intros H x Hx. apply H. by apply in_rev.
Qed.

Lemma shortest_digits_tame f :
  0 <= strconv.f_mant f -> all_tame (fst (strconv.shortest_digits f)) = true.
Proof.
  intros Hm. unfold strconv.shortest_digits.
  pose proof (shortest_nonneg f Hm) as Hc.
  destruct (strconv.shortest f) as [c k]. simpl in Hc.
  pose proof (strip_zeros_nonneg 20 c k Hc) as Hc'.
  destruct (strconv.strip_zeros_fuel 20 c k) as [c' k']. simpl in *.
  by apply digits_tame.
Qed.

(** The digits of a number that was decoded hold no control character. *)
Lemma FormatFloat_tame f :
  0 <= strconv.f_mant f -> all_tame (strconv.FormatFloat f) = true.
Proof.
  intros Hm. unfold strconv.FormatFloat.
  destruct (strconv.f_mant f =? 0); [by destruct (strconv.f_neg f)|].
  pose proof (shortest_digits_tame f Hm) as Hd.
  destruct (strconv.shortest_digits f) as [d dp]. simpl in Hd.
  destruct (strconv.wants_exponent f); [|by apply fmtF_tame].
  pose proof (fmtE_tame (strconv.f_neg f) d dp Hd) as He.
  pose proof (all_tame_rev _ He) as Hr.
  destruct (rev (strconv.fmtE (strconv.f_neg f) d dp)) as [|x [|z [|sg [|e before]]]];
    try exact He.
  destruct (_ && _); [|exact He].
  apply all_tame_rev. simpl in Hr |- *.
  apply andb_prop in Hr as [Hx Hr]. apply andb_prop in Hr as [_ Hr].
  apply andb_prop in Hr as [Hsg Hr]. apply andb_prop in Hr as [He' Hr].
  by rewrite Hx, Hsg, He', Hr.
Qed.

Lemma read_digits_nonneg s acc n :
  0 <= acc -> 0 <= fst (fst (strconv.read_digits acc n s)).
Proof.
  revert acc n. induction s as [|c s IH]; intros acc n Ha; [done|].
  simpl. destruct (is_digit c) eqn:Hd; [|done]. apply IH.
  unfold strconv.digit_val. unfold is_digit, in_range in Hd.
  apply andb_prop in Hd as [H1 _]. apply N.leb_le in H1.
  change (code "0") with 48%N in H1. lia.
Qed.

Lemma read_decimal_nonneg s neg m e :
  strconv.read_decimal s = Some (neg, m, e) -> 0 <= m.
Proof.
  unfold strconv.read_decimal.
  destruct (match s with
            | [] => (false, s)
            | c :: s' => if isb c "-" then (true, s') else (false, s)
            end) as [ng s1].
  pose proof (read_digits_nonneg s1 0 0 ltac:(lia)) as H1.
  destruct (strconv.read_digits 0 0 s1) as [[m1 ni] s2]. simpl in H1.
  assert (H2 : 0 <= fst (fst (match s2 with
                              | [] => (m1, 0, s2)
                              | c :: s' =>
                                  if isb c "."
                                  then let '(m', nf, s'') := strconv.read_digits m1 0 s' in
                                       (m', nf, s'')
                                  else (m1, 0, s2)
                              end))).
  { destruct s2 as [|c s']; [done|]. destruct (isb c "."); [|done].
    pose proof (read_digits_nonneg s' m1 0 H1) as H.
    by destruct (strconv.read_digits m1 0 s') as [[m' nf] s'']. }
  destruct (match s2 with [] => _ | _ => _ end) as [[m2 nf] s3]. simpl in H2.
  destruct (ni + nf =? 0); [discriminate|].
  destruct s3 as [|c s']; [intros H; inversion H; by subst|].
  destruct (isb c "e" || isb c "E"); [|discriminate].
  destruct (match s' with [] => _ | _ => _ end) as [esign s4].
  destruct s4 as [|d s5]; [discriminate|].
  destruct (is_digit d); [|discriminate].
  destruct (strconv.read_exp 0 (d :: s5)) as [ex rest].
  destruct rest; [|discriminate]. intros H; inversion H; by subst.
Qed.

Lemma round_ratio_nonneg neg n d f :
  0 <= n -> 0 < d -> strconv.round_ratio neg n d = Some f -> 0 <= strconv.f_mant f.
Proof.
  intros Hn Hd. unfold strconv.round_ratio. cbv zeta.
  match goal with
  | |- context [Z.max ?x (-1074)] => generalize (Z.max x (-1074))
  end.
  intros e.
  assert (Hq : 0 <= (if e <? 0 then n * 2 ^ (- e) else n)
                    / (if e <? 0 then d else d * 2 ^ e)).
  { destruct (Z.ltb_spec e 0).
    - apply Z.div_pos; [|done]. apply Z.mul_nonneg_nonneg; [done|]. apply Z.pow_nonneg. lia.
    - apply Z.div_pos; [done|]. apply Z.mul_pos_pos; [done|]. apply Z.pow_pos_nonneg; lia. }
  set (q0 := (if e <? 0 then n * 2 ^ (- e) else n) / (if e <? 0 then d else d * 2 ^ e)) in *.
  match goal with
  | |- context [if ?c then q0 + 1 else q0] => destruct c
  end.
  - destruct (q0 + 1 =? 2 ^ 53) eqn:E.
    + destruct (971 <? e + 1); [discriminate|]. intros H; inversion H. simpl. lia.
    + destruct (971 <? e); [discriminate|]. intros H; inversion H. simpl. lia.
  - destruct (q0 =? 2 ^ 53) eqn:E.
    + destruct (971 <? e + 1); [discriminate|]. intros H; inversion H. simpl. lia.
    + destruct (971 <? e); [discriminate|]. intros H; inversion H. simpl. lia.
Qed.

Lemma ParseFloat_nonneg s f : strconv.ParseFloat s = Ok f -> 0 <= strconv.f_mant f.
Proof.
  unfold strconv.ParseFloat.
  destruct (strconv.read_decimal s) as [[[neg m] e]|] eqn:Hr; [|discriminate].
  pose proof (read_decimal_nonneg _ _ _ _ Hr) as Hm.
  destruct (m =? 0); [intros H; inversion H; simpl; lia|].
  destruct (400 <? e + strconv.num_digits m); [discriminate|].
  destruct (e + strconv.num_digits m <? -400); [intros H; inversion H; simpl; lia|].
  destruct (Z.leb_spec 0 e) as [He|He].
  - destruct (strconv.round_ratio neg (m * 10 ^ e) 1) as [f'|] eqn:Hrr; [|discriminate].
    intros H; inversion H; subst. eapply round_ratio_nonneg; [| |exact Hrr]; [|lia].
    apply Z.mul_nonneg_nonneg; [done|]. apply Z.pow_nonneg. lia.
  - destruct (strconv.round_ratio neg m (10 ^ (- e))) as [f'|] eqn:Hrr; [|discriminate].
    intros H; inversion H; subst. eapply round_ratio_nonneg; [| |exact Hrr]; [done|].
    apply Z.pow_pos_nonneg; lia.
Qed.

Local Close Scope Z_scope.

(** *** Values of type [interface{}] *)

(** The numbers of the value are floats as [ParseFloat] gives them. *)
Fixpoint decoded (v : any) : Prop :=
  match v with
  | AFloat f => (0 <= strconv.f_mant f)%Z
  | ASlice l => (fix all (l : list any) : Prop :=
                   match l with
                   | [] => True
                   | x :: l' => decoded x /\ all l'
                   end) l
  | AMap m => (fix all (m : list (bytes * any)) : Prop :=
                 match m with
                 | [] => True
                 | (_, x) :: m' => decoded x /\ all m'
                 end) m
  | _ => True
  end.

Lemma decoded_slice l : decoded (ASlice l) <-> Forall decoded l.
Proof.
  induction l as [|x l IH]; simpl; [split; [constructor|done]|].
  split.
  - intros [Hx Hl]. constructor; [done|]. by apply IH.
  - intros H. inversion H; subst. split; [done|]. by apply IH.
Qed.

Lemma decoded_map m : decoded (AMap m) <-> Forall (fun e => decoded (snd e)) m.
Proof.
  induction m as [|[k x] m IH]; simpl; [split; [constructor|done]|].
  split.
  - intros [Hx Hl]. constructor; [done|]. by apply IH.
  - intros H. inversion H; subst. split; [done|]. by apply IH.
Qed.

(** The elements of an array and the entries of a map, encoded. *)
Fixpoint encode_items (l : list any) : bytes :=
  match l with
  | [] => []
  | [x] => encode_any x
  | x :: l' => encode_any x ++ "," :: encode_items l'
  end.

Fixpoint encode_entries (m : list (bytes * any)) : bytes :=
  match m with
  | [] => []
  | [(k, x)] => quote k ++ ":" :: encode_any x
  | (k, x) :: m' => quote k ++ ":" :: encode_any x ++ "," :: encode_entries m'
  end.

Lemma encode_any_slice l : encode_any (ASlice l) = "[" :: encode_items l ++ ["]"].
Proof. reflexivity. Qed.

Lemma encode_any_map m : encode_any (AMap m) = "{" :: encode_entries m ++ ["}"].
Proof. reflexivity. Qed.

Lemma encode_items_tame l :
  Forall (fun x => all_tame (encode_any x) = true) l -> all_tame (encode_items l) = true.
Proof.
  induction 1 as [|x l Hx Hl IH]; [done|].
  destruct l as [|y l]; [exact Hx|].
  change (all_tame (encode_any x ++ "," :: encode_items (y :: l)) = true).
  by rewrite all_tame_app, all_tame_cons, Hx, IH.
Qed.

Lemma encode_entries_tame m :
  Forall (fun e => all_tame (encode_any (snd e)) = true) m ->
  all_tame (encode_entries m) = true.
Proof.
  induction 1 as [|[k x] m Hx Hm IH]; [done|]. simpl in Hx.
  destruct m as [|y m].
  - change (all_tame (quote k ++ ":" :: encode_any x) = true).
    by rewrite all_tame_app, all_tame_cons, (proj2 (quote_tame k)), Hx.
  - change (all_tame (quote k ++ ":" :: encode_any x ++ "," :: encode_entries (y :: m))
            = true).
    by rewrite all_tame_app, all_tame_cons, all_tame_app, all_tame_cons,
      (proj2 (quote_tame k)), Hx, IH.
Qed.

Lemma encode_any_tame v : decoded v -> all_tame (encode_any v) = true.
Proof.
  revert v. fix IH 1. intros [|[]|f|s|l|m] Hv; try reflexivity.
  - by apply FormatFloat_tame.
  - apply quote_tame.
  - rewrite encode_any_slice, all_tame_cons, all_tame_app, encode_items_tame; [done|].
    apply decoded_slice in Hv. clear -IH Hv.
    induction l as [|x l IHl]; constructor.
    + apply IH. by inversion Hv.
    + apply IHl. by inversion Hv.
  - rewrite encode_any_map, all_tame_cons, all_tame_app, encode_entries_tame; [done|].
    apply decoded_map in Hv. clear -IH Hv.
    induction m as [|[k x] m IHm]; constructor.
    + apply IH. by inversion Hv.
    + apply IHm. by inversion Hv.
Qed.

(** What is decoded is [decoded]. *)
Definition decoded_frame (f : frame) : Prop :=
  match f with
  | FArr items => Forall decoded items
  | FObj es _ => Forall (fun e => decoded (snd e)) es
  end.

Definition decoded_builder (bs : builder) : Prop :=
  Forall decoded_frame (frames bs) /\ (forall v, top bs = Some v -> decoded v).

Lemma map_put_decoded k v m :
  decoded v -> Forall (fun e => decoded (snd e)) m ->
  Forall (fun e => decoded (snd e)) (map_put k v m).
Proof.
  intros Hv. induction 1 as [|[k' v'] m Hx Hm IH]; simpl.
  - by repeat constructor.
  - destruct (bytes_compare k k'); repeat constructor; done.
Qed.

Lemma attach_decoded v fs t :
  decoded v -> Forall decoded_frame fs -> (forall x, t = Some x -> decoded x) ->
  Forall decoded_frame (fst (attach v fs t)) /\
  (forall x, snd (attach v fs t) = Some x -> decoded x).
Proof.
  intros Hv Hfs Ht. destruct fs as [|[items|es [k|]] fs']; simpl.
  - split; [constructor|]. intros x Hx. by inversion Hx; subst.
  - inversion Hfs; subst. split; [|done]. constructor; [|done].
    simpl in *. apply Forall_app. split; [done|]. by repeat constructor.
  - inversion Hfs; subst. split; [|done]. constructor; [|done].
    simpl in *. by apply map_put_decoded.
  - done.
Qed.

Lemma literalInterface_decoded item : decoded (fst (literalInterface item)).
Proof.
  unfold literalInterface. destruct item as [|c item]; [done|].
  repeat (match goal with |- context [if ?x then _ else _] => destruct x; [done|] end).
  unfold convertNumber.
  destruct (strconv.ParseFloat (c :: item)) as [f|e] eqn:Hp; [|done].
  simpl. by apply ParseFloat_nonneg in Hp.
Qed.

Lemma finish_literal_decoded bs : decoded_builder bs -> decoded_builder (finish_literal bs).
Proof.
  intros [Hf Ht]. unfold finish_literal. destruct (lit bs) as [rl|]; [|done].
  assert (Hdef : decoded_builder
            (let (v, e) := literalInterface (rev rl) in
             let (fs, t) := attach v (frames bs) (top bs) in
             {| frames := fs; lit := None; top := t; saved := saveError (saved bs) e |})).
  { pose proof (literalInterface_decoded (rev rl)) as Hv.
    destruct (literalInterface (rev rl)) as [v e]. simpl in Hv.
    pose proof (attach_decoded v (frames bs) (top bs) Hv Hf Ht) as Ha.
    destruct (attach v (frames bs) (top bs)) as [fs t]. exact Ha. }
  destruct (frames bs) as [|[items|es [k|]] fs'] eqn:Hfr; try exact Hdef.
  split; simpl; [|done]. inversion Hf; subst. by constructor.
Qed.

Lemma build_step_decoded bs op c : decoded_builder bs -> decoded_builder (build_step bs op c).
Proof.
  intros Hbs. pose proof (finish_literal_decoded bs Hbs) as Hfin.
  assert (Hclose : decoded_builder
            match frames (finish_literal bs) with
            | f :: fs' =>
                let v := match f with
                         | FArr items => ASlice items
                         | FObj es _ => AMap es
                         end in
                let (fs, t) := attach v fs' (top (finish_literal bs)) in
                {| frames := fs; lit := None; top := t; saved := saved (finish_literal bs) |}
            | [] => finish_literal bs
            end).
  { destruct Hfin as [Hf Ht]. destruct (frames (finish_literal bs)) as [|f fs'] eqn:Hfr;
      [by split; [rewrite Hfr|]|].
    inversion Hf; subst.
    assert (Hv : decoded match f with FArr items => ASlice items | FObj es _ => AMap es end).
    { destruct f; [by apply decoded_slice|by apply decoded_map]. }
    pose proof (attach_decoded _ fs' (top (finish_literal bs)) Hv ltac:(done) Ht) as Ha.
    cbv zeta. by destruct (attach _ fs' (top (finish_literal bs))). }
  destruct Hbs as [Hf Ht].
  destruct op; simpl; try exact Hfin; try exact Hclose.
  - by destruct (lit bs).
  - done.
  - destruct Hfin as [Hf' Ht']. split; simpl; [|done]. constructor; [constructor|done].
  - destruct Hfin as [Hf' Ht']. split; simpl; [|done]. constructor; [constructor|done].
Qed.

Lemma build_loop_decoded data s bs : decoded_builder bs -> decoded_builder (build_loop s bs data).
Proof.
  revert s bs. induction data as [|c data IH]; intros s bs Hbs.
  - by apply finish_literal_decoded.
  - simpl. destruct (scan_step s c) as [s' op]. apply IH. by apply build_step_decoded.
Qed.

Lemma decode_any_decoded raw : decoded (fst (decode_any raw)).
Proof.
  unfold decode_any. simpl.
  destruct (build_loop_decoded raw newScanner
              {| frames := []; lit := None; top := None; saved := None |}) as [_ Ht].
  { split; [constructor|done]. }
  destruct (top _) as [v|]; [by apply Ht|done].
Qed.

(** The id of a request or of a response that has been decoded. *)
Lemma assign_request_decoded ms acc :
  decoded (ID (fst acc)) -> decoded (ID (fst (fold_left assign_request ms acc))).
Proof.
  revert acc. induction ms as [|[klit raw] ms IH]; intros [req sv] Ha; [done|].
  simpl fold_left. apply IH. unfold assign_request.
  pose proof (decode_any_decoded raw) as Hdec.
  destruct (find_field request_fields (default [] (unquoteBytes klit))) as [n|] eqn:Hf;
    [|done].
  apply find_field_in in Hf. simpl in Hf.
  destruct Hf as [<-|[<-|[<-|[<-|[]]]]];
    try (match goal with
         | |- context [store_string ?a ?b ?c] => destruct (store_string a b c)
         end); first [exact Hdec | exact Ha].
Qed.

Lemma assign_response_decoded ms acc :
  decoded (resp_ID (fst acc)) -> decoded (resp_ID (fst (fold_left assign_response ms acc))).
Proof.
  revert acc. induction ms as [|[klit raw] ms IH]; intros [resp sv] Ha; [done|].
  simpl fold_left. apply IH. unfold assign_response.
  pose proof (decode_any_decoded raw) as Hdec.
  destruct (find_field response_fields (default [] (unquoteBytes klit))) as [n|] eqn:Hf;
    [|done].
  apply find_field_in in Hf. simpl in Hf.
  destruct Hf as [<-|[<-|[<-|[<-|[]]]]];
    try (match goal with
         | |- context [store_string ?a ?b ?c] => destruct (store_string a b c)
         end); first [exact Hdec | exact Ha].
Qed.

Lemma unmarshal_request_decoded data req :
  unmarshal assign_request data zero_MCPRequest = Ok req -> decoded (ID req).
Proof.
  unfold unmarshal. destruct (skip_space data) as [|c d]; [discriminate|].
  destruct (isb c "{").
  - pose proof (assign_request_decoded (members data) (zero_MCPRequest, None) I) as H.
    destruct (fold_left assign_request (members data) (zero_MCPRequest, None)) as [r [e|]];
      intros Hr; inversion Hr; by subst.
  - destruct (isb c "n"); intros Hr; inversion Hr. done.
Qed.

Lemma unmarshal_response_decoded data resp :
  unmarshal assign_response data zero_MCPResponse = Ok resp -> decoded (resp_ID resp).
Proof.
  unfold unmarshal. destruct (skip_space data) as [|c d]; [discriminate|].
  destruct (isb c "{").
  - pose proof (assign_response_decoded (members data) (zero_MCPResponse, None) I) as H.
    destruct (fold_left assign_response (members data) (zero_MCPResponse, None)) as [r [e|]];
      intros Hr; inversion Hr; by subst.
  - destruct (isb c "n"); intros Hr; inversion Hr. done.
Qed.

(** *** The envelopes *)

Lemma encode_members_tame first ms :
  Forall (fun x => all_tame (snd x) = true) ms -> all_tame (encode_members first ms) = true.
Proof.
  intros H. revert first. induction H as [|[name v] ms Hv Hms IH]; intros first; [done|].
  simpl in Hv.
  change (all_tame ((if first then "{" else ",") :: quote (b name) ++ ":" :: v
                    ++ encode_members false ms) = true).
  rewrite all_tame_cons, all_tame_app, all_tame_cons, all_tame_app,
    (proj2 (quote_tame (b name))), Hv, IH. by destruct first.
Qed.

Lemma encode_struct_tame ms :
  Forall (fun x => all_tame (snd x) = true) ms -> all_tame (encode_struct ms) = true.
Proof.
  intros H. unfold encode_struct. destruct ms as [|m ms]; [done|].
  by rewrite all_tame_app, encode_members_tame.
Qed.

Lemma any_member_tame name v :
  decoded v -> Forall (fun x => all_tame (snd x) = true) (any_member name v).
Proof.
  intros Hv. pose proof (encode_any_tame v Hv) as He.
  destruct v; simpl; repeat constructor; exact He.
Qed.

Lemma Marshal_tame req line :
  decoded (ID req) -> Marshal req = Ok line -> all_tame line = true.
Proof.
  intros Hid HM. destruct (Marshal_members req line HM) as (params & Hp & -> & _).
  apply encode_struct_tame. unfold request_members.
  apply Forall_app. split; [constructor; [apply quote_tame|constructor]|].
  apply Forall_app. split; [by apply any_member_tame|].
  apply Forall_app. split; [constructor; [apply quote_tame|constructor]|].
  eapply raw_member_tame; eauto.
Qed.

Lemma Encode_tame resp out :
  decoded (resp_ID resp) -> Encode resp = Ok out ->
  exists body, out = body ++ ["010"] /\ all_tame body = true.
Proof.
  intros Hid HE. destruct (Encode_members resp out HE) as (result & error & Hr & He & -> & _).
  eexists. split; [reflexivity|].
  apply encode_struct_tame. unfold response_members.
  apply Forall_app. split; [constructor; [apply quote_tame|constructor]|].
  apply Forall_app. split; [by apply any_member_tame|].
  apply Forall_app. split; eapply raw_member_tame; eauto.
Qed.

Lemma tame_no_newline s : all_tame s = true -> ExchangeFacts.no_newline s = true.
Proof.
  unfold all_tame, ExchangeFacts.no_newline. rewrite !forallb_forall.
  intros H c Hc. specialize (H c Hc). apply negb_true_iff, Ascii.eqb_neq.
  intros ->. discriminate H.
Qed.

(** X19: what [handleMCP] writes to the child for a request is one line:
    bytes without any control character, and without [<], [>] and [&],
    then the newline.  A child that reads line by line gets the request
    whole and alone, whatever the body of the HTTP request was. *)
Theorem request_is_one_line env r w evs t s d :
  trace (snd (handleMCP env r w)) = trace w ++ evs ->
  In (t, EvWrite s d) evs ->
  exists line, d = line ++ ["010"] /\ all_tame line = true /\
               ReadBytes d = Some (d, []).
Proof.
  intros Ht Hin.
  destruct (handleMCP_written env r w) as (evs0 & Ht0 & Hw).
  rewrite Ht in Ht0. apply app_inv_head in Ht0 as ->.
  destruct (Hw t s d Hin) as (req & line & Hd & HM & ->).
  assert (Hid : decoded (ID req)).
  { unfold Decode in Hd. destruct (readValue (http_Body r)) as [data|e]; [|discriminate].
    by apply unmarshal_request_decoded in Hd. }
  pose proof (Marshal_tame _ _ Hid HM) as Htame.
  exists line. split; [done|]. split; [done|].
  apply ExchangeFacts.ReadBytes_line. by apply tame_no_newline.
Qed.

(** A body with line breaks between its members and inside its params, and
    with an escaped newline in a string. *)
Definition body_of_lines : bytes :=
  js "{'jsonrpc':'2.0'," ++ "010" :: js "'method':'a\nb','params':{" ++ "013" :: "010"
  :: js "'text':'<x>'}}".

Lemma request_is_one_line_witness :
  exists line,
    js "{'jsonrpc':'2.0','method':'a\nb','params':{'text':'\u003cx\u003e'}}" ++ ["010"]
    = line ++ ["010"] /\
    all_tame line = true /\
    ReadBytes (js "{'jsonrpc':'2.0','method':'a\nb','params':{'text':'\u003cx\u003e'}}"
               ++ ["010"])
    = Some (js "{'jsonrpc':'2.0','method':'a\nb','params':{'text':'\u003cx\u003e'}}"
            ++ ["010"], []).
Proof.
  apply (request_is_one_line env_ok (post "k" body_of_lines) empty_world
           [(0%Z, EvSpawn 0); (0%Z, EvStore "k" 0);
            (0%Z, EvWrite 0
               (js "{'jsonrpc':'2.0','method':'a\nb','params':{'text':'\u003cx\u003e'}}"
                ++ ["010"]));
            (0%Z, EvRead 0 (js "{'jsonrpc':'2.0','id':'a','result':{}}" ++ ["010"]))]
           0%Z 0%nat).
  - vm_compute. reflexivity.
  - right. right. left. reflexivity.
Defined.

(** X20: the body of an answer with 200 is one line too, and never empty:
    bytes without any control character and without [<], [>] and [&],
    which are written as the escapes [\u003c], [\u003e] and [\u0026],
    then a newline. *)
Theorem response_is_one_line env r w out :
  resp_body (fst (handleMCP env r w)) = Bytes out ->
  exists body, out = body ++ ["010"] /\ all_tame body = true.
Proof.
  unfold handleMCP.
  destruct (negb (String.eqb (http_Method r) "POST")); [discriminate|]. cbv zeta.
  destruct (getOrCreateSession env (sessionID_of r) w) as [[s|e] w1]; [|discriminate].
  destruct (Decode (http_Body r)) as [req|e]; [|discriminate].
  destruct (SendRequest env s req w1) as [[resp|e] w2] eqn:HS; [|discriminate].
  simpl. intros H. inversion H; subst out.
  destruct (SendRequest_Ok _ _ _ _ _ _ HS) as (rb & line & HM & HU & Ht).
  destruct (Unmarshal_Encode _ _ HU) as (o & HE). rewrite HE.
  eapply Encode_tame; [|exact HE].
  unfold Unmarshal in HU. destruct (checkValid (TrimSpace line)); [|discriminate HU].
  simpl in HU. by apply unmarshal_response_decoded in HU.
Qed.

(** The child answers with a result that holds [<], [>] and [&]. *)
Definition env_markup : Env :=
  env_reply (js "{'jsonrpc':'2.0','id':1,'result':{'html':'<a href=x>&</a>'}}").

Definition markup_escaped : bytes :=
  js "{'jsonrpc':'2.0','id':1,'result':{'html':'\u003ca href=x\u003e\u0026\u003c/a\u003e'}}".

Lemma response_is_one_line_witness :
  exists body, markup_escaped ++ ["010"] = body ++ ["010"] /\ all_tame body = true.
Proof.
  apply (response_is_one_line env_markup (post "k" ping) empty_world
           (markup_escaped ++ ["010"])).
  vm_compute. reflexivity.
Defined.

End FramingFacts.

(** ** Sessions do not touch one another *)

Module IsolationFacts.

Import Json Wrapper Samples JsonFacts WrapperFacts TimerFacts.

Lemma SendRequest_other env s req w r w' j :
  SendRequest env s req w = (r, w') -> j <> s -> procs w' !! j = procs w !! j.
Proof.
  unfold SendRequest. intros H Hj.
  destruct (procs w !! s) as [p|]; [|by inversion H].
  destruct (Marshal req) as [rb|e]; [|by inversion H].
  destruct (if closed p then Some ErrClosed else write_err env); [by inversion H|].
  simpl in H.
  destruct (ReadBytes (unread p ++ child_output env)) as [[line rest]|].
  - destruct (Unmarshal (TrimSpace line)); inversion H; subst; simpl;
      by rewrite !list_lookup_insert_ne.
  - inversion H; subst; simpl. by rewrite !list_lookup_insert_ne.
Qed.

(** X21: a request touches the process of its own session only: the
    process of any other session, with what has been written to it and
    what it has written and is still unread, is after the request as it
    was before, whether the request was answered or failed, and whether
    its session existed or was created for it. *)
Theorem other_sessions_untouched env r w j p :
  procs w !! j = Some p -> sessions w !! sessionID_of r <> Some j ->
  procs (snd (handleMCP env r w)) !! j = Some p.
Proof.
  intros Hp Hk. unfold handleMCP.
  destruct (negb (String.eqb (http_Method r) "POST")); [done|]. cbv zeta.
  destruct (getOrCreateSession env (sessionID_of r) w) as [[s|e] w1] eqn:Hg.
  2:{ apply getOrCreateSession_Err in Hg as (-> & _). done. }
  assert (Hw1 : procs w1 !! j = Some p /\ j <> s).
  { destruct (sessions w !! sessionID_of r) as [s0|] eqn:Hs.
    - rewrite (getOrCreateSession_seen _ _ _ _ Hs) in Hg. inversion Hg; subst.
      split; [done|]. congruence.
    - destruct (getOrCreateSession_unseen _ _ _ _ _ Hs Hg) as (w0 & HN & ->).
      destruct (NewMCPSession_Ok _ _ _ _ HN) as (-> & Hp0 & _).
      pose proof (lookup_lt_Some _ _ _ Hp) as Hlt. simpl. rewrite Hp0.
      split; [|lia]. by rewrite lookup_app_l. }
  destruct Hw1 as [Hp1 Hne].
  destruct (Decode (http_Body r)) as [req|e]; [|done].
  destruct (SendRequest env s req w1) as [res w2] eqn:HS.
  pose proof (SendRequest_other _ _ _ _ _ _ j HS Hne) as Ho.
  destruct res; simpl; by rewrite Ho.
Qed.

Lemma other_sessions_untouched_witness :
  procs (snd (handleMCP env_ok (post "j" ping)
                (snd (handleMCP env_ok (post "k" ping) empty_world)))) !! 0
  = Some {| stdin_log := [ping ++ ["010"]]; unread := []; closed := false |}.
Proof.
  apply (other_sessions_untouched env_ok (post "j" ping)
           (snd (handleMCP env_ok (post "k" ping) empty_world)) 0).
  - vm_compute. reflexivity.
  - vm_compute. discriminate.
Defined.

End IsolationFacts.

(** ** Integer ids *)

Module NumberFacts.

Import Json Wrapper Samples JsonFacts WrapperFacts FramingFacts.

Local Open Scope Z_scope.

(** The float of the integer [n], [1 <= n < 2^53]: [n] itself, with its
    leading bit at position 52. *)
Definition float_of (n : Z) : strconv.float64 :=
  {| strconv.f_neg := false; strconv.f_mant := n * 2 ^ (52 - Z.log2 n);
     strconv.f_exp := Z.log2 n - 52 |}.

(** *** Decimal digits *)

(** The number that the digits [s] denote after the digits of [a]. *)
Definition val (a : Z) (s : bytes) : Z :=
  fold_left (fun a c => a * 10 + strconv.digit_val c) s a.

Lemma val_app a s t : val a (s ++ t) = val (val a s) t.
Proof. apply fold_left_app. Qed.

Lemma digit_byte d :
  0 <= d < 10 ->
  is_digit (byte_of (Z.to_N (d + 48))) = true /\
  strconv.digit_val (byte_of (Z.to_N (d + 48))) = d /\
  (1 <= d -> is_digit19 (byte_of (Z.to_N (d + 48))) = true).
Proof.
  intros H.
  assert (Hc : d = 0 \/ d = 1 \/ d = 2 \/ d = 3 \/ d = 4 \/ d = 5 \/ d = 6 \/ d = 7
               \/ d = 8 \/ d = 9) by lia.
  repeat (destruct Hc as [-> | Hc]; [repeat split; try reflexivity; lia|]).
  subst. repeat split; reflexivity.
Qed.

Lemma digits_fuel_acc k m acc :
  strconv.digits_fuel k m acc = strconv.digits_fuel k m [] ++ acc.
Proof.
  revert m acc. induction k as [|k IH]; intros m acc; [done|].
  simpl. destruct (m <? 10); [done|].
  rewrite IH, (IH _ [_]), <- app_assoc. done.
Qed.

(** With fuel enough, the digits of [m]: they denote [m], and the first is
    no zero when [m] is none. *)
Lemma digits_fuel_spec k m :
  0 <= m < 10 ^ Z.of_nat k -> (1 <= k)%nat ->
  exists d1 ds,
    strconv.digits_fuel k m [] = d1 :: ds /\
    forallb is_digit (d1 :: ds) = true /\
    (1 <= m -> is_digit19 d1 = true) /\
    forall a, val a (d1 :: ds) = a * 10 ^ Z.of_nat (length (d1 :: ds)) + m.
Proof.
  revert m. induction k as [|k IH]; intros m Hm Hk; [lia|].
  simpl strconv.digits_fuel. destruct (Z.ltb_spec m 10) as [Hlt|Hge].
  - destruct (digit_byte m ltac:(lia)) as (H1 & H2 & H3).
    exists (byte_of (Z.to_N (m + 48))), []. split; [done|].
    split; [simpl; by rewrite H1|]. split; [done|].
    intros a. simpl. rewrite H2. lia.
  - assert (Hk1 : (1 <= k)%nat).
    { destruct k; [|lia]. simpl in Hm. lia. }
    assert (Hm10 : 0 <= m / 10 < 10 ^ Z.of_nat k).
    { split; [apply Z.div_pos; lia|]. apply Z.div_lt_upper_bound; [lia|].
      rewrite Nat2Z.inj_succ, Z.pow_succ_r in Hm by lia. lia. }
    destruct (IH (m / 10) Hm10 Hk1) as (d1 & ds & Hd & Hall & H19 & Hval).
    destruct (digit_byte (m mod 10) (Z.mod_pos_bound m 10 ltac:(lia))) as (H1 & H2 & _).
    rewrite digits_fuel_acc, Hd.
    exists d1, (ds ++ [byte_of (Z.to_N (m mod 10 + 48))]).
    split; [done|]. split; [|split].
    + change (d1 :: ds ++ [byte_of (Z.to_N (m mod 10 + 48))])
        with ((d1 :: ds) ++ [byte_of (Z.to_N (m mod 10 + 48))]).
      rewrite forallb_app, Hall. simpl. by rewrite H1.
    + intros _. apply H19. apply Z.div_le_lower_bound; lia.
    + intros a.
      change (d1 :: ds ++ [byte_of (Z.to_N (m mod 10 + 48))])
        with ((d1 :: ds) ++ [byte_of (Z.to_N (m mod 10 + 48))]).
      rewrite val_app, Hval. simpl val. rewrite H2.
      rewrite length_app. simpl length.
      replace (Z.of_nat (S (length ds) + 1)) with (Z.of_nat (S (length ds)) + 1) by lia.
      rewrite Z.pow_add_r by lia. pose proof (Z.div_mod m 10 ltac:(lia)). lia.
Qed.

Lemma digits_fuel_enough k1 k2 m acc :
  0 <= m < 10 ^ Z.of_nat k1 -> 0 <= m < 10 ^ Z.of_nat k2 -> (1 <= k1)%nat -> (1 <= k2)%nat ->
  strconv.digits_fuel k1 m acc = strconv.digits_fuel k2 m acc.
Proof.
  revert k2 m acc. induction k1 as [|k1 IH]; intros k2 m acc H1 H2 Hk1 Hk2; [lia|].
  destruct k2 as [|k2]; [lia|]. simpl. destruct (Z.ltb_spec m 10) as [Hlt|Hge]; [done|].
  assert (Hb : forall k, 0 <= m < 10 ^ Z.of_nat (S k) ->
                         0 <= m / 10 < 10 ^ Z.of_nat k /\ (1 <= k)%nat).
  { intros k Hm. rewrite Nat2Z.inj_succ, Z.pow_succ_r in Hm by lia. split.
    - split; [apply Z.div_pos; lia|]. apply Z.div_lt_upper_bound; lia.
    - destruct k; [simpl in Hm; lia|lia]. }
  destruct (Hb k1 H1), (Hb k2 H2). by apply IH.
Qed.

Lemma fuel_of_log2 m : 0 <= m -> m < 10 ^ Z.of_nat (Z.to_nat (Z.log2 m) + 1).
Proof.
  intros Hm. pose proof (Z.log2_nonneg m) as Hl.
  rewrite Nat2Z.inj_add, Z2Nat.id by done. simpl Z.of_nat.
  destruct (Z.eq_dec m 0) as [->|Hne]; [simpl; lia|].
  pose proof (Z.log2_spec m ltac:(lia)) as [_ Hlt].
  replace (Z.succ (Z.log2 m)) with (Z.log2 m + 1) in Hlt by lia.
  eapply Z.lt_le_trans; [exact Hlt|]. apply Z.pow_le_mono_l. lia.
Qed.

Lemma digits_spec m :
  0 <= m ->
  exists d1 ds,
    strconv.digits m = d1 :: ds /\
    forallb is_digit (d1 :: ds) = true /\
    (1 <= m -> is_digit19 d1 = true) /\
    forall a, val a (d1 :: ds) = a * 10 ^ Z.of_nat (length (d1 :: ds)) + m.
Proof.
  intros Hm. unfold strconv.digits. apply digits_fuel_spec; [|lia].
  split; [done|]. by apply fuel_of_log2.
Qed.

(** The digits of ten times a number end with a zero more. *)
Lemma digits_times_ten c : 1 <= c -> strconv.digits (c * 10) = strconv.digits c ++ ["0"].
Proof.
  intros Hc. unfold strconv.digits at 1.
  pose proof (fuel_of_log2 (c * 10) ltac:(lia)) as Hf.
  destruct (Z.to_nat (Z.log2 (c * 10)) + 1)%nat as [|k] eqn:Hk; [lia|].
  simpl strconv.digits_fuel. destruct (Z.ltb_spec (c * 10) 10) as [|_]; [lia|].
  rewrite Z.div_mul, Z.mod_mul by lia. simpl (byte_of _).
  rewrite digits_fuel_acc. f_equal. unfold strconv.digits.
  rewrite Nat2Z.inj_succ, Z.pow_succ_r in Hf by lia.
  assert (Hk1 : (1 <= k)%nat).
  { destruct k; [simpl in Hf; lia|lia]. }
  apply digits_fuel_enough; try lia.
  split; [lia|]. apply fuel_of_log2. lia.
Qed.

Lemma zeros_succ k : 0 <= k -> strconv.zeros (k + 1) = strconv.zeros k ++ ["0"].
Proof.
  intros Hk. unfold strconv.zeros. rewrite Z2Nat.inj_add by lia.
  rewrite repeat_app. done.
Qed.

Lemma digits_times_power c k :
  1 <= c -> 0 <= k -> strconv.digits (c * 10 ^ k) = strconv.digits c ++ strconv.zeros k.
Proof.
  intros Hc Hk. revert k Hk. apply natlike_ind.
  - simpl. by rewrite Z.mul_1_r, app_nil_r.
  - intros k Hk IH. replace (Z.succ k) with (k + 1) by lia.
    rewrite zeros_succ, app_assoc, <- IH by done.
    rewrite Z.pow_add_r by lia. change (10 ^ 1) with 10.
    rewrite Z.mul_assoc. apply digits_times_ten.
    pose proof (Z.pow_pos_nonneg 10 k). nia.
Qed.

(** [shortest] as the search [shortest_try], for a float below 4: what the
    search is given. *)
Lemma shortest_explicit f :
  strconv.f_exp f < 2 ->
  exists inside dp,
    strconv.shortest f
    = shortest_try
        (if 2 <=? strconv.f_exp f
         then 4 * strconv.f_mant f * 2 ^ (strconv.f_exp f - 2) else 4 * strconv.f_mant f)
        (if 2 <=? strconv.f_exp f then 1 else 2 ^ (2 - strconv.f_exp f))
        inside dp 17 1 /\
    (forall a k, 0 <= k -> inside a k = true ->
       4 * strconv.f_mant f - 2 <= a * 10 ^ k * 2 ^ (2 - strconv.f_exp f)
       <= 4 * strconv.f_mant f + 2) /\
    (let est := (Z.log2 (4 * strconv.f_mant f) - Z.log2 (2 ^ (2 - strconv.f_exp f)))
                * 30103 / 100000 in
     dp <= est + 3 /\
     (dp = est + 3 \/
      strconv.cmp_scaled 1 dp (4 * strconv.f_mant f) (2 ^ (2 - strconv.f_exp f)) = Gt)).
Proof.
  intros Hex. eexists _, _. split; [reflexivity|].
  destruct (Z.leb_spec 2 (strconv.f_exp f)) as [|_]; [lia|]. split.
  - intros a k Hk H. apply andb_prop in H as [Ha Hb].
    unfold strconv.cmp_scaled in Ha, Hb.
    destruct (Z.leb_spec 0 k) as [_|]; [|lia].
    destruct (_ && _) in Ha;
      destruct (Z.compare_spec (a * 10 ^ k * 2 ^ (2 - strconv.f_exp f))
                  (4 * strconv.f_mant f + 2));
      try discriminate Hb;
      match type of Ha with
      | context [?x ?= ?y] => destruct (Z.compare_spec x y)
      end; try discriminate Ha; lia.
  - cbv zeta.
    repeat (match goal with
            | |- context [if ?c then _ else _] => destruct c eqn:?
            end);
      (split; [lia|]);
      first [ left; reflexivity
            | right;
              match goal with
              | H : match strconv.cmp_scaled 1 ?d ?x ?y with _ => _ end = true
                |- strconv.cmp_scaled 1 ?d ?x ?y = Gt =>
                  by destruct (strconv.cmp_scaled 1 d x y)
              end ].
Qed.

Section integer.

Variable n : Z.
Hypothesis Hn : 1 <= n < 2 ^ 53.

Let l := Z.log2 n.
Let den := 2 ^ (54 - l).

Lemma log2_bounds : 0 <= l <= 52 /\ 2 ^ l <= n < 2 ^ (l + 1).
Proof.
  unfold l. pose proof (Z.log2_spec n ltac:(lia)) as Hs.
  pose proof (Z.log2_nonneg n). split; [|lia]. split; [done|].
  assert (Z.log2 n < 53); [|lia].
  apply Z.log2_lt_pow2; lia.
Qed.

Lemma den_bounds : 4 <= den.
Proof.
  unfold den. destruct log2_bounds as [Hl _].
  replace 4 with (2 ^ 2) by done. apply Z.pow_le_mono_r; lia.
Qed.

(** The search finds [n] itself, short of zeros at its end, when the value
    is [n] and the rounding interval holds no other integer. *)
Lemma try_integer inside dp fuel nd :
  (forall a k, 0 <= k -> a * 10 ^ k <> n -> inside a k = false) ->
  0 <= dp - nd <= Z.of_nat fuel ->
  exists c k, shortest_try (n * den) den inside dp fuel nd = (c, k) /\
              0 <= k /\ c * 10 ^ k = n.
Proof.
  intros Hin. pose proof den_bounds as Hden.
  assert (Hc : forall K, 0 <= K -> n * den / (den * 10 ^ K) = n / 10 ^ K).
  { intros K HK. rewrite (Z.mul_comm den). apply Z.div_mul_cancel_r; [|lia].
    pose proof (Z.pow_pos_nonneg 10 K). lia. }
  revert nd. induction fuel as [|fuel IH]; intros nd HK.
  - assert (dp - nd = 0) as HK0 by lia. simpl. rewrite HK0. simpl.
    exists n, 0. rewrite Z.mul_1_r, Z.div_mul by lia. repeat split; lia.
  - set (K := dp - nd) in *.
    assert (Hp : 0 < 10 ^ K) by (apply Z.pow_pos_nonneg; lia).
    pose proof (Z.div_mod n (10 ^ K) ltac:(lia)) as Hdm.
    pose proof (Z.mod_pos_bound n (10 ^ K) Hp) as Hmod.
    simpl. fold K. destruct (Z.leb_spec 0 K) as [_|]; [|lia]. rewrite (Hc K) by lia.
    unfold strconv.cmp_scaled at 1. destruct (Z.leb_spec 0 K) as [_|]; [|lia].
    destruct (Z.compare_spec (n / 10 ^ K * 10 ^ K * den) (n * den)) as [He|He|He].
    + exists (n / 10 ^ K), K. split; [done|]. split; [lia|]. nia.
    + rewrite (Hin (n / 10 ^ K) K), (Hin (n / 10 ^ K + 1) K) by nia. simpl.
      assert (1 <= K).
      { destruct (Z.eq_dec K 0) as [HK0|]; [|lia]. rewrite HK0 in He. simpl in He.
        rewrite Z.div_1_r in He. lia. }
      replace (dp - (nd + 1)) with (K - 1) in IH by (unfold K; lia).
      destruct (IH (nd + 1)) as (c & k & Ht & Hk & Hck); [unfold K in *; lia|].
      exists c, k. done.
    + exfalso. nia.
Qed.

Lemma float_of_facts :
  strconv.f_exp (float_of n) < 2 /\
  4 * strconv.f_mant (float_of n) = n * den /\
  2 ^ (2 - strconv.f_exp (float_of n)) = den.
Proof.
  destruct log2_bounds as [Hl Hp]. unfold float_of, den. simpl. fold l.
  split; [lia|]. split.
  - replace (54 - l) with (2 + (52 - l)) by lia. rewrite Z.pow_add_r by lia.
    change (2 ^ 2) with 4. lia.
  - f_equal. lia.
Qed.

Lemma shortest_integer :
  exists c k, strconv.shortest (float_of n) = (c, k) /\ 0 <= k /\ c * 10 ^ k = n.
Proof.
  destruct float_of_facts as (Hex & Hm & Hd).
  destruct (shortest_explicit (float_of n) Hex) as (inside & dp & -> & Hin & Hdp).
  destruct (Z.leb_spec 2 (strconv.f_exp (float_of n))) as [|_]; [lia|].
  rewrite Hm, Hd in *. cbv zeta in Hdp.
  pose proof den_bounds as Hden. destruct log2_bounds as [Hl Hp].
  assert (Hest : Z.log2 (n * den) - Z.log2 den = l).
  { unfold den. rewrite Z.log2_mul_pow2, Z.log2_pow2 by lia. fold l. lia. }
  rewrite Hest in Hdp. destruct Hdp as [Hle Hfit].
  assert (Hlo : 0 <= l * 30103 / 100000 <= 15).
  { split; [apply Z.div_pos; lia|].
    assert (l * 30103 / 100000 < 16) by (apply Z.div_lt_upper_bound; lia). lia. }
  assert (Hdp1 : 1 <= dp).
  { destruct Hfit as [->|Hgt]; [lia|]. unfold strconv.cmp_scaled in Hgt.
    destruct (Z.leb_spec 0 dp) as [Hp0|Hn0].
    - apply Z.compare_gt_iff in Hgt.
      destruct (Z.eq_dec dp 0) as [->|]; [simpl in Hgt; nia|lia].
    - apply Z.compare_gt_iff in Hgt.
      pose proof (Z.pow_pos_nonneg 10 (- dp) ltac:(lia) ltac:(lia)). nia. }
  apply try_integer; [|lia].
  intros a k Hk Hne. destruct (inside a k) eqn:Hi; [|done].
  specialize (Hin a k Hk Hi). exfalso. nia.
Qed.

Lemma strip_zeros_keeps fuel c k :
  1 <= c -> 0 <= k ->
  let r := strconv.strip_zeros_fuel fuel c k in
  1 <= fst r /\ 0 <= snd r /\ fst r * 10 ^ snd r = c * 10 ^ k.
Proof.
  revert c k. induction fuel as [|fuel IH]; intros c k Hc Hk; [simpl; lia|].
  simpl. destruct (Z.eqb_spec (c mod 10) 0) as [Hmod|]; [|simpl; lia].
  destruct (Z.eqb_spec c 0) as [|_]; [lia|]. simpl negb. simpl andb. cbv iota.
  pose proof (Z.div_mod c 10 ltac:(lia)) as Hdm.
  destruct (IH (c / 10) (k + 1)) as (H1 & H2 & H3); [lia|lia|].
  split; [done|]. split; [done|]. rewrite H3, Z.pow_add_r by lia.
  change (10 ^ 1) with 10. nia.
Qed.

Lemma wants_exponent_integer : strconv.wants_exponent (float_of n) = false.
Proof.
  destruct log2_bounds as [Hl Hp]. unfold strconv.wants_exponent, float_of. simpl.
  fold l. set (P := 2 ^ (52 - l)).
  assert (HP : 0 < P) by (apply Z.pow_pos_nonneg; lia).
  assert (Hmant : 2 ^ 52 <= n * P).
  { assert (H52 : 2 ^ 52 = 2 ^ l * P)
      by (unfold P; rewrite <- Z.pow_add_r by lia; f_equal; lia).
    rewrite H52. apply Z.mul_le_mono_nonneg_r; lia. }
  apply orb_false_intro.
  - apply Z.ltb_ge. destruct (Z.leb_spec 0 (l - 52)).
    + assert (l = 52) as Hl52 by lia. rewrite Hl52 in *. simpl in *. lia.
    + replace (- (l - 52)) with (52 - l) by lia. fold P.
      assert (P <= 2 ^ 52) by (apply Z.pow_le_mono_r; lia).
      change (2 ^ 52) with 4503599627370496 in *. lia.
  - apply Z.leb_gt. destruct (Z.leb_spec 0 (l - 52)).
    + assert (l = 52) as Hl52 by lia. unfold P. rewrite Hl52. simpl.
      change (2 ^ 53) with 9007199254740992 in Hn. lia.
    + replace (- (l - 52)) with (52 - l) by lia. fold P.
      change (2 ^ 53) with 9007199254740992 in Hn. nia.
Qed.

Lemma fmtF_integer d k :
  d <> [] -> 0 <= k ->
  strconv.fmtF false d (k + Z.of_nat (length d)) = d ++ strconv.zeros k.
Proof.
  intros Hd Hk. unfold strconv.fmtF. cbv zeta.
  assert (Hlen : (1 <= length d)%nat) by (destruct d; [done|simpl; lia]).
  destruct (Z.ltb_spec 0 (k + Z.of_nat (length d))) as [_|]; [|lia].
  destruct (Z.ltb_spec (k + Z.of_nat (length d)) (Z.of_nat (length d))) as [|_]; [lia|].
  simpl. rewrite app_nil_r. f_equal.
  - apply firstn_all2. lia.
  - f_equal. lia.
Qed.

(** The integer is written as its digits. *)
Lemma FormatFloat_integer : strconv.FormatFloat (float_of n) = strconv.digits n.
Proof.
  destruct log2_bounds as [Hl Hp]. unfold strconv.FormatFloat.
  assert (Hm : (strconv.f_mant (float_of n) =? 0) = false).
  { apply Z.eqb_neq. simpl. fold l.
    pose proof (Z.pow_pos_nonneg 2 (52 - l) ltac:(lia) ltac:(lia)). nia. }
  rewrite Hm, wants_exponent_integer. unfold strconv.shortest_digits.
  destruct shortest_integer as (c & k & -> & Hk & Hck).
  assert (Hc : 1 <= c).
  { pose proof (Z.pow_pos_nonneg 10 k ltac:(lia) Hk). nia. }
  pose proof (strip_zeros_keeps 20 c k Hc Hk) as Hs. cbv zeta in Hs.
  destruct (strconv.strip_zeros_fuel 20 c k) as [c' k']. simpl in Hs.
  destruct Hs as (Hc' & Hk' & Heq).
  rewrite Z.add_comm. simpl strconv.f_neg.
  destruct (digits_spec c' ltac:(lia)) as (d1 & ds & Hd & _).
  rewrite Z.add_comm, fmtF_integer; [|by rewrite Hd|done].
  rewrite <- digits_times_power by done. f_equal. lia.
Qed.

(** *** Reading the digits *)

Lemma read_digits_all s a cnt :
  forallb is_digit s = true ->
  strconv.read_digits a cnt s = (val a s, cnt + Z.of_nat (length s), []).
Proof.
  revert a cnt. induction s as [|c s IH]; intros a cnt Hs.
  - simpl. f_equal. f_equal. lia.
  - simpl in Hs. apply andb_prop in Hs as [Hc Hs]. simpl. rewrite Hc, IH by done.
    f_equal. f_equal. lia.
Qed.

Lemma num_digits_fuel_bounds fuel m : 0 <= strconv.num_digits_fuel fuel m <= Z.of_nat fuel.
Proof.
  revert m. induction fuel as [|fuel IH]; intros m; [simpl; lia|].
  simpl strconv.num_digits_fuel. destruct (m <=? 0); [lia|].
  specialize (IH (m / 10)). lia.
Qed.

Lemma is_digit19_cases c :
  is_digit19 c = true ->
  c = "1" \/ c = "2" \/ c = "3" \/ c = "4" \/ c = "5" \/ c = "6" \/ c = "7" \/ c = "8"
  \/ c = "9".
Proof. destruct c as [[] [] [] [] [] [] [] []]; (discriminate || auto 10). Qed.

Lemma round_ratio_integer :
  strconv.round_ratio false n 1 = Some (float_of n).
Proof.
  destruct log2_bounds as [Hl Hp]. fold l in Hl, Hp.
  unfold strconv.round_ratio. cbv zeta. change (Z.log2 1) with 0. rewrite Z.sub_0_r.
  fold l. set (P := 2 ^ (52 - l)).
  assert (HP : 0 < P) by (apply Z.pow_pos_nonneg; lia).
  assert (Hmant : 2 ^ 52 <= n * P < 2 ^ 53).
  { assert (H52 : 2 ^ 52 = 2 ^ l * P)
      by (unfold P; rewrite <- Z.pow_add_r by lia; f_equal; lia).
    assert (H53 : 2 ^ 53 = 2 ^ (l + 1) * P)
      by (unfold P; rewrite <- Z.pow_add_r by lia; f_equal; lia).
    rewrite H52, H53. split.
    - apply Z.mul_le_mono_nonneg_r; lia.
    - apply Z.mul_lt_mono_pos_r; lia. }
  assert (Hquo : (if l - 52 <? 0 then n * 2 ^ (- (l - 52)) else n)
                 / (if l - 52 <? 0 then 1 else 1 * 2 ^ (l - 52)) = n * P).
  { destruct (Z.ltb_spec (l - 52) 0).
    - replace (- (l - 52)) with (52 - l) by lia. fold P. by rewrite Z.div_1_r.
    - assert (l = 52) as Hl52 by lia. unfold P. rewrite Hl52. simpl.
      rewrite Z.div_1_r. lia. }
  assert (Hrem : (if l - 52 <? 0 then n * 2 ^ (- (l - 52)) else n)
                 mod (if l - 52 <? 0 then 1 else 1 * 2 ^ (l - 52)) = 0).
  { destruct (Z.ltb_spec (l - 52) 0); [apply Z.mod_1_r|].
    assert (l = 52) as Hl52 by lia. rewrite Hl52. simpl. apply Z.mod_1_r. }
  assert (Hdiv : (if l - 52 <? 0 then 1 else 1 * 2 ^ (l - 52)) = 1).
  { destruct (Z.ltb_spec (l - 52) 0); [done|].
    assert (l = 52) as Hl52 by lia. rewrite Hl52. done. }
  simpl fst. rewrite Hquo.
  destruct (Z.ltb_spec (n * P) (2 ^ 52)) as [|_]; [lia|].
  rewrite Z.max_l by lia. rewrite Hquo, Hrem, Hdiv. simpl.
  destruct (Z.eqb_spec (n * P) (2 ^ 53)) as [|_]; [lia|].
  destruct (Z.ltb_spec 971 (l - 52)) as [|_]; [lia|].
  destruct (Z.eqb_spec (n * P) 0) as [|_]; [lia|].
  reflexivity.
Qed.

Lemma ParseFloat_integer : strconv.ParseFloat (strconv.digits n) = Ok (float_of n).
Proof.
  destruct (digits_spec n ltac:(lia)) as (d1 & ds & Hd & Hall & H19 & Hval).
  assert (Hminus : isb d1 "-" = false).
  { destruct (is_digit19_cases d1 (H19 ltac:(lia))) as [->|[->|[->|[->|[->|[->|[->|[->| ->]]]]]]]];
      reflexivity. }
  unfold strconv.ParseFloat, strconv.read_decimal. rewrite Hd, Hminus.
  rewrite read_digits_all by done. rewrite Hval.
  assert (Hlen : (0 + Z.of_nat (length (d1 :: ds)) + 0 =? 0) = false).
  { apply Z.eqb_neq. simpl length. lia. }
  rewrite Hlen. change (- 0) with 0. rewrite Z.mul_0_l, Z.add_0_l.
  destruct (Z.eqb_spec n 0) as [|_]; [lia|].
  pose proof (num_digits_fuel_bounds (Z.to_nat (Z.log2 n) + 1) n) as Hnd.
  fold (strconv.num_digits n) in Hnd.
  destruct log2_bounds as [Hl _]. fold l in Hl. unfold l in Hl.
  destruct (Z.ltb_spec 400 (0 + strconv.num_digits n)) as [|_]; [lia|].
  destruct (Z.ltb_spec (0 + strconv.num_digits n) (-400)) as [|_]; [lia|].
  change (0 <=? 0) with true. cbv iota. change (10 ^ 0) with 1. rewrite Z.mul_1_r.
  by rewrite round_ratio_integer.
Qed.

Lemma build_loop_digits ds s bs rl :
  forallb is_digit ds = true -> step s = St1 -> lit bs = Some rl ->
  build_loop s bs ds
  = finish_literal {| frames := frames bs; lit := Some (rev ds ++ rl); top := top bs;
                      saved := saved bs |}.
Proof.
  revert s bs rl. induction ds as [|c ds IH]; intros s bs rl Hds Hst Hl.
  - simpl. destruct bs; simpl in *; by subst.
  - simpl in Hds. apply andb_prop in Hds as [Hc Hds].
    simpl. unfold scan_step. rewrite Hst. unfold state1. rewrite Hc.
    unfold build_step. rewrite Hl.
    rewrite (IH _ _ (c :: rl)); [|done|done|done]. simpl. by rewrite <- app_assoc.
Qed.

Lemma decode_any_integer :
  decode_any (strconv.digits n) = (AFloat (float_of n), None).
Proof.
  pose proof ParseFloat_integer as HP.
  destruct (digits_spec n ltac:(lia)) as (d1 & ds & Hd & Hall & H19 & _).
  rewrite Hd in HP |- *. simpl in Hall. apply andb_prop in Hall as [_ Hall].
  unfold decode_any.
  assert (Hfirst : scan_step newScanner d1 = (set_step newScanner St1, scanBeginLiteral) /\
                   literalInterface (d1 :: ds)
                   = match convertNumber (d1 :: ds) with
                     | Ok f => (AFloat f, None)
                     | Err e => (ANil, Some e)
                     end).
  { destruct (is_digit19_cases d1 (H19 ltac:(lia)))
      as [->|[->|[->|[->|[->|[->|[->|[->| ->]]]]]]]]; split; reflexivity. }
  destruct Hfirst as [Hscan Hlit].
  assert (Hbs : build_loop newScanner
                  {| frames := []; lit := None; top := None; saved := None |} (d1 :: ds)
                = {| frames := []; lit := None; top := Some (AFloat (float_of n));
                     saved := None |}).
  { simpl build_loop. rewrite Hscan. unfold build_step at 1.
    rewrite (build_loop_digits ds _ _ [d1]); [|done|done|done].
    unfold finish_literal. simpl lit. cbv iota. simpl frames.
    rewrite rev_app_distr, rev_involutive. simpl rev. simpl app.
    rewrite Hlit. unfold convertNumber. rewrite HP. reflexivity. }
  by rewrite Hbs.
Qed.

End integer.


Local Close Scope Z_scope.

(** X22: an id that is a non-negative integer below 2^53, written in
    decimal digits without sign, fraction or exponent, comes out of the
    wrapper as it went in, digit for digit: it is decoded to the float of
    that value and encoded to the same digits. *)
Theorem integer_id_is_echoed (n : Z) :
  (0 <= n < 2 ^ 53)%Z ->
  echoed (Some (strconv.digits n)) = [("id"%string, strconv.digits n)].
Proof.
  intros Hn. destruct (Z.eq_dec n 0%Z) as [->|Hne]; [reflexivity|].
  unfold echoed. rewrite decode_any_integer by lia. simpl.
  by rewrite FormatFloat_integer by lia.
Qed.

Lemma integer_id_is_echoed_witness :
  echoed (Some (strconv.digits 9007199254740991))
  = [("id"%string, strconv.digits 9007199254740991)].
Proof.
  apply (integer_id_is_echoed 9007199254740991). split; [discriminate|reflexivity].
Defined.

End NumberFacts.

(** ** Runes and their bytes *)

Module Utf8Facts.

Import Json Wrapper Samples JsonFacts WrapperFacts.

(** *** Bytes and bits *)

Section bits.

Local Open Scope N_scope.

Lemma code_lt c : code c < 256.
Proof. apply N_ascii_bounded. Qed.

Lemma byte_of_code c : byte_of (code c) = c.
Proof. apply ascii_N_embedding. Qed.

Lemma code_byte_of n : n < 256 -> code (byte_of n) = n.
Proof. apply N_ascii_embedding. Qed.

Lemma byte_of_eq n c : n = code c -> byte_of n = c.
Proof. intros ->. apply byte_of_code. Qed.

Lemma lor_shift x y n : y < 2 ^ n -> N.lor (N.shiftl x n) y = x * 2 ^ n + y.
Proof.
  intros Hy. rewrite N.shiftl_mul_pow2.
  assert (H0 : N.land (x * 2 ^ n) y = 0).
  { apply N.bits_inj; intros m. rewrite N.land_spec, N.bits_0.
    destruct (N.lt_ge_cases m n) as [Hm|Hm].
    - rewrite N.mul_pow2_bits_low by exact Hm. reflexivity.
    - rewrite <- (N.mod_small y (2 ^ n)) by exact Hy.
      rewrite N.mod_pow2_bits_high by exact Hm. apply andb_false_r. }
  rewrite <- N.lxor_lor by exact H0. symmetry. apply N.add_nocarry_lxor. exact H0.
Qed.

Lemma land_3F a : N.land a 0x3F = a mod 64.
Proof. exact (N.land_ones a 6). Qed.
Lemma land_1F a : N.land a 0x1F = a mod 32.
Proof. exact (N.land_ones a 5). Qed.
Lemma land_0F a : N.land a 0x0F = a mod 16.
Proof. exact (N.land_ones a 4). Qed.
Lemma land_07 a : N.land a 0x07 = a mod 8.
Proof. exact (N.land_ones a 3). Qed.

Lemma shiftr_6 a : N.shiftr a 6 = a / 64.
Proof. exact (N.shiftr_div_pow2 a 6). Qed.
Lemma shiftr_12 a : N.shiftr a 12 = a / 4096.
Proof. exact (N.shiftr_div_pow2 a 12). Qed.
Lemma shiftr_18 a : N.shiftr a 18 = a / 262144.
Proof. exact (N.shiftr_div_pow2 a 18). Qed.

Lemma lor_shiftl_6 x y : y < 64 -> N.lor (N.shiftl x 6) y = x * 64 + y.
Proof. exact (lor_shift x y 6). Qed.
Lemma lor_shiftl_12 x y : y < 4096 -> N.lor (N.shiftl x 12) y = x * 4096 + y.
Proof. exact (lor_shift x y 12). Qed.
Lemma lor_shiftl_18 x y : y < 262144 -> N.lor (N.shiftl x 18) y = x * 262144 + y.
Proof. exact (lor_shift x y 18). Qed.

Lemma lor_80 y : y < 64 -> N.lor 0x80 y = 0x80 + y.
Proof. exact (lor_shift 2 y 6). Qed.
Lemma lor_C0 y : y < 32 -> N.lor 0xC0 y = 0xC0 + y.
Proof. exact (lor_shift 6 y 5). Qed.
Lemma lor_E0 y : y < 16 -> N.lor 0xE0 y = 0xE0 + y.
Proof. exact (lor_shift 14 y 4). Qed.
Lemma lor_F0 y : y < 8 -> N.lor 0xF0 y = 0xF0 + y.
Proof. exact (lor_shift 30 y 3). Qed.

End bits.

Ltac dlia := zify; Z.to_euclidean_division_equations; lia.

(** The comparisons of the hypothesis [H], one by one. *)
Ltac split_atoms H :=
  repeat (match type of H with
          | context [N.eqb ?a ?b] => destruct (N.eqb_spec a b)
          | context [N.ltb ?a ?b] => destruct (N.ltb_spec a b)
          | context [N.leb ?a ?b] => destruct (N.leb_spec a b)
          end; cbn [orb andb negb] in H; try discriminate H; try (exfalso; lia)).

Ltac split_goal_atoms :=
  repeat (match goal with
          | |- context [N.eqb ?a ?b] => destruct (N.eqb_spec a b)
          | |- context [N.ltb ?a ?b] => destruct (N.ltb_spec a b)
          | |- context [N.leb ?a ?b] => destruct (N.leb_spec a b)
          end; cbn [orb andb negb]; try (exfalso; dlia)).

Ltac split_goal_atoms_lia :=
  repeat (match goal with
          | |- context [N.eqb ?a ?b] => destruct (N.eqb_spec a b)
          | |- context [N.ltb ?a ?b] => destruct (N.ltb_spec a b)
          | |- context [N.leb ?a ?b] => destruct (N.leb_spec a b)
          end; cbn [orb andb negb]; try (exfalso; lia)).

Ltac to_arith :=
  rewrite ?land_3F, ?land_1F, ?land_0F, ?land_07, ?shiftr_6, ?shiftr_12, ?shiftr_18.

(** *** Runes encoded and decoded *)

Section runes.

Local Open Scope N_scope.

Lemma mod_64 n : 128 <= n < 192 -> n mod 64 = n - 128.
Proof. intros. dlia. Qed.
Lemma mod_32 n : 192 <= n < 224 -> n mod 32 = n - 192.
Proof. intros. dlia. Qed.
Lemma mod_16 n : 224 <= n < 240 -> n mod 16 = n - 224.
Proof. intros. dlia. Qed.
Lemma mod_8 n : 240 <= n < 248 -> n mod 8 = n - 240.
Proof. intros. dlia. Qed.

Lemma split_2 x y :
  x < 32 -> y < 64 -> (x * 64 + y) / 64 = x /\ (x * 64 + y) mod 64 = y.
Proof. intros. split; dlia. Qed.

Lemma split_3 x y z :
  x < 16 -> y < 64 -> z < 64 ->
  (x * 4096 + (y * 64 + z)) / 4096 = x /\
  ((x * 4096 + (y * 64 + z)) / 64) mod 64 = y /\
  (x * 4096 + (y * 64 + z)) mod 64 = z.
Proof. intros. repeat split; dlia. Qed.

Lemma split_4 x y z u :
  x < 8 -> y < 64 -> z < 64 -> u < 64 ->
  (x * 262144 + (y * 4096 + (z * 64 + u))) / 262144 = x /\
  ((x * 262144 + (y * 4096 + (z * 64 + u))) / 4096) mod 64 = y /\
  ((x * 262144 + (y * 4096 + (z * 64 + u))) / 64) mod 64 = z /\
  (x * 262144 + (y * 4096 + (z * 64 + u))) mod 64 = u.
Proof. intros. repeat split; dlia. Qed.

(** A rune that is decoded from all the bytes of [enc], two at least, is
    encoded as [enc]. *)
Lemma EncodeRune_DecodeRune enc t r :
  (2 <= length enc)%nat -> utf8.DecodeRune (enc ++ t) = (r, length enc) ->
  utf8.EncodeRune r = enc.
Proof.
  intros Hlen H. destruct enc as [|p0 [|b1 [|b2 [|b3 [|b4 enc]]]]];
    cbn [length] in Hlen, H; try lia; cbn [app] in H.
  - (* two bytes *)
    unfold utf8.DecodeRune, utf8.RuneSelf, utf8.RuneError, utf8.cont in H.
    pose proof (code_lt p0). pose proof (code_lt b1).
    destruct t as [|x2 [|x3 t]]; split_atoms H.
    all: injection H as <-; unfold utf8.EncodeRune; to_arith;
      rewrite (mod_32 (code p0)), (mod_64 (code b1)) by lia;
      rewrite lor_shiftl_6 by lia;
      destruct (split_2 (code p0 - 192) (code b1 - 128)) as (D1 & D2); [lia|lia|];
      rewrite D1, D2; split_goal_atoms_lia;
      rewrite lor_C0, lor_80 by lia;
      repeat f_equal; apply byte_of_eq; lia.
  - (* three bytes *)
    unfold utf8.DecodeRune, utf8.RuneSelf, utf8.RuneError, utf8.cont in H.
    pose proof (code_lt p0). pose proof (code_lt b1). pose proof (code_lt b2).
    destruct t as [|x3 t]; split_atoms H.
    all: injection H as <-; unfold utf8.EncodeRune; to_arith;
      rewrite (mod_16 (code p0)), (mod_64 (code b1)), (mod_64 (code b2)) by lia;
      rewrite (lor_shiftl_6 (code b1 - 128)) by lia;
      rewrite lor_shiftl_12 by lia;
      destruct (split_3 (code p0 - 224) (code b1 - 128) (code b2 - 128))
        as (D1 & D2 & D3); [lia|lia|lia|];
      rewrite D1, D2, D3; split_goal_atoms_lia;
      rewrite lor_E0, !lor_80 by lia;
      repeat f_equal; apply byte_of_eq; lia.
  - (* four bytes *)
    unfold utf8.DecodeRune, utf8.RuneSelf, utf8.RuneError, utf8.cont in H.
    pose proof (code_lt p0). pose proof (code_lt b1). pose proof (code_lt b2).
    pose proof (code_lt b3).
    split_atoms H.
    all: injection H as <-; unfold utf8.EncodeRune; to_arith;
      rewrite (mod_8 (code p0)), (mod_64 (code b1)), (mod_64 (code b2)),
        (mod_64 (code b3)) by lia;
      rewrite (lor_shiftl_6 (code b2 - 128)) by lia;
      rewrite (lor_shiftl_12 (code b1 - 128)) by lia;
      rewrite lor_shiftl_18 by lia;
      destruct (split_4 (code p0 - 240) (code b1 - 128) (code b2 - 128) (code b3 - 128))
        as (D1 & D2 & D3 & D4); [lia|lia|lia|lia|];
      rewrite D1, D2, D3, D4; split_goal_atoms_lia;
      rewrite lor_F0, !lor_80 by lia;
      repeat f_equal; apply byte_of_eq; lia.
  - (* more *)
    unfold utf8.DecodeRune, utf8.RuneSelf, utf8.RuneError, utf8.cont in H.
    split_atoms H.
Qed.

(** The bytes of an encoded rune are decoded as one rune, all of them. *)
Lemma DecodeRune_2 r t :
  0x7F < r <= 0x7FF ->
  utf8.DecodeRune ([byte_of (N.lor 0xC0 (N.shiftr r 6));
                    byte_of (N.lor 0x80 (N.land r 0x3F))] ++ t) = (r, 2%nat).
Proof.
  intros Hr. to_arith. rewrite lor_C0, lor_80 by dlia.
  unfold utf8.DecodeRune, utf8.RuneSelf, utf8.RuneError, utf8.cont. cbn [app]. cbv zeta.
  rewrite !code_byte_of by dlia. split_goal_atoms.
  f_equal. to_arith. rewrite lor_shiftl_6 by dlia. dlia.
Qed.

Lemma DecodeRune_3 r t :
  0x7FF < r <= 0xFFFF -> ~ (0xD800 <= r <= 0xDFFF) ->
  utf8.DecodeRune ([byte_of (N.lor 0xE0 (N.shiftr r 12));
                    byte_of (N.lor 0x80 (N.land (N.shiftr r 6) 0x3F));
                    byte_of (N.lor 0x80 (N.land r 0x3F))] ++ t) = (r, 3%nat).
Proof.
  intros Hr Hs. to_arith. rewrite lor_E0, !lor_80 by dlia.
  unfold utf8.DecodeRune, utf8.RuneSelf, utf8.RuneError, utf8.cont. cbn [app]. cbv zeta.
  rewrite !code_byte_of by dlia. split_goal_atoms.
  all: f_equal; to_arith; rewrite (lor_shiftl_6 ((128 + r / 64 mod 64) mod 64)) by dlia;
    rewrite lor_shiftl_12 by dlia; dlia.
Qed.

Lemma DecodeRune_4 r t :
  0xFFFF < r <= 0x10FFFF ->
  utf8.DecodeRune ([byte_of (N.lor 0xF0 (N.shiftr r 18));
                    byte_of (N.lor 0x80 (N.land (N.shiftr r 12) 0x3F));
                    byte_of (N.lor 0x80 (N.land (N.shiftr r 6) 0x3F));
                    byte_of (N.lor 0x80 (N.land r 0x3F))] ++ t) = (r, 4%nat).
Proof.
  intros Hr. to_arith. rewrite lor_F0, !lor_80 by dlia.
  unfold utf8.DecodeRune, utf8.RuneSelf, utf8.RuneError, utf8.cont. cbn [app]. cbv zeta.
  rewrite !code_byte_of by dlia. split_goal_atoms.
  all: f_equal; to_arith; rewrite (lor_shiftl_6 ((128 + r / 64 mod 64) mod 64)) by dlia;
    rewrite (lor_shiftl_12 ((128 + r / 4096 mod 64) mod 64)) by dlia;
    rewrite lor_shiftl_18 by dlia; dlia.
Qed.

End runes.

(** *** Strings of whole runes *)

(** Bytes that are the encodings of runes, one after the other: ASCII
    bytes, and sequences of two bytes or more that [DecodeRune] takes as
    one rune whatever follows. *)
Inductive wellformed : bytes -> Prop :=
| wf_nil : wellformed []
| wf_ascii c s : (code c < 0x80)%N -> wellformed s -> wellformed (c :: s)
| wf_rune enc r s :
    2 <= length enc -> (forall t, utf8.DecodeRune (enc ++ t) = (r, length enc)) ->
    wellformed s -> wellformed (enc ++ s).

Lemma EncodeRune_wellformed r s : wellformed s -> wellformed (utf8.EncodeRune r ++ s).
Proof.
  intros Hs. unfold utf8.EncodeRune.
  destruct (N.leb_spec r 0x7F) as [H1|H1].
  { apply wf_ascii; [|exact Hs]. rewrite code_byte_of; lia. }
  destruct (N.leb_spec r 0x7FF) as [H2|H2].
  { apply (wf_rune [_; _] r); [simpl; lia| |exact Hs]. intros t. apply DecodeRune_2. lia. }
  destruct (N.ltb_spec 0x10FFFF r) as [H3|H3]; cbn [orb].
  { by apply (wf_rune [_; _; _] 0xFFFD%N); [simpl; lia| |exact Hs]. }
  destruct (N.leb_spec 0xD800 r) as [H4|H4], (N.leb_spec r 0xDFFF) as [H5|H5]; cbn [andb].
  1:{ by apply (wf_rune [_; _; _] 0xFFFD%N); [simpl; lia| |exact Hs]. }
  all: destruct (N.leb_spec r 0xFFFF) as [H6|H6];
    [ apply (wf_rune [_; _; _] r); [simpl; lia| |exact Hs]; intros t;
      apply DecodeRune_3; lia
    | apply (wf_rune [_; _; _; _] r); [simpl; lia| |exact Hs]; intros t;
      apply DecodeRune_4; lia ].
Qed.


End Utf8Facts.

(** ** Strings that are written again *)

Module StringFacts.

Import Json Wrapper Samples JsonFacts WrapperFacts EnvelopeFacts FramingFacts Utf8Facts.

(** *** Bytes passed over and bytes copied *)

Lemma quote_skip l s : quote_loop 0 (length l) (l ++ s) = quote_loop 0 0 s.
Proof.
  induction l as [|c l IH]; [done|]. cbn [length app]. by rewrite quote_loop_cons.
Qed.

Lemma quote_copy l s : quote_loop (length l) 0 (l ++ s) = l ++ quote_loop 0 0 s.
Proof.
  induction l as [|c l IH]; [done|]. cbn [length app]. rewrite quote_loop_cons.
  by rewrite IH.
Qed.

Lemma unquote_loop_skip k c s : unquote_loop (S k) (c :: s) = unquote_loop k s.
Proof. reflexivity. Qed.

Lemma unquote_skip l t : unquote_loop (length l) (l ++ t) = unquote_loop 0 t.
Proof.
  induction l as [|c l IH]; [done|]. cbn [length app]. by rewrite unquote_loop_skip.
Qed.

Lemma unquote_loop_cons c s' :
  unquote_loop 0 (c :: s')
  = if isb c backslash then
      match s' with
      | [] => None
      | e :: _ =>
          let simple (x : byte) := cons x <$> unquote_loop 1 s' in
          if isb e dquote || isb e backslash || isb e "/" || isb e "'" then simple e
          else if isb e "b" then simple "008"
          else if isb e "f" then simple "012"
          else if isb e "n" then simple "010"
          else if isb e "r" then simple "013"
          else if isb e "t" then simple "009"
          else if isb e "u" then
            match getu4 (c :: s') with
            | None => None
            | Some rr =>
                if IsSurrogate rr then
                  let dec := match getu4 (skipn 6 (c :: s')) with
                             | Some rr1 => utf16_DecodeRune rr rr1
                             | None => utf8.RuneError
                             end in
                  if negb (dec =? utf8.RuneError)%N
                  then app (utf8.EncodeRune dec) <$> unquote_loop 11 s'
                  else app (utf8.EncodeRune utf8.RuneError) <$> unquote_loop 5 s'
                else app (utf8.EncodeRune rr) <$> unquote_loop 5 s'
            end
          else None
      end
    else if isb c dquote || (code c <? 32)%N then None
    else if (code c <? utf8.RuneSelf)%N then cons c <$> unquote_loop 0 s'
    else
      let (rr, size) := utf8.DecodeRune (c :: s') in
      app (utf8.EncodeRune rr) <$> unquote_loop (size - 1) s'.
Proof. reflexivity. Qed.

Lemma unquote_loop_high c s' :
  (0x80 <= code c)%N ->
  unquote_loop 0 (c :: s')
  = let (rr, size) := utf8.DecodeRune (c :: s') in
    app (utf8.EncodeRune rr) <$> unquote_loop (size - 1) s'.
Proof.
  intros Hc. rewrite unquote_loop_cons.
  destruct (isb c backslash) eqn:E1.
  { apply Ascii.eqb_eq in E1. subst c. vm_compute in Hc. by destruct Hc. }
  destruct (isb c dquote) eqn:E2.
  { apply Ascii.eqb_eq in E2. subst c. vm_compute in Hc. by destruct Hc. }
  cbn [orb]. unfold utf8.RuneSelf.
  destruct (N.ltb_spec (code c) 32); [lia|].
  destruct (N.ltb_spec (code c) 128); [lia|]. reflexivity.
Qed.

(** *** One rune quoted and unquoted *)

Lemma round_ascii c s :
  (code c < 0x80)%N ->
  unquote_loop 0 (quote_loop 0 0 (c :: s))
  = cons c <$> unquote_loop 0 (quote_loop 0 0 s).
Proof.
  intros Hc.
  destruct c as [[] [] [] [] [] [] [] []];
    try (exfalso; vm_compute in Hc; discriminate Hc);
    simpl; destruct (unquote_loop 0 (quote_loop 0 0 s)); reflexivity.
Qed.

Lemma rune_lead c tl r :
  (forall t, utf8.DecodeRune ((c :: tl) ++ t) = (r, length (c :: tl))) ->
  1 <= length tl -> (0x80 <= code c)%N.
Proof.
  intros H Hl. specialize (H []). unfold utf8.DecodeRune in H. cbn [app] in H.
  unfold utf8.RuneSelf in H. cbv zeta in H. revert H.
  destruct (N.ltb_spec (code c) 128) as [Hlt|Hge]; [|intros _; exact Hge].
  intros H. inversion H. simpl in *. lia.
Qed.

Lemma round_rune enc r s :
  2 <= length enc -> (forall t, utf8.DecodeRune (enc ++ t) = (r, length enc)) ->
  unquote_loop 0 (quote_loop 0 0 (enc ++ s))
  = app enc <$> unquote_loop 0 (quote_loop 0 0 s).
Proof.
  intros Hlen H. destruct enc as [|c [|b1 tl]]; simpl in Hlen; try lia.
  assert (Hc : (0x80 <= code c)%N) by (apply (rune_lead c (b1 :: tl) r H); simpl; lia).
  assert (Henc : utf8.EncodeRune r = c :: b1 :: tl).
  { apply (EncodeRune_DecodeRune _ [] r); [simpl; lia|apply H]. }
  change ((c :: b1 :: tl) ++ s) with (c :: (b1 :: tl) ++ s).
  rewrite quote_loop_cons.
  unfold utf8.RuneSelf. rewrite (proj2 (N.ltb_ge _ _) Hc).
  change (c :: (b1 :: tl) ++ s) with ((c :: b1 :: tl) ++ s). rewrite (H s).
  cbn [length Nat.eqb]. rewrite andb_false_r.
  destruct ((r =? 0x2028)%N || (r =? 0x2029)%N) eqn:Hsep.
  - assert (Hr : r = 0x2028%N \/ r = 0x2029%N).
    { apply orb_prop in Hsep. destruct Hsep as [E|E]; apply N.eqb_eq in E; auto. }
    destruct Hr as [-> | ->]; vm_compute in Henc; inversion Henc; subst;
      simpl; destruct (unquote_loop 0 (quote_loop 0 0 s)); reflexivity.
  - cbn [Nat.sub]. rewrite ?Nat.sub_0_r.
    change (S (length tl)) with (length (b1 :: tl)). rewrite quote_copy.
    rewrite unquote_loop_high by exact Hc.
    change (c :: (b1 :: tl) ++ quote_loop 0 0 s)
      with ((c :: b1 :: tl) ++ quote_loop 0 0 s).
    rewrite (H (quote_loop 0 0 s)), Henc.
    cbn [length Nat.sub]. rewrite ?Nat.sub_0_r.
    change (S (length tl)) with (length (b1 :: tl)). by rewrite unquote_skip.
Qed.

(** *** Whole strings *)

Lemma unquote_quote_loop s :
  wellformed s -> unquote_loop 0 (quote_loop 0 0 s) = Some s.
Proof.
  induction 1 as [|c s Hc Hs IH|enc r s Hlen Hdec Hs IH]; [done| |].
  - by rewrite round_ascii, IH.
  - by rewrite (round_rune enc r), IH.
Qed.

(** The literal that [appendString] writes for a string of whole runes
    denotes this string. *)
Lemma unquote_quote s : wellformed s -> unquoteBytes (quote s) = Some s.
Proof.
  intros Hs. unfold quote, unquoteBytes. rewrite rev_app_distr. cbn [rev app].
  change (isb dquote dquote) with true. cbn [andb].
  rewrite rev_involutive. by apply unquote_quote_loop.
Qed.

(** What [unquoteBytes] returns is a string of whole runes. *)
Lemma unquote_loop_wellformed s skip out :
  unquote_loop skip s = Some out -> wellformed out.
Proof.
  revert skip out. induction s as [|c s IH]; intros skip out H.
  { simpl in H. inversion H. constructor. }
  destruct skip as [|k]; [|exact (IH _ _ H)].
  rewrite unquote_loop_cons in H.
  assert (Hcons : forall x k,
            (code x < 0x80)%N -> cons x <$> unquote_loop k s = Some out -> wellformed out).
  { intros x k Hx Hk. destruct (unquote_loop k s) as [o|] eqn:Ho; [|discriminate].
    inversion Hk; subst. apply wf_ascii; [exact Hx|]. by apply (IH k). }
  assert (Happ : forall rr k,
            app (utf8.EncodeRune rr) <$> unquote_loop k s = Some out -> wellformed out).
  { intros rr k Hk. destruct (unquote_loop k s) as [o|] eqn:Ho; [|discriminate].
    inversion Hk; subst. apply EncodeRune_wellformed. by apply (IH k). }
  destruct (isb c backslash).
  - destruct s as [|e s']; [discriminate|]. cbv zeta in H.
    destruct (isb e dquote || isb e backslash || isb e "/" || isb e "'") eqn:E.
    { apply (Hcons e 1); [|exact H].
      repeat (apply orb_prop in E; destruct E as [E|E]);
        apply Ascii.eqb_eq in E; subst e; reflexivity. }
    repeat match type of H with
           | (if isb e ?x then _ else _) = _ => destruct (isb e x)
           end;
      try (eapply Hcons; [|exact H]; reflexivity); try discriminate.
    destruct (getu4 _) as [rr|]; [|discriminate].
    destruct (IsSurrogate rr); [|by eapply Happ].
    destruct (negb _); by eapply Happ.
  - destruct (isb c dquote || (code c <? 32)%N); [discriminate|].
    destruct (N.ltb_spec (code c) utf8.RuneSelf) as [Hlt|Hge].
    + by apply (Hcons c 0).
    + destruct (utf8.DecodeRune (c :: s)) as [rr size]. by eapply Happ.
Qed.

Lemma unquoteBytes_wellformed raw s : unquoteBytes raw = Some s -> wellformed s.
Proof.
  unfold unquoteBytes. destruct raw as [|q t]; [discriminate|].
  destruct (rev t) as [|q' ri]; [discriminate|].
  destruct (isb q dquote && isb q' dquote); [|discriminate].
  apply unquote_loop_wellformed.
Qed.

Lemma decoded_round (raw s : bytes) :
  unquoteBytes raw = Some s -> unquoteBytes (quote s) = Some s.
Proof. intros H. apply unquote_quote. by apply (unquoteBytes_wellformed raw). Qed.

(** X24: a string that has been decoded from a JSON string literal is
    written by the encoder as a literal that denotes the same string,
    whatever escapes and whatever bytes the first literal held: the strings
    that the wrapper decodes (jsonrpc, method, a string id) lose nothing
    when they are encoded again. *)
Theorem decoded_string_round_trip (raw s : bytes) :
  unquoteBytes raw = Some s -> unquoteBytes (quote s) = Some s.
Proof. apply decoded_round. Qed.

(** The string of a literal with escapes: [tools/call], a rune of two
    bytes, a newline, a rune of four bytes written as a surrogate pair, and
    [<b>], which the encoder escapes. *)
Definition sample_string : bytes :=
  b "tools/call " ++ ["195"; "169"; "010"; "240"; "159"; "152"; "128"] ++ b " <b>".

Lemma decoded_string_round_trip_witness :
  unquoteBytes (quote sample_string) = Some sample_string.
Proof.
  apply (decoded_string_round_trip
           (js "'tools\/call \u00e9\n\ud83d\ude00 <b>'") sample_string).
  vm_compute. reflexivity.
Defined.

(** *** The string members of a request *)

Lemma store_string_literal field raw old m :
  unquoteBytes raw = Some m -> store_string field raw old = (m, None).
Proof.
  intros Hu. unfold store_string. destruct raw as [|c raw]; [discriminate|].
  assert (Hq : isb c dquote = true).
  { unfold unquoteBytes in Hu. destruct (rev raw); [discriminate|].
    destruct (isb c dquote); [done|discriminate]. }
  by rewrite Hq, Hu.
Qed.

Section string_field.

Variables (name : string) (get : MCPRequest -> bytes).

Hypothesis get_other : forall acc m,
  selects request_fields name (fst m) = false ->
  get (fst (assign_request acc m)) = get (fst acc).

Hypothesis get_this : forall acc klit raw s,
  selects request_fields name klit = true -> unquoteBytes raw = Some s ->
  get (fst (assign_request acc (klit, raw))) = s.

Lemma assign_request_not_received ms acc :
  received request_fields name ms = None ->
  get (fst (fold_left assign_request ms acc)) = get (fst acc).
Proof.
  revert acc. induction ms as [|m ms IH]; intros acc; [done|].
  rewrite received_cons, fold_left_cons.
  destruct (received request_fields name ms); [discriminate|].
  destruct (selects request_fields name (fst m)) eqn:Hs; [discriminate|]. intros _.
  by rewrite IH, get_other.
Qed.

Lemma assign_request_string ms acc raw s :
  received request_fields name ms = Some raw -> unquoteBytes raw = Some s ->
  get (fst (fold_left assign_request ms acc)) = s.
Proof.
  revert acc. induction ms as [|[klit r0] ms IH]; intros acc; [discriminate|].
  rewrite received_cons, fold_left_cons.
  destruct (received request_fields name ms) as [r1|] eqn:Hr.
  - intros [= ->] Hu. by apply IH.
  - simpl fst. simpl snd.
    destruct (selects request_fields name klit) eqn:Hs; [|discriminate].
    intros [= ->] Hu. rewrite assign_request_not_received by exact Hr.
    by apply get_this.
Qed.

End string_field.

Lemma selects_name names name klit n :
  find_field names (default [] (unquoteBytes klit)) = Some n ->
  selects names name klit = String.eqb n name.
Proof. unfold selects. by intros ->. Qed.

Lemma assign_request_Method ms acc raw s :
  received request_fields "method" ms = Some raw -> unquoteBytes raw = Some s ->
  Method (fst (fold_left assign_request ms acc)) = s.
Proof.
  apply assign_request_string.
  - intros [req sv] [klit r0]. simpl fst. unfold assign_request.
    destruct (find_field request_fields (default [] (unquoteBytes klit))) as [n|] eqn:Hf;
      [|done].
    rewrite (selects_name _ _ _ _ Hf). apply find_field_in in Hf. simpl in Hf.
    destruct Hf as [<-|[<-|[<-|[<-|[]]]]]; try discriminate; intros _;
      try (match goal with
           | |- context [store_string ?a ?b ?c] => destruct (store_string a b c)
           | |- context [decode_any ?a] => destruct (decode_any a)
           end); reflexivity.
  - intros [req sv] klit r0 s0 Hs Hu. unfold assign_request.
    rewrite (selects_find _ _ _ Hs). by rewrite (store_string_literal _ _ _ _ Hu).
Qed.

Lemma assign_request_JSONRPC ms acc raw s :
  received request_fields "jsonrpc" ms = Some raw -> unquoteBytes raw = Some s ->
  JSONRPC (fst (fold_left assign_request ms acc)) = s.
Proof.
  apply assign_request_string.
  - intros [req sv] [klit r0]. simpl fst. unfold assign_request.
    destruct (find_field request_fields (default [] (unquoteBytes klit))) as [n|] eqn:Hf;
      [|done].
    rewrite (selects_name _ _ _ _ Hf). apply find_field_in in Hf. simpl in Hf.
    destruct Hf as [<-|[<-|[<-|[<-|[]]]]]; try discriminate; intros _;
      try (match goal with
           | |- context [store_string ?a ?b ?c] => destruct (store_string a b c)
           | |- context [decode_any ?a] => destruct (decode_any a)
           end); reflexivity.
  - intros [req sv] klit r0 s0 Hs Hu. unfold assign_request.
    rewrite (selects_find _ _ _ Hs). by rewrite (store_string_literal _ _ _ _ Hu).
Qed.

(** X25: the jsonrpc and method strings of the body reach the child: when
    the body is an object, the line written to the child is the object of
    the members of the decoded request, whose jsonrpc and method are string
    literals that denote the strings of the last such members of the body,
    escapes resolved. *)
Theorem strings_reach_the_child env r w evs t s d data :
  readValue (http_Body r) = Ok data -> opens_object data = true ->
  trace (snd (handleMCP env r w)) = trace w ++ evs ->
  In (t, EvWrite s d) evs ->
  exists req params,
    d = encode_struct (request_members req params) ++ ["010"] /\
    (forall raw m,
       received request_fields "jsonrpc" (members data) = Some raw ->
       unquoteBytes raw = Some m ->
       JSONRPC req = m /\ unquoteBytes (quote m) = Some m) /\
    (forall raw m,
       received request_fields "method" (members data) = Some raw ->
       unquoteBytes raw = Some m ->
       Method req = m /\ unquoteBytes (quote m) = Some m).
Proof.
  intros Hr Ho Ht Hin.
  destruct (handleMCP_written env r w) as (evs' & Ht' & Hw).
  rewrite Ht in Ht'. apply app_inv_head in Ht'. subst evs'.
  destruct (Hw _ _ _ Hin) as (req & line & Hd & HM & ->).
  destruct (Marshal_members _ _ HM) as (params & _ & -> & _).
  exists req, params. split; [done|].
  unfold Decode in Hd. rewrite Hr in Hd. simpl in Hd.
  pose proof (unmarshal_fst _ _ _ _ Ho Hd) as Hreq.
  split; intros raw m Hrec Hu; (split; [|by apply (decoded_round raw)]).
  - rewrite Hreq. by apply (assign_request_JSONRPC _ _ raw).
  - rewrite Hreq. by apply (assign_request_Method _ _ raw).
Qed.

(** A body whose method is written with escapes. *)
Definition body_escaped : bytes :=
  js "{'jsonrpc':'2.0','method':'tools\/c\u0061ll'}".

Lemma strings_reach_the_child_witness :
  exists req params,
    js "{'jsonrpc':'2.0','method':'tools/call'}" ++ ["010"]
    = encode_struct (request_members req params) ++ ["010"] /\
    (forall raw m,
       received request_fields "jsonrpc" (members body_escaped) = Some raw ->
       unquoteBytes raw = Some m ->
       JSONRPC req = m /\ unquoteBytes (quote m) = Some m) /\
    (forall raw m,
       received request_fields "method" (members body_escaped) = Some raw ->
       unquoteBytes raw = Some m ->
       Method req = m /\ unquoteBytes (quote m) = Some m).
Proof.
  apply (strings_reach_the_child env_ok (post "k" body_escaped) empty_world
           [(0%Z, EvSpawn 0); (0%Z, EvStore "k" 0);
            (0%Z, EvWrite 0 (js "{'jsonrpc':'2.0','method':'tools/call'}" ++ ["010"]));
            (0%Z, EvRead 0 (js "{'jsonrpc':'2.0','id':'a','result':{}}" ++ ["010"]))]
           0%Z 0%nat).
  - vm_compute. reflexivity.
  - vm_compute. reflexivity.
  - vm_compute. reflexivity.
  - right. right. left. reflexivity.
Defined.

End StringFacts.
